(** * PHANTOM block-DAG engines: a shallow embedding and its verification

    The development follows the Python sources of the repository:

      - [lazy_set/lazy_set.py]                      ([Module LazySet])
      - [phantom/blockchain/blockchain.py]          ([Module Blockchain])
      - [phantom/phantom/phantom.py]                ([Module PHANTOM], the brute-force engine)
      - [phantom/phantom/greedy_phantom.py]         ([Module GreedyPHANTOM])
      - [phantom/phantom/competing_chain_greedy_phantom.py]
                                                    ([Module CompetingChain])

    Conventions of the embedding.

    - Global ids are Python integers: [Z].  Python [set]s are [gset Z], Python
      [dict]s are [gmap]s; wherever the source iterates over a [set] the model
      iterates over [elements], and wherever the source sorts first
      ([sorted(...)]) the model sorts too, so that every tie-break of the
      source is reproduced.
    - Python objects that are mutated while shared (the sets a [LazySet]
      layers, the order dictionaries a [ChainMap] chains) live in an explicit
      store and are named by their address.
    - A Python call either returns, raises, or does not terminate; the model
      returns [Ok v], [Raise e], or [OutOfFuel] when the fuel given to a loop
      was not enough to see it end. *)

From stdpp Require Import gmap list sorting.
From Stdlib Require Import ZArith Lia.
Open Scope Z_scope.

(** ** Outcomes of a Python call *)

Inductive exn : Type :=
  | KeyError | IndexError | AttributeError | TypeError | NetworkXError.

Inductive result (A : Type) : Type :=
  | Ok (a : A)
  | Raise (e : exn)
  | OutOfFuel.
Arguments Ok {A} a.
Arguments Raise {A} e.
Arguments OutOfFuel {A}.

#[global] Instance result_ret : MRet result := fun A a => Ok a.
#[global] Instance result_bind : MBind result := fun A B f m =>
  match m with
  | Ok a => f a
  | Raise e => Raise e
  | OutOfFuel => OutOfFuel
  end.

(** [d[key]] on a dictionary: [KeyError] when the key is missing. *)
Definition getitem `{Countable K} {V} (d : gmap K V) (key : K) : result V :=
  match d !! key with
  | Some v => Ok v
  | None => Raise KeyError
  end.

Definition is_ok {A} (r : result A) : bool :=
  match r with Ok _ => true | _ => false end.

(** [sorted(ids)] on integers. *)
Definition sorted (ids : list Z) : list Z := merge_sort Z.le ids.

(** [sorted(ids, reverse=True)]. *)
Definition sorted_reverse (ids : list Z) : list Z := merge_sort Z.ge ids.

(** [max(l, key=key)]: the first element whose key is not exceeded later;
    [min(l, key=key)] dually.  Both keep the earliest of equal candidates,
    as CPython does (the running best is replaced on a strict improvement
    only). *)
Fixpoint py_extreme_from (better : Z -> Z -> bool) (best : Z) (best_key : Z)
    (l : list (Z * Z)) : Z :=
  match l with
  | [] => best
  | (x, kx) :: rest =>
      if better kx best_key then py_extreme_from better x kx rest
      else py_extreme_from better best best_key rest
  end.

Definition py_extreme (better : Z -> Z -> bool) (l : list (Z * Z)) : option Z :=
  match l with
  | [] => None
  | (x, kx) :: rest => Some (py_extreme_from better x kx rest)
  end.

Definition py_max (l : list (Z * Z)) : option Z := py_extreme Z.gtb l.
Definition py_min (l : list (Z * Z)) : option Z := py_extreme Z.ltb l.

(** Evaluate [key] on every element, in order; the first failure aborts. *)
Fixpoint with_keys (key : Z -> result Z) (l : list Z) : result (list (Z * Z)) :=
  match l with
  | [] => Ok []
  | x :: rest =>
      kx ← key x;
      krest ← with_keys key rest;
      Ok ((x, kx) :: krest)
  end.

(** ** lazy_set.py *)

Module LazySet.
Section Elements.
Context `{Countable A}.

(** The Python sets that a [LazySet] layers are shared with its caller, and
  [flatten_to_set(modify=True)] updates one of them in place: set objects
  live in a store and the [LazySet] holds their addresses. *)
Abbreviation store := (list (gset A)).

Definition fetch (h : store) (r : nat) : gset A := default ∅ (h !! r).

Definition alloc (h : store) (v : gset A) : store * nat := (h ++ [v], length h).

(** [self._sets], [self._positive_indices]. *)
Record t : Type := Build {
_sets : list nat;
_positive_indices : gset nat
}.

Definition empty : t := Build [] ∅.

(** Truth value of a set in [if other:]. *)
Definition truthy (X : gset A) : bool := negb (bool_decide (X = ∅)).

Definition lazy_update (h : store) (L : t) (other : nat) : t :=
if truthy (fetch h other)
then Build (_sets L ++ [other]) ({[ length (_sets L) ]} ∪ _positive_indices L)
else L.

Definition lazy_difference_update (h : store) (L : t) (other : nat) : t :=
if truthy (fetch h other)
then Build (_sets L ++ [other]) (_positive_indices L)
else L.

(** [LazySet(base_set, negative_sets, positive_sets)]. *)
Definition init (h : store) (base_set : nat) (negative_sets positive_sets : list nat) : t :=
fold_left (lazy_update h) positive_sets
  (fold_left (lazy_difference_update h) negative_sets
     (lazy_update h empty base_set)).

Definition clear (L : t) : t := empty.

(** [copy]: a new list of the same set objects. *)
Definition copy (L : t) : t := Build (_sets L) (_positive_indices L).

(** [__contains__]: [rsets] is [reversed(self._sets)] from position [index]. *)
Fixpoint contains_from (h : store) (pos : gset nat) (number_of_sets index : nat)
  (rsets : list nat) (item : A) : bool :=
match rsets with
| [] => false
| cur_set :: rest =>
    if bool_decide (item ∈ fetch h cur_set)
    then bool_decide ((number_of_sets - index - 1)%nat ∈ pos)
    else contains_from h pos number_of_sets (S index) rest item
end.

Definition contains (h : store) (L : t) (item : A) : bool :=
contains_from h (_positive_indices L) (length (_sets L)) 0 (rev (_sets L)) item.

(** The inner loop of [__iter__]: yield the items not yet in
  [do_not_yield], recording them. *)
Fixpoint yield_new (items : list A) (do_not_yield : gset A) : list A * gset A :=
match items with
| [] => ([], do_not_yield)
| item :: rest =>
    if bool_decide (item ∈ do_not_yield)
    then yield_new rest do_not_yield
    else let '(ys, dny) := yield_new rest ({[ item ]} ∪ do_not_yield) in
         (item :: ys, dny)
end.

(** [__iter__]: the items yielded, in order. *)
Fixpoint iter_from (h : store) (pos : gset nat) (number_of_sets index : nat)
  (rsets : list nat) (do_not_yield : gset A) : list A :=
match rsets with
| [] => []
| cur_set :: rest =>
    if bool_decide ((number_of_sets - index - 1)%nat ∈ pos)
    then let '(ys, dny) := yield_new (elements (fetch h cur_set)) do_not_yield in
         ys ++ iter_from h pos number_of_sets (S index) rest dny
    else iter_from h pos number_of_sets (S index) rest (do_not_yield ∪ fetch h cur_set)
end.

Definition iter (h : store) (L : t) : list A :=
iter_from h (_positive_indices L) (length (_sets L)) 0 (rev (_sets L)) ∅.

(** [__len__] counts the iteration. *)
Definition len (h : store) (L : t) : nat := length (iter h L).

(** The first loop of [flatten_to_set]: the least index of a positive
  layer, scanning [self._sets] from [index]. *)
Fixpoint base_set_index_from (pos : gset nat) (index : nat) (sets : list nat) : option nat :=
match sets with
| [] => None
| _ :: rest =>
    if bool_decide (index ∈ pos) then Some index
    else base_set_index_from pos (S index) rest
end.

(** The [while] loop of [flatten_to_set]: [base_set |= ...] and
  [base_set -= ...] update the object at address [base_set]; the operand
  is read from the store as it is at that moment. *)
Fixpoint flatten_loop (pos : gset nat) (base_set : nat) (index : nat)
  (sets : list nat) (h : store) : store :=
match sets with
| [] => h
| cur_set :: rest =>
    let h' :=
      if bool_decide (index ∈ pos)
      then <[ base_set := fetch h base_set ∪ fetch h cur_set ]> h
      else <[ base_set := fetch h base_set ∖ fetch h cur_set ]> h in
    flatten_loop pos base_set (S index) rest h'
end.

(** [flatten_to_set(modify)]: the new store, the new LazySet and the
  address of the set returned. *)
Definition flatten_to_set (modify : bool) (h : store) (L : t) : store * t * nat :=
match base_set_index_from (_positive_indices L) 0 (_sets L) with
| None =>
    let '(h', fresh) := alloc h ∅ in (h', L, fresh)
| Some base_set_index =>
    let first := default 0%nat (_sets L !! base_set_index) in
    let '(h1, base_set) :=
      if modify then (h, first) else alloc h (fetch h first) in
    let h2 := flatten_loop (_positive_indices L) base_set (S base_set_index)
                (drop (S base_set_index) (_sets L)) h1 in
    (h2, lazy_update h2 (clear L) base_set, base_set)
end.

Definition flatten (modify : bool) (h : store) (L : t) : store * t :=
let '(h', L', _) := flatten_to_set modify h L in (h', L').

(** [copy_to_set]. *)
Definition copy_to_set (h : store) (L : t) : store * nat :=
let '(h', _, r) := flatten_to_set false h (copy L) in (h', r).

(** A negative layer: a position of [_sets] outside [_positive_indices]. *)
Definition negative_layers (L : t) : list nat :=
filter (λ i, i ∉ _positive_indices L) (seq 0 (length (_sets L))).

Definition positive_layers (L : t) : list nat :=
filter (λ i, i ∈ _positive_indices L) (seq 0 (length (_sets L))).

(** The shape claimed of a flattened LazySet: one layer, positive. *)
Definition exactly_one_positive_layer (L : t) : Prop :=
length (positive_layers L) = 1%nat ∧ negative_layers L = [].

(** The calls that build a LazySet. *)
Inductive call : Type :=
| LazyUpdate (other : nat)
| LazyDifferenceUpdate (other : nat).

Definition run_call (h : store) (L : t) (c : call) : t :=
match c with
| LazyUpdate other => lazy_update h L other
| LazyDifferenceUpdate other => lazy_difference_update h L other
end.

Definition build (h : store) (calls : list call) : t :=
fold_left (run_call h) calls empty.

(** The reference evaluation on built-in sets: the same calls as
  [set.update] and [set.difference_update], in order, from the empty
  set. *)
Definition reference_step (h : store) (acc : gset A) (c : call) : gset A :=
match c with
| LazyUpdate other => acc ∪ fetch h other
| LazyDifferenceUpdate other => acc ∖ fetch h other
end.

Definition reference (h : store) (calls : list call) : gset A :=
fold_left (reference_step h) calls ∅.

(** The set a LazySet stands for: its layers applied in list order. *)
Fixpoint denote_from (h : store) (pos : gset nat) (index : nat) (sets : list nat)
  (acc : gset A) : gset A :=
match sets with
| [] => acc
| cur_set :: rest =>
    denote_from h pos (S index) rest
      (if bool_decide (index ∈ pos) then acc ∪ fetch h cur_set
       else acc ∖ fetch h cur_set)
end.

Definition denote (h : store) (L : t) : gset A :=
denote_from h (_positive_indices L) 0 (_sets L) ∅.

End Elements.
End LazySet.

(** ** dag/block.py *)

(** A block: [hash(block)] is its global id; size and payload play no part
    in the engines. *)
Record Block : Type := mkBlock {
  global_id : Z;
  get_parents : gset Z
}.

(** ** The part of [networkx.DiGraph] the engines use

    Nodes are kept in insertion order (the order of [G.nodes()]); every node
    has its successors (the targets of its edges) and its predecessors, in
    insertion order as well.  An edge goes from a block to a parent. *)

Module DiGraph.

Record t : Type := mk {
  nodes : list Z;
  succ : gmap Z (list Z);
  pred : gmap Z (list Z)
}.

Definition empty : t := mk [] ∅ ∅.

(** [n in G]. *)
Definition has_node (g : t) (n : Z) : bool := bool_decide (n ∈ nodes g).

Definition add_node (g : t) (n : Z) : t :=
  if has_node g n then g
  else mk (nodes g ++ [n]) (<[ n := [] ]> (succ g)) (<[ n := [] ]> (pred g)).

Definition adjoin (v : Z) (l : list Z) : list Z :=
  if bool_decide (v ∈ l) then l else l ++ [v].

(** [G.add_edge(u, v)] adds the end points that are missing. *)
Definition add_edge (g : t) (u v : Z) : t :=
  let g1 := add_node (add_node g u) v in
  mk (nodes g1) (alter (adjoin v) u (succ g1)) (alter (adjoin u) v (pred g1)).

Definition successors (g : t) (n : Z) : result (list Z) :=
  match succ g !! n with
  | Some l => Ok l
  | None => Raise NetworkXError
  end.

Definition predecessors (g : t) (n : Z) : result (list Z) :=
  match pred g !! n with
  | Some l => Ok l
  | None => Raise NetworkXError
  end.

(** The nodes met by a search along [adj] from the nodes of [todo]. *)
Fixpoint reach (adj : gmap Z (list Z)) (fuel : nat) (todo : list Z) (seen : gset Z)
    : gset Z :=
  match fuel with
  | O => seen
  | S fuel' =>
      match todo with
      | [] => seen
      | x :: rest =>
          if bool_decide (x ∈ seen) then reach adj fuel' rest seen
          else reach adj fuel' (default [] (adj !! x) ++ rest) ({[ x ]} ∪ seen)
      end
  end.

(** Every step of the search either drops an entry of [todo] or visits a
    new node and pushes its edges: a search that visits each node once ends
    within (number of nodes + number of edges + length of [todo]) steps. *)
Definition search_fuel (g : t) : nat :=
  S (length (nodes g) + length (nodes g) * length (nodes g) + length (nodes g)).

(** [nx.descendants(G, source)]: the nodes reachable from [source], without
    [source] itself. *)
Definition descendants (g : t) (source : Z) : gset Z :=
  reach (succ g) (search_fuel g) (default [] (succ g !! source)) ∅ ∖ {[ source ]}.

(** [nx.ancestors(G, source)]: the nodes from which [source] is reachable. *)
Definition ancestors (g : t) (source : Z) : gset Z :=
  reach (pred g) (search_fuel g) (default [] (pred g !! source)) ∅ ∖ {[ source ]}.

End DiGraph.

(** The three answers of [is_a_before_b]: [None], [True], [False]. *)
Definition tri : Type := option bool.

(** Depths are Python numbers: an integer or [-float('inf')]. *)
Inductive depth : Type :=
  | NegInf
  | Depth (d : Z).

(** ** blockchain/blockchain.py *)

Module Blockchain.

Record t : Type := mk {
  _G : DiGraph.t;
  chain_length : gmap Z Z;          (* G.node[gid]["chain_length"] *)
  block_data : gmap Z Block;        (* G.node[gid]["block_data"] *)
  _leaves : gset Z;
  _longest_chain_tip_gid : option Z;
  _longest_chain : gset Z
}.

Definition init : t := mk DiGraph.empty ∅ ∅ ∅ None ∅.

(** [__contains__]. *)
Definition contains (s : t) (gid : Z) : bool := DiGraph.has_node (_G s) gid.

Definition get_virtual_block_parents (s : t) : gset Z :=
  match _longest_chain_tip_gid s with
  | None => ∅
  | Some tip => {[ tip ]}
  end.

(** [_get_longest_chain_tip]: [max(sorted(global_ids), key=chain_length)]. *)
Definition _get_longest_chain_tip (s : t) (global_ids : list Z) : result (option Z) :=
  match global_ids with
  | [] => Ok None
  | _ => keyed ← with_keys (getitem (chain_length s)) (sorted global_ids);
         Ok (py_max keyed)
  end.

(** The loop over [_chain_generator(global_id)] that collects [to_add]:
    [counter] bounds the walk, as in the source. *)
Fixpoint collect_new_chain (s : t) (fuel : nat) (gid : option Z) (counter : Z)
    (to_add : gset Z) : result (option Z * gset Z) :=
  match fuel with
  | O => OutOfFuel
  | S fuel' =>
      if counter <? 0 then Ok (None, to_add)
      else match gid with
           | None => Raise NetworkXError   (* [successors(None)] at the next step *)
           | Some g =>
               if bool_decide (g ∈ _longest_chain s) then Ok (Some g, to_add)
               else
                 successors ← DiGraph.successors (_G s) g;
                 next ← _get_longest_chain_tip s successors;
                 collect_new_chain s fuel' next (counter - 1) ({[ g ]} ∪ to_add)
           end
  end.

(** The loop over [_chain_generator(previous_tip_gid)] that removes the
    abandoned blocks from [chain]. *)
Fixpoint drop_old_chain (s : t) (fuel : nat) (gid : option Z) (counter : Z)
    (chain_intersection_gid : option Z) (chain : gset Z) : result (gset Z) :=
  match fuel with
  | O => OutOfFuel
  | S fuel' =>
      if counter <? 0 then Ok chain
      else if bool_decide (gid = chain_intersection_gid) then Ok chain
      else match gid with
           | None => Raise KeyError        (* [set.remove(None)] *)
           | Some g =>
               if bool_decide (g ∈ chain) then
                 successors ← DiGraph.successors (_G s) g;
                 next ← _get_longest_chain_tip s successors;
                 drop_old_chain s fuel' next (counter - 1) chain_intersection_gid
                   (chain ∖ {[ g ]})
               else Raise KeyError
           end
  end.

(** The counter a chain generator starts from, and the number of blocks it
    can yield. *)
Definition chain_counter (s : t) (tip_gid : option Z) : result Z :=
  match tip_gid with
  | None => Ok (-1)
  | Some g => len ← getitem (chain_length s) g; Ok (len - 1)
  end.

Definition _update_longest_chain_incrementally (s : t) (gid : Z) (parent : option Z)
    : result t :=
  len ← getitem (chain_length s) gid;
  is_new_tip ←
    match _longest_chain_tip_gid s with
    | None => Ok true
    | Some tip =>
        tip_len ← getitem (chain_length s) tip;
        Ok ((len >? tip_len) || ((len =? tip_len) && (gid <? tip)))
    end;
  if is_new_tip : bool then
    let previous_tip_gid := _longest_chain_tip_gid s in
    if bool_decide (parent = previous_tip_gid) then
      Ok (mk (_G s) (chain_length s) (block_data s) (_leaves s) (Some gid)
             ({[ gid ]} ∪ _longest_chain s))
    else
      '(chain_intersection_gid, to_add) ←
        collect_new_chain s (Z.to_nat len + 1) (Some gid) (len - 1) ∅;
      old_counter ← chain_counter s previous_tip_gid;
      chain ← drop_old_chain s (Z.to_nat (old_counter + 1) + 1) previous_tip_gid
                 old_counter chain_intersection_gid (_longest_chain s);
      Ok (mk (_G s) (chain_length s) (block_data s) (_leaves s) (Some gid)
             (chain ∪ to_add))
  else Ok s.

Definition add (s : t) (block : Block) : result t :=
  let copy_gid := global_id block in
  parent ← _get_longest_chain_tip s (elements (get_parents block));
  parent_length ←
    match parent with
    | None => Ok 0
    | Some p => getitem (chain_length s) p
    end;
  let len := 1 + parent_length in
  let g1 := DiGraph.add_node (_G s) copy_gid in
  let g2 := match parent with
            | None => g1
            | Some p => DiGraph.add_edge g1 copy_gid p
            end in
  let leaves1 := match parent with
                 | None => _leaves s
                 | Some p => _leaves s ∖ {[ p ]}
                 end in
  _update_longest_chain_incrementally
    (mk g2 (<[ copy_gid := len ]> (chain_length s))
           (<[ copy_gid := block ]> (block_data s))
           ({[ copy_gid ]} ∪ leaves1)
           (_longest_chain_tip_gid s) (_longest_chain s))
    copy_gid parent.

Definition get_depth (s : t) (gid : Z) : result depth :=
  if negb (contains s gid) then Ok NegInf
  else if negb (bool_decide (gid ∈ _longest_chain s)) then Ok (Depth 0)
  else
    tip ← match _longest_chain_tip_gid s with
          | Some tip => Ok tip
          | None => Raise KeyError
          end;
    tip_len ← getitem (chain_length s) tip;
    len ← getitem (chain_length s) gid;
    Ok (Depth (tip_len - len)).

Definition is_a_before_b (s : t) (a b : Z) : result tri :=
  let a_in := bool_decide (a ∈ _longest_chain s) in
  let b_in := bool_decide (b ∈ _longest_chain s) in
  if negb a_in && negb b_in then Ok None
  else if negb a_in && b_in then Ok (Some false)
  else if a_in && negb b_in then Ok (Some true)
  else
    la ← getitem (chain_length s) a;
    lb ← getitem (chain_length s) b;
    Ok (Some (la <=? lb)).

(** The states reached from the empty chain by calls of [add] that
    return. *)
Inductive reachable : t → Prop :=
  | reachable_init : reachable init
  | reachable_add s block s' :
      reachable s → add s block = Ok s' → reachable s'.

End Blockchain.

(** ** phantom/phantom.py: the brute-force engine *)

(** Local ids are Python numbers: an integer, or [float('inf')] for a block
    the greedy engine has not ordered. *)
Inductive local_id : Type :=
  | Lid (n : Z)
  | LidInf.

(** [x <= y] on local ids. *)
Definition lid_le (x y : local_id) : bool :=
  match x, y with
  | Lid n, Lid m => n <=? m
  | Lid _, LidInf => true
  | LidInf, Lid _ => false
  | LidInf, LidInf => true
  end.

(** What [PHANTOM.is_a_before_b] asks of [self]: membership, and the local
    id of a block of the DAG.  The brute-force engine reads the local id off
    the graph; the greedy engine overrides [_get_local_id] and may have to
    colour and order its antipast first, which changes its state. *)
Class PhantomDAG (St : Type) : Type := {
  dag_contains : St → Z → bool;
  dag_get_local_id : St → Z → result (local_id * St)
}.

(** [PHANTOM.is_a_before_b], as inherited by every PHANTOM engine. *)
Definition phantom_is_a_before_b `{PhantomDAG St} (s : St) (a b : Z) : result (tri * St) :=
  let has_a := dag_contains s a in
  let has_b := dag_contains s b in
  if negb has_a && negb has_b then Ok (None, s)
  else if has_a && negb has_b then Ok (Some true, s)
  else if negb has_a && has_b then Ok (Some false, s)
  else
    '(la, s1) ← dag_get_local_id s a;
    '(lb, s2) ← dag_get_local_id s1 b;
    Ok (Some (lid_le la lb), s2).

(** The first lines of [PHANTOM.add], common to all PHANTOM engines: the
    node, an edge to every declared parent (which creates the parents that
    are missing), and the leaves. *)
Definition add_block_to_graph (g : DiGraph.t) (block : Block) : DiGraph.t :=
  fold_left (λ g parent, DiGraph.add_edge g (global_id block) parent)
    (elements (get_parents block))
    (DiGraph.add_node g (global_id block)).

Definition update_leaves (leaves : gset Z) (block : Block) : gset Z :=
  {[ global_id block ]} ∪ (leaves ∖ get_parents block).

(** [itertools.combinations(s, r)], in its order. *)
Fixpoint combinations (s : list Z) (r : nat) : list (list Z) :=
  match r with
  | O => [[]]
  | S r' =>
      match s with
      | [] => []
      | x :: rest => ((x ::.) <$> combinations rest r') ++ combinations rest r
      end
  end.

(** [powerset(iterable)]: all combinations, by increasing size. *)
Definition powerset (s : list Z) : list (list Z) :=
  concat ((combinations s) <$> seq 0 (S (length s))).

Module PHANTOM.

Record t : Type := mk {
  _G : DiGraph.t;
  block_data : gmap Z Block;          (* G.node[gid]["block_data"] *)
  lid : gmap Z Z;                     (* G.node[gid]["lid"] *)
  blue_anticone : gmap Z (gset Z);    (* G.node[gid]["blue_anticone"] *)
  _leaves : gset Z;
  _coloring : gset Z;
  _genesis_gid : option Z;
  _k : Z
}.

Definition calculate_k : Z := 4.

Definition init (k : Z) : t := mk DiGraph.empty ∅ ∅ ∅ ∅ ∅ None k.

Definition contains (s : t) (gid : Z) : bool := DiGraph.has_node (_G s) gid.

Definition len (s : t) : nat := length (DiGraph.nodes (_G s)).

Definition getitem_block (s : t) (gid : Z) : result Block := getitem (block_data s) gid.

Definition __get_past (g : DiGraph.t) (gid : Z) : gset Z := DiGraph.descendants g gid.

Definition __get_future (g : DiGraph.t) (gid : Z) : gset Z := DiGraph.ancestors g gid.

Definition __get_anticone (g : DiGraph.t) (gid : Z) : gset Z :=
  let block_cone := {[ gid ]} ∪ __get_past g gid ∪ __get_future g gid in
  list_to_set (DiGraph.nodes g) ∖ block_cone.

Definition get_virtual_block_parents (s : t) : gset Z := _leaves s.

(** [compute_blue_anticones]: [None] as soon as a blue block has more than
    [k] blue blocks in its anticone. *)
Fixpoint compute_blue_anticones (k : Z) (anticone_dict : list (Z * gset Z))
    (coloring : gset Z) (blue_bacs : gmap Z (gset Z)) : option (gmap Z (gset Z)) :=
  match anticone_dict with
  | [] => Some blue_bacs
  | (cur_block, anticone) :: rest =>
      let bac := anticone ∩ coloring in
      if bool_decide (cur_block ∈ coloring) && (Z.of_nat (size bac) >? k) then None
      else compute_blue_anticones k rest coloring (<[ cur_block := bac ]> blue_bacs)
  end.

(** The search for the largest valid colouring: a later candidate replaces
    the running maximum only if it is valid and strictly larger. *)
Fixpoint find_max_coloring (k : Z) (anticones : list (Z * gset Z))
    (candidates : list (list Z))
    (max_coloring : gset Z) (max_coloring_bac : gmap Z (gset Z))
    : gset Z * gmap Z (gset Z) :=
  match candidates with
  | [] => (max_coloring, max_coloring_bac)
  | cur :: rest =>
      let cur_coloring : gset Z := list_to_set cur in
      match compute_blue_anticones k anticones cur_coloring ∅ with
      | Some cur_coloring_bac =>
          if (size max_coloring <? size cur_coloring)%nat
          then find_max_coloring k anticones rest cur_coloring cur_coloring_bac
          else find_max_coloring k anticones rest max_coloring max_coloring_bac
      | None => find_max_coloring k anticones rest max_coloring max_coloring_bac
      end
  end.

Definition anticones_of (g : DiGraph.t) : list (Z * gset Z) :=
  (λ block, (block, __get_anticone g block)) <$> DiGraph.nodes g.

Definition _update_coloring_incrementally (s : t) (gid : Z) : t :=
  let anticones := anticones_of (_G s) in
  let '(max_coloring, max_coloring_bac) :=
    find_max_coloring (_k s) anticones (powerset (DiGraph.nodes (_G s))) ∅ ∅ in
  mk (_G s) (block_data s) (lid s)
     (max_coloring_bac ∪ blue_anticone s)  (* the new entries replace the old *)
     (_leaves s) max_coloring (_genesis_gid s) (_k s).

(** The [for leaf in ...] loop of [get_topological_order]; [recurse] is
    the recursive call, [ordered] the orderer's [_ordered] set, shared by
    all the calls. *)
Fixpoint each_leaf (g : DiGraph.t)
    (recurse : gset Z → gset Z → result (list Z * gset Z))
    (todo : list Z) (ordered : gset Z) (cur_order : list Z)
    : result (list Z * gset Z) :=
  match todo with
  | [] => Ok (cur_order, ordered)
  | leaf :: rest =>
      successors ← DiGraph.successors g leaf;
      '(cur_leaf_order, ordered') ←
        recurse (list_to_set successors) ({[ leaf ]} ∪ ordered);
      each_leaf g recurse rest ordered' (cur_order ++ cur_leaf_order ++ [leaf])
  end.

(** [TopologicalOrderer.get_topological_order]. *)
Fixpoint get_topological_order (g : DiGraph.t) (coloring : gset Z) (fuel : nat)
    (leaves : gset Z) (ordered : gset Z) : result (list Z * gset Z) :=
  match fuel with
  | O => OutOfFuel
  | S fuel' =>
      let leaves := leaves ∖ ordered in
      let blue_leaves_set := leaves ∩ coloring in
      each_leaf g (get_topological_order g coloring fuel')
        (sorted (elements blue_leaves_set) ++ sorted (elements (leaves ∖ blue_leaves_set)))
        ordered []
  end.

(** [for new_lid, cur_gid in enumerate(new_order): lid[cur_gid] = new_lid]. *)
Fixpoint assign_lids (new_order : list Z) (new_lid : Z) (lids : gmap Z Z) : gmap Z Z :=
  match new_order with
  | [] => lids
  | cur_gid :: rest => assign_lids rest (new_lid + 1) (<[ cur_gid := new_lid ]> lids)
  end.

Definition _update_topological_order_incrementally (fuel : nat) (s : t) (gid : Z)
    : result t :=
  '(new_order, _) ← get_topological_order (_G s) (_coloring s) fuel (_leaves s) ∅;
  Ok (mk (_G s) (block_data s) (assign_lids new_order 0 (lid s)) (blue_anticone s)
         (_leaves s) (_coloring s) (head new_order) (_k s)).

Definition add (fuel : nat) (s : t) (block : Block) : result t :=
  let gid := global_id block in
  let s1 := mk (add_block_to_graph (_G s) block)
               (<[ gid := block ]> (block_data s))
               (lid s) (blue_anticone s)
               (update_leaves (_leaves s) block)
               (_coloring s) (_genesis_gid s) (_k s) in
  _update_topological_order_incrementally fuel (_update_coloring_incrementally s1 gid) gid.

(** [set_k]: a new DAG with the new [k], fed the blocks of this one in
    the order of [iter(self)]. *)
Fixpoint add_all (fuel : nat) (s : t) (blocks : list Block) : result t :=
  match blocks with
  | [] => Ok s
  | block :: rest => s' ← add fuel s block; add_all fuel s' rest
  end.

Fixpoint blocks_of (s : t) (gids : list Z) : result (list Block) :=
  match gids with
  | [] => Ok []
  | gid :: rest =>
      block ← getitem_block s gid; blocks ← blocks_of s rest; Ok (block :: blocks)
  end.

Definition set_k (fuel : nat) (s : t) (k : Z) : result t :=
  blocks ← blocks_of s (DiGraph.nodes (_G s));
  add_all fuel (init k) blocks.

Definition _is_blue (s : t) (gid : Z) : bool := bool_decide (gid ∈ _coloring s).

Definition _get_coloring (s : t) : gset Z := _coloring s.

Definition _get_local_id (s : t) (gid : Z) : result (local_id * t) :=
  n ← getitem (lid s) gid; Ok (Lid n, s).

#[export] Instance phantom_dag : PhantomDAG t :=
  {| dag_contains := contains; dag_get_local_id := _get_local_id |}.

Definition is_a_before_b (s : t) (a b : Z) : result (tri * t) :=
  phantom_is_a_before_b s a b.

Definition get_depth (s : t) (gid : Z) : depth := NegInf.

(** The states reached from the empty DAG by calls of [add] that return. *)
Inductive reachable (k : Z) : t → Prop :=
  | reachable_init : reachable k (init k)
  | reachable_add fuel s block s' :
      reachable k s → add fuel s block = Ok s' → reachable k s'.

End PHANTOM.

(** ** phantom/greedy_phantom.py *)

(** [minimal_height] of a k-chain: the height of a block, or [float('inf')]
    for the empty chain. *)
Inductive min_height : Type :=
  | Finite (h : Z)
  | Infinite.

(** [height < minimal_height]. *)
Definition below (h : Z) (m : min_height) : bool :=
  match m with
  | Finite m => h <? m
  | Infinite => true
  end.

(** The named tuple [KChain]. *)
Record KChain : Type := mkKChain {
  global_ids : gset Z;
  minimal_height : min_height
}.

(** The value of a node's [blue_diff_order] / [red_diff_order] attribute:
    the empty [set()] that [_update_coloring_incrementally] puts there first,
    or an order dictionary, shared with the ChainMaps that chain it. *)
Inductive diff_value : Type :=
  | DiffSet
  | DiffDict (address : nat).

(** What [_get_antipast] returns: a built-in set or keys view, or a LazySet
    over the key sets it layers. *)
Inductive abstract_set : Type :=
  | PlainSet (X : gset Z)
  | Lazy (h : list (gset Z)) (L : LazySet.t).

Definition member (X : abstract_set) (gid : Z) : bool :=
  match X with
  | PlainSet X => bool_decide (gid ∈ X)
  | Lazy h L => LazySet.contains h L gid
  end.

(** First value found for [key], in the order of the maps of a ChainMap. *)
Fixpoint chain_get (maps : list (gmap Z (option Z))) (key : Z) : option (option Z) :=
  match maps with
  | [] => None
  | d :: rest =>
      match d !! key with
      | Some v => Some v
      | None => chain_get rest key
      end
  end.

(** [_local_tip_to_global_tip_generator], driving the body of the [for]
    loop that consumes it.  The generator is lazy: it reads
    [self._coloring_chain] when it is resumed, after the body has run on the
    blocks yielded before; [on_chain] reads it off the loop state. *)
Section LocalTipToGlobalTip.
Context {A : Type}.
Variable parent_of : Z → result (option Z).     (* G.node[gid]["coloring_parent"] *)
Variable on_chain : A → Z → bool.               (* gid in self._coloring_chain *)
Variable body : Z → bool → bool → A → result A. (* global_id, is_main_coloring_chain, is_intersection *)

(** The walk down the local tip's chain; returns [intersection_gid]. *)
Fixpoint local_part (fuel : nat) (cur_chain_gid : option Z) (acc : A)
    : result (option Z * A) :=
  match cur_chain_gid with
  | None => Ok (None, acc)
  | Some c =>
      match fuel with
      | O => OutOfFuel
      | S fuel' =>
          if on_chain acc c then
            acc' ← body c true true acc; Ok (Some c, acc')
          else
            acc' ← body c false false acc;
            next ← parent_of c;
            local_part fuel' next acc'
      end
  end.

(** The walk down the main coloring chain, to the intersection. *)
Fixpoint main_part (fuel : nat) (cur_chain_gid intersection_gid : option Z) (acc : A)
    : result A :=
  match cur_chain_gid with
  | None => Ok acc
  | Some c =>
      match fuel with
      | O => OutOfFuel
      | S fuel' =>
          if bool_decide (Some c = intersection_gid) then Ok acc
          else
            acc' ← body c true false acc;
            next ← parent_of c;
            main_part fuel' next intersection_gid acc'
      end
  end.

Definition for_local_tip_to_global_tip (fuel : nat) (local_tip_global_id : Z)
    (coloring_tip_gid : option Z) (acc : A) : result A :=
  '(intersection_gid, acc1) ← local_part fuel (Some local_tip_global_id) acc;
  main_part fuel coloring_tip_gid intersection_gid acc1.
End LocalTipToGlobalTip.

(** [sort_blocks] of [_calculate_topological_order]: the Python list it
    returns (the walk pops it from the end). *)
Definition sort_blocks (last_block_gid : option Z) (later_blocks to_sort unsorted : gset Z)
    : list Z :=
  let remaining_gids :=
    (to_sort ∖ match last_block_gid with Some l => {[ l ]} | None => ∅ end) ∩ unsorted in
  let blue_gids_set := remaining_gids ∩ later_blocks in
  let blue_gids_list := sorted_reverse (elements blue_gids_set) in
  let red_gids_list := sorted_reverse (elements (remaining_gids ∖ blue_gids_set)) in
  red_gids_list ++ blue_gids_list ++
    match last_block_gid with Some l => [l] | None => [] end.

Module GreedyPHANTOM.

Record t : Type := mk {
  _G : DiGraph.t;
  block_data : gmap Z Block;   (* G.node[gid]['block_data'] *)
  self_order_index : gmap Z (option Z);   (* G.node[gid]['self_order_index'] *)
  coloring_parent : gmap Z (option Z);   (* G.node[gid]['coloring_parent'] *)
  blue_diff_order : gmap Z diff_value;   (* G.node[gid]['blue_diff_order'] *)
  red_diff_order : gmap Z diff_value;   (* G.node[gid]['red_diff_order'] *)
  height_key : gmap Z Z;   (* G.node[gid]['height_key'] *)
  blue_blocks_number : gmap Z Z;   (* G.node[gid]['blue_blocks_number'] *)
  _leaves : gset Z;
  _genesis_gid : option Z;
  _k : Z;
  dicts : list (gmap Z (option Z));   (* the order dictionaries, by address *)
  sets : list (gset Z);   (* the sets layered by the LazySet, by address *)
  _coloring_tip_gid : option Z;
  _coloring_chain : gset Z;
  _k_chain : KChain;
  _blue_past_order : list nat;   (* the maps of the ChainMap *)
  _red_past_order : list nat;   (* the maps of the ChainMap *)
  _blue_antipast_order : nat;
  _red_antipast_order : nat;
  _uncolored_unordered_antipast : LazySet.t;
  _antipast : gset Z
}.

(** Assignment to one attribute of [self]. *)
Definition upd_G (v : DiGraph.t) (s : t) : t :=
  mk v (block_data s) (self_order_index s) (coloring_parent s) (blue_diff_order s) (red_diff_order s) (height_key s) (blue_blocks_number s) (_leaves s) (_genesis_gid s) (_k s) (dicts s) (sets s) (_coloring_tip_gid s) (_coloring_chain s) (_k_chain s) (_blue_past_order s) (_red_past_order s) (_blue_antipast_order s) (_red_antipast_order s) (_uncolored_unordered_antipast s) (_antipast s).
Definition upd_block_data (v : gmap Z Block) (s : t) : t :=
  mk (_G s) v (self_order_index s) (coloring_parent s) (blue_diff_order s) (red_diff_order s) (height_key s) (blue_blocks_number s) (_leaves s) (_genesis_gid s) (_k s) (dicts s) (sets s) (_coloring_tip_gid s) (_coloring_chain s) (_k_chain s) (_blue_past_order s) (_red_past_order s) (_blue_antipast_order s) (_red_antipast_order s) (_uncolored_unordered_antipast s) (_antipast s).
Definition upd_self_order_index (v : gmap Z (option Z)) (s : t) : t :=
  mk (_G s) (block_data s) v (coloring_parent s) (blue_diff_order s) (red_diff_order s) (height_key s) (blue_blocks_number s) (_leaves s) (_genesis_gid s) (_k s) (dicts s) (sets s) (_coloring_tip_gid s) (_coloring_chain s) (_k_chain s) (_blue_past_order s) (_red_past_order s) (_blue_antipast_order s) (_red_antipast_order s) (_uncolored_unordered_antipast s) (_antipast s).
Definition upd_coloring_parent (v : gmap Z (option Z)) (s : t) : t :=
  mk (_G s) (block_data s) (self_order_index s) v (blue_diff_order s) (red_diff_order s) (height_key s) (blue_blocks_number s) (_leaves s) (_genesis_gid s) (_k s) (dicts s) (sets s) (_coloring_tip_gid s) (_coloring_chain s) (_k_chain s) (_blue_past_order s) (_red_past_order s) (_blue_antipast_order s) (_red_antipast_order s) (_uncolored_unordered_antipast s) (_antipast s).
Definition upd_blue_diff_order (v : gmap Z diff_value) (s : t) : t :=
  mk (_G s) (block_data s) (self_order_index s) (coloring_parent s) v (red_diff_order s) (height_key s) (blue_blocks_number s) (_leaves s) (_genesis_gid s) (_k s) (dicts s) (sets s) (_coloring_tip_gid s) (_coloring_chain s) (_k_chain s) (_blue_past_order s) (_red_past_order s) (_blue_antipast_order s) (_red_antipast_order s) (_uncolored_unordered_antipast s) (_antipast s).
Definition upd_red_diff_order (v : gmap Z diff_value) (s : t) : t :=
  mk (_G s) (block_data s) (self_order_index s) (coloring_parent s) (blue_diff_order s) v (height_key s) (blue_blocks_number s) (_leaves s) (_genesis_gid s) (_k s) (dicts s) (sets s) (_coloring_tip_gid s) (_coloring_chain s) (_k_chain s) (_blue_past_order s) (_red_past_order s) (_blue_antipast_order s) (_red_antipast_order s) (_uncolored_unordered_antipast s) (_antipast s).
Definition upd_height_key (v : gmap Z Z) (s : t) : t :=
  mk (_G s) (block_data s) (self_order_index s) (coloring_parent s) (blue_diff_order s) (red_diff_order s) v (blue_blocks_number s) (_leaves s) (_genesis_gid s) (_k s) (dicts s) (sets s) (_coloring_tip_gid s) (_coloring_chain s) (_k_chain s) (_blue_past_order s) (_red_past_order s) (_blue_antipast_order s) (_red_antipast_order s) (_uncolored_unordered_antipast s) (_antipast s).
Definition upd_blue_blocks_number (v : gmap Z Z) (s : t) : t :=
  mk (_G s) (block_data s) (self_order_index s) (coloring_parent s) (blue_diff_order s) (red_diff_order s) (height_key s) v (_leaves s) (_genesis_gid s) (_k s) (dicts s) (sets s) (_coloring_tip_gid s) (_coloring_chain s) (_k_chain s) (_blue_past_order s) (_red_past_order s) (_blue_antipast_order s) (_red_antipast_order s) (_uncolored_unordered_antipast s) (_antipast s).
Definition upd_leaves (v : gset Z) (s : t) : t :=
  mk (_G s) (block_data s) (self_order_index s) (coloring_parent s) (blue_diff_order s) (red_diff_order s) (height_key s) (blue_blocks_number s) v (_genesis_gid s) (_k s) (dicts s) (sets s) (_coloring_tip_gid s) (_coloring_chain s) (_k_chain s) (_blue_past_order s) (_red_past_order s) (_blue_antipast_order s) (_red_antipast_order s) (_uncolored_unordered_antipast s) (_antipast s).
Definition upd_genesis_gid (v : option Z) (s : t) : t :=
  mk (_G s) (block_data s) (self_order_index s) (coloring_parent s) (blue_diff_order s) (red_diff_order s) (height_key s) (blue_blocks_number s) (_leaves s) v (_k s) (dicts s) (sets s) (_coloring_tip_gid s) (_coloring_chain s) (_k_chain s) (_blue_past_order s) (_red_past_order s) (_blue_antipast_order s) (_red_antipast_order s) (_uncolored_unordered_antipast s) (_antipast s).
Definition upd_k (v : Z) (s : t) : t :=
  mk (_G s) (block_data s) (self_order_index s) (coloring_parent s) (blue_diff_order s) (red_diff_order s) (height_key s) (blue_blocks_number s) (_leaves s) (_genesis_gid s) v (dicts s) (sets s) (_coloring_tip_gid s) (_coloring_chain s) (_k_chain s) (_blue_past_order s) (_red_past_order s) (_blue_antipast_order s) (_red_antipast_order s) (_uncolored_unordered_antipast s) (_antipast s).
Definition upd_dicts (v : list (gmap Z (option Z))) (s : t) : t :=
  mk (_G s) (block_data s) (self_order_index s) (coloring_parent s) (blue_diff_order s) (red_diff_order s) (height_key s) (blue_blocks_number s) (_leaves s) (_genesis_gid s) (_k s) v (sets s) (_coloring_tip_gid s) (_coloring_chain s) (_k_chain s) (_blue_past_order s) (_red_past_order s) (_blue_antipast_order s) (_red_antipast_order s) (_uncolored_unordered_antipast s) (_antipast s).
Definition upd_sets (v : list (gset Z)) (s : t) : t :=
  mk (_G s) (block_data s) (self_order_index s) (coloring_parent s) (blue_diff_order s) (red_diff_order s) (height_key s) (blue_blocks_number s) (_leaves s) (_genesis_gid s) (_k s) (dicts s) v (_coloring_tip_gid s) (_coloring_chain s) (_k_chain s) (_blue_past_order s) (_red_past_order s) (_blue_antipast_order s) (_red_antipast_order s) (_uncolored_unordered_antipast s) (_antipast s).
Definition upd_coloring_tip_gid (v : option Z) (s : t) : t :=
  mk (_G s) (block_data s) (self_order_index s) (coloring_parent s) (blue_diff_order s) (red_diff_order s) (height_key s) (blue_blocks_number s) (_leaves s) (_genesis_gid s) (_k s) (dicts s) (sets s) v (_coloring_chain s) (_k_chain s) (_blue_past_order s) (_red_past_order s) (_blue_antipast_order s) (_red_antipast_order s) (_uncolored_unordered_antipast s) (_antipast s).
Definition upd_coloring_chain (v : gset Z) (s : t) : t :=
  mk (_G s) (block_data s) (self_order_index s) (coloring_parent s) (blue_diff_order s) (red_diff_order s) (height_key s) (blue_blocks_number s) (_leaves s) (_genesis_gid s) (_k s) (dicts s) (sets s) (_coloring_tip_gid s) v (_k_chain s) (_blue_past_order s) (_red_past_order s) (_blue_antipast_order s) (_red_antipast_order s) (_uncolored_unordered_antipast s) (_antipast s).
Definition upd_k_chain (v : KChain) (s : t) : t :=
  mk (_G s) (block_data s) (self_order_index s) (coloring_parent s) (blue_diff_order s) (red_diff_order s) (height_key s) (blue_blocks_number s) (_leaves s) (_genesis_gid s) (_k s) (dicts s) (sets s) (_coloring_tip_gid s) (_coloring_chain s) v (_blue_past_order s) (_red_past_order s) (_blue_antipast_order s) (_red_antipast_order s) (_uncolored_unordered_antipast s) (_antipast s).
Definition upd_blue_past_order (v : list nat) (s : t) : t :=
  mk (_G s) (block_data s) (self_order_index s) (coloring_parent s) (blue_diff_order s) (red_diff_order s) (height_key s) (blue_blocks_number s) (_leaves s) (_genesis_gid s) (_k s) (dicts s) (sets s) (_coloring_tip_gid s) (_coloring_chain s) (_k_chain s) v (_red_past_order s) (_blue_antipast_order s) (_red_antipast_order s) (_uncolored_unordered_antipast s) (_antipast s).
Definition upd_red_past_order (v : list nat) (s : t) : t :=
  mk (_G s) (block_data s) (self_order_index s) (coloring_parent s) (blue_diff_order s) (red_diff_order s) (height_key s) (blue_blocks_number s) (_leaves s) (_genesis_gid s) (_k s) (dicts s) (sets s) (_coloring_tip_gid s) (_coloring_chain s) (_k_chain s) (_blue_past_order s) v (_blue_antipast_order s) (_red_antipast_order s) (_uncolored_unordered_antipast s) (_antipast s).
Definition upd_blue_antipast_order (v : nat) (s : t) : t :=
  mk (_G s) (block_data s) (self_order_index s) (coloring_parent s) (blue_diff_order s) (red_diff_order s) (height_key s) (blue_blocks_number s) (_leaves s) (_genesis_gid s) (_k s) (dicts s) (sets s) (_coloring_tip_gid s) (_coloring_chain s) (_k_chain s) (_blue_past_order s) (_red_past_order s) v (_red_antipast_order s) (_uncolored_unordered_antipast s) (_antipast s).
Definition upd_red_antipast_order (v : nat) (s : t) : t :=
  mk (_G s) (block_data s) (self_order_index s) (coloring_parent s) (blue_diff_order s) (red_diff_order s) (height_key s) (blue_blocks_number s) (_leaves s) (_genesis_gid s) (_k s) (dicts s) (sets s) (_coloring_tip_gid s) (_coloring_chain s) (_k_chain s) (_blue_past_order s) (_red_past_order s) (_blue_antipast_order s) v (_uncolored_unordered_antipast s) (_antipast s).
Definition upd_uncolored_unordered_antipast (v : LazySet.t) (s : t) : t :=
  mk (_G s) (block_data s) (self_order_index s) (coloring_parent s) (blue_diff_order s) (red_diff_order s) (height_key s) (blue_blocks_number s) (_leaves s) (_genesis_gid s) (_k s) (dicts s) (sets s) (_coloring_tip_gid s) (_coloring_chain s) (_k_chain s) (_blue_past_order s) (_red_past_order s) (_blue_antipast_order s) (_red_antipast_order s) v (_antipast s).
Definition upd_antipast (v : gset Z) (s : t) : t :=
  mk (_G s) (block_data s) (self_order_index s) (coloring_parent s) (blue_diff_order s) (red_diff_order s) (height_key s) (blue_blocks_number s) (_leaves s) (_genesis_gid s) (_k s) (dicts s) (sets s) (_coloring_tip_gid s) (_coloring_chain s) (_k_chain s) (_blue_past_order s) (_red_past_order s) (_blue_antipast_order s) (_red_antipast_order s) (_uncolored_unordered_antipast s) v.

(** [GreedyPHANTOM(k)].  The two past ChainMaps start with the one empty
    dictionary [ChainMap()] creates (addresses 0 and 1); addresses 2 and 3
    are the blue and red antipast dictionaries.

    [self._antipast] is bound once, here, to
    [ChainMap(self._antipast_order).keys() | self._uncolored_unordered_antipast].
    The left operand is a [KeysView], whose [__or__] is that of
    [collections.abc.Set]: it builds the result with
    [KeysView._from_iterable], which is [set(it)].  The value is therefore a
    new built-in set holding the elements present at that moment (none),
    not a view of the two operands; no other statement of the class assigns
    or updates [self._antipast]. *)
Definition init (k : Z) : t :=
  mk DiGraph.empty ∅ ∅ ∅ ∅ ∅ ∅ ∅ ∅ None k
     [∅; ∅; ∅; ∅] []
     None ∅ (mkKChain ∅ Infinite)
     [0%nat] [1%nat] 2%nat 3%nat
     LazySet.empty
     ∅.

Definition contains (s : t) (gid : Z) : bool := DiGraph.has_node (_G s) gid.

Definition len (s : t) : nat := length (DiGraph.nodes (_G s)).

Definition getitem_block (s : t) (gid : Z) : result Block := getitem (block_data s) gid.

Definition get_virtual_block_parents (s : t) : gset Z := _leaves s.

(** *** The stores *)

Definition dict_at (s : t) (address : nat) : gmap Z (option Z) :=
  default ∅ (dicts s !! address).

Definition alloc_dict (d : gmap Z (option Z)) (s : t) : nat * t :=
  (length (dicts s), upd_dicts (dicts s ++ [d]) s).

Definition store_dict (address : nat) (d : gmap Z (option Z)) (s : t) : t :=
  upd_dicts (<[ address := d ]> (dicts s)) s.

(** [len(v)], [v.keys()] and [gid in v] on a diff attribute. *)
Definition diff_len (s : t) (v : diff_value) : Z :=
  match v with
  | DiffSet => 0
  | DiffDict a => Z.of_nat (size (dict_at s a))
  end.

Definition diff_keys (s : t) (v : diff_value) : result (gset Z) :=
  match v with
  | DiffSet => Raise AttributeError
  | DiffDict a => Ok (dom (dict_at s a))
  end.

Definition diff_mem (s : t) (v : diff_value) (gid : Z) : bool :=
  match v with
  | DiffSet => false
  | DiffDict a => bool_decide (gid ∈ dom (dict_at s a))
  end.

(** *** The ChainMaps

    [_past_order], [_antipast_order], [_coloring_order] and [_mapping]
    chain the two past ChainMaps and the two antipast dictionaries;
    [_clear_antipast_order] keeps them pointing at the current antipast
    dictionaries. *)
Definition mapping_maps (s : t) : list nat :=
  _blue_past_order s ++ _red_past_order s ++
  [_blue_antipast_order s; _red_antipast_order s].

Definition chain_keys (s : t) (maps : list nat) : gset Z :=
  ⋃ ((λ a, dom (dict_at s a)) <$> maps).

(** [self._mapping.get(gid, None)]. *)
Definition mapping_get (s : t) (gid : Z) : option Z :=
  default None (chain_get (dict_at s <$> mapping_maps s) gid).

(** [self._mapping.keys()]. *)
Definition mapping_keys (s : t) : gset Z := chain_keys s (mapping_maps s).

(** [self._coloring], the keys of [_coloring_order]. *)
Definition _coloring (s : t) : gset Z :=
  chain_keys s (_blue_past_order s ++ [_blue_antipast_order s]).

Definition _clear_antipast_order (s : t) : t :=
  let '(blue, s1) := alloc_dict ∅ s in
  let '(red, s2) := alloc_dict ∅ s1 in
  upd_red_antipast_order red (upd_blue_antipast_order blue s2).

(** *** [self._uncolored_unordered_antipast]

    The sets layered are the fresh [set(...)] made by [LazySet.update] and
    the keys views of order dictionaries that do not change while they are
    layered: both enter the store as new set objects. *)
Definition uncolored_lazy_update (other : gset Z) (s : t) : t :=
  let '(h, a) := LazySet.alloc (sets s) other in
  upd_uncolored_unordered_antipast
    (LazySet.lazy_update h (_uncolored_unordered_antipast s) a) (upd_sets h s).

Definition uncolored_lazy_difference_update (other : gset Z) (s : t) : t :=
  let '(h, a) := LazySet.alloc (sets s) other in
  upd_uncolored_unordered_antipast
    (LazySet.lazy_difference_update h (_uncolored_unordered_antipast s) a) (upd_sets h s).

(** [add(elem)] is [update({elem})]. *)
Definition uncolored_add (gid : Z) (s : t) : t := uncolored_lazy_update {[ gid ]} s.

Definition uncolored_flatten (modify : bool) (s : t) : t :=
  let '(h, L) := LazySet.flatten modify (sets s) (_uncolored_unordered_antipast s) in
  upd_uncolored_unordered_antipast L (upd_sets h s).

Definition uncolored_clear (s : t) : t :=
  upd_uncolored_unordered_antipast
    (LazySet.clear (_uncolored_unordered_antipast s)) s.

Definition uncolored_iter (s : t) : list Z :=
  LazySet.iter (sets s) (_uncolored_unordered_antipast s).

(** Truth value of the LazySet: its length is not zero. *)
Definition uncolored_truthy (s : t) : bool :=
  negb (Nat.eqb (LazySet.len (sets s) (_uncolored_unordered_antipast s)) 0).

(** *** Blueness *)

Definition _get_extreme_blue (s : t) (gids : list Z) (bluest : bool) : result (option Z) :=
  match gids with
  | [] => Ok None
  | _ =>
      keyed ← with_keys (getitem (blue_blocks_number s)) (sorted gids);
      Ok (if bluest then py_max keyed else py_min keyed)
  end.

Definition _get_bluest (s : t) (gids : list Z) : result (option Z) :=
  _get_extreme_blue s gids true.

Definition _is_a_bluer_than_b (s : t) (a b : Z) : result bool :=
  a_blue_number ← getitem (blue_blocks_number s) a;
  b_blue_number ← getitem (blue_blocks_number s) b;
  Ok ((a_blue_number >? b_blue_number) ||
      ((a_blue_number =? b_blue_number) && (a <? b))).

Definition _is_max_coloring_tip (s : t) (gid : Z) : result bool :=
  match _coloring_tip_gid s with
  | None => Ok true
  | Some tip => _is_a_bluer_than_b s gid tip
  end.

(** *** Walks along [_coloring_chain_generator] *)

Fixpoint _coloring_rule_2 (s : t) (k_chain : KChain) (fuel : nat)
    (cur_chain_block_gid : option Z) : result bool :=
  match cur_chain_block_gid with
  | None => Ok false
  | Some c =>
      match fuel with
      | O => OutOfFuel
      | S fuel' =>
          h ← getitem (height_key s) c;
          if below h (minimal_height k_chain) then Ok false
          else if bool_decide (c ∈ global_ids k_chain) then Ok true
          else
            next ← getitem (coloring_parent s) c;
            _coloring_rule_2 s k_chain fuel' next
      end
  end.

Fixpoint k_chain_from (s : t) (fuel : nat) (cur_chain_block_gid : option Z)
    (chain_blocks : gset Z) (minimal_height : min_height) (blue_count : Z)
    : result KChain :=
  match cur_chain_block_gid with
  | None => Ok (mkKChain chain_blocks minimal_height)
  | Some c =>
      match fuel with
      | O => OutOfFuel
      | S fuel' =>
          if blue_count >? _k s then Ok (mkKChain chain_blocks minimal_height)
          else
            h ← getitem (height_key s) c;
            blue_diff ← getitem (blue_diff_order s) c;
            next ← getitem (coloring_parent s) c;
            k_chain_from s fuel' next ({[ c ]} ∪ chain_blocks) (Finite h)
              (blue_count + diff_len s blue_diff)
      end
  end.

Definition _get_k_chain (fuel : nat) (s : t) (gid : Z) : result KChain :=
  k_chain_from s fuel (Some gid) ∅ Infinite 0.

(** *** Past and antipast *)

Definition _get_antipast (fuel : nat) (s : t) (gid : option Z) : result abstract_set :=
  match gid with
  | None => Ok (PlainSet (mapping_keys s))
  | Some g =>
      if bool_decide (Some g = _coloring_tip_gid s) then Ok (PlainSet (_antipast s))
      else
        '(positive_sets, negative_sets) ←
          for_local_tip_to_global_tip
            (getitem (coloring_parent s))
            (λ _ c, bool_decide (c ∈ _coloring_chain s))
            (λ cur is_main_coloring_chain is_intersection '(positive_sets, negative_sets),
               blue_diff ← getitem (blue_diff_order s) cur;
               blue_keys ← diff_keys s blue_diff;
               red_diff ← getitem (red_diff_order s) cur;
               red_keys ← diff_keys s red_diff;
               if negb is_main_coloring_chain || is_intersection
               then Ok (positive_sets, negative_sets ++ [blue_keys; red_keys])
               else Ok (positive_sets ++ [blue_keys; red_keys], negative_sets))
            fuel g (_coloring_tip_gid s) ([], []);
        (* the store of the new LazySet: the base set, then the layers *)
        let h := _antipast s :: positive_sets ++ negative_sets in
        let positive := seq 1 (length positive_sets) in
        let negative := seq (1 + length positive_sets) (length negative_sets) in
        Ok (Lazy h (fold_left (LazySet.lazy_difference_update h) negative
                      (LazySet.init h 0 [] positive)))
  end.

(** *** Colouring the diff past of a new block *)

(** [_color_block]: the dictionary the block goes to, [true] for blue. *)
Definition _color_block (fuel : nat) (s : t) (k_chain : KChain) (gid : Z) : result bool :=
  _coloring_rule_2 s k_chain fuel (Some gid).

(** The [while diff_past_queue] loop; [blue] and [red] are the two
    dictionaries under construction. *)
Fixpoint color_diff_past (gas : nat) (s : t) (k_chain : KChain)
    (parent_antipast : abstract_set) (fuel : nat) (diff_past_queue : list Z)
    (blue red : gmap Z (option Z)) : result (gmap Z (option Z) * gmap Z (option Z)) :=
  match diff_past_queue with
  | [] => Ok (blue, red)
  | block_to_color_gid :: rest =>
      match fuel with
      | O => OutOfFuel
      | S fuel' =>
          if bool_decide (block_to_color_gid ∈ dom blue)
             || bool_decide (block_to_color_gid ∈ dom red)
             || negb (member parent_antipast block_to_color_gid)
          then color_diff_past gas s k_chain parent_antipast fuel' rest blue red
          else
            successors ← DiGraph.successors (_G s) block_to_color_gid;
            is_blue ← _color_block gas s k_chain block_to_color_gid;
            (* [extendleft] puts the successors in front, last one first *)
            let queue := rev successors ++ rest in
            if is_blue : bool
            then color_diff_past gas s k_chain parent_antipast fuel' queue
                   (<[ block_to_color_gid := None ]> blue) red
            else color_diff_past gas s k_chain parent_antipast fuel' queue
                   blue (<[ block_to_color_gid := None ]> red)
      end
  end.

Definition _update_diff_coloring_of_block (fuel : nat) (s : t) (gid : Z) : result t :=
  k_chain ← _get_k_chain fuel s gid;
  parent ← getitem (coloring_parent s) gid;
  parent_antipast ← _get_antipast fuel s parent;
  successors ← DiGraph.successors (_G s) gid;
  '(blue, red) ← color_diff_past fuel s k_chain parent_antipast fuel successors ∅ ∅;
  let '(blue_address, s1) := alloc_dict blue s in
  let '(red_address, s2) := alloc_dict red s1 in
  let s3 := upd_red_diff_order (<[ gid := DiffDict red_address ]> (red_diff_order s2))
              (upd_blue_diff_order
                 (<[ gid := DiffDict blue_address ]> (blue_diff_order s2)) s2) in
  blue_number ← getitem (blue_blocks_number s3) gid;
  Ok (upd_blue_blocks_number
        (<[ gid := blue_number + Z.of_nat (size blue) ]> (blue_blocks_number s3)) s3).

(** *** Moving the coloring tip *)

Definition pop_map (maps : list nat) : result (nat * list nat) :=
  match rev maps with
  | [] => Raise IndexError
  | last :: front => Ok (last, rev front)
  end.

(** The body of the [for] loop of [_update_past_coloring_according_to]. *)
Definition move_chain_block (cur_chain_gid : Z) (is_main_coloring_chain is_intersection : bool)
    (acc : t * list diff_value * list diff_value)
    : result (t * list diff_value * list diff_value) :=
  let '(s, blue_diff_past_orderings, red_diff_past_orderings) := acc in
  if is_intersection then Ok acc
  else if is_main_coloring_chain then
    if bool_decide (cur_chain_gid ∈ _coloring_chain s) then
      let s1 := upd_coloring_chain (_coloring_chain s ∖ {[ cur_chain_gid ]}) s in
      '(blue, blue_maps) ← pop_map (_blue_past_order s1);
      let s2 := uncolored_lazy_update (dom (dict_at s1 blue))
                  (upd_blue_past_order blue_maps s1) in
      '(red, red_maps) ← pop_map (_red_past_order s2);
      let s3 := uncolored_lazy_update (dom (dict_at s2 red))
                  (upd_red_past_order red_maps s2) in
      Ok (s3, blue_diff_past_orderings, red_diff_past_orderings)
    else Raise KeyError
  else
    let s1 := upd_coloring_chain ({[ cur_chain_gid ]} ∪ _coloring_chain s) s in
    blue_diff ← getitem (blue_diff_order s1) cur_chain_gid;
    red_diff ← getitem (red_diff_order s1) cur_chain_gid;
    Ok (s1, blue_diff_past_orderings ++ [blue_diff], red_diff_past_orderings ++ [red_diff]).

(** The loop over [zip(blue_diff_past_orderings, red_diff_past_orderings)]. *)
Fixpoint chain_diff_pasts (orderings : list (diff_value * diff_value)) (s : t) : result t :=
  match orderings with
  | [] => Ok s
  | (blue_diff_past_order, red_diff_past_order) :: rest =>
      match blue_diff_past_order, red_diff_past_order with
      | DiffDict blue, DiffDict red =>
          let s1 := upd_red_past_order (_red_past_order s ++ [red])
                      (upd_blue_past_order (_blue_past_order s ++ [blue]) s) in
          let s2 := uncolored_lazy_difference_update (dom (dict_at s1 blue)) s1 in
          let s3 := uncolored_lazy_difference_update (dom (dict_at s2 red)) s2 in
          chain_diff_pasts rest s3
      | _, _ => Raise AttributeError     (* [set().keys()] *)
      end
  end.

Definition _update_past_coloring_according_to (fuel : nat) (s : t) (new_tip_gid : Z)
    : result t :=
  let s1 := uncolored_lazy_update (dom (dict_at s (_blue_antipast_order s))) s in
  let s2 := uncolored_lazy_update (dom (dict_at s1 (_red_antipast_order s1))) s1 in
  let s3 := _clear_antipast_order s2 in
  (* Add the tips to the antipast *)
  let s4 := uncolored_add new_tip_gid s3 in
  let s5 :=
    match _coloring_tip_gid s4 with
    | Some tip =>
        if bool_decide (tip ∈ dom (dict_at s4 (_blue_antipast_order s4)))
        then uncolored_add tip s4 else s4
    | None => s4
    end in
  '(s6, blue_diff_past_orderings, red_diff_past_orderings) ←
    for_local_tip_to_global_tip
      (getitem (coloring_parent s5))
      (λ '(s, _, _) c, bool_decide (c ∈ _coloring_chain s))
      move_chain_block
      fuel new_tip_gid (_coloring_tip_gid s5) (s5, [], []);
  s7 ← chain_diff_pasts (zip blue_diff_past_orderings red_diff_past_orderings) s6;
  Ok (uncolored_flatten true (upd_coloring_tip_gid (Some new_tip_gid) s7)).

(** The loop of [_update_antipast_coloring]. *)
Fixpoint color_antipast (fuel : nat) (gids : list Z) (s : t) : result t :=
  match gids with
  | [] => Ok s
  | gid :: rest =>
      is_blue ← _color_block fuel s (_k_chain s) gid;
      let address := if is_blue : bool then _blue_antipast_order s
                     else _red_antipast_order s in
      color_antipast fuel rest
        (store_dict address (<[ gid := None ]> (dict_at s address)) s)
  end.

Definition _update_antipast_coloring (fuel : nat) (s : t) : result t :=
  s1 ← color_antipast fuel (uncolored_iter s) s;
  Ok (uncolored_clear s1).

Definition _update_max_coloring (fuel : nat) (s : t) (gid : Z) : result t :=
  is_tip ← _is_max_coloring_tip s gid;
  if is_tip : bool then
    s1 ← _update_past_coloring_according_to fuel s gid;
    k_chain ← _get_k_chain fuel s1 gid;
    let s2 := upd_k_chain k_chain s1 in
    let genesis_on_chain :=
      match _genesis_gid s2 with
      | Some genesis => bool_decide (genesis ∈ _coloring_chain s2)
      | None => false
      end in
    if genesis_on_chain then Ok s2
    else
      genesis ← _get_extreme_blue s2 (elements (_coloring_chain s2)) false;
      Ok (upd_genesis_gid genesis s2)
  else Ok s.

(** [max(height of parent for parent in parents)]. *)
Fixpoint max_height (s : t) (parents : list Z) (best : option Z) : result (option Z) :=
  match parents with
  | [] => Ok best
  | parent :: rest =>
      h ← getitem (height_key s) parent;
      max_height s rest
        (match best with
         | Some b => Some (if h >? b then h else b)
         | None => Some h
         end)
  end.

Definition _update_coloring_incrementally (fuel : nat) (s : t) (gid : Z) : result t :=
  block ← getitem (block_data s) gid;
  let parents := elements (get_parents block) in
  let s1 := upd_self_order_index (<[ gid := None ]> (self_order_index s)) s in
  parent ← _get_bluest s1 parents;
  let s2 := upd_coloring_parent (<[ gid := parent ]> (coloring_parent s1)) s1 in
  let s3 := upd_red_diff_order (<[ gid := DiffSet ]> (red_diff_order s2))
              (upd_blue_diff_order (<[ gid := DiffSet ]> (blue_diff_order s2)) s2) in
  s4 ←
    match parent with
    | Some p =>
        highest ← max_height s3 parents None;
        blue_number ← getitem (blue_blocks_number s3) p;
        Ok (upd_blue_blocks_number (<[ gid := blue_number ]> (blue_blocks_number s3))
              (upd_height_key (<[ gid := default 0 highest + 1 ]> (height_key s3)) s3))
    | None =>
        Ok (upd_blue_blocks_number (<[ gid := 0 ]> (blue_blocks_number s3))
              (upd_height_key (<[ gid := 0 ]> (height_key s3)) s3))
    end;
  (* Update the virtual block's view of the current block *)
  let s5 := uncolored_add gid s4 in
  s6 ← _update_diff_coloring_of_block fuel s5 gid;
  _update_max_coloring fuel s6 gid.

(** *** Topological order *)

(** The [while to_order] loop; [to_order] is kept with the end of the
    Python list, where [pop] and [append] work, at the head. *)
Fixpoint order_blocks (s : t) (coloring unordered : gset Z) (fuel : nat)
    (to_order : list Z) (ordered : list Z) : result (list Z) :=
  match to_order with
  | [] => Ok ordered
  | cur_gid :: rest =>
      match fuel with
      | O => OutOfFuel
      | S fuel' =>
          if bool_decide (cur_gid ∈ ordered)
          then order_blocks s coloring unordered fuel' rest ordered
          else
            successors ← DiGraph.successors (_G s) cur_gid;
            let cur_parents : gset Z := list_to_set successors ∩ unordered in
            if bool_decide (cur_parents ⊆ list_to_set ordered)
            then order_blocks s coloring unordered fuel' rest (ordered ++ [cur_gid])
            else
              parent ← getitem (coloring_parent s) cur_gid;
              order_blocks s coloring unordered fuel'
                (rev (sort_blocks parent coloring cur_parents unordered) ++ cur_gid :: rest)
                ordered
      end
  end.

Definition _calculate_topological_order (fuel : nat) (s : t)
    (coloring_parent_gid : option Z) (leaves coloring unordered : gset Z)
    : result (list Z) :=
  order_blocks s coloring unordered fuel
    (rev (sort_blocks coloring_parent_gid coloring leaves unordered)) [].

(** [for new_lid, cur_gid in enumerate(...)]: the block gets its index in
    the blue dictionary if it is one of its keys, in the red one
    otherwise. *)
Fixpoint assign_order (order : list Z) (new_lid : Z) (blue_dict red_dict : nat) (s : t) : t :=
  match order with
  | [] => s
  | cur_gid :: rest =>
      let address :=
        if bool_decide (cur_gid ∈ dom (dict_at s blue_dict)) then blue_dict else red_dict in
      assign_order rest (new_lid + 1) blue_dict red_dict
        (store_dict address (<[ cur_gid := Some new_lid ]> (dict_at s address)) s)
  end.

Definition _update_topological_order_in_dicts (fuel : nat) (s : t)
    (blue_dict red_dict : nat) (leaves : gset Z) (coloring_parent_gid : option Z)
    : result t :=
  starting_index ←
    match coloring_parent_gid with
    | Some p => index ← getitem (self_order_index s) p; Ok (default 0 index)
    | None => Ok 0
    end;
  order ← _calculate_topological_order fuel s coloring_parent_gid leaves
             (dom (dict_at s blue_dict))
             (dom (dict_at s blue_dict) ∪ dom (dict_at s red_dict));
  Ok (assign_order order starting_index blue_dict red_dict s).

Definition _update_self_order_index (s : t) (gid : Z) : result t :=
  blue_diff ← getitem (blue_diff_order s) gid;
  red_diff ← getitem (red_diff_order s) gid;
  let own := diff_len s blue_diff + diff_len s red_diff in
  parent ← getitem (coloring_parent s) gid;
  inherited ←
    match parent with
    | Some p => index ← getitem (self_order_index s) p; Ok (default 0 index)
    | None => Ok 0
    end;
  Ok (upd_self_order_index (<[ gid := Some (own + inherited) ]> (self_order_index s)) s).

Definition _update_topological_order_incrementally (fuel : nat) (s : t) (gid : Z)
    : result t :=
  blue_diff ← getitem (blue_diff_order s) gid;
  red_diff ← getitem (red_diff_order s) gid;
  block ← getitem_block s gid;
  parent ← getitem (coloring_parent s) gid;
  match blue_diff, red_diff with
  | DiffDict blue_dict, DiffDict red_dict =>
      s1 ← _update_topological_order_in_dicts fuel s blue_dict red_dict
             (get_parents block) parent;
      _update_self_order_index s1 gid
  | _, _ => Raise AttributeError
  end.

(** *** [PHANTOM.add], with the greedy colouring and ordering *)

Definition add (fuel : nat) (s : t) (block : Block) : result t :=
  let gid := global_id block in
  let s1 := upd_leaves (update_leaves (_leaves s) block)
              (upd_block_data (<[ gid := block ]> (block_data s))
                 (upd_G (add_block_to_graph (_G s) block) s)) in
  s2 ← _update_coloring_incrementally fuel s1 gid;
  _update_topological_order_incrementally fuel s2 gid.

Fixpoint add_all (fuel : nat) (s : t) (blocks : list Block) : result t :=
  match blocks with
  | [] => Ok s
  | block :: rest => s' ← add fuel s block; add_all fuel s' rest
  end.

Fixpoint blocks_of (s : t) (gids : list Z) : result (list Block) :=
  match gids with
  | [] => Ok []
  | gid :: rest =>
      block ← getitem_block s gid; blocks ← blocks_of s rest; Ok (block :: blocks)
  end.

Definition set_k (fuel : nat) (s : t) (k : Z) : result t :=
  blocks ← blocks_of s (DiGraph.nodes (_G s));
  add_all fuel (init k) blocks.

(** *** Queries *)

Definition _is_blue (fuel : nat) (s : t) (gid : Z) : result (bool * t) :=
  s1 ← _update_antipast_coloring fuel s;
  Ok (bool_decide (gid ∈ _coloring s1), s1).

Definition _get_coloring (fuel : nat) (s : t) : result (gset Z * t) :=
  s1 ← _update_antipast_coloring fuel s;
  Ok (_coloring s1, s1).

Definition _get_local_id (fuel : nat) (s : t) (gid : Z) : result (local_id * t) :=
  s1 ←
    (if bool_decide (mapping_get s gid = None) || uncolored_truthy s then
       s' ← _update_antipast_coloring fuel s;
       _update_topological_order_in_dicts fuel s'
         (_blue_antipast_order s') (_red_antipast_order s') (_leaves s')
         (_coloring_tip_gid s')
     else Ok s);
  Ok (match mapping_get s1 gid with
      | Some n => Lid n
      | None => LidInf
      end, s1).

(** The [for] loop of [get_depth]. *)
Fixpoint depth_from (s : t) (gid : Z) (fuel : nat) (cur_gid : option Z) (depth : Z)
    : result Z :=
  match cur_gid with
  | None => Ok 0
  | Some c =>
      match fuel with
      | O => OutOfFuel
      | S fuel' =>
          red_diff ← getitem (red_diff_order s) c;
          if diff_mem s red_diff gid then Ok 0
          else
            blue_diff ← getitem (blue_diff_order s) c;
            if diff_mem s blue_diff gid then Ok depth
            else
              next ← getitem (coloring_parent s) c;
              depth_from s gid fuel' next (depth + diff_len s blue_diff)
      end
  end.

Definition get_depth (fuel : nat) (s : t) (gid : Z) : result depth :=
  if negb (contains s gid) then Ok NegInf
  else if bool_decide (gid ∈ _antipast s) then Ok (Depth 0)
  else d ← depth_from s gid fuel (_coloring_tip_gid s) 1; Ok (Depth d).

End GreedyPHANTOM.

(** The greedy engine as a PHANTOM DAG: [_get_local_id] is overridden. *)
Definition greedy_dag (fuel : nat) : PhantomDAG GreedyPHANTOM.t :=
  {| dag_contains := GreedyPHANTOM.contains;
     dag_get_local_id := GreedyPHANTOM._get_local_id fuel |}.

Definition greedy_is_a_before_b (fuel : nat) (s : GreedyPHANTOM.t) (a b : Z)
    : result (tri * GreedyPHANTOM.t) :=
  @phantom_is_a_before_b _ (greedy_dag fuel) s a b.

(** ** phantom/competing_chain_greedy_phantom.py *)

(** [d >= confirmation_depth] on a depth. *)
Definition depth_ge (d : depth) (bound : Z) : bool :=
  match d with
  | NegInf => false
  | Depth d => d >=? bound
  end.

(** Truth value of an answer of [is_a_before_b]. *)
Definition tri_truthy (answer : tri) : bool :=
  match answer with
  | Some true => true
  | _ => false
  end.

Module CompetingChain.

Record t : Type := mk {
  dag : GreedyPHANTOM.t;                      (* what is inherited from GreedyPHANTOM *)
  _honest_dag : GreedyPHANTOM.t;
  _bluest_honest_block_gid : option Z;
  _competing_chain_tip_gid : option Z;
  _currently_attacked_block_gid : option Z;
  _first_parallel_block_gid : option Z;
  _competing_chain_tip_antipast : gset Z;
  _virtual_competing_chain_block_parents : gset Z;
  _confirmation_depth : Z;
  _maximal_depth_difference : Z;
  _malicious_blocks_to_add_to_honest_dag : list Z
}.

Definition upd_dag (v : GreedyPHANTOM.t) (s : t) : t :=
  mk v (_honest_dag s) (_bluest_honest_block_gid s) (_competing_chain_tip_gid s)
     (_currently_attacked_block_gid s) (_first_parallel_block_gid s)
     (_competing_chain_tip_antipast s) (_virtual_competing_chain_block_parents s)
     (_confirmation_depth s) (_maximal_depth_difference s)
     (_malicious_blocks_to_add_to_honest_dag s).
Definition upd_honest_dag (v : GreedyPHANTOM.t) (s : t) : t :=
  mk (dag s) v (_bluest_honest_block_gid s) (_competing_chain_tip_gid s)
     (_currently_attacked_block_gid s) (_first_parallel_block_gid s)
     (_competing_chain_tip_antipast s) (_virtual_competing_chain_block_parents s)
     (_confirmation_depth s) (_maximal_depth_difference s)
     (_malicious_blocks_to_add_to_honest_dag s).
Definition upd_competing_chain_tip_gid (v : option Z) (s : t) : t :=
  mk (dag s) (_honest_dag s) (_bluest_honest_block_gid s) v
     (_currently_attacked_block_gid s) (_first_parallel_block_gid s)
     (_competing_chain_tip_antipast s) (_virtual_competing_chain_block_parents s)
     (_confirmation_depth s) (_maximal_depth_difference s)
     (_malicious_blocks_to_add_to_honest_dag s).
Definition upd_currently_attacked_block_gid (v : option Z) (s : t) : t :=
  mk (dag s) (_honest_dag s) (_bluest_honest_block_gid s) (_competing_chain_tip_gid s)
     v (_first_parallel_block_gid s)
     (_competing_chain_tip_antipast s) (_virtual_competing_chain_block_parents s)
     (_confirmation_depth s) (_maximal_depth_difference s)
     (_malicious_blocks_to_add_to_honest_dag s).
Definition upd_first_parallel_block_gid (v : option Z) (s : t) : t :=
  mk (dag s) (_honest_dag s) (_bluest_honest_block_gid s) (_competing_chain_tip_gid s)
     (_currently_attacked_block_gid s) v
     (_competing_chain_tip_antipast s) (_virtual_competing_chain_block_parents s)
     (_confirmation_depth s) (_maximal_depth_difference s)
     (_malicious_blocks_to_add_to_honest_dag s).
Definition upd_competing_chain_tip_antipast (v : gset Z) (s : t) : t :=
  mk (dag s) (_honest_dag s) (_bluest_honest_block_gid s) (_competing_chain_tip_gid s)
     (_currently_attacked_block_gid s) (_first_parallel_block_gid s)
     v (_virtual_competing_chain_block_parents s)
     (_confirmation_depth s) (_maximal_depth_difference s)
     (_malicious_blocks_to_add_to_honest_dag s).
Definition upd_virtual_competing_chain_block_parents (v : gset Z) (s : t) : t :=
  mk (dag s) (_honest_dag s) (_bluest_honest_block_gid s) (_competing_chain_tip_gid s)
     (_currently_attacked_block_gid s) (_first_parallel_block_gid s)
     (_competing_chain_tip_antipast s) v
     (_confirmation_depth s) (_maximal_depth_difference s)
     (_malicious_blocks_to_add_to_honest_dag s).
Definition upd_malicious_blocks_to_add_to_honest_dag (v : list Z) (s : t) : t :=
  mk (dag s) (_honest_dag s) (_bluest_honest_block_gid s) (_competing_chain_tip_gid s)
     (_currently_attacked_block_gid s) (_first_parallel_block_gid s)
     (_competing_chain_tip_antipast s) (_virtual_competing_chain_block_parents s)
     (_confirmation_depth s) (_maximal_depth_difference s) v.

(** [CompetingChainGreedyPHANTOM(k, confirmation_depth, maximal_depth_difference)]. *)
Definition init (k confirmation_depth maximal_depth_difference : Z) : t :=
  mk (GreedyPHANTOM.init k) (GreedyPHANTOM.init k) None None None None ∅ ∅
     confirmation_depth maximal_depth_difference [].

Definition contains (s : t) (gid : Z) : bool := GreedyPHANTOM.contains (dag s) gid.

Definition did_attack_fail (s : t) : bool :=
  bool_decide (_first_parallel_block_gid s = None)
  || bool_decide (_currently_attacked_block_gid s = None).

(** The removal of the ancestors of a chosen parent: the inner [while]
    loop of [_get_competing_chain_tip_parents]. *)
Fixpoint remove_ancestors (g : DiGraph.t) (tip_antipast : gset Z) (fuel : nat)
    (ancestor_queue : list Z) (visited parents : gset Z) : result (gset Z * gset Z) :=
  match ancestor_queue with
  | [] => Ok (visited, parents)
  | ancestor_gid :: rest =>
      match fuel with
      | O => OutOfFuel
      | S fuel' =>
          if negb (bool_decide (ancestor_gid ∈ tip_antipast))
          then remove_ancestors g tip_antipast fuel' rest visited parents
          else
            successors ← DiGraph.successors g ancestor_gid;
            remove_ancestors g tip_antipast fuel' (rest ++ successors)
              ({[ ancestor_gid ]} ∪ visited) (parents ∖ {[ ancestor_gid ]})
      end
  end.

(** The outer [while queue] loop. *)
Fixpoint choose_parents (gas : nat) (d : GreedyPHANTOM.t) (tip_global_id : Z)
    (tip_antipast : gset Z) (fuel : nat) (queue : list Z) (visited parents : gset Z)
    : result (gset Z) :=
  match queue with
  | [] => Ok parents
  | gid :: rest =>
      match fuel with
      | O => OutOfFuel
      | S fuel' =>
          if bool_decide (gid ∈ visited) || negb (bool_decide (gid ∈ tip_antipast))
          then choose_parents gas d tip_global_id tip_antipast fuel' rest visited parents
          else
            tip_is_bluer ← GreedyPHANTOM._is_a_bluer_than_b d tip_global_id gid;
            if tip_is_bluer : bool then
              successors ← DiGraph.successors (GreedyPHANTOM._G d) gid;
              '(visited', parents') ←
                remove_ancestors (GreedyPHANTOM._G d) tip_antipast gas successors
                  ({[ gid ]} ∪ visited) ({[ gid ]} ∪ parents);
              choose_parents gas d tip_global_id tip_antipast fuel' rest visited' parents'
            else
              predecessors ← DiGraph.predecessors (GreedyPHANTOM._G d) gid;
              choose_parents gas d tip_global_id tip_antipast fuel' (rest ++ predecessors)
                ({[ gid ]} ∪ visited) parents
      end
  end.

Definition _get_competing_chain_tip_parents (fuel : nat) (s : t) (tip_global_id : Z)
    (tip_antipast initial_parents : gset Z) : result (gset Z) :=
  choose_parents fuel (dag s) tip_global_id tip_antipast fuel
    (elements (GreedyPHANTOM.get_virtual_block_parents (dag s)))
    initial_parents initial_parents.

(** [_add_malicious_blocks_to_honest_dag]: the queue is emptied from the
    left, every block going to the honest DAG. *)
Fixpoint drain (fuel : nat) (d : GreedyPHANTOM.t) (queue : list Z)
    (honest : GreedyPHANTOM.t) : result GreedyPHANTOM.t :=
  match queue with
  | [] => Ok honest
  | gid :: rest =>
      block ← GreedyPHANTOM.getitem_block d gid;
      honest' ← GreedyPHANTOM.add fuel honest block;
      drain fuel d rest honest'
  end.

Definition _add_malicious_blocks_to_honest_dag (fuel : nat) (s : t) : result t :=
  honest ← drain fuel (dag s) (_malicious_blocks_to_add_to_honest_dag s) (_honest_dag s);
  Ok (upd_malicious_blocks_to_add_to_honest_dag [] (upd_honest_dag honest s)).

Definition _stop_attack (fuel : nat) (s : t) : result t :=
  s1 ← _add_malicious_blocks_to_honest_dag fuel s;
  Ok (upd_first_parallel_block_gid None (upd_competing_chain_tip_gid None s1)).

Definition _restart_attack (fuel : nat) (s : t) : result t :=
  s1 ← _stop_attack fuel s;
  let tip_antipast := GreedyPHANTOM._antipast (_honest_dag s1) in
  let attacked := GreedyPHANTOM._coloring_tip_gid (_honest_dag s1) in
  let s2 := upd_currently_attacked_block_gid attacked
              (upd_competing_chain_tip_antipast tip_antipast s1) in
  match attacked with
  | Some tip =>
      block ← GreedyPHANTOM.getitem_block (dag s2) tip;
      parents ← _get_competing_chain_tip_parents fuel s2 tip tip_antipast
                  (get_parents block);
      Ok (upd_virtual_competing_chain_block_parents parents s2)
  | None => Raise KeyError          (* [self[None]] *)
  end.

Definition _is_attack_viable (s : t) : result bool :=
  if did_attack_fail s then Ok true
  else
    match GreedyPHANTOM._coloring_tip_gid (dag s), _competing_chain_tip_gid s with
    | Some coloring_tip, Some competing_tip =>
        honest_blue ← getitem (GreedyPHANTOM.blue_blocks_number (dag s)) coloring_tip;
        selfish_blue ← getitem (GreedyPHANTOM.blue_blocks_number (dag s)) competing_tip;
        Ok (honest_blue - selfish_blue <=? _maximal_depth_difference s)
    | _, _ => Raise KeyError
    end.

Definition get_virtual_block_parents (fuel : nat) (s : t) (is_malicious : bool)
    : result (gset Z * t) :=
  if negb is_malicious || (GreedyPHANTOM.len (dag s) <=? 1)%nat
  then Ok (GreedyPHANTOM.get_virtual_block_parents (dag s), s)
  else
    s1 ← (if did_attack_fail s then _restart_attack fuel s else Ok s);
    Ok (_virtual_competing_chain_block_parents s1, s1).

(** [did_attack_succeed]: the value of the [and] chain is that of its last
    operand evaluated, so the call answers what [is_a_before_b] answered
    when both depths are large enough.  The order query may colour and
    order the antipast of the DAG. *)
Definition did_attack_succeed (fuel : nat) (s : t) : result (tri * t) :=
  if did_attack_fail s then Ok (Some false, s)
  else
    match _first_parallel_block_gid s, _currently_attacked_block_gid s with
    | Some first_parallel, Some attacked =>
        own_depth ← GreedyPHANTOM.get_depth fuel (dag s) first_parallel;
        if negb (depth_ge own_depth (_confirmation_depth s)) then Ok (Some false, s)
        else
          honest_depth ← GreedyPHANTOM.get_depth fuel (_honest_dag s) attacked;
          if negb (depth_ge honest_depth (_confirmation_depth s)) then Ok (Some false, s)
          else
            '(answer, d) ← greedy_is_a_before_b fuel (dag s) first_parallel attacked;
            Ok (answer, upd_dag d s)
    | _, _ => Ok (Some false, s)
    end.

(** The last statement of [add]: what is done when an attack is under
    way. *)
Definition track_attack (fuel : nat) (s : t) (block : Block) : result t :=
  let gid := global_id block in
  if negb (did_attack_fail s) then
    (* need to update the data structure only if in the middle of a
       (seemingly) successful attack *)
    let s1 := upd_competing_chain_tip_antipast
                ({[ gid ]} ∪ _competing_chain_tip_antipast s) s in
    tip_is_bluer ←
      (if bool_decide (Some gid = _competing_chain_tip_gid s1) then Ok true
       else match _competing_chain_tip_gid s1 with
            | Some tip => GreedyPHANTOM._is_a_bluer_than_b (dag s1) tip gid
            | None => Raise KeyError
            end);
    if tip_is_bluer : bool then
      Ok (upd_virtual_competing_chain_block_parents
            ({[ gid ]} ∪ (_virtual_competing_chain_block_parents s1 ∖ get_parents block)) s1)
    else
      viable ← _is_attack_viable s1;
      if viable : bool then Ok s1 else _stop_attack fuel s1
  else Ok s.

(** Everything [add] does before that last statement. *)
Definition insert (fuel : nat) (s : t) (block : Block) (is_malicious : bool) : result t :=
  d ← GreedyPHANTOM.add fuel (dag s) block;
  let s0 := upd_dag d s in
  let gid := global_id block in
  s2 ←
    (if is_malicious then
       let s1 := upd_malicious_blocks_to_add_to_honest_dag
                   (_malicious_blocks_to_add_to_honest_dag s0 ++ [gid]) s0 in
       let s1 := if did_attack_fail s1 then upd_first_parallel_block_gid (Some gid) s1
                 else s1 in
       (* The malicious attack generates a chain, so the new tip is the
          current block *)
       let s1 := upd_competing_chain_tip_gid (Some gid) s1 in
       blue_diff ← getitem (GreedyPHANTOM.blue_diff_order (dag s1)) gid;
       blue_keys ← GreedyPHANTOM.diff_keys (dag s1) blue_diff;
       red_diff ← getitem (GreedyPHANTOM.red_diff_order (dag s1)) gid;
       red_keys ← GreedyPHANTOM.diff_keys (dag s1) red_diff;
       let s1 := upd_competing_chain_tip_antipast
                   ((_competing_chain_tip_antipast s1 ∖ blue_keys) ∖ red_keys) s1 in
       parents ← _get_competing_chain_tip_parents fuel s1 gid
                   (_competing_chain_tip_antipast s1) (get_parents block);
       Ok (upd_virtual_competing_chain_block_parents parents s1)
     else
       (* Add malicious blocks to the honest DAG as soon as possible *)
       s1 ← (if did_attack_fail s0 then _add_malicious_blocks_to_honest_dag fuel s0
             else Ok s0);
       honest ← GreedyPHANTOM.add fuel (_honest_dag s1) block;
       Ok (upd_honest_dag honest s1));
  '(succeeded, s3) ← did_attack_succeed fuel s2;
  if tri_truthy succeeded then _add_malicious_blocks_to_honest_dag fuel s3 else Ok s3.

Definition add (fuel : nat) (s : t) (block : Block) (is_malicious : bool) : result t :=
  s1 ← insert fuel s block is_malicious;
  track_attack fuel s1 block.

(** The calls a miner makes on the DAG. *)
Inductive call : Type :=
  | Add (block : Block) (is_malicious : bool)
  | GetVirtualBlockParents (is_malicious : bool).

Definition run_call (fuel : nat) (s : t) (c : call) : result t :=
  match c with
  | Add block is_malicious => add fuel s block is_malicious
  | GetVirtualBlockParents is_malicious =>
      '(_, s') ← get_virtual_block_parents fuel s is_malicious; Ok s'
  end.

Fixpoint run (fuel : nat) (s : t) (calls : list call) : result t :=
  match calls with
  | [] => Ok s
  | c :: rest => s' ← run_call fuel s c; run fuel s' rest
  end.

End CompetingChain.

(** The competing-chain engine is a PHANTOM DAG too: it inherits
    [__contains__] and [_get_local_id] from the greedy engine. *)
Definition competing_chain_dag (fuel : nat) : PhantomDAG CompetingChain.t :=
  {| dag_contains := CompetingChain.contains;
     dag_get_local_id := λ s gid,
       '(l, d) ← GreedyPHANTOM._get_local_id fuel (CompetingChain.dag s) gid;
       Ok (l, CompetingChain.upd_dag d s) |}.

(** ** lazy_set.py: the set interface built on the layers

    Arguments written [other : gset A] are iterables that the method copies
    into a new set ([set(other)], [{elem}]); arguments written [other : nat]
    are set objects that the method layers or tests as they are. *)

Module LazySetMethods.
Import LazySet.
Section Elements.
Context `{Countable A}.

Abbreviation store := (list (gset A)).

(** [set( *others )]: no argument gives the empty set, one argument is
  copied, more are a [TypeError]. *)
Definition set_of (others : list (gset A)) : result (gset A) :=
match others with
| [] => Ok ∅
| [other] => Ok other
| _ => Raise TypeError
end.

(** [update], [__ior__]. *)
Definition update (h : store) (L : t) (others : list (gset A)) : result (store * t) :=
new ← set_of others;
let '(h', a) := alloc h new in
Ok (h', lazy_update h' L a).

(** [union], [__or__]. *)
Definition union (h : store) (L : t) (others : list (gset A)) : result (store * t) :=
update h (copy L) others.

(** [difference_update], [__isub__]. *)
Definition difference_update (h : store) (L : t) (others : list (gset A))
  : result (store * t) :=
new ← set_of others;
let '(h', a) := alloc h new in
Ok (h', lazy_difference_update h' L a).

(** [difference], [__sub__]. *)
Definition difference (h : store) (L : t) (others : list (gset A)) : result (store * t) :=
difference_update h (copy L) others.

(** [_intersection]: the copy of the LazySet as a built-in set, updated in
  place by [intersection_update( *others )]; returned as it is
  ([as_set]) or as the base of a new LazySet. *)
Definition intersection_set (h : store) (L : t) (others : list (gset A)) : store * nat :=
let '(h1, r) := copy_to_set h L in
(<[ r := foldl (∩) (fetch h1 r) others ]> h1, r).

Definition _intersection_as_set (h : store) (L : t) (others : list (gset A)) : store * nat :=
intersection_set h L others.

(** The default [negative_sets] and [positive_sets] of the constructor are
  one empty frozenset each, which no call layers. *)
Definition _intersection_as_lazy (h : store) (L : t) (others : list (gset A)) : store * t :=
let '(h1, r) := intersection_set h L others in
let '(h2, e1) := alloc h1 ∅ in
let '(h3, e2) := alloc h2 ∅ in
(h3, init h3 r [e1] [e2]).

(** [intersection], [__and__]. *)
Definition intersection (h : store) (L : t) (others : list (gset A)) : store * t :=
_intersection_as_lazy h L others.

(** [intersection_update], [__iand__]. *)
Definition intersection_update (h : store) (L : t) (others : list (gset A)) : store * t :=
let '(h1, r) := _intersection_as_set h L others in
(h1, lazy_update h1 (clear L) r).

(** The loop of [symmetric_difference_update] over [chain(self, other)]. *)
Fixpoint common_elements (h : store) (L : t) (other : nat) (items : list A)
  (elements_in_common : gset A) : gset A :=
match items with
| [] => elements_in_common
| elem :: rest =>
    common_elements h L other rest
      (if bool_decide (elem ∈ fetch h other) && contains h L elem
       then {[ elem ]} ∪ elements_in_common else elements_in_common)
end.

(** [symmetric_difference_update], [__ixor__]: [other] itself is layered. *)
Definition symmetric_difference_update (h : store) (L : t) (other : nat) : store * t :=
let elements_in_common :=
  common_elements h L other (iter h L ++ elements (fetch h other)) ∅ in
let L1 := lazy_update h L other in
let '(h', a) := alloc h elements_in_common in
(h', lazy_difference_update h' L1 a).

(** [symmetric_difference], [__xor__]. *)
Definition symmetric_difference (h : store) (L : t) (other : nat) : store * t :=
symmetric_difference_update h (copy L) other.

(** [_subset_check(set1, set2)]: [items] is the iteration of [set1],
  [mem] the membership test of [set2]. *)
Fixpoint _subset_check (items : list A) (mem : A → bool) : bool :=
match items with
| [] => true
| item :: rest => if negb (mem item) then false else _subset_check rest mem
end.

(** [issubset], [__le__]. *)
Definition issubset (h : store) (L : t) (other : gset A) : bool :=
_subset_check (iter h L) (λ item, bool_decide (item ∈ other)).

(** [issuperset], [__ge__]. *)
Definition issuperset (h : store) (L : t) (other : gset A) : bool :=
_subset_check (elements other) (contains h L).

(** [__lt__]: at the first item of [other] missing in [self] the answer
  is [self <= other]. *)
Fixpoint lt_from (h : store) (L : t) (other : gset A) (items : list A) : bool :=
match items with
| [] => false
| item :: rest =>
    if negb (contains h L item) then issubset h L other
    else lt_from h L other rest
end.

Definition lt (h : store) (L : t) (other : gset A) : bool :=
lt_from h L other (elements other).

(** [__gt__]: [other <= self] on a built-in set [other] is answered by
  the reflected [self >= other]. *)
Fixpoint gt_from (h : store) (L : t) (other : gset A) (items : list A) : bool :=
match items with
| [] => false
| item :: rest =>
    if negb (bool_decide (item ∈ other)) then issuperset h L other
    else gt_from h L other rest
end.

Definition gt (h : store) (L : t) (other : gset A) : bool :=
gt_from h L other (iter h L).

(** [__eq__]: [self <= other <= self]. *)
Definition eq (h : store) (L : t) (other : gset A) : bool :=
issubset h L other && issuperset h L other.

(** [__ne__]. *)
Definition ne (h : store) (L : t) (other : gset A) : bool := negb (eq h L other).

(** [add]. *)
Definition add (h : store) (L : t) (elem : A) : result (store * t) :=
update h L [ {[ elem ]} ].

(** [discard]. *)
Definition discard (h : store) (L : t) (elem : A) : result (store * t) :=
difference_update h L [ {[ elem ]} ].

(** [remove]. *)
Definition remove (h : store) (L : t) (elem : A) : result (store * t) :=
if negb (contains h L elem) then Raise KeyError else discard h L elem.

End Elements.
End LazySetMethods.

(** ** blockchain.py: the chains that are grown block by block *)

Module BlockchainRuns.
Import Blockchain.

(** The states reached from the empty chain by adding blocks whose ids are
    new, as a miner does. *)
Inductive grown : t → Prop :=
  | grown_init : grown init
  | grown_add s block s' :
      grown s → contains s (global_id block) = false → add s block = Ok s' → grown s'.

Fixpoint add_all (s : t) (blocks : list Block) : result t :=
  match blocks with
  | [] => Ok s
  | block :: rest => s' ← add s block; add_all s' rest
  end.

(** [add_all] on blocks whose ids are new when their turn comes. *)
Fixpoint grow (s : t) (blocks : list Block) : option t :=
  match blocks with
  | [] => Some s
  | block :: rest =>
      if contains s (global_id block) then None
      else match add s block with
           | Ok s' => grow s' rest
           | _ => None
           end
  end.

(** The block a block was attached to: its only successor. *)
Definition parent_of (g : DiGraph.t) (n : Z) : option Z :=
  match DiGraph.succ g !! n with
  | Some (p :: _) => Some p
  | _ => None
  end.

(** [on_path g n a]: [a] is [n] or is met going from parent to parent
    from [n]. *)
Inductive on_path (g : DiGraph.t) : Z → Z → Prop :=
  | on_path_here n : on_path g n n
  | on_path_parent n p a : parent_of g n = Some p → on_path g p a → on_path g n a.

(** Every block has at most one edge, to the block it was attached to,
    whose chain is shorter by one. *)
Definition linked (s : t) : Prop :=
  ∀ g, g ∈ DiGraph.nodes (_G s) →
    ∃ len, chain_length s !! g = Some len ∧
      ((DiGraph.succ (_G s) !! g = Some [] ∧ len = 1) ∨
       ∃ p, DiGraph.succ (_G s) !! g = Some [p] ∧ p ∈ DiGraph.nodes (_G s) ∧
            chain_length s !! p = Some (len - 1)).

(** The longest chain is the tip with the blocks met going from parent to
    parent from it. *)
Definition chain_is_path (s : t) : Prop :=
  match _longest_chain_tip_gid s with
  | None => _longest_chain s = ∅
  | Some tip => ∀ a, a ∈ _longest_chain s ↔ on_path (_G s) tip a
  end.

(** What every state keeps: nodes are the blocks with a chain length,
    chain lengths are positive, the blocks of the longest chain are nodes. *)
Definition consistent (s : t) : Prop :=
  (∀ g, g ∈ DiGraph.nodes (_G s) ↔ is_Some (chain_length s !! g)) ∧
  (∀ g len, chain_length s !! g = Some len → 1 ≤ len) ∧
  (∀ g, g ∈ _longest_chain s → g ∈ DiGraph.nodes (_G s)).

(** The tip is the block of greatest chain length, and of least id among
    those; there is none only in the empty chain. *)
Definition tip_is_longest (s : t) : Prop :=
  match _longest_chain_tip_gid s with
  | None => DiGraph.nodes (_G s) = [] ∧ _longest_chain s = ∅
  | Some tip =>
      tip ∈ _longest_chain s ∧
      ∃ tip_len, chain_length s !! tip = Some tip_len ∧
        ∀ g len, chain_length s !! g = Some len →
          len < tip_len ∨ (len = tip_len ∧ tip ≤ g)
  end.

End BlockchainRuns.

(** ** The shape of the graphs the engines build *)

Module DiGraphShape.
Import DiGraph.

(** Every node has its list of successors, and the successors are
    nodes. *)
Definition closed (g : t) : Prop :=
  (∀ n, n ∈ nodes g ↔ is_Some (succ g !! n)) ∧
  (∀ n l m, succ g !! n = Some l → m ∈ l → m ∈ nodes g).

End DiGraphShape.

(** ** phantom.py: what the runs of the brute-force engine keep *)

Module PHANTOMRuns.
Import DiGraph DiGraphShape PHANTOM.

(** A colouring is valid when every blue block has at most [k] blue blocks
    in its anticone. *)
Definition valid_coloring (k : Z) (anticones : list (Z * gset Z)) (coloring : gset Z) : Prop :=
  ∀ b anticone, (b, anticone) ∈ anticones → b ∈ coloring →
    Z.of_nat (size (anticone ∩ coloring)) ≤ k.

(** A k-cluster of the DAG: a set of blocks each of which has at most [k]
    blocks of the set in its anticone. *)
Definition k_cluster (k : Z) (g : DiGraph.t) (c : gset Z) : Prop :=
  (∀ b, b ∈ c → b ∈ nodes g) ∧
  ∀ b, b ∈ c → Z.of_nat (size (__get_anticone g b ∩ c)) ≤ k.

Definition maximum_k_cluster (k : Z) (g : DiGraph.t) (c : gset Z) : Prop :=
  k_cluster k g c ∧ ∀ c', k_cluster k g c' → (size c' ≤ size c)%nat.

(** What a call of the orderer that returns has done: the blocks it
    ordered are the ones it marked, and every leaf it was given is marked. *)
Definition orders_leaves (recurse : gset Z → gset Z → result (list Z * gset Z)) : Prop :=
  ∀ leaves ordered order ordered',
    recurse leaves ordered = Ok (order, ordered') →
    ordered' = ordered ∪ list_to_set order ∧ leaves ⊆ ordered'.

(** A call that is given enough fuel returns. *)
Definition returns_below (recurse : gset Z → gset Z → result (list Z * gset Z))
    (N : gset Z) (bound : nat) : Prop :=
  ∀ leaves ordered, leaves ⊆ N → (size (N ∖ ordered) < bound)%nat →
    ∃ order ordered', recurse leaves ordered = Ok (order, ordered').

(** What the states reached by [add] keep. *)
Definition inv (k : Z) (s : t) : Prop :=
  closed (_G s) ∧
  (∀ x, x ∈ _leaves s → x ∈ nodes (_G s)) ∧
  (∀ n, n ∈ nodes (_G s) → is_Some (lid s !! n)) ∧
  (∀ b, b ∈ _coloring s →
     Z.of_nat (size (__get_anticone (_G s) b ∩ _coloring s)) ≤ k) ∧
  _k s = k.

(** The state between the two updates of [add]. *)
Definition coloured (s : t) (block : Block) : t :=
  _update_coloring_incrementally
    (mk (add_block_to_graph (_G s) block)
        (<[ global_id block := block ]> (block_data s))
        (lid s) (blue_anticone s)
        (update_leaves (_leaves s) block)
        (_coloring s) (_genesis_gid s) (_k s))
    (global_id block).

End PHANTOMRuns.

(** ** greedy_phantom.py: what the steps of [add] leave alone *)

Module GreedyRuns.
Import GreedyPHANTOM.

(** What colouring and ordering leave alone: the graph, the blocks, and the attributes [coloring_parent],
    [height_key] and [blue_blocks_number] of the nodes are written by the
    first statements of [_update_coloring_incrementally] and by
    [_update_diff_coloring_of_block] only. *)
Definition same_graph (s s' : t) : Prop :=
  _G s' = _G s ∧ block_data s' = block_data s ∧
  coloring_parent s' = coloring_parent s ∧ height_key s' = height_key s ∧
  _leaves s' = _leaves s ∧ _k s' = _k s ∧ _antipast s' = _antipast s.

Definition same_attributes (s s' : t) : Prop :=
  same_graph s s' ∧ blue_blocks_number s' = blue_blocks_number s.

(** In [order], every block comes after those of its parents that are to
    be ordered. *)
Definition parents_first (g : DiGraph.t) (unordered : gset Z) (order : list Z) : Prop :=
  ∀ i x successors p,
    order !! i = Some x → DiGraph.succ g !! x = Some successors →
    p ∈ successors → p ∈ unordered →
    ∃ j, (j < i)%nat ∧ order !! j = Some p.

(** Every node is a block that was added: it has its data and its
    colouring attributes, and only nodes have a blue number. *)
Definition all_blocks (s : t) : Prop :=
  DiGraphShape.closed (_G s) ∧
  (∀ g, g ∈ DiGraph.nodes (_G s) →
     is_Some (block_data s !! g) ∧ is_Some (coloring_parent s !! g) ∧
     is_Some (height_key s !! g) ∧ is_Some (blue_blocks_number s !! g)) ∧
  (∀ g, is_Some (blue_blocks_number s !! g) → g ∈ DiGraph.nodes (_G s)).

(** What [add] has written when [_get_bluest] raises on the parents of
    the block: the node, its data, an edge to every declared parent (which
    creates the parents that are missing), the leaves, and the order index
    of the block. *)
Definition interrupted_add (s : t) (block : Block) : t :=
  let gid := global_id block in
  let s1 := upd_leaves (update_leaves (_leaves s) block)
              (upd_block_data (<[ gid := block ]> (block_data s))
                 (upd_G (add_block_to_graph (_G s) block) s)) in
  upd_self_order_index (<[ gid := None ]> (self_order_index s1)) s1.

(** The walk of [get_depth] along the colouring chain: from [cur] it
    passes the blocks [passed], none of which has [gid] in its red or in
    its blue diff past, and comes to [stop] ([None] after the last block of
    the chain). *)
Inductive walks (s : t) (gid : Z) : option Z → list Z → option Z → Prop :=
  | walks_stop cur : walks s gid cur [] cur
  | walks_step c red_diff blue_diff next passed stop :
      red_diff_order s !! c = Some red_diff → diff_mem s red_diff gid = false →
      blue_diff_order s !! c = Some blue_diff → diff_mem s blue_diff gid = false →
      coloring_parent s !! c = Some next →
      walks s gid next passed stop →
      walks s gid (Some c) (c :: passed) stop.

(** The sizes of the blue diff pasts of the blocks [passed], added up. *)
Definition blue_added (s : t) (passed : list Z) : Z :=
  foldr (λ c n, default 0 (diff_len s <$> blue_diff_order s !! c) + n) 0 passed.

End GreedyRuns.

(** ** competing_chain_greedy_phantom.py: the honest copy and the queue *)

Module CompetingChainRuns.
Import CompetingChain.

(** The calls of a miner that publishes honest blocks only. *)
Definition honest_calls (blocks : list Block) : list call :=
  (λ block, Add block false) <$> blocks.

(** Every block is stored under its own id. *)
Definition keyed (d : GreedyPHANTOM.t) : Prop :=
  ∀ g block, GreedyPHANTOM.block_data d !! g = Some block → global_id block = g.

(** The blocks of the DAG are those of the honest copy and those that
    wait in the queue. *)
Definition split_blocks (s : t) : Prop :=
  ∀ g, g ∈ DiGraph.nodes (GreedyPHANTOM._G (dag s)) ↔
       g ∈ DiGraph.nodes (GreedyPHANTOM._G (_honest_dag s)) ∨
       g ∈ _malicious_blocks_to_add_to_honest_dag s.

Definition inv (s : t) : Prop :=
  GreedyRuns.all_blocks (dag s) ∧ GreedyRuns.all_blocks (_honest_dag s) ∧
  keyed (dag s) ∧ split_blocks s.

(** What the bookkeeping of an attack leaves alone. *)
Definition same_blocks (s s' : t) : Prop :=
  dag s' = dag s ∧ _honest_dag s' = _honest_dag s ∧
  _malicious_blocks_to_add_to_honest_dag s' = _malicious_blocks_to_add_to_honest_dag s.

End CompetingChainRuns.

(** ** Small DAGs to run the engines on *)

Module Scenarios.

Definition B (gid : Z) (parents : list Z) : Block := mkBlock gid (list_to_set parents).

(** The LazySet {1, 2} less {1}, over two set objects. *)
Definition sets12 : list (gset Z) := [ {[1; 2]}; {[1]} ].
Definition lazy12 : LazySet.t :=
  LazySet.build sets12 [LazySet.LazyUpdate 0; LazySet.LazyDifferenceUpdate 1].

(** A genesis, its child, and three children of that one. *)
Definition fan : list Block := [B 0 []; B 1 [0]; B 2 [1]; B 3 [1]; B 4 [1]].

(** A block whose parent no engine was ever given. *)
Definition stray : Block := B 9 [7].

(** A genesis with two children. *)
Definition fork : list Block := [B 0 []; B 1 [0]; B 2 [0]].

Definition forked_chain : Blockchain.t :=
  match BlockchainRuns.add_all Blockchain.init fork with
  | Ok s => s
  | _ => Blockchain.init
  end.

(** A genesis and two children, the second of which takes the tip from
    the first. *)
Definition switch : list Block := [B 0 []; B 2 [0]; B 1 [0]].

Definition switched_chain : Blockchain.t :=
  match BlockchainRuns.add_all Blockchain.init switch with
  | Ok s => s
  | _ => Blockchain.init
  end.

Definition brute_force_fan : PHANTOM.t :=
  match PHANTOM.add_all 8 (PHANTOM.init 1) fan with
  | Ok s => s
  | _ => PHANTOM.init 1
  end.

(** A block whose parent was never added. *)
Definition orphan : PHANTOM.t :=
  match PHANTOM.add 4 (PHANTOM.init 1) (B 1 [0]) with
  | Ok s => s
  | _ => PHANTOM.init 1
  end.

Definition greedy_fan : GreedyPHANTOM.t :=
  match GreedyPHANTOM.add_all 20 (GreedyPHANTOM.init 1) fan with
  | Ok s => s
  | _ => GreedyPHANTOM.init 1
  end.

(** Blocks 2, 3 and 4 with 1, 3 and 3 blue blocks in their past. *)
Definition blue_numbers : GreedyPHANTOM.t :=
  GreedyPHANTOM.upd_blue_blocks_number (list_to_map [(2, 1); (3, 3); (4, 3)])
    (GreedyPHANTOM.init 1).

Definition greedy_genesis : GreedyPHANTOM.t :=
  match GreedyPHANTOM.add 20 (GreedyPHANTOM.init 1) (B 0 []) with
  | Ok s => s
  | _ => GreedyPHANTOM.init 1
  end.

Definition greedy_pair : GreedyPHANTOM.t :=
  match GreedyPHANTOM.add 20 greedy_genesis (B 1 [0]) with
  | Ok s => s
  | _ => GreedyPHANTOM.init 1
  end.

(** A genesis and its child, then an attack on them: the attacker asks
    for parents and publishes a block of its own. *)
Definition attack : list CompetingChain.call :=
  [ CompetingChain.Add (B 0 []) false; CompetingChain.Add (B 1 [0]) false;
    CompetingChain.GetVirtualBlockParents true; CompetingChain.Add (B 2 [0]) true ].

Definition attacked : CompetingChain.t :=
  match CompetingChain.run 20 (CompetingChain.init 1 5 5) attack with
  | Ok s => s
  | _ => CompetingChain.init 1 5 5
  end.

(** A malicious block published before any attack was begun. *)
Definition published : CompetingChain.t :=
  match CompetingChain.add 20 (CompetingChain.init 1 5 5) (B 0 []) true with
  | Ok s => s
  | _ => CompetingChain.init 1 5 5
  end.

(** The fan with blocks 2, 3 and 4 given 1, 2 and 2 blue blocks in their
    past, and a child of the three. *)
Definition ranked : GreedyPHANTOM.t :=
  GreedyPHANTOM.upd_blue_blocks_number
    (<[ 2 := 1 ]> (<[ 3 := 2 ]> (<[ 4 := 2 ]> (GreedyPHANTOM.blue_blocks_number greedy_fan))))
    greedy_fan.

Definition ranked_child : GreedyPHANTOM.t :=
  match GreedyPHANTOM.add 20 ranked (B 5 [2; 3; 4]) with
  | Ok s => s
  | _ => ranked
  end.

(** The fork with k = 0, in both engines. *)
Definition brute_force_fork : PHANTOM.t :=
  match PHANTOM.add_all 8 (PHANTOM.init 0) fork with
  | Ok s => s
  | _ => PHANTOM.init 0
  end.

Definition greedy_fork : GreedyPHANTOM.t :=
  match GreedyPHANTOM.add_all 20 (GreedyPHANTOM.init 0) fork with
  | Ok s => s
  | _ => GreedyPHANTOM.init 0
  end.

Definition greedy_fork_coloring : gset Z * GreedyPHANTOM.t :=
  match GreedyPHANTOM._get_coloring 20 greedy_fork with
  | Ok r => r
  | _ => (∅, greedy_fork)
  end.

(** An attack that tolerates no lag (the maximal depth difference is -1):
    the attacker publishes block 5 on the genesis, then an honest block 3
    arrives on block 1. *)
Definition lagging_attack : list CompetingChain.call :=
  [ CompetingChain.Add (B 0 []) false; CompetingChain.Add (B 1 [0]) false;
    CompetingChain.GetVirtualBlockParents true; CompetingChain.Add (B 5 [0]) true ].

Definition lagging : CompetingChain.t :=
  match CompetingChain.run 20 (CompetingChain.init 1 5 (-1)) lagging_attack with
  | Ok s => s
  | _ => CompetingChain.init 1 5 (-1)
  end.

Definition lagging_inserted : CompetingChain.t :=
  match CompetingChain.insert 20 lagging (B 3 [1]) false with
  | Ok s => s
  | _ => lagging
  end.

Definition lagging_stopped : CompetingChain.t :=
  match CompetingChain.add 20 lagging (B 3 [1]) false with
  | Ok s => s
  | _ => lagging
  end.

Definition greedy_fan_coloring : gset Z * GreedyPHANTOM.t :=
  match GreedyPHANTOM._get_coloring 20 greedy_fan with
  | Ok r => r
  | _ => (∅, greedy_fan)
  end.

(** The DAG of the colouring tests of the repository: a genesis, blocks 1
    and 2 on it, block 3 on both, and the chain 4, 5, 6 on the genesis;
    with k = 2, in both engines. *)
Definition two_branches : list Block :=
  [B 0 []; B 1 [0]; B 2 [0]; B 3 [1; 2]; B 4 [0]; B 5 [4]; B 6 [5]].

Definition brute_force_two_branches : PHANTOM.t :=
  match PHANTOM.add_all 12 (PHANTOM.init 2) two_branches with
  | Ok s => s
  | _ => PHANTOM.init 2
  end.

Definition greedy_two_branches : GreedyPHANTOM.t :=
  match GreedyPHANTOM.add_all 30 (GreedyPHANTOM.init 2) two_branches with
  | Ok s => s
  | _ => GreedyPHANTOM.init 2
  end.

Definition greedy_two_branches_coloring : gset Z * GreedyPHANTOM.t :=
  match GreedyPHANTOM._get_coloring 30 greedy_two_branches with
  | Ok r => r
  | _ => (∅, greedy_two_branches)
  end.

(** A chain of three blocks with k = 0, in both engines. *)
Definition chain3 : list Block := [B 0 []; B 1 [0]; B 2 [1]].

Definition brute_force_chain : PHANTOM.t :=
  match PHANTOM.add_all 8 (PHANTOM.init 0) chain3 with
  | Ok s => s
  | _ => PHANTOM.init 0
  end.

Definition greedy_chain : GreedyPHANTOM.t :=
  match GreedyPHANTOM.add_all 20 (GreedyPHANTOM.init 0) chain3 with
  | Ok s => s
  | _ => GreedyPHANTOM.init 0
  end.

Definition greedy_chain_coloring : gset Z * GreedyPHANTOM.t :=
  match GreedyPHANTOM._get_coloring 20 greedy_chain with
  | Ok r => r
  | _ => (∅, greedy_chain)
  end.

(** An attack that needs no confirmation (the confirmation depth is 0):
    on the genesis 5 and its child 3, the attacker publishes block 1 on
    the genesis. *)
Definition overtaking : list CompetingChain.call :=
  [ CompetingChain.Add (B 5 []) false; CompetingChain.Add (B 3 [5]) false;
    CompetingChain.GetVirtualBlockParents true; CompetingChain.Add (B 1 [5]) true ].

Definition overtaken : CompetingChain.t :=
  match CompetingChain.run 30 (CompetingChain.init 1 0 5) overtaking with
  | Ok s => s
  | _ => CompetingChain.init 1 0 5
  end.

Definition overtaken_queried : tri * CompetingChain.t :=
  match CompetingChain.did_attack_succeed 30 overtaken with
  | Ok r => r
  | _ => (None, overtaken)
  end.

(** A genesis, two blocks on it and a block on both, with k = 4. *)
Definition square : list Block := [B 0 []; B 1 [0]; B 2 [0]; B 3 [1; 2]].

Definition greedy_square : GreedyPHANTOM.t :=
  match GreedyPHANTOM.add_all 20 (GreedyPHANTOM.init 4) square with
  | Ok s => s
  | _ => GreedyPHANTOM.init 4
  end.

(** The square with the attributes that [test_coloring_basic] of
    [test_greedy_coloring.py] expects after the four blocks were added:
    block 3 is the coloring tip and the one block of the antipast; the blue
    diff past of block 3 holds blocks 1 and 2, those of blocks 1 and 2 hold
    the genesis, and every red diff past is empty; blocks 1, 2 and 3 have
    1, 1 and 3 blue blocks in their past. *)
Definition tested_square : GreedyPHANTOM.t :=
  let n := length (GreedyPHANTOM.dicts greedy_square) in
  GreedyPHANTOM.upd_antipast {[ 3 ]}
    (GreedyPHANTOM.upd_coloring_tip_gid (Some 3)
       (GreedyPHANTOM.upd_blue_blocks_number
          (<[ 3 := 3 ]> (<[ 2 := 1 ]> (<[ 1 := 1 ]>
             (GreedyPHANTOM.blue_blocks_number greedy_square))))
          (GreedyPHANTOM.upd_red_diff_order
             (<[ 3 := DiffDict (n + 3) ]> (<[ 2 := DiffDict (n + 3) ]>
                (<[ 1 := DiffDict (n + 3) ]>
                   (GreedyPHANTOM.red_diff_order greedy_square))))
             (GreedyPHANTOM.upd_blue_diff_order
                (<[ 3 := DiffDict n ]> (<[ 2 := DiffDict (n + 2) ]>
                   (<[ 1 := DiffDict (n + 1) ]>
                      (GreedyPHANTOM.blue_diff_order greedy_square))))
                (GreedyPHANTOM.upd_dicts
                   (GreedyPHANTOM.dicts greedy_square
                      ++ [ {[ 1 := None; 2 := None ]}; {[ 0 := None ]}; {[ 0 := None ]}; ∅ ])
                   greedy_square))))).

End Scenarios.

(** * Properties of LazySet *)

Module LazySetFacts.
Import LazySet.
Section Elements.
Context `{Countable A}.
Implicit Types (h : list (gset A)) (pos : gset nat) (sets : list nat) (acc X dny : gset A)
(items : list A) (L : t) (x : A).

(** One layer applied to the set accumulated so far. *)
Definition layer pos h (index : nat) (cur_set : nat) acc : gset A :=
if bool_decide (index ∈ pos) then acc ∪ fetch h cur_set else acc ∖ fetch h cur_set.

Lemma denote_from_app h pos i l1 l2 acc :
denote_from h pos i (l1 ++ l2) acc =
denote_from h pos (i + length l1) l2 (denote_from h pos i l1 acc).
Proof.
revert i acc. induction l1 as [|r l1 IH]; intros i acc; simpl.
- by rewrite Nat.add_0_r.
- rewrite IH. f_equal. lia.
Qed.

Lemma denote_from_snoc h pos sets r :
denote_from h pos 0 (sets ++ [r]) ∅ =
layer pos h (length sets) r (denote_from h pos 0 sets ∅).
Proof. by rewrite denote_from_app. Qed.

(** Only the positions inside the list matter. *)
Lemma denote_from_ext h pos pos' i sets acc :
(∀ j, (i ≤ j < i + length sets)%nat → j ∈ pos ↔ j ∈ pos') →
denote_from h pos i sets acc = denote_from h pos' i sets acc.
Proof.
revert i acc. induction sets as [|r sets IH]; intros i acc Hagree; simpl; [done|].
rewrite (bool_decide_ext (i ∈ pos) (i ∈ pos')) by (apply Hagree; simpl; lia).
apply IH. intros j Hj. apply Hagree. simpl. lia.
Qed.

Lemma in_drop (l : list nat) n r : r ∈ drop n l → r ∈ l.
Proof.
intros [i Hi]%list_elem_of_lookup. rewrite lookup_drop in Hi.
by eapply list_elem_of_lookup_2.
Qed.

(** Only the sets that are layered matter. *)
Lemma denote_from_store_ext h h' pos i sets acc :
(∀ r, r ∈ sets → fetch h' r = fetch h r) →
denote_from h' pos i sets acc = denote_from h pos i sets acc.
Proof.
revert i acc. induction sets as [|r sets IH]; intros i acc Hsame; simpl; [done|].
rewrite Hsame by left. apply IH. intros r' ?. apply Hsame. by right.
Qed.

Lemma contains_from_shift h pos n i rsets x :
contains_from h pos (S n) (S i) rsets x = contains_from h pos n i rsets x.
Proof.
revert i. induction rsets as [|r rsets IH]; intros i; simpl; [done|].
by rewrite IH.
Qed.

Lemma iter_from_shift h pos n i rsets dny :
iter_from h pos (S n) (S i) rsets dny = iter_from h pos n i rsets dny.
Proof.
revert i dny. induction rsets as [|r rsets IH]; intros i dny; simpl; [done|].
case_bool_decide.
- destruct (yield_new (elements (fetch h r)) dny) as [ys dny']. by rewrite IH.
- by rewrite IH.
Qed.

(** Membership scans the layers backwards; the answer is membership in the
  set the layers stand for. *)
Lemma contains_from_denote h pos sets x :
contains_from h pos (length sets) 0 (rev sets) x =
bool_decide (x ∈ denote_from h pos 0 sets ∅).
Proof.
induction sets as [|r sets IH] using rev_ind; simpl.
- symmetry. apply bool_decide_eq_false. set_solver.
- rewrite rev_unit, length_app, denote_from_snoc. simpl.
  replace (length sets + 1)%nat with (S (length sets)) by lia.
  replace (S (length sets) - 0 - 1)%nat with (length sets) by lia.
  rewrite contains_from_shift, IH. unfold layer.
  repeat case_bool_decide; set_solver.
Qed.

Lemma contains_denote h L x :
contains h L x = bool_decide (x ∈ denote h L).
Proof. apply contains_from_denote. Qed.

Lemma yield_new_spec items dny :
let '(ys, dny') := yield_new items dny in
dny' = dny ∪ list_to_set items ∧
NoDup ys ∧
∀ x, x ∈ ys ↔ x ∈ items ∧ x ∉ dny.
Proof.
revert dny. induction items as [|item items IH]; intros dny; simpl.
- split; [set_solver|]. split; [constructor|]. set_solver.
- case_bool_decide as Hin.
  + specialize (IH dny). destruct (yield_new items dny) as [ys dny'].
    destruct IH as (-> & Hnd & Hys). split; [set_solver|]. split; [done|].
    intros x. rewrite Hys. set_solver.
  + specialize (IH ({[item]} ∪ dny)).
    destruct (yield_new items ({[item]} ∪ dny)) as [ys dny'].
    destruct IH as (-> & Hnd & Hys). split; [set_solver|]. split.
    * constructor; [|done]. rewrite Hys. set_solver.
    * intros x. rewrite elem_of_cons, Hys.
      destruct (decide (x = item)) as [->|]; set_solver.
Qed.

(** Iteration yields, once each, the members that were not excluded. *)
Lemma iter_from_denote h pos sets dny :
NoDup (iter_from h pos (length sets) 0 (rev sets) dny) ∧
∀ x, x ∈ iter_from h pos (length sets) 0 (rev sets) dny ↔
     x ∈ denote_from h pos 0 sets ∅ ∧ x ∉ dny.
Proof.
revert dny. induction sets as [|r sets IH] using rev_ind; intros dny; simpl.
- split; [constructor|]. set_solver.
- rewrite rev_unit, length_app, denote_from_snoc. simpl.
  replace (length sets + 1)%nat with (S (length sets)) by lia.
  replace (S (length sets) - 0 - 1)%nat with (length sets) by lia.
  unfold layer. case_bool_decide as Hpos.
  + pose proof (yield_new_spec (elements (fetch h r)) dny) as Hy.
    destruct (yield_new (elements (fetch h r)) dny) as [ys dny'].
    destruct Hy as (-> & Hnd & Hys).
    rewrite iter_from_shift, list_to_set_elements_L.
    destruct (IH (dny ∪ fetch h r)) as [IHnd IHin].
    split.
    * apply NoDup_app. split; [done|]. split; [|done].
      intros x Hx. rewrite IHin. apply Hys in Hx as [Hx ?].
      apply elem_of_elements in Hx. set_solver.
    * intros x. rewrite elem_of_app, Hys, IHin, elem_of_elements, !elem_of_union.
      destruct (decide (x ∈ fetch h r)); tauto.
  + rewrite iter_from_shift.
    destruct (IH (dny ∪ fetch h r)) as [IHnd IHin].
    split; [done|]. intros x. rewrite IHin. set_solver.
Qed.

Lemma iter_denote h L :
NoDup (iter h L) ∧ ∀ x, x ∈ iter h L ↔ x ∈ denote h L.
Proof.
destruct (iter_from_denote h (_positive_indices L) (_sets L) ∅) as [Hnd Hin].
split; [done|]. intros x. unfold iter, denote. rewrite Hin. set_solver.
Qed.

(** Well-formed LazySets: the positive indices are positions of the list,
  and every layer is a set of the store. *)
Definition wf h L : Prop :=
(∀ i, i ∈ _positive_indices L → (i < length (_sets L))%nat) ∧
(∀ r, r ∈ _sets L → (r < length h)%nat).

Lemma truthy_valid h r : truthy (fetch h r) = true → (r < length h)%nat.
Proof.
unfold truthy, fetch. intros Ht.
destruct (h !! r) eqn:Hr; [by eapply lookup_lt_Some|].
simpl in Ht. by rewrite bool_decide_eq_true_2 in Ht.
Qed.

Lemma truthy_false X : truthy X = false → X = ∅.
Proof. unfold truthy. intros Ht. apply negb_false_iff in Ht. by apply bool_decide_eq_true in Ht. Qed.

Lemma wf_empty h : wf h empty.
Proof. split; simpl; set_solver. Qed.

Lemma wf_run_call h L c : wf h L → wf h (run_call h L c).
Proof.
intros [Hpos Hsets]. destruct c as [r|r]; simpl;
  unfold lazy_update, lazy_difference_update;
  destruct (truthy (fetch h r)) eqn:Ht; try done; split; simpl.
- intros i. rewrite length_app. simpl. rewrite elem_of_union, elem_of_singleton.
  intros [->|Hi]; [lia|]. specialize (Hpos i Hi). lia.
- intros r'. rewrite elem_of_app, list_elem_of_singleton.
  intros [?| ->]; [by apply Hsets|by apply truthy_valid].
- intros i Hi. rewrite length_app. specialize (Hpos i Hi). lia.
- intros r'. rewrite elem_of_app, list_elem_of_singleton.
  intros [?| ->]; [by apply Hsets|by apply truthy_valid].
Qed.

Lemma build_snoc h calls c : build h (calls ++ [c]) = run_call h (build h calls) c.
Proof. unfold build. by rewrite fold_left_app. Qed.

Lemma reference_snoc h calls c :
reference h (calls ++ [c]) = reference_step h (reference h calls) c.
Proof. unfold reference. by rewrite fold_left_app. Qed.

Lemma wf_build h calls : wf h (build h calls).
Proof.
induction calls as [|c calls IH] using rev_ind; [apply wf_empty|].
rewrite build_snoc. by apply wf_run_call.
Qed.

Lemma denote_run_call h L c :
wf h L → denote h (run_call h L c) = reference_step h (denote h L) c.
Proof.
intros [Hpos _]. unfold denote.
destruct c as [r|r]; simpl; unfold lazy_update, lazy_difference_update;
  destruct (truthy (fetch h r)) eqn:Ht; simpl.
- rewrite denote_from_snoc. unfold layer.
  rewrite bool_decide_eq_true_2 by set_solver. f_equal.
  apply denote_from_ext. intros j Hj. rewrite elem_of_union, elem_of_singleton.
  split; [|by right]. intros [->|?]; [lia|done].
- apply truthy_false in Ht. rewrite Ht. set_solver.
- rewrite denote_from_snoc. unfold layer.
  rewrite bool_decide_eq_false_2; [done|].
  intros Hin. specialize (Hpos _ Hin). lia.
- apply truthy_false in Ht. rewrite Ht. set_solver.
Qed.

(** A LazySet built by calls stands for the reference evaluation. *)
Lemma denote_build h calls : denote h (build h calls) = reference h calls.
Proof.
induction calls as [|c calls IH] using rev_ind; [done|].
rewrite build_snoc, reference_snoc, <- IH.
apply denote_run_call, wf_build.
Qed.

(** The base layer found by the first loop of [flatten_to_set]. *)
Lemma base_set_index_from_Some pos i sets b :
base_set_index_from pos i sets = Some b →
(i ≤ b < i + length sets)%nat ∧ b ∈ pos ∧ ∀ j, (i ≤ j < b)%nat → j ∉ pos.
Proof.
revert i. induction sets as [|r sets IH]; intros i; simpl; [done|].
case_bool_decide as Hi.
- intros [= <-]. split; [lia|]. split; [done|]. intros j ?. lia.
- intros Hb. destruct (IH _ Hb) as (Hrange & Hin & Hbefore).
  split; [lia|]. split; [done|]. intros j Hj.
  destruct (decide (j = i)) as [->|]; [done|]. apply Hbefore. lia.
Qed.

Lemma base_set_index_from_None pos i sets :
base_set_index_from pos i sets = None →
∀ j, (i ≤ j < i + length sets)%nat → j ∉ pos.
Proof.
revert i. induction sets as [|r sets IH]; intros i; simpl; [intros _ j; lia|].
case_bool_decide as Hi; [done|]. intros Hn j Hj.
destruct (decide (j = i)) as [->|]; [done|]. apply (IH _ Hn). lia.
Qed.

(** Negative layers before the first positive one remove from nothing. *)
Lemma denote_from_negative_prefix h pos i sets :
(∀ j, (i ≤ j < i + length sets)%nat → j ∉ pos) →
denote_from h pos i sets ∅ = ∅.
Proof.
revert i. induction sets as [|r sets IH]; intros i Hneg; simpl; [done|].
rewrite bool_decide_eq_false_2 by (apply Hneg; simpl; lia).
replace (∅ ∖ fetch h r) with (∅ : gset A) by set_solver.
apply IH. intros j Hj. apply Hneg. simpl. lia.
Qed.

Lemma denote_split_at_base h pos sets b first :
base_set_index_from pos 0 sets = Some b →
sets !! b = Some first →
denote_from h pos 0 sets ∅ =
denote_from h pos (S b) (drop (S b) sets) (fetch h first).
Proof.
intros Hb Hfirst. apply base_set_index_from_Some in Hb as (Hrange & Hin & Hbefore).
rewrite <- (take_drop_middle sets b first Hfirst) at 1.
rewrite denote_from_app. simpl.
assert (length (take b sets) = b) as Hlen by (rewrite length_take; lia).
rewrite Hlen. rewrite bool_decide_eq_true_2 by done.
rewrite denote_from_negative_prefix.
- f_equal. set_solver.
- intros j Hj. apply Hbefore. lia.
Qed.

(** The in-place loop of [flatten_to_set], when the base object is not
  itself one of the remaining layers. *)
Lemma flatten_loop_spec pos base i sets h :
(base < length h)%nat →
base ∉ sets →
fetch (flatten_loop pos base i sets h) base = denote_from h pos i sets (fetch h base) ∧
length (flatten_loop pos base i sets h) = length h ∧
∀ r, r ≠ base → flatten_loop pos base i sets h !! r = h !! r.
Proof.
revert i h. induction sets as [|r sets IH]; intros i h Hbase Hnotin; simpl; [done|].
apply not_elem_of_cons in Hnotin as [Hne Hnotin].
set (v := if bool_decide (i ∈ pos) then fetch h base ∪ fetch h r
          else fetch h base ∖ fetch h r).
assert ((if bool_decide (i ∈ pos)
         then <[base:=fetch h base ∪ fetch h r]> h
         else <[base:=fetch h base ∖ fetch h r]> h) = <[base:=v]> h) as ->
  by (unfold v; by case_bool_decide).
destruct (IH (S i) (<[base:=v]> h)) as (Hval & Hlen & Hother);
  [by rewrite length_insert|done|].
assert (fetch (<[base:=v]> h) base = v) as Hv
  by (unfold fetch; by rewrite list_lookup_insert_eq).
assert (∀ r', r' ≠ base → fetch (<[base:=v]> h) r' = fetch h r') as Hfr
  by (intros r' ?; unfold fetch; by rewrite list_lookup_insert_ne).
split; [|split].
- rewrite Hval, Hv. apply denote_from_store_ext.
  intros r' Hr'. apply Hfr. intros ->. done.
- by rewrite Hlen, length_insert.
- intros r' Hr'. rewrite Hother by done. by rewrite list_lookup_insert_ne.
Qed.

Lemma denote_single h r :
truthy (fetch h r) = true → denote h (Build [r] {[0%nat]}) = fetch h r.
Proof. intros _. unfold denote. simpl. rewrite bool_decide_eq_true_2; set_solver. Qed.

(** What [flatten_to_set(modify=False)] returns on a well-formed LazySet. *)
Lemma flatten_to_set_copy h L :
wf h L →
let res := flatten_to_set false h L in
fetch res.1.1 res.2 = denote h L ∧
denote res.1.1 res.1.2 = denote h L ∧
∀ r, (r < length h)%nat → res.1.1 !! r = h !! r.
Proof.
intros [Hpos Hsets]. unfold flatten_to_set.
destruct (base_set_index_from (_positive_indices L) 0 (_sets L)) as [b|] eqn:Hb; simpl.
- pose proof (base_set_index_from_Some _ _ _ _ Hb) as (Hrange & _ & _).
  destruct (lookup_lt_is_Some_2 (_sets L) b) as [first Hfirst]; [lia|].
  rewrite Hfirst. simpl.
  destruct (flatten_loop_spec (_positive_indices L) (length h) (S b)
              (drop (S b) (_sets L)) (h ++ [fetch h first])) as (Hval & Hlen & Hother).
  { rewrite length_app. simpl. lia. }
  { intros Hin. apply in_drop in Hin. specialize (Hsets _ Hin). lia. }
  set (h2 := flatten_loop (_positive_indices L) (length h) (S b)
               (drop (S b) (_sets L)) (h ++ [fetch h first])) in *.
  assert (fetch (h ++ [fetch h first]) (length h) = fetch h first) as Hnew.
  { unfold fetch at 1. by rewrite lookup_app_r, Nat.sub_diag by lia. }
  assert (fetch h2 (length h) = denote h L) as Hres.
  { rewrite Hval, Hnew. unfold denote.
    rewrite (denote_split_at_base _ _ _ _ _ Hb Hfirst).
    apply denote_from_store_ext. intros r Hin.
    apply in_drop in Hin. specialize (Hsets _ Hin).
    unfold fetch. by rewrite lookup_app_l. }
  split; [done|]. split.
  + unfold lazy_update. simpl. destruct (truthy (fetch h2 (length h))) eqn:Ht.
    * rewrite denote_single by done. done.
    * apply truthy_false in Ht. rewrite <- Hres, Ht. done.
  + intros r Hr. rewrite Hother by lia. by rewrite lookup_app_l.
- split; [|split].
  + unfold fetch at 1. rewrite lookup_app_r, Nat.sub_diag by lia. simpl.
    unfold denote. symmetry. apply denote_from_negative_prefix.
    intros j Hj. by eapply base_set_index_from_None.
  + unfold denote.
    rewrite !denote_from_negative_prefix; [done| |];
      intros j Hj; by eapply base_set_index_from_None.
  + intros r Hr. by rewrite lookup_app_l.
Qed.

(** With [modify=True] the first positive set is updated in place; the
  result is the same provided that object is not layered again later. *)
Lemma flatten_to_set_modify h L b first :
wf h L →
base_set_index_from (_positive_indices L) 0 (_sets L) = Some b →
_sets L !! b = Some first →
first ∉ drop (S b) (_sets L) →
let res := flatten_to_set true h L in
res.2 = first ∧ fetch res.1.1 first = denote h L ∧
∀ r, r ≠ first → res.1.1 !! r = h !! r.
Proof.
intros [Hpos Hsets] Hb Hfirst Hfresh. unfold flatten_to_set.
rewrite Hb, Hfirst. simpl.
destruct (flatten_loop_spec (_positive_indices L) first (S b)
            (drop (S b) (_sets L)) h) as (Hval & Hlen & Hother); [|done|].
{ apply Hsets. by eapply list_elem_of_lookup_2. }
split; [done|]. split; [|done].
rewrite Hval. unfold denote. by rewrite (denote_split_at_base _ _ _ _ _ Hb Hfirst).
Qed.

(** The layers after [flatten_to_set], when there was a positive layer. *)
Lemma flatten_to_set_layers modify h L b :
base_set_index_from (_positive_indices L) 0 (_sets L) = Some b →
let res := flatten_to_set modify h L in
if truthy (fetch res.1.1 res.2)
then res.1.2 = Build [res.2] {[0%nat]}
else res.1.2 = empty.
Proof.
intros Hb. unfold flatten_to_set. rewrite Hb.
destruct modify; simpl; unfold lazy_update; simpl.
- match goal with |- context [truthy ?X] => destruct (truthy X) end;
    [by rewrite union_empty_r_L|done].
- match goal with |- context [truthy ?X] => destruct (truthy X) end;
    [by rewrite union_empty_r_L|done].
Qed.

Lemma flatten_to_set_no_positive modify h L :
base_set_index_from (_positive_indices L) 0 (_sets L) = None →
(flatten_to_set modify h L).1.2 = L.
Proof. intros Hb. unfold flatten_to_set. by rewrite Hb. Qed.

Lemma positive_layers_base L :
positive_layers L ≠ [] →
∃ b, base_set_index_from (_positive_indices L) 0 (_sets L) = Some b.
Proof.
intros Hne.
destruct (base_set_index_from (_positive_indices L) 0 (_sets L)) as [b|] eqn:Hb; [eauto|].
exfalso. apply Hne. unfold positive_layers.
pose proof (base_set_index_from_None _ _ _ Hb) as Hnone.
destruct (filter _ _) as [|i l] eqn:Hf; [done|].
assert (i ∈ filter (λ i, i ∈ _positive_indices L) (seq 0 (length (_sets L)))) as Hi
  by (rewrite Hf; left).
apply list_elem_of_filter in Hi as [Hpos Hseq].
apply elem_of_seq in Hseq. exfalso. by apply (Hnone i).
Qed.

Lemma layers_single r :
negative_layers (Build [r] {[0%nat]}) = [] ∧
positive_layers (Build [r] {[0%nat]}) = [0%nat].
Proof.
unfold negative_layers, positive_layers. simpl. split.
- rewrite filter_cons_False; [done|]. set_solver.
- rewrite filter_cons_True; [done|]. set_solver.
Qed.

(** The constructor is a particular sequence of calls, and on it the
  reference evaluation is the base set, less every negative set, joined
  with every positive set. *)
Lemma init_build h base_set negative_sets positive_sets :
init h base_set negative_sets positive_sets =
build h (LazyUpdate base_set :: (LazyDifferenceUpdate <$> negative_sets)
                             ++ (LazyUpdate <$> positive_sets)).
Proof.
unfold init, build. simpl. rewrite fold_left_app.
generalize (lazy_update h empty base_set) as L.
assert (∀ l L, fold_left (run_call h) (LazyUpdate <$> l) L
               = fold_left (lazy_update h) l L) as Hup
  by (induction l as [|r l IH]; intros L; simpl; [done|by rewrite IH]).
assert (∀ l L, fold_left (run_call h) (LazyDifferenceUpdate <$> l) L
               = fold_left (lazy_difference_update h) l L) as Hdown
  by (induction l as [|r l IH]; intros L; simpl; [done|by rewrite IH]).
intros L. by rewrite Hdown, Hup.
Qed.

Lemma reference_init h base_set negative_sets positive_sets :
reference h (LazyUpdate base_set :: (LazyDifferenceUpdate <$> negative_sets)
                                 ++ (LazyUpdate <$> positive_sets)) =
(fetch h base_set ∖ ⋃ (fetch h <$> negative_sets)) ∪ ⋃ (fetch h <$> positive_sets).
Proof.
unfold reference. simpl. rewrite fold_left_app.
replace (∅ ∪ fetch h base_set) with (fetch h base_set) by set_solver.
assert (∀ l acc, fold_left (reference_step h) (LazyDifferenceUpdate <$> l) acc
                 = acc ∖ ⋃ (fetch h <$> l)) as Hdown.
{ induction l as [|r l IH]; intros acc; simpl; [set_solver|].
  rewrite IH. set_solver. }
assert (∀ l acc, fold_left (reference_step h) (LazyUpdate <$> l) acc
                 = acc ∪ ⋃ (fetch h <$> l)) as Hup.
{ induction l as [|r l IH]; intros acc; simpl; [set_solver|].
  rewrite IH. set_solver. }
by rewrite Hdown, Hup.
Qed.

Lemma no_positive_layer_base L :
positive_layers L = [] →
base_set_index_from (_positive_indices L) 0 (_sets L) = None.
Proof.
intros Hnone. destruct (base_set_index_from _ _ _) as [b|] eqn:Hb; [|done].
apply base_set_index_from_Some in Hb as (Hrange & Hin & _).
assert (b ∈ positive_layers L) as Hb; [|rewrite Hnone in Hb; by apply elem_of_nil in Hb].
apply list_elem_of_filter. split; [done|]. apply elem_of_seq. lia.
Qed.

(** With [modify=False] the set returned is a new object. *)
Lemma flatten_to_set_copy_fresh h L : (flatten_to_set false h L).2 = length h.
Proof.
unfold flatten_to_set.
by destruct (base_set_index_from (_positive_indices L) 0 (_sets L)).
Qed.

(** C5.  A LazySet built by any sequence of [lazy_update] and
  [lazy_difference_update] calls flattens ([modify=False], the default)
  to a single set equal to the reference evaluation of the same calls on
  built-in sets: a new set object is returned, the layered sets are left
  untouched, and the LazySet is left with that one set as its only layer,
  a positive one (with no layer when the set is empty; a LazySet that
  has no positive layer is left as it is).  Before flattening,
  membership agrees with the reference set and iteration yields exactly
  its elements, each once. *)
Theorem C5_lazyset_agrees_with_reference h (calls : list call) :
let L := build h calls in
let res := flatten_to_set false h L in
fetch res.1.1 res.2 = reference h calls ∧
res.2 = length h ∧
res.1.2 = match positive_layers L with
          | [] => L
          | _ => if bool_decide (reference h calls = ∅) then empty
                 else Build [res.2] {[0%nat]}
          end ∧
denote res.1.1 res.1.2 = reference h calls ∧
(∀ r, r < length h → res.1.1 !! r = h !! r)%nat ∧
(∀ x, contains h L x = bool_decide (x ∈ reference h calls)) ∧
(∀ x, x ∈ iter h L ↔ x ∈ reference h calls) ∧
NoDup (iter h L).
Proof.
intros L res.
destruct (flatten_to_set_copy h L (wf_build h calls)) as (Hset & Hden & Hkeep).
destruct (iter_denote h L) as [Hnd Hin].
pose proof (denote_build h calls) as HL. fold L in HL.
rewrite HL in Hset, Hden, Hin.
split; [done|]. split; [apply flatten_to_set_copy_fresh|].
split; [|split; [done|]; split; [done|]; split; [|done]].
- destruct (positive_layers L) as [|i l] eqn:Hlayers.
  + by apply flatten_to_set_no_positive, no_positive_layer_base.
  + destruct (positive_layers_base L) as [b Hb]; [by rewrite Hlayers|].
    pose proof (flatten_to_set_layers false h L b Hb) as Hshape. simpl in Hshape.
    rewrite Hset in Hshape. unfold truthy in Hshape.
    by destruct (bool_decide (reference h calls = ∅)).
- intros x. by rewrite contains_denote, HL.
Qed.

Lemma flatten_proj modify h L :
flatten modify h L = ((flatten_to_set modify h L).1.1, (flatten_to_set modify h L).1.2).
Proof. unfold flatten. by destruct (flatten_to_set modify h L) as [[h' L'] r]. Qed.

(** C6 (amended).  After [flatten], with either value of [modify], a
  LazySet that had a positive layer has no negative layer left; it has
  exactly one layer, positive, when the flattened set is not empty, and no
  layer at all when the flattened set is empty. *)
Theorem C6_flatten_layers (modify : bool) h L :
positive_layers L ≠ [] →
let h' := (flatten modify h L).1 in
let L' := (flatten modify h L).2 in
negative_layers L' = [] ∧
((denote h' L' ≠ ∅ ∧ length (_sets L') = 1%nat ∧ positive_layers L' = [0%nat]) ∨
 (denote h' L' = ∅ ∧ _sets L' = [])).
Proof.
intros Hpos. destruct (positive_layers_base L Hpos) as [b Hb].
rewrite flatten_proj. simpl.
pose proof (flatten_to_set_layers modify h L b Hb) as Hl. simpl in Hl.
destruct (truthy (fetch (flatten_to_set modify h L).1.1 (flatten_to_set modify h L).2))
  eqn:Ht; rewrite Hl.
- destruct (layers_single (flatten_to_set modify h L).2) as [Hneg Hposl].
  split; [done|]. left. rewrite denote_single by done.
  split; [|done]. unfold truthy in Ht. apply negb_true_iff in Ht.
  by apply bool_decide_eq_false in Ht.
- split; [done|]. by right.
Qed.

(** A LazySet without a positive layer is left as it is. *)
Lemma flatten_no_positive modify h L :
positive_layers L = [] → (flatten modify h L).2 = L.
Proof.
intros Hnone. rewrite flatten_proj. simpl.
by apply flatten_to_set_no_positive, no_positive_layer_base.
Qed.

End Elements.
End LazySetFacts.

(** Concrete LazySets of integers. *)
Module LazySetExamples.
Import LazySet.

(** {1, 2} less {1}: one positive layer after flattening. *)
Definition store12 : list (gset Z) := [ {[1; 2]}; {[1]} ].
(** {1} less {1}: nothing is left. *)
Definition store11 : list (gset Z) := [ {[1]}; {[1]} ].
Definition minus : list call := [LazyUpdate 0; LazyDifferenceUpdate 1].

Lemma C5_lazyset_agrees_with_reference_witness :
  let L := build store12 minus in
  let res := flatten_to_set false store12 L in
  fetch res.1.1 res.2 = reference store12 minus ∧
  res.2 = length store12 ∧
  res.1.2 = match positive_layers L with
            | [] => L
            | _ => if bool_decide (reference store12 minus = ∅) then empty
                   else Build [res.2] {[0%nat]}
            end ∧
  denote res.1.1 res.1.2 = reference store12 minus ∧
  (∀ r, r < length store12 → res.1.1 !! r = store12 !! r)%nat ∧
  (∀ x, contains store12 L x = bool_decide (x ∈ reference store12 minus)) ∧
  (∀ x, x ∈ iter store12 L ↔ x ∈ reference store12 minus) ∧
  NoDup (iter store12 L).
Proof. exact (LazySetFacts.C5_lazyset_agrees_with_reference store12 minus). Defined.

(** C6 as stated fails: flattening {1} less {1} leaves no layer at all. *)
Lemma C6_counterexample :
  ¬ (∀ (modify : bool) (h : list (gset Z)) (L : t),
       exactly_one_positive_layer (flatten modify h L).2).
Proof.
  intros Hclaim.
  destruct (Hclaim false store11 (build store11 minus)) as [Hone _].
  vm_compute in Hone. discriminate.
Qed.

Lemma C6_flatten_layers_witness :
  positive_layers (build store12 minus) ≠ [] ∧
  let h' := (flatten true store12 (build store12 minus)).1 in
  let L' := (flatten true store12 (build store12 minus)).2 in
  negative_layers L' = [] ∧
  ((denote h' L' ≠ ∅ ∧ length (_sets L') = 1%nat ∧ positive_layers L' = [0%nat]) ∨
   (denote h' L' = ∅ ∧ _sets L' = [])).
Proof.
  assert (positive_layers (build store12 minus) ≠ []) as Hpos
    by (vm_compute; discriminate).
  split; [exact Hpos|].
  exact (LazySetFacts.C6_flatten_layers true store12 (build store12 minus) Hpos).
Defined.

(** Flattening in place reads the layers as they are when their turn
    comes: if the first positive set is layered again later, what is added
    back is the set as already reduced.  {1, 2}, less {1}, plus the same
    {1, 2} object: the reference evaluation gives {1, 2}, the in-place
    flattening {2}. *)
Example flatten_modify_aliased :
  let calls := [LazyUpdate 0; LazyDifferenceUpdate 1; LazyUpdate 0] in
  let res := flatten_to_set true store12 (build store12 calls) in
  elements (reference store12 calls) = [2; 1] ∧
  elements (fetch res.1.1 res.2) = [2].
Proof. vm_compute. done. Qed.

End LazySetExamples.

(** * Properties of the result monad and of Python's [max] *)

Section Monad.
Context {A B : Type}.

Lemma bind_Ok (m : result A) (f : A → result B) (b : B) :
  (m ≫= f) = Ok b → ∃ a, m = Ok a ∧ f a = Ok b.
Proof. destruct m as [a| |]; simpl; [eauto|done|done]. Qed.

Lemma bind_Ok_l (a : A) (f : A → result B) : (Ok a ≫= f) = f a.
Proof. done. Qed.

Lemma getitem_Ok `{Countable K} (d : gmap K A) (key : K) (v : A) :
  getitem d key = Ok v ↔ d !! key = Some v.
Proof. unfold getitem. destruct (d !! key); naive_solver. Qed.

Lemma getitem_None `{Countable K} (d : gmap K A) (key : K) :
  d !! key = None → getitem d key = Raise KeyError.
Proof. unfold getitem. by intros ->. Qed.
End Monad.

(** Peel the binds of a computation that returned. *)
Ltac inv_bind H :=
  repeat match type of H with
  | (_ ≫= _) = Ok _ =>
      let x := fresh "x" in
      let Hx := fresh "Hx" in
      apply bind_Ok in H as (x & Hx & H)
  end.

Section Keys.
Variable key : Z → result Z.

Lemma with_keys_Ok l keyed :
  with_keys key l = Ok keyed →
  keyed.*1 = l ∧ ∀ x kx, (x, kx) ∈ keyed → key x = Ok kx.
Proof.
  revert keyed. induction l as [|x l IH]; intros keyed; simpl.
  - intros [= <-]. split; [done|]. intros ?? Hin. by apply elem_of_nil in Hin.
  - destruct (key x) as [kx| |] eqn:Hkx; simpl; try done.
    destruct (with_keys key l) as [krest| |]; simpl; try done.
    intros [= <-]. destruct (IH krest eq_refl) as [Hfst Hkeys].
    split; [by rewrite fmap_cons, Hfst|].
    intros y ky [[= -> ->]|Hin]%elem_of_cons; [done|by apply Hkeys].
Qed.

(** If the key of some element cannot be read, neither can the keys of the
    list. *)
Lemma with_keys_Raise l x e :
  x ∈ l → key x = Raise e →
  (∀ y e', key y = Raise e' → e' = e) →
  (∀ y, key y ≠ OutOfFuel) →
  with_keys key l = Raise e.
Proof.
  intros Hin Hx Hsame Hfuel. induction l as [|y l IH]; [by apply elem_of_nil in Hin|].
  simpl. destruct (key y) as [ky|e'|] eqn:Hy; simpl.
  - apply elem_of_cons in Hin as [->|Hin]; [congruence|].
    by rewrite (IH Hin).
  - by rewrite (Hsame _ _ Hy).
  - by apply Hfuel in Hy.
Qed.
End Keys.

(** [py_max] returns the first element of greatest key. *)
Lemma py_extreme_from_max before best best_key skipped rest :
  (∀ y ky, (y, ky) ∈ before → ky < best_key) →
  (∀ y ky, (y, ky) ∈ skipped → ky ≤ best_key) →
  ∃ l1 x kx l2,
    before ++ (best, best_key) :: skipped ++ rest = l1 ++ (x, kx) :: l2 ∧
    py_extreme_from Z.gtb best best_key rest = x ∧
    (∀ y ky, (y, ky) ∈ l1 → ky < kx) ∧
    (∀ y ky, (y, ky) ∈ l2 → ky ≤ kx).
Proof.
  revert before best best_key skipped. induction rest as [|[z kz] rest IH];
    intros before best best_key skipped Hbefore Hskipped; simpl.
  - exists before, best, best_key, skipped. by rewrite app_nil_r.
  - destruct (kz >? best_key) eqn:Hgt.
    + apply Z.gtb_lt in Hgt.
      destruct (IH (before ++ (best, best_key) :: skipped) z kz [])
        as (l1 & x & kx & l2 & Heq & Hx & H1 & H2).
      { intros y ky [Hin|[[= -> ->]|Hin]%elem_of_cons]%elem_of_app.
        - specialize (Hbefore _ _ Hin). lia.
        - lia.
        - specialize (Hskipped _ _ Hin). lia. }
      { intros ?? Hin. by apply elem_of_nil in Hin. }
      exists l1, x, kx, l2. split; [|done].
      rewrite <- Heq. simpl. by rewrite <- app_assoc.
    + rewrite Z.gtb_ltb in Hgt. apply Z.ltb_ge in Hgt.
      destruct (IH before best best_key (skipped ++ [(z, kz)]))
        as (l1 & x & kx & l2 & Heq & Hx & H1 & H2); [done| |].
      { intros y ky [Hin|[= -> ->]%list_elem_of_singleton]%elem_of_app;
          [by apply (Hskipped y)|lia]. }
      exists l1, x, kx, l2. split; [|done].
      rewrite <- Heq. by rewrite <- app_assoc.
Qed.

Lemma py_max_first keyed x :
  py_max keyed = Some x →
  ∃ l1 kx l2,
    keyed = l1 ++ (x, kx) :: l2 ∧
    (∀ y ky, (y, ky) ∈ l1 → ky < kx) ∧
    (∀ y ky, (y, ky) ∈ l2 → ky ≤ kx).
Proof.
  destruct keyed as [|[z kz] rest]; simpl; [done|]. intros [= <-].
  destruct (py_extreme_from_max [] z kz [] rest) as (l1 & x & kx & l2 & Heq & Hx & H1 & H2);
    try (intros ?? Hin; by apply elem_of_nil in Hin).
  exists l1, kx, l2. simpl in Heq. by rewrite Hx.
Qed.

Lemma py_max_None keyed : py_max keyed = None ↔ keyed = [].
Proof. destruct keyed as [|[z kz] rest]; naive_solver. Qed.

Lemma py_extreme_elem better keyed x :
  py_extreme better keyed = Some x → x ∈ keyed.*1.
Proof.
  destruct keyed as [|[z kz] rest]; simpl; [done|]. intros [= <-].
  assert (∀ best best_key, py_extreme_from better best best_key rest = best ∨
                           py_extreme_from better best best_key rest ∈ rest.*1) as Hfrom.
  { induction rest as [|[y ky] rest IH]; intros best best_key; simpl; [by left|].
    destruct (better ky best_key).
    - destruct (IH y ky) as [->|?]; right; [left|by right].
    - destruct (IH best best_key) as [->|?]; [by left|right; by right]. }
  destruct (Hfrom z kz) as [->|?]; [left|by right].
Qed.

(** [sorted] puts distinct ids in strictly increasing order. *)
Lemma sorted_perm ids : sorted ids ≡ₚ ids.
Proof. apply merge_sort_Permutation. Qed.

Lemma sorted_elem ids x : x ∈ sorted ids ↔ x ∈ ids.
Proof. by rewrite sorted_perm. Qed.

Lemma sorted_split ids l1 x l2 :
  NoDup ids → sorted ids = l1 ++ x :: l2 →
  (∀ y, y ∈ l1 → y < x) ∧ (∀ y, y ∈ l2 → x < y).
Proof.
  intros Hnd Heq.
  assert (StronglySorted Z.le (sorted ids)) as Hs.
  { unfold sorted. apply (StronglySorted_merge_sort Z.le). }
  assert (NoDup (sorted ids)) as Hnd' by (by rewrite sorted_perm).
  rewrite Heq in Hs, Hnd'.
  apply NoDup_app in Hnd' as (_ & Hdisj & Hnd2).
  apply NoDup_cons in Hnd2 as [Hx _].
  split.
  - intros y Hy.
    assert (y ≤ x).
    { clear -Hs Hy. induction l1 as [|z l1 IH]; [by apply elem_of_nil in Hy|].
      simpl in Hs. apply StronglySorted_inv in Hs as [Hs Hall].
      apply elem_of_cons in Hy as [->|Hy]; [|by apply IH].
      rewrite Forall_forall in Hall. apply Hall. apply elem_of_app. right. left. }
    assert (y ≠ x); [|lia]. intros ->. apply (Hdisj x Hy). left.
  - intros y Hy.
    assert (x ≤ y).
    { clear -Hs Hy. induction l1 as [|z l1 IH]; simpl in Hs.
      - apply StronglySorted_inv in Hs as [_ Hall].
        rewrite Forall_forall in Hall. by apply Hall.
      - apply StronglySorted_inv in Hs as [Hs _]. by apply IH. }
    assert (y ≠ x); [|lia]. by intros ->.
Qed.

(** * The longest-chain engine *)

Module BlockchainFacts.
Import Blockchain.

(** Every block of the longest chain has a chain length. *)
Definition chain_known (s : t) : Prop :=
  ∀ g, g ∈ _longest_chain s → is_Some (chain_length s !! g).

Lemma tip_has_length s ids g :
  _get_longest_chain_tip s ids = Ok (Some g) → is_Some (chain_length s !! g).
Proof.
  unfold _get_longest_chain_tip. destruct ids as [|i ids]; [done|].
  intros Hrun. inv_bind Hrun. injection Hrun as Hmax.
  apply py_extreme_elem in Hmax.
  apply list_elem_of_fmap in Hmax as ([g' kg] & -> & Hin).
  apply with_keys_Ok in Hx as [_ Hkeys].
  specialize (Hkeys _ _ Hin). apply getitem_Ok in Hkeys. by eexists.
Qed.

Lemma collect_new_chain_known s fuel gid counter to_add intersection to_add' :
  (∀ g, gid = Some g → is_Some (chain_length s !! g)) →
  (∀ g, g ∈ to_add → is_Some (chain_length s !! g)) →
  collect_new_chain s fuel gid counter to_add = Ok (intersection, to_add') →
  ∀ g, g ∈ to_add' → is_Some (chain_length s !! g).
Proof.
  revert gid counter to_add. induction fuel as [|fuel IH];
    intros gid counter to_add Hgid Hadd; simpl; [done|].
  destruct (counter <? 0); [by intros [= <- <-]|].
  destruct gid as [g|]; [|done].
  case_bool_decide; [by intros [= <- <-]|].
  intros Hrun. inv_bind Hrun.
  eapply IH; [| |exact Hrun].
  - intros g' ->. by eapply tip_has_length.
  - intros g' [->%elem_of_singleton|?]%elem_of_union; [by apply Hgid|by apply Hadd].
Qed.

Lemma drop_old_chain_subseteq s fuel gid counter intersection chain chain' :
  drop_old_chain s fuel gid counter intersection chain = Ok chain' → chain' ⊆ chain.
Proof.
  revert gid counter chain. induction fuel as [|fuel IH];
    intros gid counter chain; simpl; [done|].
  destruct (counter <? 0); [by intros [= <-]|].
  case_bool_decide; [by intros [= <-]|].
  destruct gid as [g|]; [|done].
  case_bool_decide; [|done].
  intros Hrun. inv_bind Hrun. apply IH in Hrun. set_solver.
Qed.

Lemma update_longest_chain_known s gid parent s' :
  chain_known s →
  _update_longest_chain_incrementally s gid parent = Ok s' →
  chain_known s'.
Proof.
  intros Hknown. unfold _update_longest_chain_incrementally.
  intros Hrun. inv_bind Hrun. rename x into len. rename x0 into is_new_tip.
  apply getitem_Ok in Hx.
  destruct is_new_tip; [|by injection Hrun as <-].
  case_bool_decide.
  - injection Hrun as <-. intros g. simpl.
    intros [->%elem_of_singleton|?]%elem_of_union; [by eexists|by apply Hknown].
  - inv_bind Hrun. destruct x as [intersection to_add]. inv_bind Hrun.
    injection Hrun as <-. intros g. simpl.
    intros [Hin|Hin]%elem_of_union.
    + apply Hknown. eapply drop_old_chain_subseteq; [exact Hx3|done].
    + eapply collect_new_chain_known; [| |exact Hx1|exact Hin].
      * intros ? [= <-]. by eexists.
      * set_solver.
Qed.

Lemma add_known s block s' : chain_known s → add s block = Ok s' → chain_known s'.
Proof.
  intros Hknown. unfold add. intros Hrun. inv_bind Hrun.
  eapply update_longest_chain_known; [|exact Hrun].
  intros g Hg. simpl in *. specialize (Hknown g Hg).
  destruct (decide (g = global_id block)) as [->|Hne].
  - rewrite lookup_insert_eq. by eexists.
  - by rewrite lookup_insert_ne.
Qed.

Lemma reachable_known s : reachable s → chain_known s.
Proof.
  induction 1 as [|s block s' _ IH Hadd]; [intros g Hg; set_solver|].
  by eapply add_known.
Qed.

(** [is_a_before_b] answers [None] exactly when neither block is on the
    longest chain. *)
Lemma is_a_before_b_None s a b :
  is_a_before_b s a b = Ok None ↔ a ∉ _longest_chain s ∧ b ∉ _longest_chain s.
Proof.
  unfold is_a_before_b. repeat case_bool_decide; simpl; try naive_solver.
  split; [|naive_solver]. intros Hrun. inv_bind Hrun. done.
Qed.

Lemma is_a_before_b_bool s a b :
  chain_known s →
  (a ∈ _longest_chain s ∨ b ∈ _longest_chain s) →
  ∃ answer : bool, is_a_before_b s a b = Ok (Some answer).
Proof.
  intros Hknown Hin. unfold is_a_before_b.
  repeat case_bool_decide; simpl; try naive_solver.
  destruct (Hknown a) as [la Hla]; [done|]. destruct (Hknown b) as [lb Hlb]; [done|].
  apply getitem_Ok in Hla, Hlb. rewrite Hla, Hlb. simpl. eauto.
Qed.

End BlockchainFacts.

(** * [PHANTOM.is_a_before_b], for every engine that inherits it *)

Section IsABeforeB.
Context `{PhantomDAG St}.

Lemma phantom_is_a_before_b_absent (s : St) a b :
  dag_contains s a = false → dag_contains s b = false →
  phantom_is_a_before_b s a b = Ok (None, s).
Proof. unfold phantom_is_a_before_b. by intros -> ->. Qed.

Lemma phantom_is_a_before_b_only_a (s : St) a b :
  dag_contains s a = true → dag_contains s b = false →
  phantom_is_a_before_b s a b = Ok (Some true, s).
Proof. unfold phantom_is_a_before_b. by intros -> ->. Qed.

Lemma phantom_is_a_before_b_only_b (s : St) a b :
  dag_contains s a = false → dag_contains s b = true →
  phantom_is_a_before_b s a b = Ok (Some false, s).
Proof. unfold phantom_is_a_before_b. by intros -> ->. Qed.

Lemma phantom_is_a_before_b_both (s : St) a b :
  dag_contains s a = true → dag_contains s b = true →
  phantom_is_a_before_b s a b =
    '(la, s1) ← dag_get_local_id s a;
    '(lb, s2) ← dag_get_local_id s1 b;
    Ok (Some (lid_le la lb), s2).
Proof. unfold phantom_is_a_before_b. by intros -> ->. Qed.

(** The answer is [None] only when both blocks are absent. *)
Lemma phantom_is_a_before_b_None (s s' : St) a b :
  phantom_is_a_before_b s a b = Ok (None, s') →
  dag_contains s a = false ∧ dag_contains s b = false.
Proof.
  unfold phantom_is_a_before_b.
  destruct (dag_contains s a), (dag_contains s b); simpl; try done.
  intros Hrun. inv_bind Hrun. destruct x as [la s1]. inv_bind Hrun.
  by destruct x as [lb s2].
Qed.
End IsABeforeB.

(** Reading a dictionary that was just written. *)
Lemma getitem_insert_eq `{Countable K} {V} (d : gmap K V) key v :
  getitem (<[ key := v ]> d) key = Ok v.
Proof. unfold getitem. by rewrite lookup_insert_eq. Qed.

Lemma getitem_insert_ne `{Countable K} {V} (d : gmap K V) key key' v :
  key ≠ key' → getitem (<[ key := v ]> d) key' = getitem d key'.
Proof. intros Hne. unfold getitem. by rewrite lookup_insert_ne. Qed.

(** * The graph *)

Module DiGraphFacts.
Import DiGraph DiGraphShape.

Lemma has_node_true g n : has_node g n = true ↔ n ∈ nodes g.
Proof. unfold has_node. by rewrite bool_decide_eq_true. Qed.

Lemma nodes_add_node g n m : m ∈ nodes (add_node g n) ↔ m = n ∨ m ∈ nodes g.
Proof.
  unfold add_node, has_node. case_bool_decide; simpl.
  - naive_solver.
  - rewrite elem_of_app, list_elem_of_singleton. tauto.
Qed.

Lemma nodes_add_edge g u v m :
  m ∈ nodes (add_edge g u v) ↔ m = u ∨ m = v ∨ m ∈ nodes g.
Proof. unfold add_edge. simpl. rewrite !nodes_add_node. tauto. Qed.

Lemma closed_empty : closed empty.
Proof.
  split; simpl.
  - intros n. rewrite lookup_empty, elem_of_nil. split; [done|]. by intros [? ?].
  - intros n l m. by rewrite lookup_empty.
Qed.

Lemma closed_add_node g n : closed g → closed (add_node g n).
Proof.
  intros [Hdom Hcl]. unfold add_node, has_node. case_bool_decide as Hn; [done|].
  split; simpl.
  - intros m. rewrite elem_of_app, list_elem_of_singleton.
    destruct (decide (m = n)) as [->|Hne].
    + rewrite lookup_insert_eq. split; [eauto|]. by right.
    + rewrite lookup_insert_ne by done. rewrite <- Hdom. naive_solver.
  - intros m l x. destruct (decide (m = n)) as [->|Hne].
    + rewrite lookup_insert_eq. intros [= <-] Hx. by apply elem_of_nil in Hx.
    + rewrite lookup_insert_ne by done. intros Hl Hx.
      apply elem_of_app. left. by apply (Hcl m l).
Qed.

Lemma elem_of_adjoin v l x : x ∈ adjoin v l ↔ x = v ∨ x ∈ l.
Proof.
  unfold adjoin. case_bool_decide.
  - naive_solver.
  - rewrite elem_of_app, list_elem_of_singleton. tauto.
Qed.

Lemma closed_add_edge g u v : closed g → closed (add_edge g u v).
Proof.
  intros Hg. assert (closed (add_node (add_node g u) v)) as [Hdom Hcl]
    by by do 2 apply closed_add_node.
  unfold add_edge. set (g1 := add_node (add_node g u) v) in *.
  split; simpl.
  - intros n. by rewrite lookup_alter_is_Some.
  - intros n l m. destruct (decide (n = u)) as [->|Hne].
    + rewrite lookup_alter_eq. destruct (succ g1 !! u) as [l0|] eqn:Hl0; simpl; [|done].
      intros [= <-] [->|Hm]%elem_of_adjoin.
      * unfold g1. apply nodes_add_node. by left.
      * by apply (Hcl u l0).
    + rewrite lookup_alter_ne by done. apply Hcl.
Qed.

(** After [add_edge g u v], [v] is a successor of [u]. *)
Lemma succ_add_edge g u v :
  closed g → ∃ l, succ (add_edge g u v) !! u = Some l ∧ v ∈ l.
Proof.
  intros Hg. assert (closed (add_node (add_node g u) v)) as [Hdom Hcl]
    by by do 2 apply closed_add_node.
  unfold add_edge. simpl. rewrite lookup_alter_eq.
  destruct (Hdom u) as [[l Hl] _].
  { apply nodes_add_node. right. apply nodes_add_node. by left. }
  rewrite Hl. simpl. eexists. split; [done|]. apply elem_of_adjoin. by left.
Qed.

Lemma succ_add_node g x n l :
  closed g → succ g !! n = Some l → succ (add_node g x) !! n = Some l.
Proof.
  intros [Hdom _] Hl. unfold add_node, has_node. case_bool_decide as Hx; [done|].
  simpl. rewrite lookup_insert_ne; [done|]. intros <-. apply Hx, Hdom. eauto.
Qed.

(** Edges stay when other edges are added. *)
Lemma succ_add_edge_mono g u v n l m :
  closed g → succ g !! n = Some l → m ∈ l →
  ∃ l', succ (add_edge g u v) !! n = Some l' ∧ m ∈ l'.
Proof.
  intros Hg Hl Hm.
  assert (succ (add_node (add_node g u) v) !! n = Some l) as Hl1.
  { apply succ_add_node; [by apply closed_add_node|]. by apply succ_add_node. }
  unfold add_edge. simpl.
  destruct (decide (n = u)) as [->|Hne].
  - rewrite lookup_alter_eq, Hl1. simpl.
    eexists. split; [done|]. apply elem_of_adjoin. by right.
  - rewrite lookup_alter_ne by done. eauto.
Qed.

End DiGraphFacts.

(** * The brute-force engine *)

Module PHANTOMFacts.
Import DiGraph DiGraphShape DiGraphFacts PHANTOM PHANTOMRuns.

(** ** The graph after [add] *)

Lemma add_edges_spec gid (ps : list Z) g :
  closed g → gid ∈ nodes g →
  let g' := fold_left (λ g parent, add_edge g gid parent) ps g in
  closed g' ∧
  (∀ m, m ∈ nodes g' ↔ m ∈ ps ∨ m ∈ nodes g) ∧
  (∀ p, p ∈ ps → ∃ l, succ g' !! gid = Some l ∧ p ∈ l) ∧
  (∀ n l m, succ g !! n = Some l → m ∈ l → ∃ l', succ g' !! n = Some l' ∧ m ∈ l').
Proof.
  revert g. induction ps as [|p ps IH]; intros g Hg Hgid; simpl.
  - split; [done|]. split; [intros m; rewrite elem_of_nil; tauto|].
    split; [intros p Hp; by apply elem_of_nil in Hp|]. eauto.
  - destruct (IH (add_edge g gid p)) as (Hcl & Hnodes & Hsucc & Hmono).
    { by apply closed_add_edge. }
    { apply nodes_add_edge. by left. }
    split; [done|]. split; [|split].
    + intros m. rewrite Hnodes, nodes_add_edge, elem_of_cons. naive_solver.
    + intros q [->|Hq]%elem_of_cons; [|by apply Hsucc].
      destruct (succ_add_edge g gid p Hg) as (l & Hl & Hin). by apply (Hmono gid l).
    + intros n l m Hl Hm.
      destruct (succ_add_edge_mono g gid p n l m Hg Hl Hm) as (l' & Hl' & Hm').
      by apply (Hmono n l').
Qed.

Lemma add_block_to_graph_spec g block :
  closed g →
  let g' := add_block_to_graph g block in
  closed g' ∧
  (∀ m, m ∈ nodes g' ↔ m = global_id block ∨ m ∈ get_parents block ∨ m ∈ nodes g) ∧
  (∀ p, p ∈ get_parents block → ∃ l, succ g' !! global_id block = Some l ∧ p ∈ l).
Proof.
  intros Hg. unfold add_block_to_graph.
  destruct (add_edges_spec (global_id block) (elements (get_parents block))
              (add_node g (global_id block))) as (Hcl & Hnodes & Hsucc & _).
  { by apply closed_add_node. }
  { apply nodes_add_node. by left. }
  split; [done|]. split.
  - intros m. rewrite Hnodes, nodes_add_node, elem_of_elements. tauto.
  - intros p Hp. apply Hsucc. by apply elem_of_elements.
Qed.

(** The parents of a block are nodes of the graph once its edges are
    there, whether they were added as blocks or not. *)
Lemma parents_are_nodes g block p :
  p ∈ get_parents block → has_node (add_block_to_graph g block) p = true.
Proof.
  intros Hp. apply has_node_true. unfold add_block_to_graph.
  assert (∀ ps g0, p ∈ ps ∨ p ∈ nodes g0 →
            p ∈ nodes (fold_left (λ g parent, add_edge g (global_id block) parent) ps g0))
    as Hfold.
  { induction ps as [|q ps IH]; intros g0 Hin; simpl.
    - destruct Hin as [Hin|Hin]; [by apply elem_of_nil in Hin|done].
    - apply IH. rewrite nodes_add_edge. rewrite elem_of_cons in Hin. naive_solver. }
  apply Hfold. left. by apply elem_of_elements.
Qed.

(** ** The colouring *)

Lemma compute_blue_anticones_valid k anticones coloring acc bacs :
  compute_blue_anticones k anticones coloring acc = Some bacs →
  valid_coloring k anticones coloring.
Proof.
  revert acc. induction anticones as [|[b ac] rest IH]; intros acc; simpl.
  - intros _ ?? Hin. by apply elem_of_nil in Hin.
  - destruct (bool_decide (b ∈ coloring) && (Z.of_nat (size (ac ∩ coloring)) >? k))
      eqn:Hbad; [done|].
    intros Hrest b' ac' [[= -> ->]|Hin]%elem_of_cons Hblue.
    + apply andb_false_iff in Hbad as [Hbad|Hbad].
      * by apply bool_decide_eq_false in Hbad.
      * rewrite Z.gtb_ltb in Hbad. by apply Z.ltb_ge in Hbad.
    + by apply (IH _ Hrest b' ac').
Qed.

Lemma find_max_coloring_valid k anticones candidates max_coloring bac (N : gset Z) :
  valid_coloring k anticones max_coloring → max_coloring ⊆ N →
  (∀ cur, cur ∈ candidates → list_to_set cur ⊆ N) →
  let result := (find_max_coloring k anticones candidates max_coloring bac).1 in
  valid_coloring k anticones result ∧ result ⊆ N.
Proof.
  revert max_coloring bac. induction candidates as [|cur rest IH];
    intros max_coloring bac Hvalid Hsub Hcands; simpl; [done|].
  assert (∀ c, c ∈ rest → list_to_set c ⊆ N) as Hrest.
  { intros c Hc. apply Hcands. by right. }
  destruct (compute_blue_anticones k anticones (list_to_set cur) ∅) as [cur_bac|] eqn:Hcur.
  - destruct (size max_coloring <? size (list_to_set cur : gset Z))%nat.
    + apply IH; [|apply Hcands; by left|done].
      by apply compute_blue_anticones_valid in Hcur.
    + by apply IH.
  - by apply IH.
Qed.

Lemma combinations_elem s r c x : c ∈ combinations s r → x ∈ c → x ∈ s.
Proof.
  revert r c. induction s as [|y s IH]; intros [|r] c; simpl.
  - intros ->%list_elem_of_singleton Hx. by apply elem_of_nil in Hx.
  - intros Hc. by apply elem_of_nil in Hc.
  - intros ->%list_elem_of_singleton Hx. by apply elem_of_nil in Hx.
  - intros [Hc|Hc]%elem_of_app Hx.
    + apply list_elem_of_fmap in Hc as (c' & -> & Hc').
      apply elem_of_cons in Hx as [->|Hx]; [by left|]. right. by apply (IH r c').
    + right. by apply (IH (S r) c).
Qed.

Lemma powerset_elem s c x : c ∈ powerset s → x ∈ c → x ∈ s.
Proof.
  unfold powerset. intros Hc Hx.
  apply list_elem_of_In, in_concat in Hc as (cs & Hcs & Hc).
  apply list_elem_of_In in Hcs, Hc.
  apply list_elem_of_fmap in Hcs as (r & -> & _). by apply (combinations_elem s r c).
Qed.

(** The colouring found by the search is valid for the graph it was
    computed on. *)
Lemma update_coloring_valid s gid b :
  let s' := _update_coloring_incrementally s gid in
  b ∈ _coloring s' →
  Z.of_nat (size (__get_anticone (_G s') b ∩ _coloring s')) ≤ _k s'.
Proof.
  unfold _update_coloring_incrementally.
  pose proof (find_max_coloring_valid (_k s) (anticones_of (_G s))
                (powerset (nodes (_G s))) ∅ ∅ (list_to_set (nodes (_G s)))) as Hfind.
  destruct (find_max_coloring (_k s) (anticones_of (_G s)) (powerset (nodes (_G s))) ∅ ∅)
    as [max_coloring max_coloring_bac]. simpl in *.
  destruct Hfind as [Hvalid Hsub].
  { intros ?? _ Hin. by apply elem_of_empty in Hin. }
  { apply empty_subseteq. }
  { intros cur Hcur x Hx%elem_of_list_to_set.
    apply elem_of_list_to_set. by apply (powerset_elem _ cur). }
  intros Hb. apply (Hvalid b); [|done].
  unfold anticones_of. apply list_elem_of_fmap. exists b. split; [done|].
  apply Hsub in Hb. by apply elem_of_list_to_set in Hb.
Qed.

(** ** The topological order *)

Lemma each_leaf_post g recurse todo ordered cur_order order ordered' :
  orders_leaves recurse →
  each_leaf g recurse todo ordered cur_order = Ok (order, ordered') →
  ∃ new_order,
    order = cur_order ++ new_order ∧
    ordered' = ordered ∪ list_to_set new_order ∧
    ∀ x, x ∈ todo →
      x ∈ ordered' ∧ ∀ l m, succ g !! x = Some l → m ∈ l → m ∈ ordered'.
Proof.
  intros Hrec. revert ordered cur_order.
  induction todo as [|leaf rest IH]; intros ordered cur_order; simpl.
  - intros [= <- <-]. exists []. rewrite app_nil_r. split; [done|].
    split; [set_solver|]. intros x Hx. by apply elem_of_nil in Hx.
  - unfold successors. destruct (succ g !! leaf) as [succs|] eqn:Hsuccs; [|done].
    simpl. destruct (recurse (list_to_set succs) ({[leaf]} ∪ ordered))
      as [[cur_leaf_order ordered1]| |] eqn:Hcall; [|done|done].
    simpl. intros Hrest.
    destruct (Hrec _ _ _ _ Hcall) as [-> Hleaves].
    destruct (IH _ _ Hrest) as (new_order & -> & -> & Htodo).
    exists (cur_leaf_order ++ [leaf] ++ new_order).
    split; [by rewrite <- !app_assoc|].
    split; [rewrite !list_to_set_app_L; set_solver|].
    intros x [->|Hx]%elem_of_cons; [|by apply Htodo].
    split; [set_solver|]. intros l m Hl Hm. rewrite Hsuccs in Hl. injection Hl as <-.
    apply elem_of_union. left. apply Hleaves. by apply elem_of_list_to_set.
Qed.

Lemma elem_of_todo (leaves coloring : gset Z) x :
  x ∈ sorted (elements (leaves ∩ coloring)) ++
      sorted (elements (leaves ∖ (leaves ∩ coloring))) ↔ x ∈ leaves.
Proof.
  rewrite elem_of_app, !sorted_elem, !elem_of_elements.
  destruct (decide (x ∈ coloring)); set_solver.
Qed.

Lemma get_topological_order_post g coloring fuel leaves ordered order ordered' :
  get_topological_order g coloring fuel leaves ordered = Ok (order, ordered') →
  ordered' = ordered ∪ list_to_set order ∧
  leaves ⊆ ordered' ∧
  ∀ x l m, x ∈ leaves → x ∉ ordered → succ g !! x = Some l → m ∈ l → m ∈ ordered'.
Proof.
  revert leaves ordered order ordered'.
  induction fuel as [|fuel IH]; intros leaves ordered order ordered'; simpl; [done|].
  intros Hrun. apply each_leaf_post in Hrun as (new_order & -> & -> & Htodo).
  - simpl. split; [done|]. split.
    + intros x Hx. destruct (decide (x ∈ ordered)) as [?|Hnew]; [set_solver|].
      apply Htodo, elem_of_todo. set_solver.
    + intros x l m Hx Hnew. apply Htodo, elem_of_todo. set_solver.
  - intros ???? Hcall. apply IH in Hcall as (? & ? & _). done.
Qed.

Lemma each_leaf_total g recurse bound todo ordered0 ordered cur_order :
  closed g →
  orders_leaves recurse → returns_below recurse (list_to_set (nodes g)) bound →
  (∀ x, x ∈ todo → x ∈ nodes g ∧ x ∉ ordered0) →
  ordered0 ⊆ ordered →
  (size (list_to_set (nodes g) ∖ ordered0 : gset Z) ≤ bound)%nat →
  ∃ order ordered', each_leaf g recurse todo ordered cur_order = Ok (order, ordered').
Proof.
  intros [Hdom Hcl] Hpost Hrec. revert ordered cur_order.
  induction todo as [|leaf rest IH]; intros ordered cur_order Htodo Hsub Hsize; simpl;
    [eauto|].
  destruct (Htodo leaf) as [Hnode Hnew]; [by left|].
  unfold successors. destruct (proj1 (Hdom leaf) Hnode) as [succs Hsuccs].
  rewrite Hsuccs. simpl.
  destruct (Hrec (list_to_set succs) ({[leaf]} ∪ ordered)) as (o1 & ordered1 & Hcall).
  { intros m Hm%elem_of_list_to_set. apply elem_of_list_to_set. by apply (Hcl leaf succs). }
  { eapply Nat.lt_le_trans; [|exact Hsize]. apply subset_size.
    assert (leaf ∈ (list_to_set (nodes g) : gset Z)) by by apply elem_of_list_to_set.
    set_solver. }
  rewrite Hcall. simpl. apply IH.
  - intros x Hx. apply Htodo. by right.
  - apply Hpost in Hcall as [-> _]. set_solver.
  - done.
Qed.

Lemma get_topological_order_total g coloring fuel leaves ordered :
  closed g →
  leaves ⊆ list_to_set (nodes g) →
  (size (list_to_set (nodes g) ∖ ordered : gset Z) < fuel)%nat →
  ∃ order ordered', get_topological_order g coloring fuel leaves ordered = Ok (order, ordered').
Proof.
  intros Hg. revert leaves ordered.
  induction fuel as [|fuel IH]; intros leaves ordered Hleaves Hsize; simpl; [lia|].
  apply (each_leaf_total g _ fuel _ ordered); [done| | | |done|lia].
  - intros ???? Hcall. apply get_topological_order_post in Hcall as (? & ? & _). done.
  - intros ????. by apply IH.
  - intros x Hx%elem_of_todo. split; [|set_solver].
    assert (x ∈ (list_to_set (nodes g) : gset Z)) as Hnode by set_solver.
    by apply elem_of_list_to_set in Hnode.
Qed.

Lemma assign_lids_dom new_order new_lid lids n :
  is_Some (assign_lids new_order new_lid lids !! n) ↔ n ∈ new_order ∨ is_Some (lids !! n).
Proof.
  revert new_lid lids. induction new_order as [|x rest IH]; intros new_lid lids; simpl.
  - rewrite elem_of_nil. tauto.
  - rewrite IH, elem_of_cons. destruct (decide (n = x)) as [->|Hne].
    + rewrite lookup_insert_eq. split; [tauto|]. intros _. right. eauto.
    + rewrite lookup_insert_ne by done. tauto.
Qed.

(** ** The states reached by [add] *)

Lemma inv_init k : inv k (init k).
Proof.
  split; [apply closed_empty|]. simpl.
  split; [intros x Hx; by apply elem_of_empty in Hx|].
  split; [intros n Hn; by apply elem_of_nil in Hn|].
  split; [intros b Hb; by apply elem_of_empty in Hb|done].
Qed.

Lemma coloured_fields s block :
  _G (coloured s block) = add_block_to_graph (_G s) block ∧
  _leaves (coloured s block) = update_leaves (_leaves s) block ∧
  lid (coloured s block) = lid s ∧
  _k (coloured s block) = _k s.
Proof.
  unfold coloured, _update_coloring_incrementally. simpl.
  by destruct (find_max_coloring _ _ _ _ _).
Qed.

Lemma add_unfold fuel s block :
  add fuel s block =
  _update_topological_order_incrementally fuel (coloured s block) (global_id block).
Proof. done. Qed.

Lemma add_inv k fuel s block s' :
  inv k s → add fuel s block = Ok s' →
  inv k s' ∧ _G s' = add_block_to_graph (_G s) block.
Proof.
  intros (Hcl & Hleaves & Hlids & _ & Hk). rewrite add_unfold.
  pose proof (update_coloring_valid
                (mk (add_block_to_graph (_G s) block)
                    (<[ global_id block := block ]> (block_data s))
                    (lid s) (blue_anticone s)
                    (update_leaves (_leaves s) block)
                    (_coloring s) (_genesis_gid s) (_k s)) (global_id block)) as Hvalid.
  fold (coloured s block) in Hvalid. simpl in Hvalid.
  destruct (coloured_fields s block) as (HG & HL & Hlid & Hk').
  destruct (add_block_to_graph_spec (_G s) block Hcl) as (Hcl' & Hnodes & Hsucc).
  unfold _update_topological_order_incrementally.
  destruct (get_topological_order (_G (coloured s block)) (_coloring (coloured s block))
              fuel (_leaves (coloured s block)) ∅) as [[new_order ordered]| |] eqn:Horder;
    [|done|done].
  simpl. intros [= <-]. simpl. split; [|done].
  apply get_topological_order_post in Horder as (-> & Hin & Hsuccs).
  rewrite HG, HL, Hlid, Hk' in *.
  split; [done|]. split; [|split; [|split; [|done]]].
  - intros x. unfold update_leaves. rewrite Hnodes. set_solver.
  - intros n Hn. apply assign_lids_dom. apply Hnodes in Hn as [->|[Hn|Hn]].
    + left. assert (global_id block ∈ (∅ ∪ list_to_set new_order : gset Z)) as Hgid.
      { apply Hin. unfold update_leaves. set_solver. }
      set_solver.
    + left. destruct (Hsucc n Hn) as (l & Hl & Hnl).
      assert (n ∈ (∅ ∪ list_to_set new_order : gset Z)) as Hnin.
      { apply (Hsuccs (global_id block) l n); [|set_solver|done|done].
        unfold update_leaves. set_solver. }
      set_solver.
    + right. by apply Hlids.
  - intros b Hb. specialize (Hvalid b Hb). by rewrite Hk in Hvalid.
Qed.

Lemma reachable_inv k s : reachable k s → inv k s.
Proof.
  induction 1 as [|fuel s block s' _ IH Hadd]; [apply inv_init|].
  by destruct (add_inv k fuel s block s' IH Hadd).
Qed.

(** [add] returns when its fuel exceeds the number of nodes. *)
Lemma add_total k fuel s block :
  inv k s →
  (size (list_to_set (nodes (add_block_to_graph (_G s) block)) : gset Z) < fuel)%nat →
  ∃ s', add fuel s block = Ok s'.
Proof.
  intros (Hcl & Hleaves & _) Hfuel. rewrite add_unfold.
  destruct (coloured_fields s block) as (HG & HL & _).
  destruct (add_block_to_graph_spec (_G s) block Hcl) as (Hcl' & Hnodes & _).
  unfold _update_topological_order_incrementally.
  destruct (get_topological_order_total (_G (coloured s block))
              (_coloring (coloured s block)) fuel (_leaves (coloured s block)) ∅)
    as (order & ordered & ->).
  - by rewrite HG.
  - rewrite HG, HL. intros x Hx. apply elem_of_list_to_set, Hnodes.
    unfold update_leaves in Hx. set_solver.
  - rewrite HG. eapply Nat.le_lt_trans; [|exact Hfuel]. apply subseteq_size. set_solver.
  - simpl. eauto.
Qed.

(** ** The colouring is a maximum k-cluster *)

Lemma combinations_sublist (l s : list Z) :
  l `sublist_of` s → l ∈ combinations s (length l).
Proof.
  induction 1 as [|x l1 l2 _ IH|x l1 l2 _ IH]; simpl.
  - left.
  - apply elem_of_app. left. apply list_elem_of_fmap. eauto.
  - destruct l1 as [|y l1]; simpl in *; [left|].
    apply elem_of_app. by right.
Qed.

Lemma powerset_complete (l s : list Z) : l `sublist_of` s → l ∈ powerset s.
Proof.
  intros Hsub. unfold powerset. apply list_elem_of_In, in_concat.
  exists (combinations s (length l)). split.
  - apply list_elem_of_In, list_elem_of_fmap. exists (length l). split; [done|].
    apply elem_of_seq. apply sublist_length in Hsub. lia.
  - apply list_elem_of_In. by apply combinations_sublist.
Qed.

Lemma compute_blue_anticones_complete k anticones coloring acc :
  valid_coloring k anticones coloring →
  ∃ bacs, compute_blue_anticones k anticones coloring acc = Some bacs.
Proof.
  revert acc. induction anticones as [|[b ac] rest IH]; intros acc Hvalid; simpl; [eauto|].
  assert (bool_decide (b ∈ coloring) && (Z.of_nat (size (ac ∩ coloring)) >? k) = false)
    as ->.
  { case_bool_decide as Hb; [|done]. simpl. rewrite Z.gtb_ltb. apply Z.ltb_ge.
    apply (Hvalid b ac); [left|done]. }
  apply IH. intros b' ac' Hin. apply Hvalid. by right.
Qed.

Lemma find_max_coloring_size k anticones candidates max_coloring bac :
  let result := (find_max_coloring k anticones candidates max_coloring bac).1 in
  (size max_coloring ≤ size result)%nat ∧
  ∀ cur, cur ∈ candidates → valid_coloring k anticones (list_to_set cur) →
    (size (list_to_set cur : gset Z) ≤ size result)%nat.
Proof.
  revert max_coloring bac. induction candidates as [|cand rest IH];
    intros max_coloring bac; simpl.
  - split; [done|]. intros cur Hcur. by apply elem_of_nil in Hcur.
  - destruct (compute_blue_anticones k anticones (list_to_set cand) ∅) as [cur_bac|] eqn:Hc.
    + destruct (size max_coloring <? size (list_to_set cand : gset Z))%nat eqn:Hlt.
      * apply Nat.ltb_lt in Hlt.
        destruct (IH (list_to_set cand) cur_bac) as [Hge Hall]. split; [lia|].
        intros cur [->|Hcur]%elem_of_cons Hvalid; [done|by apply Hall].
      * apply Nat.ltb_ge in Hlt.
        destruct (IH max_coloring bac) as [Hge Hall]. split; [done|].
        intros cur [->|Hcur]%elem_of_cons Hvalid; [lia|by apply Hall].
    + destruct (IH max_coloring bac) as [Hge Hall]. split; [done|].
      intros cur [->|Hcur]%elem_of_cons Hvalid; [|by apply Hall].
      destruct (compute_blue_anticones_complete k anticones (list_to_set cand) ∅ Hvalid)
        as [bacs Hsome]. congruence.
Qed.

Lemma valid_coloring_k_cluster k g (c : gset Z) :
  (∀ b, b ∈ c → b ∈ nodes g) →
  valid_coloring k (anticones_of g) c ↔ k_cluster k g c.
Proof.
  intros Hsub. unfold valid_coloring, k_cluster, anticones_of. split.
  - intros Hvalid. split; [done|]. intros b Hb. apply (Hvalid b); [|done].
    apply list_elem_of_fmap. exists b. split; [done|by apply Hsub].
  - intros [_ Hbound] b ac Hin Hb.
    apply list_elem_of_fmap in Hin as (b' & [= -> ->] & _). by apply Hbound.
Qed.

Lemma update_coloring_maximum s gid :
  let s' := _update_coloring_incrementally s gid in
  _G s' = _G s ∧ _k s' = _k s ∧ maximum_k_cluster (_k s) (_G s) (_coloring s').
Proof.
  unfold _update_coloring_incrementally.
  pose proof (find_max_coloring_valid (_k s) (anticones_of (_G s))
                (powerset (nodes (_G s))) ∅ ∅ (list_to_set (nodes (_G s)))) as Hfind.
  pose proof (find_max_coloring_size (_k s) (anticones_of (_G s))
                (powerset (nodes (_G s))) ∅ ∅) as Hsize.
  destruct (find_max_coloring (_k s) (anticones_of (_G s)) (powerset (nodes (_G s))) ∅ ∅)
    as [max_coloring max_coloring_bac]. simpl in *.
  destruct Hfind as [Hvalid Hsub].
  { intros ?? _ Hin. by apply elem_of_empty in Hin. }
  { apply empty_subseteq. }
  { intros cur Hcur x Hx%elem_of_list_to_set.
    apply elem_of_list_to_set. by apply (powerset_elem _ cur). }
  assert (∀ b, b ∈ max_coloring → b ∈ nodes (_G s)) as Hnodes.
  { intros b Hb%Hsub. by apply elem_of_list_to_set in Hb. }
  split; [done|]. split; [done|]. split.
  - by apply valid_coloring_k_cluster.
  - intros c' Hc'. destruct Hsize as [_ Hall].
    set (cur := filter (λ b, b ∈ c') (nodes (_G s))).
    assert (list_to_set cur = c') as Hcur.
    { apply set_eq. intros b. unfold cur.
      rewrite elem_of_list_to_set, list_elem_of_filter.
      destruct Hc' as [Hin _]. naive_solver. }
    rewrite <- Hcur. apply Hall.
    + apply powerset_complete, sublist_filter.
    + rewrite Hcur. apply valid_coloring_k_cluster; [|done]. by destruct Hc'.
Qed.

Lemma add_maximum fuel s block s' :
  add fuel s block = Ok s' → maximum_k_cluster (_k s') (_G s') (_coloring s').
Proof.
  rewrite add_unfold. unfold _update_topological_order_incrementally.
  intros Hrun. inv_bind Hrun. destruct x as [new_order ordered].
  injection Hrun as <-. simpl.
  unfold coloured.
  match goal with
  | |- context [_update_coloring_incrementally ?s1 ?gid] =>
      destruct (update_coloring_maximum s1 gid) as (HG & Hk & Hmax)
  end.
  simpl in *. by rewrite HG, Hk.
Qed.

(** The blue blocks of a state reached by [add]: nodes, each with at most
    [k] blue blocks in its anticone, and as many as a k-cluster can have. *)
Lemma reachable_maximum k s :
  reachable k s →
  k_cluster k (_G s) (_coloring s) ∧
  ∀ c, k_cluster k (_G s) c → (size c ≤ size (_coloring s))%nat.
Proof.
  induction 1 as [|fuel s block s' Hs _ Hadd].
  - split; [split|]; simpl.
    + intros b Hb. by apply elem_of_empty in Hb.
    + intros b Hb. by apply elem_of_empty in Hb.
    + intros c [Hnodes _]. assert (c = ∅) as ->; [|done].
      apply set_eq. intros b. split; [|set_solver].
      intros Hb%Hnodes. by apply elem_of_nil in Hb.
  - pose proof (reachable_inv k s' (reachable_add k fuel s block s' Hs Hadd))
      as (_ & _ & _ & _ & Hk).
    rewrite <- Hk. by apply (add_maximum fuel s block s').
Qed.

(** X15.  In every state reached by [add] the colouring
    of the brute-force engine is a maximum k-cluster of the DAG: the blue
    blocks are nodes, each has at most [k] blue blocks in its anticone, and
    no set of nodes with that property is larger. *)
Theorem coloring_is_maximum_k_cluster k s :
  reachable k s → maximum_k_cluster k (_G s) (_get_coloring s).
Proof.
  intros Hs. pose proof (reachable_inv k s Hs) as (_ & _ & _ & _ & Hk).
  destruct Hs as [|fuel s block s' Hs Hadd].
  - split; [split|]; simpl.
    + intros b Hb. by apply elem_of_empty in Hb.
    + intros b Hb. by apply elem_of_empty in Hb.
    + intros c' [Hnodes _]. assert (c' = ∅) as ->; [|done].
      apply set_eq. intros b. split; [|set_solver].
      intros Hb%Hnodes. by apply elem_of_nil in Hb.
  - rewrite <- Hk. by eapply add_maximum.
Qed.

(** ** Blocks, stubs and queries *)

Lemma coloured_block_data s block :
  block_data (coloured s block) = <[ global_id block := block ]> (block_data s).
Proof.
  unfold coloured, _update_coloring_incrementally. simpl.
  by destruct (find_max_coloring _ _ _ _ _).
Qed.

Lemma add_block_data fuel s block s' :
  add fuel s block = Ok s' →
  block_data s' = <[ global_id block := block ]> (block_data s).
Proof.
  rewrite add_unfold. unfold _update_topological_order_incrementally.
  intros Hrun. inv_bind Hrun. destruct x as [new_order ordered].
  injection Hrun as <-. simpl. apply coloured_block_data.
Qed.

Lemma size_list_to_set_le (l : list Z) : (size (list_to_set l : gset Z) ≤ length l)%nat.
Proof.
  induction l as [|x l IH]; simpl; [done|].
  destruct (decide (x ∈ (list_to_set l : gset Z))) as [Hin|Hout].
  - replace ({[x]} ∪ list_to_set l) with (list_to_set l : gset Z) by set_solver. lia.
  - rewrite size_union by set_solver. rewrite size_singleton. lia.
Qed.

Lemma size_nodes_add_block_to_graph g block :
  closed g →
  (size (list_to_set (nodes (add_block_to_graph g block)) : gset Z)
   ≤ length (nodes g) + size (get_parents block) + 1)%nat.
Proof.
  intros Hg. destruct (add_block_to_graph_spec g block Hg) as (_ & Hnodes & _).
  assert ((list_to_set (nodes (add_block_to_graph g block)) : gset Z)
          ⊆ list_to_set (nodes g) ∪ get_parents block ∪ {[ global_id block ]}) as Hsub.
  { intros m Hm%elem_of_list_to_set. apply Hnodes in Hm.
    rewrite !elem_of_union, elem_of_list_to_set, elem_of_singleton. tauto. }
  apply subseteq_size in Hsub.
  pose proof (size_union_alt (list_to_set (nodes g) ∪ get_parents block)
                ({[ global_id block ]} : gset Z)) as H1.
  pose proof (size_union_alt (list_to_set (nodes g) : gset Z) (get_parents block)) as H2.
  pose proof (subseteq_size (({[ global_id block ]} : gset Z) ∖
                (list_to_set (nodes g) ∪ get_parents block)) {[ global_id block ]}) as H3.
  pose proof (subseteq_size (get_parents block ∖ list_to_set (nodes g))
                (get_parents block)) as H4.
  rewrite size_singleton in H3.
  pose proof (size_list_to_set_le (nodes g)) as H5.
  specialize (H3 ltac:(set_solver)). specialize (H4 ltac:(set_solver)). lia.
Qed.

(** X16.  [PHANTOM.add] never fails: in a state reached by
    [add] it returns as soon as the recursion of the orderer is allowed one
    level per node.  Afterwards the block added is in the DAG with its
    data, and so is every parent it declares; a parent that was never
    added is there as a node without data, for which [self[p]] raises
    [KeyError]. *)
Theorem add_returns_and_keeps_parents k fuel s block :
  reachable k s →
  (length (nodes (_G s)) + size (get_parents block) + 1 < fuel)%nat →
  ∃ s', add fuel s block = Ok s' ∧ reachable k s' ∧
    contains s' (global_id block) = true ∧
    getitem_block s' (global_id block) = Ok block ∧
    ∀ p, p ∈ get_parents block →
      contains s' p = true ∧
      (p ≠ global_id block → contains s p = false →
       block_data s !! p = None → getitem_block s' p = Raise KeyError).
Proof.
  intros Hs Hfuel. pose proof (reachable_inv k s Hs) as Hinv.
  pose proof Hinv as (Hcl & _).
  destruct (add_total k fuel s block Hinv) as [s' Hadd].
  { pose proof (size_nodes_add_block_to_graph (_G s) block Hcl). lia. }
  exists s'. split; [done|]. split; [by econstructor|].
  destruct (add_inv k fuel s block s' Hinv Hadd) as [_ HG].
  pose proof (add_block_data fuel s block s' Hadd) as Hdata.
  destruct (add_block_to_graph_spec (_G s) block Hcl) as (_ & Hnodes & _).
  unfold contains, getitem_block, getitem. rewrite HG, Hdata. split; [|split].
  - apply has_node_true, Hnodes. by left.
  - by rewrite lookup_insert_eq.
  - intros p Hp. split; [by apply parents_are_nodes|].
    intros Hne _ Hnone. by rewrite lookup_insert_ne, Hnone.
Qed.

Lemma blocks_of_stub s gids p :
  p ∈ gids → block_data s !! p = None → blocks_of s gids = Raise KeyError.
Proof.
  intros Hp Hnone. induction gids as [|g gids IH]; [by apply elem_of_nil in Hp|].
  simpl. unfold getitem_block, getitem.
  destruct (block_data s !! g) as [block|] eqn:Hg; simpl; [|done].
  apply elem_of_cons in Hp as [->|Hp]; [congruence|]. by rewrite IH.
Qed.

(** X17.  [set_k] rebuilds the DAG from the data of every node:
    on a DAG that holds a node without data (a parent that was declared
    but never added) it raises [KeyError], whatever the new [k]. *)
Theorem set_k_raises_on_stub fuel s k p :
  contains s p = true → block_data s !! p = None →
  set_k fuel s k = Raise KeyError.
Proof.
  intros Hin Hnone. unfold set_k. rewrite (blocks_of_stub s _ p); [done| |done].
  by apply has_node_true.
Qed.

(** X18.  In every state reached by [add], the order query
    of the brute-force engine returns and leaves the DAG as it is: [None]
    exactly when neither id is in the DAG, [True] when only [a] is,
    [False] when only [b] is, and otherwise the comparison of the two
    local ids, which every node has. *)
Theorem is_a_before_b_total k s a b :
  reachable k s →
  ∃ answer, is_a_before_b s a b = Ok (answer, s) ∧
    (answer = None ↔ contains s a = false ∧ contains s b = false) ∧
    (contains s a = true → contains s b = false → answer = Some true) ∧
    (contains s a = false → contains s b = true → answer = Some false) ∧
    (contains s a = true → contains s b = true →
       ∃ la lb, lid s !! a = Some la ∧ lid s !! b = Some lb ∧ answer = Some (la <=? lb)).
Proof.
  intros Hs. pose proof (reachable_inv k s Hs) as (_ & _ & Hlids & _).
  unfold is_a_before_b, phantom_is_a_before_b. simpl.
  destruct (contains s a) eqn:Ha, (contains s b) eqn:Hb; simpl.
  - destruct (Hlids a) as [la Hla]; [by apply has_node_true|].
    destruct (Hlids b) as [lb Hlb]; [by apply has_node_true|].
    unfold _get_local_id, getitem. rewrite Hla. simpl. rewrite Hlb. simpl.
    exists (Some (la <=? lb)). split; [done|]. split; [naive_solver|].
    split; [done|]. split; [done|]. intros _ _. by exists la, lb.
  - exists (Some true). naive_solver.
  - exists (Some false). naive_solver.
  - exists None. naive_solver.
Qed.

End PHANTOMFacts.

(** * The greedy engine *)

(** A property of the loop state that every run of the body keeps holds
    after the whole walk of [_local_tip_to_global_tip_generator]. *)
Section LocalTipToGlobalTipFacts.
Context {A : Type}.
Variable parent_of : Z → result (option Z).
Variable on_chain : A → Z → bool.
Variable body : Z → bool → bool → A → result A.
Variable P : A → Prop.
Hypothesis body_keeps : ∀ c m i acc acc', P acc → body c m i acc = Ok acc' → P acc'.

Lemma local_part_keeps fuel cur acc intersection acc' :
  P acc → local_part parent_of on_chain body fuel cur acc = Ok (intersection, acc') → P acc'.
Proof.
  revert cur acc. induction fuel as [|fuel IH]; intros [c|] acc Hacc; simpl;
    try done; try (by intros [= _ <-]).
  destruct (on_chain acc c).
  - intros Hrun. inv_bind Hrun. injection Hrun as _ <-. by eapply body_keeps.
  - intros Hrun. inv_bind Hrun. eapply IH; [|done]. by eapply body_keeps.
Qed.

Lemma main_part_keeps fuel cur intersection acc acc' :
  P acc → main_part parent_of body fuel cur intersection acc = Ok acc' → P acc'.
Proof.
  revert cur acc. induction fuel as [|fuel IH]; intros [c|] acc Hacc; simpl;
    try done; try (by intros [= <-]).
  case_bool_decide; [by intros [= <-]|].
  intros Hrun. inv_bind Hrun. eapply IH; [|done]. by eapply body_keeps.
Qed.

Lemma for_local_tip_to_global_tip_keeps fuel local_tip tip acc acc' :
  P acc →
  for_local_tip_to_global_tip parent_of on_chain body fuel local_tip tip acc = Ok acc' →
  P acc'.
Proof.
  intros Hacc Hrun. unfold for_local_tip_to_global_tip in Hrun. inv_bind Hrun.
  destruct x as [intersection acc1]. eapply main_part_keeps; [|done].
  by eapply local_part_keeps.
Qed.
End LocalTipToGlobalTipFacts.

Module GreedyFacts.
Import DiGraph DiGraphShape DiGraphFacts GreedyPHANTOM GreedyRuns.

(** ** What colouring and ordering leave alone *)

Lemma same_graph_refl s : same_graph s s.
Proof. by repeat split. Qed.

Lemma same_graph_trans s1 s2 s3 : same_graph s1 s2 → same_graph s2 s3 → same_graph s1 s3.
Proof. unfold same_graph. intros (?&?&?&?&?&?&?) (?&?&?&?&?&?&?). repeat split; congruence. Qed.

Lemma same_attributes_refl s : same_attributes s s.
Proof. split; [apply same_graph_refl|done]. Qed.

Lemma same_attributes_trans s1 s2 s3 :
  same_attributes s1 s2 → same_attributes s2 s3 → same_attributes s1 s3.
Proof.
  intros [? ?] [? ?]. split; [by eapply same_graph_trans|congruence].
Qed.

Ltac same := unfold same_attributes, same_graph; repeat apply conj; reflexivity.

Lemma same_uncolored_lazy_update other s : same_attributes s (uncolored_lazy_update other s).
Proof. same. Qed.

Lemma same_uncolored_lazy_difference_update other s :
  same_attributes s (uncolored_lazy_difference_update other s).
Proof. same. Qed.

Lemma same_uncolored_add gid s : same_attributes s (uncolored_add gid s).
Proof. same. Qed.

Lemma same_uncolored_flatten modify s : same_attributes s (uncolored_flatten modify s).
Proof. unfold uncolored_flatten. destruct (LazySet.flatten _ _ _). same. Qed.

Lemma same_uncolored_clear s : same_attributes s (uncolored_clear s).
Proof. same. Qed.

Lemma same_clear_antipast_order s : same_attributes s (_clear_antipast_order s).
Proof. same. Qed.

Lemma same_store_dict address d s : same_attributes s (store_dict address d s).
Proof. same. Qed.

Lemma same_move_chain_block c m i acc acc' :
  move_chain_block c m i acc = Ok acc' →
  same_attributes acc.1.1 acc'.1.1.
Proof.
  destruct acc as [[s blues] reds]. unfold move_chain_block.
  destruct i; [intros [= <-]; apply same_attributes_refl|].
  destruct m.
  - case_bool_decide; [|done]. intros Hrun. inv_bind Hrun.
    destruct x as [blue blue_maps]. inv_bind Hrun. destruct x as [red red_maps].
    injection Hrun as <-. same.
  - intros Hrun. inv_bind Hrun. injection Hrun as <-. same.
Qed.

Lemma same_chain_diff_pasts orderings s s' :
  chain_diff_pasts orderings s = Ok s' → same_attributes s s'.
Proof.
  revert s. induction orderings as [|[blue red] rest IH]; intros s; simpl.
  - intros [= <-]. apply same_attributes_refl.
  - destruct blue as [|blue]; [done|]. destruct red as [|red]; [done|].
    intros Hrun%IH. eapply same_attributes_trans; [|exact Hrun]. same.
Qed.

Lemma same_update_past_coloring_according_to fuel s new_tip_gid s' :
  _update_past_coloring_according_to fuel s new_tip_gid = Ok s' → same_attributes s s'.
Proof.
  unfold _update_past_coloring_according_to. cbv zeta.
  set (s1 := uncolored_lazy_update (dom (dict_at s (_blue_antipast_order s))) s).
  set (s2 := uncolored_lazy_update _ s1).
  set (s3 := _clear_antipast_order s2).
  set (s4 := uncolored_add new_tip_gid s3).
  set (s5 := match _coloring_tip_gid s4 with Some _ => _ | None => _ end).
  assert (same_attributes s s5) as Hs5.
  { assert (same_attributes s s4) as Hs4.
    { eapply same_attributes_trans; [|apply same_uncolored_add].
      eapply same_attributes_trans; [|apply same_clear_antipast_order].
      eapply same_attributes_trans; [|apply same_uncolored_lazy_update].
      apply same_uncolored_lazy_update. }
    unfold s5. destruct (_coloring_tip_gid s4); [|done].
    case_bool_decide; [|done].
    eapply same_attributes_trans; [exact Hs4|apply same_uncolored_add]. }
  clearbody s5. clear s1 s2 s3 s4.
  intros Hrun. inv_bind Hrun. destruct x as [[s6 blues] reds]. inv_bind Hrun.
  injection Hrun as <-.
  assert (same_attributes s s6) as Hs6.
  { apply (for_local_tip_to_global_tip_keeps _ _ _ (λ acc, same_attributes s acc.1.1))
      in Hx; [done| |done].
    intros c m i acc acc' Hacc Hbody%same_move_chain_block.
    by eapply same_attributes_trans. }
  apply same_chain_diff_pasts in Hx0.
  eapply same_attributes_trans; [exact Hs6|].
  eapply same_attributes_trans; [exact Hx0|].
  eapply same_attributes_trans; [|apply same_uncolored_flatten]. same.
Qed.

Lemma same_update_max_coloring fuel s gid s' :
  _update_max_coloring fuel s gid = Ok s' → same_attributes s s'.
Proof.
  unfold _update_max_coloring. intros Hrun. inv_bind Hrun.
  destruct x; [|injection Hrun as <-; apply same_attributes_refl].
  inv_bind Hrun. apply same_update_past_coloring_according_to in Hx0.
  eapply same_attributes_trans; [exact Hx0|].
  destruct (match _genesis_gid _ with Some _ => _ | None => _ end).
  - injection Hrun as <-. same.
  - inv_bind Hrun. injection Hrun as <-. same.
Qed.

Lemma same_assign_order order new_lid blue_dict red_dict s :
  same_attributes s (assign_order order new_lid blue_dict red_dict s).
Proof.
  revert new_lid s. induction order as [|x rest IH]; intros new_lid s; simpl.
  - apply same_attributes_refl.
  - eapply same_attributes_trans; [|apply IH]. apply same_store_dict.
Qed.

Lemma same_update_topological_order_in_dicts fuel s blue_dict red_dict leaves parent s' :
  _update_topological_order_in_dicts fuel s blue_dict red_dict leaves parent = Ok s' →
  same_attributes s s'.
Proof.
  unfold _update_topological_order_in_dicts. intros Hrun. inv_bind Hrun.
  injection Hrun as <-. apply same_assign_order.
Qed.

Lemma same_update_topological_order_incrementally fuel s gid s' :
  _update_topological_order_incrementally fuel s gid = Ok s' → same_attributes s s'.
Proof.
  unfold _update_topological_order_incrementally. intros Hrun. inv_bind Hrun.
  destruct x as [|blue_dict]; [done|]. destruct x0 as [|red_dict]; [done|].
  inv_bind Hrun. apply same_update_topological_order_in_dicts in Hx3.
  eapply same_attributes_trans; [exact Hx3|].
  unfold _update_self_order_index in Hrun. inv_bind Hrun. injection Hrun as <-. same.
Qed.

(** ** Blueness *)

Lemma is_a_bluer_than_b_Ok s a b na nb :
  blue_blocks_number s !! a = Some na → blue_blocks_number s !! b = Some nb →
  _is_a_bluer_than_b s a b = Ok ((na >? nb) || ((na =? nb) && (a <? b))).
Proof.
  intros Ha Hb. unfold _is_a_bluer_than_b.
  by rewrite (proj2 (getitem_Ok _ _ _) Ha), (proj2 (getitem_Ok _ _ _) Hb).
Qed.

(** X19.  On the blocks that have a blue number,
    [_is_a_bluer_than_b] is a strict total order: no block is bluer than
    itself, of two different blocks exactly one is bluer than the other,
    and the relation is transitive.  A block without a blue number makes
    the comparison raise [KeyError]. *)
Theorem is_a_bluer_than_b_strict_total_order s a b c na nb nc :
  blue_blocks_number s !! a = Some na →
  blue_blocks_number s !! b = Some nb →
  blue_blocks_number s !! c = Some nc →
  _is_a_bluer_than_b s a a = Ok false ∧
  (a ≠ b → ∃ answer, _is_a_bluer_than_b s a b = Ok answer ∧
             _is_a_bluer_than_b s b a = Ok (negb answer)) ∧
  (_is_a_bluer_than_b s a b = Ok true → _is_a_bluer_than_b s b c = Ok true →
   _is_a_bluer_than_b s a c = Ok true) ∧
  (∀ x, blue_blocks_number s !! x = None →
        _is_a_bluer_than_b s x a = Raise KeyError ∧
        _is_a_bluer_than_b s a x = Raise KeyError).
Proof.
  intros Ha Hb Hc.
  rewrite (is_a_bluer_than_b_Ok s a a na na), (is_a_bluer_than_b_Ok s a b na nb),
    (is_a_bluer_than_b_Ok s b a nb na), (is_a_bluer_than_b_Ok s b c nb nc),
    (is_a_bluer_than_b_Ok s a c na nc) by done.
  split; [f_equal; lia|]. split; [|split].
  - intros Hne. eexists. split; [done|]. f_equal. lia.
  - intros [= Hab] [= Hbc]. f_equal. lia.
  - intros x Hx. unfold _is_a_bluer_than_b.
    rewrite (getitem_None _ _ Hx), (proj2 (getitem_Ok _ _ _) Ha). done.
Qed.

Lemma py_extreme_from_negate best best_key l :
  py_extreme_from Z.ltb best best_key l =
  py_extreme_from Z.gtb best (- best_key) (prod_map id Z.opp <$> l).
Proof.
  revert best best_key. induction l as [|[x kx] l IH]; intros best best_key; simpl; [done|].
  rewrite Z.gtb_ltb.
  destruct (Z.ltb_spec kx best_key), (Z.ltb_spec (- best_key) (- kx)); try lia; apply IH.
Qed.

(** [py_min] returns the first element of least key. *)
Lemma py_min_first keyed x :
  py_min keyed = Some x →
  ∃ l1 kx l2,
    keyed = l1 ++ (x, kx) :: l2 ∧
    (∀ y ky, (y, ky) ∈ l1 → kx < ky) ∧
    (∀ y ky, (y, ky) ∈ l2 → kx ≤ ky).
Proof.
  intros Hmin.
  assert (py_max (prod_map id Z.opp <$> keyed) = Some x) as Hmax.
  { destruct keyed as [|[z kz] rest]; [done|]. simpl in *.
    by rewrite <- py_extreme_from_negate. }
  apply py_max_first in Hmax as (l1 & kx & l2 & Heq & H1 & H2).
  assert (keyed = (prod_map id Z.opp <$> l1) ++ (x, - kx) :: (prod_map id Z.opp <$> l2))
    as Hkeyed.
  { assert (∀ l : list (Z * Z), prod_map id Z.opp <$> (prod_map id Z.opp <$> l) = l) as Hinv.
    { induction l as [|[y ky] l IHl]; [done|].
      rewrite !fmap_cons, IHl. unfold prod_map. simpl. by rewrite Z.opp_involutive. }
    rewrite <- (Hinv keyed), Heq, fmap_app. simpl. done. }
  exists (prod_map id Z.opp <$> l1), (- kx), (prod_map id Z.opp <$> l2).
  split; [done|]. split.
  - intros y ky ([y' ky'] & [= -> ->] & Hin)%list_elem_of_fmap.
    specialize (H1 _ _ Hin). simpl. lia.
  - intros y ky ([y' ky'] & [= -> ->] & Hin)%list_elem_of_fmap.
    specialize (H2 _ _ Hin). simpl. lia.
Qed.

(** The keyed list of [_get_extreme_blue], split at the block chosen. *)
Lemma extreme_blue_split s gids keyed l1 x kx l2 :
  NoDup gids →
  with_keys (getitem (blue_blocks_number s)) (sorted gids) = Ok keyed →
  keyed = l1 ++ (x, kx) :: l2 →
  x ∈ gids ∧ blue_blocks_number s !! x = Some kx ∧
  ∀ y, y ∈ gids → y ≠ x →
    ∃ ky, blue_blocks_number s !! y = Some ky ∧
      (((y, ky) ∈ l1 ∧ y < x) ∨ ((y, ky) ∈ l2 ∧ x < y)).
Proof.
  intros Hnd Hkeys ->. apply with_keys_Ok in Hkeys as [Hfst Hkeys].
  rewrite fmap_app, fmap_cons in Hfst. simpl in Hfst. symmetry in Hfst.
  destruct (sorted_split gids _ _ _ Hnd Hfst) as [Hbefore Hafter].
  split; [|split].
  - apply sorted_elem. rewrite Hfst. apply elem_of_app. right. left.
  - apply getitem_Ok, Hkeys. apply elem_of_app. right. left.
  - intros y Hy Hne. apply sorted_elem in Hy. rewrite Hfst in Hy.
    apply elem_of_app in Hy as [Hy|[->|Hy]%elem_of_cons]; [|done|].
    + apply list_elem_of_fmap in Hy as ([y' ky] & -> & Hin). simpl in *.
      exists ky. split.
      * apply getitem_Ok, Hkeys. apply elem_of_app. by left.
      * left. split; [done|]. apply Hbefore.
        apply list_elem_of_fmap. by exists (y', ky).
    + apply list_elem_of_fmap in Hy as ([y' ky] & -> & Hin). simpl in *.
      exists ky. split.
      * apply getitem_Ok, Hkeys. apply elem_of_app. right. by right.
      * right. split; [done|]. apply Hafter.
        apply list_elem_of_fmap. by exists (y', ky).
Qed.

Lemma get_extreme_blue_missing s gids bluest p :
  p ∈ gids → blue_blocks_number s !! p = None →
  _get_extreme_blue s gids bluest = Raise KeyError.
Proof.
  intros Hp Hmissing. unfold _get_extreme_blue.
  destruct gids as [|i ids]; [by apply elem_of_nil in Hp|].
  rewrite (with_keys_Raise _ _ p KeyError); [done| | | |].
  - by apply sorted_elem.
  - by apply getitem_None.
  - intros y e. unfold getitem. destruct (blue_blocks_number s !! y); naive_solver.
  - intros y. unfold getitem. by destruct (blue_blocks_number s !! y).
Qed.

Lemma get_bluest_Some s gids x :
  NoDup gids → _get_bluest s gids = Ok (Some x) →
  x ∈ gids ∧ ∃ nx, blue_blocks_number s !! x = Some nx ∧
    ∀ y, y ∈ gids → ∃ ny, blue_blocks_number s !! y = Some ny ∧
                          (ny < nx ∨ (ny = nx ∧ x ≤ y)).
Proof.
  intros Hnd. unfold _get_bluest, _get_extreme_blue.
  destruct gids as [|i ids] eqn:Hgids; [done|]. rewrite <- Hgids in *.
  intros Hrun. inv_bind Hrun. injection Hrun as Hmax.
  apply py_max_first in Hmax as (l1 & kx & l2 & Heq & H1 & H2).
  destruct (extreme_blue_split s gids x0 l1 x kx l2 Hnd Hx Heq) as (Hin & Hkx & Hothers).
  split; [done|]. exists kx. split; [done|]. intros y Hy.
  destruct (decide (y = x)) as [->|Hne]; [exists kx; split; [done|lia]|].
  destruct (Hothers y Hy Hne) as (ky & Hky & [[Hl Hlt]|[Hl Hlt]]); exists ky; (split; [done|]).
  - specialize (H1 _ _ Hl). lia.
  - specialize (H2 _ _ Hl). lia.
Qed.

Lemma get_extreme_blue_None s gids bluest :
  _get_extreme_blue s gids bluest = Ok None ↔ gids = [].
Proof.
  unfold _get_extreme_blue. destruct gids as [|i ids]; [done|].
  split; [|done]. intros Hrun. inv_bind Hrun. injection Hrun as Hext.
  apply with_keys_Ok in Hx as [Hfst _].
  assert (i ∈ sorted (i :: ids)) as Hi by (apply sorted_elem; left).
  rewrite <- Hfst in Hi.
  assert (x = []) as ->; [|by apply elem_of_nil in Hi].
  destruct bluest; [by apply py_max_None|]. by destruct x as [|[? ?] ?].
Qed.

Lemma with_keys_total key l :
  (∀ x, x ∈ l → ∃ kx, key x = Ok kx) → ∃ keyed, with_keys key l = Ok keyed ∧ keyed.*1 = l.
Proof.
  induction l as [|x l IH]; intros Hkeys; simpl; [by exists []|].
  destruct (Hkeys x) as [kx ->]; [left|]. simpl.
  destruct IH as (krest & -> & Hfst); [intros y Hy; apply Hkeys; by right|]. simpl.
  exists ((x, kx) :: krest). by rewrite fmap_cons, Hfst.
Qed.

(** On blocks that all have a blue number, a block is returned. *)
Lemma get_extreme_blue_returns s gids bluest :
  gids ≠ [] → (∀ g, g ∈ gids → is_Some (blue_blocks_number s !! g)) →
  ∃ x, _get_extreme_blue s gids bluest = Ok (Some x).
Proof.
  intros Hne Hblue. unfold _get_extreme_blue.
  destruct gids as [|i ids] eqn:Hgids; [done|]. rewrite <- Hgids in *.
  destruct (with_keys_total (getitem (blue_blocks_number s)) (sorted gids))
    as (keyed & -> & Hfst).
  { intros x Hx. apply (proj1 (sorted_elem _ _)) in Hx.
    destruct (Hblue x Hx) as [kx Hkx]. exists kx.
    by apply getitem_Ok. }
  simpl. destruct keyed as [|[z kz] rest].
  - assert (i ∈ sorted gids) as Hi by (apply sorted_elem; rewrite Hgids; left).
    rewrite <- Hfst in Hi. by apply elem_of_nil in Hi.
  - destruct bluest; simpl; eauto.
Qed.

(** X20.  On a non-empty collection of blocks that all have a
    blue number, [_get_bluest] and [_get_extreme_blue] return a block.
    The block [_get_bluest] returns is one of the blocks it is given and is
    bluer (as [_is_a_bluer_than_b] has it) than every other one: of
    greatest blue number, and of least id among those.
    [_get_extreme_blue] with [bluest=False] returns the block of least blue
    number, and of least id among those.  Both return [None] exactly on
    the empty collection, and raise [KeyError] when one of the blocks has
    no blue number. *)
Theorem get_extreme_blue_is_extreme s gids :
  NoDup gids →
  (gids ≠ [] → (∀ g, g ∈ gids → is_Some (blue_blocks_number s !! g)) →
   (∃ x, _get_bluest s gids = Ok (Some x)) ∧
   (∃ x, _get_extreme_blue s gids false = Ok (Some x))) ∧
  (∀ x, _get_bluest s gids = Ok (Some x) →
     x ∈ gids ∧ ∀ y, y ∈ gids → y ≠ x → _is_a_bluer_than_b s x y = Ok true) ∧
  (∀ x, _get_extreme_blue s gids false = Ok (Some x) →
     x ∈ gids ∧ ∃ nx, blue_blocks_number s !! x = Some nx ∧
       ∀ y, y ∈ gids → ∃ ny, blue_blocks_number s !! y = Some ny ∧
                             (nx < ny ∨ (nx = ny ∧ x ≤ y))) ∧
  (∀ bluest, _get_extreme_blue s gids bluest = Ok None ↔ gids = []) ∧
  (∀ bluest p, p ∈ gids → blue_blocks_number s !! p = None →
     _get_extreme_blue s gids bluest = Raise KeyError).
Proof.
  intros Hnd. split; [|split; [|split; [|split]]].
  - intros Hne Hblue. split; by apply get_extreme_blue_returns.
  - intros x Hrun.
    destruct (get_bluest_Some s gids x Hnd Hrun) as (Hin & nx & Hnx & Hall).
    split; [done|]. intros y Hy Hne. destruct (Hall y Hy) as (ny & Hny & Hcmp).
    rewrite (is_a_bluer_than_b_Ok s x y nx ny) by done. f_equal. lia.
  - unfold _get_extreme_blue.
    destruct gids as [|i ids] eqn:Hgids; [done|]. rewrite <- Hgids in *.
    intros x Hrun. inv_bind Hrun. injection Hrun as Hmin.
    apply py_min_first in Hmin as (l1 & kx & l2 & Heq & H1 & H2).
    destruct (extreme_blue_split s gids x0 l1 x kx l2 Hnd Hx Heq) as (Hin & Hkx & Hothers).
    split; [done|]. exists kx. split; [done|]. intros y Hy.
    destruct (decide (y = x)) as [->|Hne]; [exists kx; split; [done|lia]|].
    destruct (Hothers y Hy Hne) as (ky & Hky & [[Hl Hlt]|[Hl Hlt]]); exists ky;
      (split; [done|]).
    + specialize (H1 _ _ Hl). lia.
    + specialize (H2 _ _ Hl). lia.
  - intros bluest. apply get_extreme_blue_None.
  - intros bluest p. apply get_extreme_blue_missing.
Qed.

(** ** What [add] writes *)

Lemma update_diff_coloring_fields fuel s gid s' :
  _update_diff_coloring_of_block fuel s gid = Ok s' →
  same_graph s s' ∧
  ∃ blue_number added,
    blue_blocks_number s !! gid = Some blue_number ∧ 0 ≤ added ∧
    blue_blocks_number s' = <[ gid := blue_number + added ]> (blue_blocks_number s).
Proof.
  unfold _update_diff_coloring_of_block. intros Hrun. inv_bind Hrun.
  destruct x3 as [blue red]. simpl in Hrun. inv_bind Hrun.
  injection Hrun as <-. simpl in *. apply getitem_Ok in Hx4.
  split; [by repeat split|]. exists x3, (Z.of_nat (size blue)).
  split; [done|]. split; [lia|done].
Qed.

Lemma max_height_spec s parents best highest :
  max_height s parents best = Ok highest →
  (∀ p, p ∈ parents → ∃ hp m, height_key s !! p = Some hp ∧ highest = Some m ∧ hp ≤ m) ∧
  (∀ b, best = Some b → ∃ m, highest = Some m ∧ b ≤ m) ∧
  (∀ m, highest = Some m → best = Some m ∨ ∃ p, p ∈ parents ∧ height_key s !! p = Some m) ∧
  (highest = None → best = None ∧ parents = []).
Proof.
  revert best. induction parents as [|parent rest IH]; intros best; simpl.
  - intros [= <-]. split; [intros p Hp; by apply elem_of_nil in Hp|].
    split; [intros b ->; exists b; split; [done|lia]|]. split; [by left|done].
  - intros Hrun. inv_bind Hrun. rename x into h. apply getitem_Ok in Hx.
    apply IH in Hrun as (Hall & Hbest & Hsome & Hnone).
    split; [|split; [|split]].
    + intros p [->|Hp]%elem_of_cons; [|by apply Hall].
      destruct best as [b|].
      * destruct (Hbest _ eq_refl) as (m & -> & Hm). exists h, m.
        split; [done|]. split; [done|]. destruct (h >? b) eqn:Hgt; lia.
      * destruct (Hbest _ eq_refl) as (m & -> & Hm). by exists h, m.
    + intros b ->. destruct (Hbest _ eq_refl) as (m & -> & Hm). exists m.
      split; [done|]. destruct (h >? b) eqn:Hgt; lia.
    + intros m Hm. destruct (Hsome m Hm) as [Hb|(p & Hp & Hhp)].
      * destruct best as [b|].
        -- injection Hb as <-. destruct (h >? b) eqn:Hgt; [|by left].
           right. exists parent. split; [left|done].
        -- injection Hb as <-. right. exists parent. split; [left|done].
      * right. exists p. split; [by right|done].
    + intros Hn. destruct (Hnone Hn) as [Hb _]. by destruct best.
Qed.

Lemma update_coloring_fields fuel s gid s' :
  _update_coloring_incrementally fuel s gid = Ok s' →
  ∃ block parent height blue_number,
    block_data s !! gid = Some block ∧
    _get_bluest s (elements (get_parents block)) = Ok parent ∧
    _G s' = _G s ∧ block_data s' = block_data s ∧ _leaves s' = _leaves s ∧ _k s' = _k s ∧
    coloring_parent s' = <[ gid := parent ]> (coloring_parent s) ∧
    height_key s' = <[ gid := height ]> (height_key s) ∧
    blue_blocks_number s' = <[ gid := blue_number ]> (blue_blocks_number s) ∧
    match parent with
    | None => height = 0 ∧ 0 ≤ blue_number
    | Some p =>
        (∀ q, q ∈ get_parents block →
              ∃ hq, height_key s !! q = Some hq ∧ hq < height) ∧
        (∃ q, q ∈ get_parents block ∧ height_key s !! q = Some (height - 1)) ∧
        ∃ bp, blue_blocks_number s !! p = Some bp ∧ bp ≤ blue_number
    end.
Proof.
  unfold _update_coloring_incrementally. intros Hrun. inv_bind Hrun.
  rename x into block, x0 into parent, x1 into s4, x2 into s6.
  apply getitem_Ok in Hx.
  apply same_update_max_coloring in Hrun as [(HG & Hdata & Hcp & Hh & Hl & Hk & _) Hblue].
  apply update_diff_coloring_fields in Hx2
    as [(HG' & Hdata' & Hcp' & Hh' & Hl' & Hk' & _) (bn & added & Hbn & Hadded & Hblue')].
  exists block, parent.
  destruct parent as [p|].
  - simpl in Hx1. apply bind_Ok in Hx1 as (highest & Hhighest & Hx1).
    apply bind_Ok in Hx1 as (bp & Hbp & Hx1).
    injection Hx1 as <-. simpl in *. apply getitem_Ok in Hbp.
    rewrite lookup_insert_eq in Hbn. injection Hbn as <-.
    exists (default 0 highest + 1), (bp + added).
    split; [done|]. split; [done|].
    split; [congruence|]. split; [congruence|]. split; [congruence|]. split; [congruence|].
    split; [congruence|]. split; [congruence|].
    split; [by rewrite Hblue, Hblue', insert_insert_eq|].
    apply max_height_spec in Hhighest as (Hall & _ & Hsome & Hnone).
    assert (p ∈ get_parents block) as Hp.
    { apply get_bluest_Some in Hx0 as [? _]; [|apply NoDup_elements].
      by apply elem_of_elements. }
    destruct (Hall p) as (hp & m & Hhp & -> & Hle); [by apply elem_of_elements|].
    simpl. split; [|split].
    + intros q Hq. destruct (Hall q) as (hq & m' & Hhq & [= <-] & Hle');
        [by apply elem_of_elements|]. exists hq. split; [done|lia].
    + destruct (Hsome m eq_refl) as [?|(q & Hq & Hhq)]; [done|].
      exists q. split; [by apply elem_of_elements|].
      by replace (m + 1 - 1) with m by lia.
    + exists bp. split; [done|lia].
  - simpl in Hx1. injection Hx1 as <-. simpl in *.
    rewrite lookup_insert_eq in Hbn. injection Hbn as <-.
    exists 0, (0 + added).
    split; [done|]. split; [done|].
    split; [congruence|]. split; [congruence|]. split; [congruence|]. split; [congruence|].
    split; [congruence|]. split; [congruence|].
    split; [by rewrite Hblue, Hblue', insert_insert_eq|]. split; [done|lia].
Qed.

Lemma greedy_add_fields fuel s block s' :
  add fuel s block = Ok s' →
  ∃ parent height blue_number,
    _get_bluest s (elements (get_parents block)) = Ok parent ∧
    _G s' = add_block_to_graph (_G s) block ∧
    block_data s' = <[ global_id block := block ]> (block_data s) ∧
    _k s' = _k s ∧
    coloring_parent s' = <[ global_id block := parent ]> (coloring_parent s) ∧
    height_key s' = <[ global_id block := height ]> (height_key s) ∧
    blue_blocks_number s' = <[ global_id block := blue_number ]> (blue_blocks_number s) ∧
    match parent with
    | None => height = 0 ∧ 0 ≤ blue_number
    | Some p =>
        (∀ q, q ∈ get_parents block →
              ∃ hq, height_key s !! q = Some hq ∧ hq < height) ∧
        (∃ q, q ∈ get_parents block ∧ height_key s !! q = Some (height - 1)) ∧
        ∃ bp, blue_blocks_number s !! p = Some bp ∧ bp ≤ blue_number
    end.
Proof.
  unfold add. intros Hrun. apply bind_Ok in Hrun as (s2 & Hcolor & Horder).
  apply same_update_topological_order_incrementally in Horder
    as [(HG & Hdata & Hcp & Hh & Hl & Hk & _) Hblue].
  apply update_coloring_fields in Hcolor
    as (block' & parent & height & bn & Hblock & Hbluest & HG' & Hdata' & _ & Hk' &
        Hcp' & Hh' & Hblue' & Hparent).
  simpl in *. rewrite lookup_insert_eq in Hblock. injection Hblock as <-.
  exists parent, height, bn. split; [done|].
  split; [congruence|]. split; [congruence|]. split; [congruence|].
  split; [congruence|]. split; [congruence|]. split; [congruence|]. done.
Qed.

(** X21.  When [GreedyPHANTOM.add] returns, the block is in
    the graph with its data and its edges, and the colouring attributes of
    every other block are as they were.  The colouring parent of the new
    block is the bluest of its parents as [_get_bluest] finds it (none
    exactly when the block declares no parent); without parents its height
    is 0, otherwise it is one more than the greatest height of its
    parents, and its blue number is at least that of its colouring
    parent. *)
Theorem add_writes_the_new_block_only fuel s block s' :
  add fuel s block = Ok s' →
  _G s' = add_block_to_graph (_G s) block ∧
  getitem_block s' (global_id block) = Ok block ∧
  (∀ g, g ≠ global_id block →
     block_data s' !! g = block_data s !! g ∧
     coloring_parent s' !! g = coloring_parent s !! g ∧
     height_key s' !! g = height_key s !! g ∧
     blue_blocks_number s' !! g = blue_blocks_number s !! g) ∧
  ∃ parent height blue_number,
    coloring_parent s' !! global_id block = Some parent ∧
    height_key s' !! global_id block = Some height ∧
    blue_blocks_number s' !! global_id block = Some blue_number ∧
    _get_bluest s (elements (get_parents block)) = Ok parent ∧
    (parent = None ↔ get_parents block = ∅) ∧
    match parent with
    | None => height = 0 ∧ 0 ≤ blue_number
    | Some p =>
        p ∈ get_parents block ∧
        (∀ q, q ∈ get_parents block →
              ∃ hq, height_key s !! q = Some hq ∧ hq < height) ∧
        (∃ q, q ∈ get_parents block ∧ height_key s !! q = Some (height - 1)) ∧
        ∃ bp, blue_blocks_number s !! p = Some bp ∧ bp ≤ blue_number
    end.
Proof.
  intros Hadd. destruct (greedy_add_fields fuel s block s' Hadd)
    as (parent & height & bn & Hbluest & HG & Hdata & _ & Hcp & Hh & Hblue & Hparent).
  split; [done|]. split; [|split].
  - unfold getitem_block, getitem. by rewrite Hdata, lookup_insert_eq.
  - intros g Hg. rewrite Hdata, Hcp, Hh, Hblue. by rewrite !lookup_insert_ne.
  - exists parent, height, bn. rewrite Hcp, Hh, Hblue, !lookup_insert_eq.
    split; [done|]. split; [done|]. split; [done|]. split; [done|].
    split.
    + split.
      * intros ->. apply get_extreme_blue_None in Hbluest.
        by apply elements_empty_inv in Hbluest as ->%leibniz_equiv.
      * intros Hempty. rewrite Hempty, elements_empty in Hbluest.
        simpl in Hbluest. by injection Hbluest as <-.
    + destruct parent as [p|]; [|done]. split; [|done].
      apply get_bluest_Some in Hbluest as [Hin _]; [|apply NoDup_elements].
      by apply elem_of_elements.
Qed.

(** ** What [add] keeps when it returns *)

Lemma add_all_blocks fuel s block s' :
  all_blocks s → add fuel s block = Ok s' → all_blocks s'.
Proof.
  intros (Hcl & Hnodes & Hblue) Hadd.
  destruct (greedy_add_fields fuel s block s' Hadd)
    as (parent & height & bn & Hbluest & HG & Hdata & _ & Hcp & Hh & Hbn & _).
  destruct (PHANTOMFacts.add_block_to_graph_spec (_G s) block Hcl) as (Hcl' & Hn' & _).
  assert (∀ p, p ∈ get_parents block → is_Some (blue_blocks_number s !! p)) as Hparents.
  { intros p Hp. destruct (blue_blocks_number s !! p) eqn:Hbp; [eauto|].
    unfold _get_bluest in Hbluest.
    rewrite (get_extreme_blue_missing s _ true p) in Hbluest; [done| |done].
    by apply elem_of_elements. }
  unfold all_blocks. rewrite HG. split; [done|]. split.
  - intros g Hg. rewrite Hdata, Hcp, Hh, Hbn.
    destruct (decide (g = global_id block)) as [->|Hne].
    + rewrite !lookup_insert_eq. eauto.
    + rewrite !lookup_insert_ne by done. apply Hnodes.
      apply Hn' in Hg as [?|[Hg|?]]; [done| |done]. by apply Hblue, Hparents.
  - intros g. rewrite Hbn. destruct (decide (g = global_id block)) as [->|Hne].
    + intros _. apply Hn'. by left.
    + rewrite lookup_insert_ne by done. intros Hg. apply Hn'. right. right. by apply Hblue.
Qed.

Lemma all_blocks_init k : all_blocks (init k).
Proof.
  split; [apply closed_empty|]. split; simpl.
  - intros g Hg. by apply elem_of_nil in Hg.
  - intros g. rewrite lookup_empty. by intros [? ?].
Qed.

Lemma add_all_all_blocks fuel s blocks s' :
  all_blocks s → add_all fuel s blocks = Ok s' → all_blocks s'.
Proof.
  revert s. induction blocks as [|block rest IH]; intros s Hs; simpl.
  - by intros [= <-].
  - intros Hrun. apply bind_Ok in Hrun as (s1 & Hadd & Hrun).
    apply (IH s1); [|done]. by eapply add_all_blocks.
Qed.

(** A parent that is not in a whole DAG has no blue number: the call
    raises when [_get_bluest] reads it, after the block was written. *)
Lemma add_missing_parent_KeyError fuel s block p :
  all_blocks s → p ∈ get_parents block → contains s p = false →
  blue_blocks_number s !! p = None ∧
  _get_bluest (interrupted_add s block) (elements (get_parents block)) = Raise KeyError ∧
  add fuel s block = Raise KeyError.
Proof.
  intros (Hcl & Hnodes & Hblue) Hp Hnew.
  assert (blue_blocks_number s !! p = None) as Hmissing.
  { destruct (blue_blocks_number s !! p) eqn:Hbp; [|done].
    exfalso. unfold contains, has_node in Hnew. apply bool_decide_eq_false in Hnew.
    apply Hnew, Hblue. eauto. }
  assert (_get_bluest (interrupted_add s block) (elements (get_parents block))
          = Raise KeyError) as Hraise.
  { unfold _get_bluest.
    rewrite (get_extreme_blue_missing _ _ true p); [done| |done].
    by apply elem_of_elements. }
  split; [done|]. split; [done|].
  unfold add, _update_coloring_incrementally. simpl.
  rewrite getitem_insert_eq. simpl. unfold interrupted_add in Hraise.
  simpl in Hraise. by rewrite Hraise.
Qed.

(** X22.  Call a greedy DAG whole when every node is
    a block that was added (it has its data, colouring parent entry,
    height and blue number) and only nodes have a blue number.  A new DAG
    is whole and every [add] that returns keeps it whole.  On a whole DAG,
    adding a block one of whose parents is not in the DAG raises
    [KeyError] whatever the fuel: [_get_bluest] cannot read the blue number
    of that parent.  By then [add] has written the block and its edges, so
    the DAG that the raised call leaves holds the block and the missing
    parent as nodes, the parent without blue number: it is not whole. *)
Theorem greedy_add_missing_parent_raises k fuel s block :
  all_blocks s →
  all_blocks (init k) ∧
  (∀ g, contains s g = true →
     ∃ data, getitem_block s g = Ok data ∧
       is_Some (coloring_parent s !! g) ∧ is_Some (height_key s !! g) ∧
       is_Some (blue_blocks_number s !! g)) ∧
  (∀ s', add fuel s block = Ok s' → all_blocks s') ∧
  (∀ p, p ∈ get_parents block → contains s p = false →
     add fuel s block = Raise KeyError ∧
     _get_bluest (interrupted_add s block) (elements (get_parents block)) = Raise KeyError ∧
     contains (interrupted_add s block) (global_id block) = true ∧
     contains (interrupted_add s block) p = true ∧
     blue_blocks_number (interrupted_add s block) !! p = None ∧
     ¬ all_blocks (interrupted_add s block)).
Proof.
  intros Hs. pose proof Hs as (Hcl & Hnodes & Hblue).
  split; [apply all_blocks_init|]. split; [|split].
  - intros g Hg%has_node_true. destruct (Hnodes g Hg) as ([data Hdata] & ? & ? & ?).
    exists data. unfold getitem_block, getitem. by rewrite Hdata.
  - intros s' Hadd. by eapply add_all_blocks.
  - intros p Hp Hnew.
    destruct (add_missing_parent_KeyError fuel s block p Hs Hp Hnew)
      as (Hmissing & Hraise & Hadd).
    destruct (PHANTOMFacts.add_block_to_graph_spec (_G s) block Hcl) as (_ & Hn' & _).
    assert (contains (interrupted_add s block) p = true) as Hstub.
    { unfold contains. apply has_node_true. simpl. apply Hn'. right. by left. }
    split; [done|]. split; [done|]. split; [|split; [done|]; split; [done|]].
    + unfold contains. apply has_node_true. simpl. apply Hn'. by left.
    + intros (_ & Hnodes' & _). apply has_node_true in Hstub.
      destruct (Hnodes' p Hstub) as (_ & _ & _ & [bn Hbn]).
      simpl in Hbn. congruence.
Qed.

(** ** The topological order of a diff past *)

Lemma order_blocks_spec s coloring unordered fuel to_order ordered order :
  NoDup ordered → parents_first (_G s) unordered ordered →
  order_blocks s coloring unordered fuel to_order ordered = Ok order →
  NoDup order ∧ parents_first (_G s) unordered order ∧
  ∃ new, order = ordered ++ new.
Proof.
  revert to_order ordered. induction fuel as [|fuel IH];
    intros [|cur rest] ordered Hnd Hfirst; simpl;
    try (intros [= <-]; split; [done|]; split; [done|]; exists []; by rewrite app_nil_r);
    try done.
  case_bool_decide as Hcur; [by apply IH|].
  intros Hrun. apply bind_Ok in Hrun as (successors & Hsucc & Hrun).
  unfold DiGraph.successors in Hsucc.
  destruct (succ (_G s) !! cur) as [succs|] eqn:Hsuccs; [|done]. injection Hsucc as <-.
  case_bool_decide as Hparents.
  - apply IH in Hrun as (Hnd' & Hfirst' & new & ->).
    + split; [done|]. split; [done|]. exists (cur :: new). by rewrite <- app_assoc.
    + apply NoDup_app. split; [done|]. split; [|apply NoDup_singleton].
      intros x Hx ->%list_elem_of_singleton. done.
    + intros i x successors p Hi Hx Hp Hun.
      destruct (decide (i < length ordered)%nat) as [Hlt|Hge].
      * rewrite lookup_app_l in Hi by done.
        destruct (Hfirst i x successors p Hi Hx Hp Hun) as (j & Hj & Hjp).
        exists j. split; [done|]. rewrite lookup_app_l by lia. done.
      * rewrite lookup_app_r in Hi by lia.
        destruct (i - length ordered)%nat as [|n] eqn:Hn; [|by destruct n].
        simpl in Hi. injection Hi as <-. rewrite Hsuccs in Hx. injection Hx as <-.
        assert (p ∈ (list_to_set ordered : gset Z)) as Hin.
        { apply Hparents. apply elem_of_intersection. split; [|done].
          by apply elem_of_list_to_set. }
        apply elem_of_list_to_set, list_elem_of_lookup in Hin as [j Hj].
        exists j. split.
        -- apply lookup_lt_Some in Hj. lia.
        -- rewrite lookup_app_l; [done|]. by eapply lookup_lt_Some.
  - apply bind_Ok in Hrun as (parent & _ & Hrun). by apply IH in Hrun.
Qed.

(** X23.  Whenever [_calculate_topological_order] returns,
    the order it gives holds no block twice, and every block in it comes
    after each of its parents that belongs to the blocks to be ordered. *)
Theorem calculate_topological_order_parents_first fuel s coloring_parent_gid
    leaves coloring unordered order :
  _calculate_topological_order fuel s coloring_parent_gid leaves coloring unordered
    = Ok order →
  NoDup order ∧ parents_first (_G s) unordered order.
Proof.
  unfold _calculate_topological_order. intros Hrun.
  apply order_blocks_spec in Hrun as (Hnd & Hfirst & _); [done|constructor|].
  intros i x successors p Hi. by rewrite lookup_nil in Hi.
Qed.

(** ** Depths *)

Lemma diff_len_nonneg s v : 0 ≤ diff_len s v.
Proof. destruct v; simpl; lia. Qed.

Lemma depth_from_nonneg s gid fuel cur depth d :
  0 ≤ depth → depth_from s gid fuel cur depth = Ok d → 0 ≤ d.
Proof.
  revert cur depth. induction fuel as [|fuel IH]; intros cur depth Hdepth; simpl.
  - destruct cur; [done|]. intros [= <-]. lia.
  - destruct cur as [c|]; [|intros [= <-]; lia].
    intros Hrun. apply bind_Ok in Hrun as (red_diff & _ & Hrun).
    destruct (diff_mem s red_diff gid); [injection Hrun as <-; lia|].
    apply bind_Ok in Hrun as (blue_diff & _ & Hrun).
    destruct (diff_mem s blue_diff gid); [by injection Hrun as <-|].
    apply bind_Ok in Hrun as (next & _ & Hrun).
    apply IH in Hrun; [done|]. pose proof (diff_len_nonneg s blue_diff). lia.
Qed.

(** X24.  Whenever [GreedyPHANTOM.get_depth] returns, the depth
    is minus infinity exactly for an id that is not in the DAG, and a
    number that is never negative for a block of the DAG. *)
Theorem get_depth_is_never_negative fuel s gid d :
  get_depth fuel s gid = Ok d →
  (d = NegInf ↔ contains s gid = false) ∧
  (contains s gid = true → ∃ n, d = Depth n ∧ 0 ≤ n).
Proof.
  unfold get_depth. destruct (contains s gid); simpl.
  - case_bool_decide as Hanti.
    + intros [= <-]. split; [done|]. intros _. exists 0. split; [done|lia].
    + intros Hrun. apply bind_Ok in Hrun as (n & Hn & Hrun). injection Hrun as <-.
      apply depth_from_nonneg in Hn; [|lia].
      split; [done|]. intros _. by exists n.
  - intros [= <-]. done.
Qed.

End GreedyFacts.

(** * The set interface of LazySet *)

Module LazySetMethodsFacts.
Import LazySet LazySetMethods LazySetFacts.
Section Elements.
Context `{Countable A}.
Implicit Types (h : list (gset A)) (L : t) (x elem : A) (other X : gset A)
(others : list (gset A)).

(** ** New set objects *)

Lemma fetch_alloc_old h X r : (r < length h)%nat → fetch (h ++ [X]) r = fetch h r.
Proof. intros Hr. unfold fetch. by rewrite lookup_app_l. Qed.

Lemma fetch_alloc_new h X : fetch (h ++ [X]) (length h) = X.
Proof. unfold fetch. by rewrite lookup_app_r, Nat.sub_diag by lia. Qed.

Lemma wf_alloc h X L : wf h L → wf (h ++ [X]) L.
Proof.
intros [Hpos Hsets]. split; [done|]. intros r Hr. rewrite length_app. simpl.
specialize (Hsets r Hr). lia.
Qed.

Lemma denote_alloc h X L : wf h L → denote (h ++ [X]) L = denote h L.
Proof.
intros [_ Hsets]. unfold denote. apply denote_from_store_ext.
intros r Hr. apply fetch_alloc_old. by apply Hsets.
Qed.

Lemma update_one h L other :
update h L [other] = Ok (h ++ [other], lazy_update (h ++ [other]) L (length h)).
Proof. done. Qed.

Lemma difference_update_one h L other :
difference_update h L [other] =
Ok (h ++ [other], lazy_difference_update (h ++ [other]) L (length h)).
Proof. done. Qed.

(** A new set, layered: the value changes by the reference step. *)
Lemma update_spec h L other :
wf h L →
∃ L', update h L [other] = Ok (h ++ [other], L') ∧
      wf (h ++ [other]) L' ∧ denote (h ++ [other]) L' = denote h L ∪ other.
Proof.
intros Hwf. eexists. split; [apply update_one|].
pose proof (wf_alloc h other L Hwf) as Hwf'.
split; [apply (wf_run_call _ _ (LazyUpdate (length h)) Hwf')|].
pose proof (denote_run_call _ L (LazyUpdate (length h)) Hwf') as Hden.
simpl in Hden. by rewrite Hden, denote_alloc, fetch_alloc_new.
Qed.

Lemma difference_update_spec h L other :
wf h L →
∃ L', difference_update h L [other] = Ok (h ++ [other], L') ∧
      wf (h ++ [other]) L' ∧ denote (h ++ [other]) L' = denote h L ∖ other.
Proof.
intros Hwf. eexists. split; [apply difference_update_one|].
pose proof (wf_alloc h other L Hwf) as Hwf'.
split; [apply (wf_run_call _ _ (LazyDifferenceUpdate (length h)) Hwf')|].
pose proof (denote_run_call _ L (LazyDifferenceUpdate (length h)) Hwf') as Hden.
simpl in Hden. by rewrite Hden, denote_alloc, fetch_alloc_new.
Qed.

Lemma wf_copy h L : wf h L → wf h (copy L).
Proof. done. Qed.

Lemma denote_copy h L : denote h (copy L) = denote h L.
Proof. done. Qed.

Lemma contains_union h h' L L' X :
denote h' L' = denote h L ∪ X →
∀ x, contains h' L' x = contains h L x || bool_decide (x ∈ X).
Proof.
intros Hden x. rewrite !contains_denote, Hden.
repeat case_bool_decide; set_solver.
Qed.

Lemma contains_difference h h' L L' X :
denote h' L' = denote h L ∖ X →
∀ x, contains h' L' x = contains h L x && negb (bool_decide (x ∈ X)).
Proof.
intros Hden x. rewrite !contains_denote, Hden.
repeat case_bool_decide; set_solver.
Qed.

Lemma alloc_keeps h X r : (r < length h)%nat → (h ++ [X]) !! r = h !! r.
Proof. intros Hr. by rewrite lookup_app_l. Qed.

(** X1.  [update(other)] (and [|=]) layers a copy of [other]: a
  well-formed LazySet stays well-formed, no set object that existed is
  changed, and an item is a member afterwards exactly when it was one or
  is in [other].  In particular [add(elem)] makes [elem] a member and
  changes the membership of nothing else. *)
Theorem update_adds_members h L other elem :
wf h L →
(∃ h' L', update h L [other] = Ok (h', L') ∧ wf h' L' ∧
   (∀ r, (r < length h)%nat → h' !! r = h !! r) ∧
   ∀ x, contains h' L' x = contains h L x || bool_decide (x ∈ other)) ∧
(∃ h' L', add h L elem = Ok (h', L') ∧ wf h' L' ∧
   contains h' L' elem = true ∧
   ∀ x, x ≠ elem → contains h' L' x = contains h L x).
Proof.
intros Hwf. split.
- destruct (update_spec h L other Hwf) as (L' & Hrun & Hwf' & Hden).
  exists (h ++ [other]), L'. split; [done|]. split; [done|].
  split; [intros r; apply alloc_keeps|]. by apply contains_union.
- destruct (update_spec h L {[elem]} Hwf) as (L' & Hrun & Hwf' & Hden).
  exists (h ++ [{[elem]}]), L'. split; [done|]. split; [done|].
  pose proof (contains_union _ _ _ _ _ Hden) as Hmem. split.
  + rewrite Hmem, (bool_decide_eq_true_2 (elem ∈ ({[elem]} : gset A))) by set_solver.
    apply orb_true_r.
  + intros x Hx. rewrite Hmem, (bool_decide_eq_false_2 (x ∈ ({[elem]} : gset A)))
      by set_solver. apply orb_false_r.
Qed.

(** X2.  [difference_update(other)] (and [-=]) layers a
  copy of [other] as a negative set: an item is a member afterwards
  exactly when it was one and is not in [other]; [discard(elem)] leaves
  [elem] out and changes the membership of nothing else, whether [elem]
  was a member or not. *)
Theorem difference_update_removes_members h L other elem :
wf h L →
(∃ h' L', difference_update h L [other] = Ok (h', L') ∧ wf h' L' ∧
   (∀ r, (r < length h)%nat → h' !! r = h !! r) ∧
   ∀ x, contains h' L' x = contains h L x && negb (bool_decide (x ∈ other))) ∧
(∃ h' L', discard h L elem = Ok (h', L') ∧ wf h' L' ∧
   contains h' L' elem = false ∧
   ∀ x, x ≠ elem → contains h' L' x = contains h L x).
Proof.
intros Hwf. split.
- destruct (difference_update_spec h L other Hwf) as (L' & Hrun & Hwf' & Hden).
  exists (h ++ [other]), L'. split; [done|]. split; [done|].
  split; [intros r; apply alloc_keeps|]. by apply contains_difference.
- destruct (difference_update_spec h L {[elem]} Hwf) as (L' & Hrun & Hwf' & Hden).
  exists (h ++ [{[elem]}]), L'. split; [done|]. split; [done|].
  pose proof (contains_difference _ _ _ _ _ Hden) as Hmem. split.
  + rewrite Hmem, (bool_decide_eq_true_2 (elem ∈ ({[elem]} : gset A))) by set_solver.
    apply andb_false_r.
  + intros x Hx. rewrite Hmem, (bool_decide_eq_false_2 (x ∈ ({[elem]} : gset A)))
      by set_solver. apply andb_true_r.
Qed.

(** X3.  [remove(elem)] raises [KeyError] exactly when [elem] is not
  a member; otherwise it returns, [elem] is no longer a member and the
  membership of every other item is unchanged. *)
Theorem remove_raises_iff_absent h L elem :
wf h L →
(contains h L elem = false ↔ remove h L elem = Raise KeyError) ∧
(contains h L elem = true →
   ∃ h' L', remove h L elem = Ok (h', L') ∧ wf h' L' ∧
     contains h' L' elem = false ∧
     ∀ x, x ≠ elem → contains h' L' x = contains h L x).
Proof.
intros Hwf. unfold remove. destruct (contains h L elem) eqn:Hin; simpl.
- split; [split; [done|]|].
  + unfold discard. by rewrite difference_update_one.
  + intros _.
    destruct (difference_update_spec h L {[elem]} Hwf) as (L' & Hrun & Hwf' & Hden).
    exists (h ++ [{[elem]}]), L'. split; [done|]. split; [done|].
    pose proof (contains_difference _ _ _ _ _ Hden) as Hmem. split.
    * rewrite Hmem, (bool_decide_eq_true_2 (elem ∈ ({[elem]} : gset A))) by set_solver.
      apply andb_false_r.
    * intros x Hx. rewrite Hmem, (bool_decide_eq_false_2 (x ∈ ({[elem]} : gset A)))
        by set_solver. apply andb_true_r.
- split; [done|]. intros [=].
Qed.

(** X4.  [union(other)] and [difference(other)] ([|], [-]) return a
  new LazySet with the members of the union, respectively the difference,
  and the LazySet they are called on keeps exactly its members. *)
Theorem union_difference_leave_self h L other :
wf h L →
(∃ h' L', union h L [other] = Ok (h', L') ∧ wf h' L' ∧
   (∀ x, contains h' L' x = contains h L x || bool_decide (x ∈ other)) ∧
   ∀ x, contains h' L x = contains h L x) ∧
(∃ h' L', difference h L [other] = Ok (h', L') ∧ wf h' L' ∧
   (∀ x, contains h' L' x = contains h L x && negb (bool_decide (x ∈ other))) ∧
   ∀ x, contains h' L x = contains h L x).
Proof.
intros Hwf. split.
- destruct (update_spec h (copy L) other Hwf) as (L' & Hrun & Hwf' & Hden).
  exists (h ++ [other]), L'. split; [done|]. split; [done|]. split.
  + by apply contains_union.
  + intros x. by rewrite !contains_denote, denote_alloc.
- destruct (difference_update_spec h (copy L) other Hwf) as (L' & Hrun & Hwf' & Hden).
  exists (h ++ [other]), L'. split; [done|]. split; [done|]. split.
  + by apply contains_difference.
  + intros x. by rewrite !contains_denote, denote_alloc.
Qed.

(** ** Intersection *)

Lemma length_flatten_loop pos base i sets h :
length (flatten_loop pos base i sets h) = length h.
Proof.
revert i h. induction sets as [|r sets IH]; intros i h; simpl; [done|].
rewrite IH. case_bool_decide; by rewrite length_insert.
Qed.

(** The set returned by [copy_to_set] is a new object. *)
Lemma copy_to_set_spec h L :
wf h L →
let res := copy_to_set h L in
res.2 = length h ∧ length res.1 = S (length h) ∧
fetch res.1 res.2 = denote h L ∧
∀ r, (r < length h)%nat → res.1 !! r = h !! r.
Proof.
intros Hwf. unfold copy_to_set.
pose proof (flatten_to_set_copy h (copy L) Hwf) as (Hval & _ & Hkeep).
assert ((flatten_to_set false h (copy L)).2 = length h ∧
        length (flatten_to_set false h (copy L)).1.1 = S (length h)) as [Hnew Hlen].
{ unfold flatten_to_set.
  destruct (base_set_index_from _ _ _); simpl.
  - rewrite length_flatten_loop, length_app. simpl. split; [done|lia].
  - rewrite length_app. simpl. split; [done|lia]. }
destruct (flatten_to_set false h (copy L)) as [[h1 L1] r]. simpl in *. done.
Qed.

Lemma elem_of_foldl_intersection X others x :
x ∈ foldl (∩) X others ↔ x ∈ X ∧ Forall (λ other, x ∈ other) others.
Proof.
revert X. induction others as [|other others IH]; intros X; simpl.
- split; [by intros ?; split|by intros [? _]].
- rewrite IH, Forall_cons, elem_of_intersection. tauto.
Qed.

Lemma intersection_set_spec h L others :
wf h L →
let res := intersection_set h L others in
res.2 = length h ∧ length res.1 = S (length h) ∧
fetch res.1 res.2 = foldl (∩) (denote h L) others ∧
∀ r, (r < length h)%nat → res.1 !! r = h !! r.
Proof.
intros Hwf. unfold intersection_set.
pose proof (copy_to_set_spec h L Hwf) as (Hnew & Hlen & Hval & Hkeep).
destruct (copy_to_set h L) as [h1 r]. simpl in *. subst r.
split; [done|]. split; [by rewrite length_insert|]. split.
- unfold fetch at 1. rewrite list_lookup_insert_eq by lia. simpl. by rewrite Hval.
- intros r Hr. rewrite list_lookup_insert_ne by lia. by apply Hkeep.
Qed.

Lemma denote_lazy_update_clear h r :
denote h (lazy_update h empty r) = fetch h r.
Proof.
unfold lazy_update. destruct (truthy (fetch h r)) eqn:Ht.
- by apply denote_single.
- apply truthy_false in Ht. by rewrite Ht.
Qed.

Lemma length_lazy_update_clear h r : (length (_sets (lazy_update h empty r)) ≤ 1)%nat.
Proof. unfold lazy_update. destruct (truthy (fetch h r)); simpl; lia. Qed.

Lemma contains_intersection h' L' X others :
denote h' L' = foldl (∩) X others →
∀ x, contains h' L' x =
     bool_decide (x ∈ X) && forallb (λ other, bool_decide (x ∈ other)) others.
Proof.
intros Hden x. rewrite contains_denote, Hden.
destruct (forallb _ others) eqn:Hall.
- rewrite andb_true_r. apply bool_decide_ext. rewrite elem_of_foldl_intersection.
  split; [tauto|]. intros Hx. split; [done|]. apply Forall_forall. intros other Hother.
  rewrite forallb_forall in Hall. apply list_elem_of_In in Hother.
  specialize (Hall _ Hother). by apply bool_decide_eq_true in Hall.
- rewrite andb_false_r. apply bool_decide_eq_false.
  rewrite elem_of_foldl_intersection. intros [_ Hforall].
  assert (forallb (λ other, bool_decide (x ∈ other)) others = true); [|congruence].
  apply forallb_forall. intros other Hother%list_elem_of_In.
  apply bool_decide_eq_true. rewrite Forall_forall in Hforall. by apply Hforall.
Qed.

(** X5.  [intersection( *others )] ([&]) returns a new LazySet
  of at most one layer whose members are the members of the LazySet that
  are in every one of [others]; the LazySet it is called on keeps its
  members, and no set object that existed is changed.
  [intersection_update( *others )] ([&=]) leaves the LazySet itself with
  those members, in at most one layer. *)
Theorem intersection_keeps_common_members h L others :
wf h L →
(let res := intersection h L others in
 (∀ x, contains res.1 res.2 x =
       contains h L x && forallb (λ other, bool_decide (x ∈ other)) others) ∧
 (∀ x, contains res.1 L x = contains h L x) ∧
 (∀ r, (r < length h)%nat → res.1 !! r = h !! r) ∧
 (length (_sets res.2) ≤ 1)%nat) ∧
(let res := intersection_update h L others in
 (∀ x, contains res.1 res.2 x =
       contains h L x && forallb (λ other, bool_decide (x ∈ other)) others) ∧
 (∀ r, (r < length h)%nat → res.1 !! r = h !! r) ∧
 (length (_sets res.2) ≤ 1)%nat).
Proof.
intros Hwf.
pose proof (intersection_set_spec h L others Hwf) as (Hnew & Hlen & Hval & Hkeep).
split.
- unfold intersection, _intersection_as_lazy.
  destruct (intersection_set h L others) as [h1 r]. simpl in *.
  set (h3 := (h1 ++ [∅]) ++ [∅]).
  assert (∀ r', (r' < length h1)%nat → h3 !! r' = h1 !! r') as Hh3.
  { intros r' Hr'. unfold h3. rewrite !lookup_app_l; [done|lia|].
    rewrite length_app. simpl. lia. }
  assert (fetch h3 (length h1) = ∅) as He1.
  { unfold h3, fetch. rewrite lookup_app_l by (rewrite length_app; simpl; lia).
    by rewrite lookup_app_r, Nat.sub_diag by lia. }
  assert (fetch h3 (length (h1 ++ [∅])) = ∅) as He2.
  { unfold h3, fetch. by rewrite lookup_app_r, Nat.sub_diag by lia. }
  assert (init h3 r [length h1] [length (h1 ++ [∅])] = lazy_update h3 empty r) as ->.
  { unfold init. simpl. unfold lazy_difference_update at 1. rewrite He1.
    unfold truthy at 1. rewrite bool_decide_eq_true_2 by done. simpl.
    unfold lazy_update at 1. rewrite He2.
    unfold truthy at 1. by rewrite bool_decide_eq_true_2. }
  assert (fetch h3 r = foldl (∩) (denote h L) others) as Hr.
  { rewrite <- Hval. unfold fetch. rewrite Hh3; [done|lia]. }
  split; [|split; [|split]].
  + intros x. rewrite (contains_intersection h3 _ (denote h L) others).
    * by rewrite contains_denote.
    * by rewrite denote_lazy_update_clear.
  + intros x. rewrite !contains_denote.
    assert (denote h3 L = denote h L) as ->; [|done]. unfold denote.
    apply denote_from_store_ext. intros r' Hr'. destruct Hwf as [_ Hsets].
    specialize (Hsets r' Hr'). unfold fetch. rewrite Hh3 by lia. by rewrite Hkeep.
  + intros r' Hr'. rewrite Hh3 by lia. by apply Hkeep.
  + apply length_lazy_update_clear.
- unfold intersection_update, _intersection_as_set.
  destruct (intersection_set h L others) as [h1 r]. simpl in *.
  split; [|split].
  + intros x. rewrite (contains_intersection h1 _ (denote h L) others).
    * by rewrite contains_denote.
    * by rewrite denote_lazy_update_clear.
  + done.
  + apply length_lazy_update_clear.
Qed.

(** ** Symmetric difference *)

Lemma common_elements_spec h L (other : nat) items acc x :
x ∈ common_elements h L other items acc ↔
x ∈ acc ∨ (x ∈ items ∧ x ∈ fetch h other ∧ contains h L x = true).
Proof.
revert acc. induction items as [|item items IH]; intros acc; simpl.
- rewrite elem_of_nil. tauto.
- rewrite IH, elem_of_cons.
  destruct (bool_decide (item ∈ fetch h other)) eqn:Hother; simpl.
  + apply bool_decide_eq_true in Hother.
    destruct (contains h L item) eqn:Hself.
    * rewrite elem_of_union, elem_of_singleton. split; [|tauto].
      intros [[->|?]|?]; tauto.
    * split; [tauto|]. intros [?|[[->|?] [? ?]]]; [tauto|congruence|tauto].
  + apply bool_decide_eq_false in Hother.
    split; [tauto|]. intros [?|[[->|?] [? ?]]]; tauto.
Qed.

(** X6.  [symmetric_difference_update(other)]
  ([^=]) layers the set [other] itself and then, as a negative set, the
  items found in both: afterwards an item is a member exactly when it was
  a member or is in [other], but not both.  The LazySet stays
  well-formed and no set object that existed is changed. *)
Theorem symmetric_difference_update_members h L (other : nat) :
wf h L →
let res := symmetric_difference_update h L other in
wf res.1 res.2 ∧
(∀ r, (r < length h)%nat → res.1 !! r = h !! r) ∧
∀ x, contains res.1 res.2 x =
     xorb (contains h L x) (bool_decide (x ∈ fetch h other)).
Proof.
intros Hwf. unfold symmetric_difference_update.
set (common := common_elements h L other _ ∅). simpl.
pose proof (wf_run_call h L (LazyUpdate other) Hwf) as Hwf1.
pose proof (denote_run_call h L (LazyUpdate other) Hwf) as Hden1. simpl in Hwf1, Hden1.
pose proof (wf_alloc h common _ Hwf1) as Hwf1'.
pose proof (wf_run_call _ _ (LazyDifferenceUpdate (length h)) Hwf1') as Hwf2.
pose proof (denote_run_call _ _ (LazyDifferenceUpdate (length h)) Hwf1') as Hden2.
simpl in Hwf2, Hden2.
split; [done|]. split; [intros r; apply alloc_keeps|].
intros x. rewrite (contains_denote (h ++ [common])), Hden2.
rewrite denote_alloc, fetch_alloc_new, Hden1 by done.
assert (x ∈ common ↔ x ∈ denote h L ∧ x ∈ fetch h other) as Hcommon.
{ unfold common. rewrite common_elements_spec, elem_of_app, elem_of_elements.
  destruct (iter_denote h L) as [_ Hiter]. rewrite Hiter, contains_denote.
  rewrite bool_decide_eq_true. set_solver. }
rewrite contains_denote.
destruct (decide (x ∈ denote h L)), (decide (x ∈ fetch h other));
  repeat case_bool_decide; set_solver.
Qed.

(** ** Comparisons *)

Lemma _subset_check_spec items (mem : A → bool) :
_subset_check items mem = true ↔ ∀ x, x ∈ items → mem x = true.
Proof.
induction items as [|item items IH]; simpl.
- split; [|done]. intros _ x Hx. by apply elem_of_nil in Hx.
- destruct (mem item) eqn:Hitem; simpl.
  + rewrite IH. split.
    * intros Hall x [->|Hx]%elem_of_cons; [done|by apply Hall].
    * intros Hall x Hx. apply Hall. by right.
  + split; [done|]. intros Hall. rewrite Hall in Hitem; [done|by left].
Qed.

Lemma issubset_spec h L other :
issubset h L other = true ↔ ∀ x, contains h L x = true → x ∈ other.
Proof.
unfold issubset. rewrite _subset_check_spec. destruct (iter_denote h L) as [_ Hiter].
split.
- intros Hall x Hx. rewrite contains_denote, bool_decide_eq_true in Hx.
  apply Hiter in Hx. specialize (Hall x Hx). by apply bool_decide_eq_true in Hall.
- intros Hall x Hx. apply bool_decide_eq_true, Hall.
  rewrite contains_denote, bool_decide_eq_true. by apply Hiter.
Qed.

Lemma issuperset_spec h L other :
issuperset h L other = true ↔ ∀ x, x ∈ other → contains h L x = true.
Proof.
unfold issuperset. rewrite _subset_check_spec.
split; intros Hall x Hx; apply Hall; by apply elem_of_elements.
Qed.

Lemma lt_from_spec h L other items :
lt_from h L other items = true ↔
(∃ x, x ∈ items ∧ contains h L x = false) ∧ issubset h L other = true.
Proof.
induction items as [|item items IH]; simpl.
- split; [done|]. intros [(x & Hx & _) _]. by apply elem_of_nil in Hx.
- destruct (contains h L item) eqn:Hitem; simpl.
  + rewrite IH. split.
    * intros [(x & Hx & Hout) Hsub]. split; [|done]. exists x. split; [by right|done].
    * intros [(x & Hx & Hout) Hsub]. split; [|done].
      apply elem_of_cons in Hx as [->|Hx]; [congruence|eauto].
  + split; [|tauto]. intros Hsub. split; [|done]. exists item. split; [by left|done].
Qed.

Lemma gt_from_spec h L other items :
gt_from h L other items = true ↔
(∃ x, x ∈ items ∧ x ∉ other) ∧ issuperset h L other = true.
Proof.
induction items as [|item items IH]; simpl.
- split; [done|]. intros [(x & Hx & _) _]. by apply elem_of_nil in Hx.
- case_bool_decide as Hitem; simpl.
  + rewrite IH. split.
    * intros [(x & Hx & Hout) Hsup]. split; [|done]. exists x. split; [by right|done].
    * intros [(x & Hx & Hout) Hsup]. split; [|done].
      apply elem_of_cons in Hx as [->|Hx]; [done|eauto].
  + split; [|tauto]. intros Hsup. split; [|done]. exists item. split; [by left|done].
Qed.

(** X7.  The comparisons of a LazySet with a set agree with the
  relations between its members and the set: [<=] holds exactly when
  every member is in the set, [>=] when every item of the set is a
  member, [<] and [>] when moreover the other side has an item more,
  [==] when the members are exactly the items of the set, and [!=] is
  its negation. *)
Theorem comparisons_agree_with_members h L other :
(issubset h L other = true ↔ ∀ x, contains h L x = true → x ∈ other) ∧
(issuperset h L other = true ↔ ∀ x, x ∈ other → contains h L x = true) ∧
(lt h L other = true ↔
   (∀ x, contains h L x = true → x ∈ other) ∧ ∃ x, x ∈ other ∧ contains h L x = false) ∧
(gt h L other = true ↔
   (∀ x, x ∈ other → contains h L x = true) ∧ ∃ x, contains h L x = true ∧ x ∉ other) ∧
(eq h L other = true ↔ ∀ x, contains h L x = true ↔ x ∈ other) ∧
ne h L other = negb (eq h L other).
Proof.
split; [apply issubset_spec|]. split; [apply issuperset_spec|].
split; [|split; [|split; [|done]]].
- unfold lt. rewrite lt_from_spec, issubset_spec.
  split; intros [H1 H2]; (split; [|done]) || split; try done.
  + destruct H1 as (x & Hx%elem_of_elements & Hout). eauto.
  + destruct H2 as (x & Hx & Hout). exists x. by rewrite elem_of_elements.
- unfold gt. rewrite gt_from_spec, issuperset_spec.
  destruct (iter_denote h L) as [_ Hiter].
  assert (∀ x, x ∈ iter h L ↔ contains h L x = true) as Hmem.
  { intros x. by rewrite Hiter, contains_denote, bool_decide_eq_true. }
  split; intros [H1 H2]; split; try done.
  + destruct H1 as (x & Hx%Hmem & Hout). eauto.
  + destruct H2 as (x & Hx%Hmem & Hout). eauto.
- unfold eq. rewrite andb_true_iff, issubset_spec, issuperset_spec. naive_solver.
Qed.

(** ** Length and construction *)

(** X8.  [len] counts the members: it is the size of the set the
  layers stand for, whose elements are exactly the items that
  [__contains__] accepts. *)
Theorem len_counts_members h L :
len h L = size (denote h L) ∧ ∀ x, x ∈ denote h L ↔ contains h L x = true.
Proof.
destruct (iter_denote h L) as [Hnd Hiter]. split.
- unfold len. rewrite <- (size_list_to_set (C:=gset A)) by done.
  f_equal. apply set_eq. intros x. by rewrite elem_of_list_to_set.
- intros x. by rewrite contains_denote, bool_decide_eq_true.
Qed.

(** X9.  The members of [LazySet(base_set, negative_sets,
  positive_sets)] are those of
  [base_set.difference( *negative_sets).union( *positive_sets)], as the
  constructor's docstring says. *)
Theorem constructor_members h base_set negative_sets positive_sets x :
contains h (init h base_set negative_sets positive_sets) x =
bool_decide (x ∈ (fetch h base_set ∖ ⋃ (fetch h <$> negative_sets))
                   ∪ ⋃ (fetch h <$> positive_sets)).
Proof. by rewrite contains_denote, init_build, denote_build, reference_init. Qed.

(** ** Shallow copies and flattening in place *)

(** An item that no layer holds keeps the status it had; any other item
  gets the status the layers give it. *)
Lemma elem_of_denote_from h pos i sets acc x :
x ∈ denote_from h pos i sets acc ↔
x ∈ denote_from h pos i sets ∅ ∨ (x ∈ acc ∧ ∀ r, r ∈ sets → x ∉ fetch h r).
Proof.
revert i acc. induction sets as [|r sets IH]; intros i acc; simpl.
- split; [|set_solver]. intros Hx. right. split; [done|].
  intros r Hr. by apply elem_of_nil in Hr.
- rewrite IH. rewrite (IH (S i) (if bool_decide (i ∈ pos) then _ else _)).
  assert ((∀ r', r' ∈ r :: sets → x ∉ fetch h r') ↔
          ((x ∉ fetch h r) ∧ (∀ r', r' ∈ sets → x ∉ fetch h r'))) as ->.
  { split.
    - intros Hall. split; [apply Hall; by left|]. intros r' Hr'. apply Hall. by right.
    - intros [Hr Hall] r' [->|Hr']%elem_of_cons; [done|by apply Hall]. }
  destruct (decide (x ∈ fetch h r)); case_bool_decide; set_solver.
Qed.

Lemma denote_from_idempotent h pos i sets acc :
denote_from h pos i sets (denote_from h pos i sets acc) = denote_from h pos i sets acc.
Proof.
apply set_eq. intros x.
rewrite (elem_of_denote_from h pos i sets (denote_from h pos i sets acc)).
rewrite (elem_of_denote_from h pos i sets acc). tauto.
Qed.

(** X10.  [copy] is shallow: the copy layers the same set
  objects, and [flatten(modify=True)] on the copy updates the first
  positive one in place.  Provided no set object is layered twice, the
  LazySet that was copied still has exactly the members it had, and so
  has the flattened copy. *)
Theorem flatten_copy_in_place_keeps_members h L :
wf h L → NoDup (_sets L) →
let res := flatten true h (copy L) in
∀ x, contains res.1 L x = contains h L x ∧
     contains res.1 res.2 x = contains h L x.
Proof.
intros Hwf Hnodup res x. unfold res. rewrite flatten_proj. simpl.
rewrite !contains_denote.
assert (denote (flatten_to_set true h (copy L)).1.1 L = denote h L ∧
        denote (flatten_to_set true h (copy L)).1.1 (flatten_to_set true h (copy L)).1.2
        = denote h L) as [-> ->]; [|done].
destruct (base_set_index_from (_positive_indices L) 0 (_sets L)) as [b|] eqn:Hb.
- pose proof (base_set_index_from_Some _ _ _ _ Hb) as (Hrange & _ & _).
  destruct (lookup_lt_is_Some_2 (_sets L) b) as [first Hfirst]; [lia|].
  assert (first ∉ drop (S b) (_sets L)) as Hfresh.
  { intros [j Hj]%list_elem_of_lookup. rewrite lookup_drop in Hj.
    assert (b = (S b + j)%nat); [|lia]. by eapply NoDup_lookup. }
  destruct (flatten_to_set_modify h (copy L) b first Hwf Hb Hfirst Hfresh)
    as (Hres & Hval & Hother).
  pose proof (flatten_to_set_layers true h (copy L) b Hb) as Hlayers.
  destruct (flatten_to_set true h (copy L)) as [[h2 L2] r]. simpl in *. subst r.
  change (denote h (copy L)) with (denote h L) in Hval.
  assert (denote h L = denote_from h (_positive_indices L) (S b)
                         (drop (S b) (_sets L)) (fetch h first)) as Hsplit
    by (unfold denote; by apply denote_split_at_base).
  assert (denote h2 L = denote h L) as Hsame.
  { unfold denote at 1. rewrite (denote_split_at_base _ _ _ _ _ Hb Hfirst), Hval.
    rewrite (denote_from_store_ext h h2).
    - rewrite Hsplit. apply denote_from_idempotent.
    - intros r Hr. unfold fetch. rewrite Hother; [done|]. by intros ->. }
  split; [done|].
  destruct (truthy (fetch h2 first)) eqn:Ht; rewrite Hlayers.
  + by rewrite denote_single.
  + apply truthy_false in Ht. by rewrite <- Hval, Ht.
- unfold flatten_to_set. simpl. rewrite Hb. simpl.
  split; [by apply denote_alloc|].
  change (denote (h ++ [∅]) L = denote h L). by apply denote_alloc.
Qed.

End Elements.
End LazySetMethodsFacts.

(** * The longest-chain engine: what its runs keep *)

Module BlockchainRunsFacts.
Import DiGraph DiGraphFacts Blockchain BlockchainFacts BlockchainRuns.

Lemma get_longest_chain_tip_elem s ids g :
  _get_longest_chain_tip s ids = Ok (Some g) → g ∈ ids.
Proof.
  unfold _get_longest_chain_tip. destruct ids as [|i ids]; [done|].
  intros Hrun. inv_bind Hrun. injection Hrun as Hmax.
  apply py_extreme_elem in Hmax. apply with_keys_Ok in Hx as [Hfst _].
  rewrite Hfst in Hmax. by apply (proj1 (sorted_elem _ _)) in Hmax.
Qed.

Lemma get_longest_chain_tip_None s ids :
  _get_longest_chain_tip s ids = Ok None → ids = [].
Proof.
  unfold _get_longest_chain_tip. destruct ids as [|i ids]; [done|].
  intros Hrun. inv_bind Hrun. injection Hrun as Hmax.
  apply py_max_None in Hmax. subst x. apply with_keys_Ok in Hx as [Hfst _].
  assert (i ∈ sorted (i :: ids)) as Hi by (apply sorted_elem; left).
  rewrite <- Hfst in Hi. by apply elem_of_nil in Hi.
Qed.

(** A block without a chain length among the ids: [KeyError]. *)
Lemma get_longest_chain_tip_missing s ids p :
  p ∈ ids → chain_length s !! p = None →
  _get_longest_chain_tip s ids = Raise KeyError.
Proof.
  intros Hp Hmissing. unfold _get_longest_chain_tip.
  destruct ids as [|i ids]; [by apply elem_of_nil in Hp|].
  rewrite (with_keys_Raise _ _ p KeyError); [done| | | |].
  - by apply sorted_elem.
  - by apply getitem_None.
  - intros y e. unfold getitem. destruct (chain_length s !! y); naive_solver.
  - intros y. unfold getitem. by destruct (chain_length s !! y).
Qed.

Lemma update_longest_chain_fields s gid parent s' :
  _update_longest_chain_incrementally s gid parent = Ok s' →
  _G s' = _G s ∧ chain_length s' = chain_length s ∧ block_data s' = block_data s ∧
  _leaves s' = _leaves s.
Proof.
  unfold _update_longest_chain_incrementally. intros Hrun. inv_bind Hrun.
  destruct x0; [|by injection Hrun as <-].
  case_bool_decide; [by injection Hrun as <-|].
  inv_bind Hrun. destruct x0 as [intersection to_add]. inv_bind Hrun.
  by injection Hrun as <-.
Qed.

Lemma collect_new_chain_mono s fuel gid counter to_add intersection to_add' :
  collect_new_chain s fuel gid counter to_add = Ok (intersection, to_add') →
  to_add ⊆ to_add'.
Proof.
  revert gid counter to_add. induction fuel as [|fuel IH];
    intros gid counter to_add; simpl; [done|].
  destruct (counter <? 0); [by intros [= <- <-]|].
  destruct gid as [g|]; [|done].
  case_bool_decide; [by intros [= <- <-]|].
  intros Hrun. inv_bind Hrun. apply IH in Hrun. set_solver.
Qed.

Lemma collect_new_chain_first s fuel g counter intersection to_add' :
  0 ≤ counter → g ∉ _longest_chain s →
  collect_new_chain s fuel (Some g) counter ∅ = Ok (intersection, to_add') →
  g ∈ to_add'.
Proof.
  intros Hcounter Hg. destruct fuel as [|fuel]; simpl; [done|].
  destruct (counter <? 0) eqn:Hneg; [apply Z.ltb_lt in Hneg; lia|].
  rewrite bool_decide_eq_false_2 by done.
  intros Hrun. inv_bind Hrun. apply collect_new_chain_mono in Hrun. set_solver.
Qed.

(** The graph after [add]. *)
Lemma blockchain_add_fields s block s' :
  add s block = Ok s' →
  ∃ parent parent_length,
    _get_longest_chain_tip s (elements (get_parents block)) = Ok parent ∧
    match parent with
    | None => parent_length = 0
    | Some p => chain_length s !! p = Some parent_length
    end ∧
    chain_length s' = <[ global_id block := 1 + parent_length ]> (chain_length s) ∧
    block_data s' = <[ global_id block := block ]> (block_data s) ∧
    _G s' = match parent with
            | None => add_node (_G s) (global_id block)
            | Some p => add_edge (add_node (_G s) (global_id block)) (global_id block) p
            end.
Proof.
  unfold add. intros Hrun. inv_bind Hrun. rename x into parent, x0 into parent_length.
  apply update_longest_chain_fields in Hrun as (HG & Hlen & Hdata & _). simpl in *.
  exists parent, parent_length. split; [done|]. split.
  - destruct parent; [by apply getitem_Ok in Hx0|by injection Hx0 as <-].
  - done.
Qed.

Lemma add_consistent s block s' : consistent s → add s block = Ok s' → consistent s'.
Proof.
  intros (Hnodes & Hpos & Hchain) Hadd.
  pose proof (add_known s block s') as Hknown.
  destruct (blockchain_add_fields s block s' Hadd) as (parent & plen & Htip & Hplen & Hlen & _ & HG).
  assert (∀ g, g ∈ nodes (_G s') ↔ is_Some (chain_length s' !! g)) as Hnodes'.
  { intros g. rewrite HG, Hlen. destruct parent as [p|].
    - rewrite nodes_add_edge, nodes_add_node.
      destruct (decide (g = global_id block)) as [->|Hne].
      + rewrite lookup_insert_eq. split; [eauto|tauto].
      + rewrite lookup_insert_ne by done. rewrite <- Hnodes. split; [|tauto].
        intros [?|[->|[?|?]]]; try done. apply Hnodes. eauto.
    - rewrite nodes_add_node. destruct (decide (g = global_id block)) as [->|Hne].
      + rewrite lookup_insert_eq. split; [eauto|tauto].
      + rewrite lookup_insert_ne by done. rewrite <- Hnodes. tauto. }
  split; [done|]. split.
  - intros g len. rewrite Hlen. destruct (decide (g = global_id block)) as [->|Hne].
    + rewrite lookup_insert_eq. intros [= <-]. destruct parent as [p|]; [|lia].
      specialize (Hpos _ _ Hplen). lia.
    + rewrite lookup_insert_ne by done. apply Hpos.
  - intros g Hg. apply Hnodes'. apply (Hknown); [|done|done].
    intros g' Hg'. apply Hnodes. by apply Hchain.
Qed.

Lemma reachable_consistent s : reachable s → consistent s.
Proof.
  induction 1 as [|s block s' _ IH Hadd].
  - split; [|split]; simpl.
    + intros g. rewrite lookup_empty, elem_of_nil. split; [done|]. by intros [? ?].
    + intros g len. by rewrite lookup_empty.
    + intros g Hg. by apply elem_of_empty in Hg.
  - by eapply add_consistent.
Qed.

Lemma grown_reachable s : grown s → reachable s.
Proof. induction 1; [constructor|by econstructor]. Qed.

(** X11.  In any state reached by [add], adding a
    block one of whose parents is not in the chain DAG raises [KeyError]
    (the chain length of the parent cannot be read); nothing is added. *)
Theorem blockchain_add_missing_parent_raises s block p :
  reachable s → p ∈ get_parents block → contains s p = false →
  add s block = Raise KeyError.
Proof.
  intros Hs Hp Hnew. destruct (reachable_consistent s Hs) as (Hnodes & _ & _).
  unfold add. rewrite (get_longest_chain_tip_missing s _ p); [done| |].
  - by apply elem_of_elements.
  - unfold contains, has_node in Hnew. apply bool_decide_eq_false in Hnew.
    destruct (chain_length s !! p) eqn:Hlen; [|done].
    exfalso. apply Hnew, Hnodes. eauto.
Qed.

Lemma add_tip_is_longest s block s' :
  consistent s → tip_is_longest s → contains s (global_id block) = false →
  add s block = Ok s' → tip_is_longest s'.
Proof.
  intros (Hnodes & Hpos & Hchain) Htip Hnew Hadd.
  unfold contains, has_node in Hnew. apply bool_decide_eq_false in Hnew.
  assert (chain_length s !! global_id block = None) as Hfresh.
  { destruct (chain_length s !! global_id block) eqn:Hl; [|done].
    exfalso. apply Hnew, Hnodes. eauto. }
  assert (global_id block ∉ _longest_chain s) as Hoff by (intros ?%Hchain; done).
  revert Hadd. unfold add. intros Hrun. inv_bind Hrun.
  rename x into parent, x0 into parent_length.
  assert (0 ≤ parent_length) as Hplen.
  { destruct parent as [p|]; [|injection Hx0 as <-; lia].
    apply getitem_Ok in Hx0. specialize (Hpos _ _ Hx0). lia. }
  revert Hrun. unfold _update_longest_chain_incrementally. simpl.
  rewrite getitem_insert_eq. simpl.
  unfold tip_is_longest in *.
  destruct (_longest_chain_tip_gid s) as [tip|] eqn:Htipgid; simpl.
  - destruct Htip as (Hon & tip_len & Htl & Hmax).
    assert (tip ≠ global_id block) as Hne by (intros ->; by apply Hoff).
    rewrite getitem_insert_ne by done.
    rewrite (proj2 (getitem_Ok _ _ _) Htl). simpl.
    destruct ((1 + parent_length >? tip_len)
              || (1 + parent_length =? tip_len) && (global_id block <? tip)) eqn:Hbetter.
    + assert (∀ g len, <[global_id block:=1 + parent_length]> (chain_length s) !! g = Some len →
                len < 1 + parent_length ∨ (len = 1 + parent_length ∧ global_id block ≤ g))
        as Hmax'.
      { intros g len. destruct (decide (g = global_id block)) as [->|Hg].
        - rewrite lookup_insert_eq. intros [= <-]. right. lia.
        - rewrite lookup_insert_ne by done. intros Hl. specialize (Hmax _ _ Hl).
          apply orb_true_iff in Hbetter as [Hgt|[Heq Hlt]%andb_true_iff]; lia. }
      case_bool_decide.
      * intros [= <-]. simpl. split; [set_solver|].
        exists (1 + parent_length). by rewrite lookup_insert_eq.
      * intros Hrun. inv_bind Hrun. destruct x as [intersection to_add]. inv_bind Hrun.
        injection Hrun as <-. simpl. split.
        -- apply elem_of_union. right.
           match goal with
           | Hc : collect_new_chain _ _ _ _ _ = _ |- _ =>
               eapply collect_new_chain_first; [| |exact Hc]; [lia|done]
           end.
        -- exists (1 + parent_length). by rewrite lookup_insert_eq.
    + intros [= <-]. simpl. split; [done|].
      exists tip_len. rewrite lookup_insert_ne by done. split; [done|].
      intros g len. destruct (decide (g = global_id block)) as [->|Hg].
      * rewrite lookup_insert_eq. intros [= <-].
        apply orb_false_iff in Hbetter as [Hgt Hrest].
        apply andb_false_iff in Hrest. lia.
      * rewrite lookup_insert_ne by done. apply Hmax.
  - destruct Htip as [Hempty Hnone].
    assert (parent = None) as ->.
    { destruct parent as [p|]; [|done]. apply getitem_Ok in Hx0.
      assert (p ∈ nodes (_G s)) as Hp by (apply Hnodes; eauto).
      rewrite Hempty in Hp. by apply elem_of_nil in Hp. }
    rewrite bool_decide_eq_true_2 by done. intros [= <-]. simpl.
    split; [set_solver|]. exists (1 + parent_length).
    rewrite lookup_insert_eq. split; [done|].
    intros g len. destruct (decide (g = global_id block)) as [->|Hg].
    + rewrite lookup_insert_eq. intros [= <-]. right. lia.
    + rewrite lookup_insert_ne by done. intros Hl.
      assert (g ∈ nodes (_G s)) as Hgn by (apply Hnodes; eauto).
      rewrite Hempty in Hgn. by apply elem_of_nil in Hgn.
Qed.

Lemma grown_tip_is_longest s : grown s → tip_is_longest s.
Proof.
  induction 1 as [|s block s' Hs IH Hnew Hadd]; [done|].
  eapply add_tip_is_longest; [|done|done|done].
  by apply reachable_consistent, grown_reachable.
Qed.

(** X12.  In a chain grown by adding blocks with new ids, the
    tip of the longest chain is the block of greatest chain length, and of
    least id among the blocks of that length; it is a block of the longest
    chain, it is the only parent offered to a new block, and there is no
    tip only when no block was added. *)
Theorem tip_has_greatest_chain_length s :
  grown s →
  match _longest_chain_tip_gid s with
  | None => DiGraph.nodes (_G s) = [] ∧ get_virtual_block_parents s = ∅
  | Some tip =>
      get_virtual_block_parents s = {[ tip ]} ∧
      contains s tip = true ∧ tip ∈ _longest_chain s ∧
      ∃ tip_len, chain_length s !! tip = Some tip_len ∧
        ∀ g len, chain_length s !! g = Some len →
          len < tip_len ∨ (len = tip_len ∧ tip ≤ g)
  end.
Proof.
  intros Hs. pose proof (grown_tip_is_longest s Hs) as Htip.
  destruct (reachable_consistent s (grown_reachable s Hs)) as (Hnodes & _ & Hchain).
  unfold tip_is_longest, get_virtual_block_parents in *.
  destruct (_longest_chain_tip_gid s) as [tip|].
  - destruct Htip as (Hon & Hmax). split; [done|]. split; [|done].
    unfold contains. apply has_node_true. by apply Hchain.
  - by destruct Htip.
Qed.

(** X13.  In a chain grown by adding blocks with new ids,
    [get_depth] always returns: minus infinity exactly for the ids that
    are not in the chain DAG, 0 for the blocks off the longest chain and
    for the tip, and for a block of the longest chain the number of chain
    lengths that separate it from the tip, which is never negative. *)
Theorem get_depth_of_grown_chain s gid :
  grown s →
  ∃ d, get_depth s gid = Ok d ∧
    (d = NegInf ↔ contains s gid = false) ∧
    (contains s gid = true → gid ∉ _longest_chain s → d = Depth 0) ∧
    (_longest_chain_tip_gid s = Some gid → d = Depth 0) ∧
    (gid ∈ _longest_chain s →
       ∃ tip tip_len len,
         _longest_chain_tip_gid s = Some tip ∧ chain_length s !! tip = Some tip_len ∧
         chain_length s !! gid = Some len ∧ d = Depth (tip_len - len) ∧ 0 ≤ tip_len - len).
Proof.
  intros Hs. pose proof (grown_tip_is_longest s Hs) as Htip.
  destruct (reachable_consistent s (grown_reachable s Hs)) as (Hnodes & _ & Hchain).
  unfold get_depth. destruct (contains s gid) eqn:Hin; simpl.
  - case_bool_decide as Hon; simpl.
    + unfold tip_is_longest in Htip.
      destruct (_longest_chain_tip_gid s) as [tip|] eqn:Htipgid;
        [|destruct Htip as [_ Hnone]; rewrite Hnone in Hon; by apply elem_of_empty in Hon].
      destruct Htip as (Htipon & tip_len & Htl & Hmax). simpl.
      destruct (proj1 (Hnodes gid) (Hchain gid Hon)) as [len Hlen].
      unfold getitem. rewrite Htl, Hlen. simpl.
      specialize (Hmax _ _ Hlen).
      exists (Depth (tip_len - len)). split; [done|]. split; [done|].
      split; [done|]. split.
      * intros [= ->]. rewrite Htl in Hlen. injection Hlen as <-. f_equal. lia.
      * intros _. exists tip, tip_len, len. repeat split; try done. lia.
    + exists (Depth 0). split; [done|]. split; [done|]. split; [done|]. split; [|done].
      intros Hgid. exfalso. apply Hon. unfold tip_is_longest in Htip.
      rewrite Hgid in Htip. by destruct Htip.
  - exists NegInf. split; [done|]. split; [done|]. split; [done|]. split.
    + intros Hgid. unfold tip_is_longest in Htip. rewrite Hgid in Htip.
      destruct Htip as [Hon _]. apply Hchain in Hon.
      unfold contains in Hin. apply has_node_true in Hon. congruence.
    + intros Hon%Hchain. unfold contains in Hin. apply has_node_true in Hon. congruence.
Qed.

(** X14.  In every state reached by [add], the order query
    of the longest-chain engine returns: [None] exactly when neither block
    is on the longest chain (whether or not they are in the chain DAG),
    [True] when only [a] is on it, [False] when only [b] is, and the
    comparison of the two chain lengths when both are. *)
Theorem is_a_before_b_by_longest_chain s a b :
  reachable s →
  ∃ answer, is_a_before_b s a b = Ok answer ∧
    (answer = None ↔ ((a ∉ _longest_chain s) ∧ (b ∉ _longest_chain s))) ∧
    (a ∈ _longest_chain s → b ∉ _longest_chain s → answer = Some true) ∧
    (a ∉ _longest_chain s → b ∈ _longest_chain s → answer = Some false) ∧
    (a ∈ _longest_chain s → b ∈ _longest_chain s →
       ∃ la lb, chain_length s !! a = Some la ∧ chain_length s !! b = Some lb ∧
                answer = Some (la <=? lb)).
Proof.
  intros Hs. pose proof (reachable_known s Hs) as Hknown.
  unfold is_a_before_b.
  destruct (bool_decide (a ∈ _longest_chain s)) eqn:Ha;
    destruct (bool_decide (b ∈ _longest_chain s)) eqn:Hb; simpl;
    try apply bool_decide_eq_true in Ha; try apply bool_decide_eq_false in Ha;
    try apply bool_decide_eq_true in Hb; try apply bool_decide_eq_false in Hb.
  - destruct (Hknown a Ha) as [la Hla]. destruct (Hknown b Hb) as [lb Hlb].
    rewrite (proj2 (getitem_Ok _ _ _) Hla), (proj2 (getitem_Ok _ _ _) Hlb). simpl.
    exists (Some (la <=? lb)). split; [done|]. split; [naive_solver|].
    split; [done|]. split; [done|]. intros _ _. by exists la, lb.
  - exists (Some true). naive_solver.
  - exists (Some false). naive_solver.
  - exists None. naive_solver.
Qed.

End BlockchainRunsFacts.

(** * The engines on small DAGs *)

Module ScenariosFacts.
Import Scenarios.

Lemma grow_grown s blocks s' :
  BlockchainRuns.grown s → BlockchainRuns.grow s blocks = Some s' →
  BlockchainRuns.grown s'.
Proof.
  revert s. induction blocks as [|block rest IH]; intros s Hs; simpl.
  - by intros [= <-].
  - destruct (Blockchain.contains s (global_id block)) eqn:Hnew; [done|].
    destruct (Blockchain.add s block) as [s1| |] eqn:Hadd; [|done|done].
    apply IH. by eapply BlockchainRuns.grown_add.
Qed.

Lemma brute_force_add_all_reachable k fuel s blocks s' :
  PHANTOM.reachable k s → PHANTOM.add_all fuel s blocks = Ok s' →
  PHANTOM.reachable k s'.
Proof.
  revert s. induction blocks as [|block rest IH]; intros s Hs; simpl.
  - by intros [= <-].
  - intros Hrun. apply bind_Ok in Hrun as (s1 & Hadd & Hrun).
    eapply IH; [|done]. by eapply PHANTOM.reachable_add.
Qed.

Lemma forked_chain_grown : BlockchainRuns.grown forked_chain.
Proof.
  apply (grow_grown Blockchain.init fork); [constructor|]. by vm_compute.
Qed.

Lemma forked_chain_reachable : Blockchain.reachable forked_chain.
Proof. apply BlockchainRunsFacts.grown_reachable, forked_chain_grown. Qed.

Lemma brute_force_fan_reachable : PHANTOM.reachable 1 brute_force_fan.
Proof.
  apply (brute_force_add_all_reachable 1 8 (PHANTOM.init 1) fan); [constructor|].
  by vm_compute.
Qed.

Lemma greedy_fan_all_blocks : GreedyRuns.all_blocks greedy_fan.
Proof.
  apply (GreedyFacts.add_all_all_blocks 20 (GreedyPHANTOM.init 1) fan);
    [apply GreedyFacts.all_blocks_init|].
  by vm_compute.
Qed.

Lemma wf_lazy12 : LazySetFacts.wf sets12 lazy12.
Proof. apply LazySetFacts.wf_build. Qed.

Lemma NoDup_lazy12 : NoDup (LazySet._sets lazy12).
Proof. vm_compute. repeat constructor; set_solver. Qed.

(** ** LazySet *)

Lemma update_adds_members_witness :
  LazySetFacts.wf sets12 lazy12 ∧
  (∃ h' L', LazySetMethods.update sets12 lazy12 [ {[3]} ] = Ok (h', L') ∧
     LazySetFacts.wf h' L' ∧
     (∀ r, (r < length sets12)%nat → h' !! r = sets12 !! r) ∧
     ∀ x, LazySet.contains h' L' x =
          LazySet.contains sets12 lazy12 x || bool_decide (x ∈ ({[3]} : gset Z))) ∧
  (∃ h' L', LazySetMethods.add sets12 lazy12 3 = Ok (h', L') ∧
     LazySetFacts.wf h' L' ∧
     LazySet.contains h' L' 3 = true ∧
     ∀ x, x ≠ 3 → LazySet.contains h' L' x = LazySet.contains sets12 lazy12 x).
Proof.
  split; [exact wf_lazy12|].
  exact (LazySetMethodsFacts.update_adds_members sets12 lazy12 {[3]} 3 wf_lazy12).
Defined.

Lemma difference_update_removes_members_witness :
  LazySetFacts.wf sets12 lazy12 ∧
  (∃ h' L', LazySetMethods.difference_update sets12 lazy12 [ {[2]} ] = Ok (h', L') ∧
     LazySetFacts.wf h' L' ∧
     (∀ r, (r < length sets12)%nat → h' !! r = sets12 !! r) ∧
     ∀ x, LazySet.contains h' L' x =
          LazySet.contains sets12 lazy12 x && negb (bool_decide (x ∈ ({[2]} : gset Z)))) ∧
  (∃ h' L', LazySetMethods.discard sets12 lazy12 2 = Ok (h', L') ∧
     LazySetFacts.wf h' L' ∧
     LazySet.contains h' L' 2 = false ∧
     ∀ x, x ≠ 2 → LazySet.contains h' L' x = LazySet.contains sets12 lazy12 x).
Proof.
  split; [exact wf_lazy12|].
  exact (LazySetMethodsFacts.difference_update_removes_members
           sets12 lazy12 {[2]} 2 wf_lazy12).
Defined.

Lemma remove_raises_iff_absent_witness :
  LazySetFacts.wf sets12 lazy12 ∧
  (LazySet.contains sets12 lazy12 1 = false ↔
   LazySetMethods.remove sets12 lazy12 1 = Raise KeyError) ∧
  (LazySet.contains sets12 lazy12 1 = true →
     ∃ h' L', LazySetMethods.remove sets12 lazy12 1 = Ok (h', L') ∧
       LazySetFacts.wf h' L' ∧
       LazySet.contains h' L' 1 = false ∧
       ∀ x, x ≠ 1 → LazySet.contains h' L' x = LazySet.contains sets12 lazy12 x).
Proof.
  split; [exact wf_lazy12|].
  exact (LazySetMethodsFacts.remove_raises_iff_absent sets12 lazy12 1 wf_lazy12).
Defined.

Lemma union_difference_leave_self_witness :
  LazySetFacts.wf sets12 lazy12 ∧
  (∃ h' L', LazySetMethods.union sets12 lazy12 [ {[1]} ] = Ok (h', L') ∧
     LazySetFacts.wf h' L' ∧
     (∀ x, LazySet.contains h' L' x =
           LazySet.contains sets12 lazy12 x || bool_decide (x ∈ ({[1]} : gset Z))) ∧
     ∀ x, LazySet.contains h' lazy12 x = LazySet.contains sets12 lazy12 x) ∧
  (∃ h' L', LazySetMethods.difference sets12 lazy12 [ {[1]} ] = Ok (h', L') ∧
     LazySetFacts.wf h' L' ∧
     (∀ x, LazySet.contains h' L' x =
           LazySet.contains sets12 lazy12 x && negb (bool_decide (x ∈ ({[1]} : gset Z)))) ∧
     ∀ x, LazySet.contains h' lazy12 x = LazySet.contains sets12 lazy12 x).
Proof.
  split; [exact wf_lazy12|].
  exact (LazySetMethodsFacts.union_difference_leave_self sets12 lazy12 {[1]} wf_lazy12).
Defined.

Lemma intersection_keeps_common_members_witness :
  LazySetFacts.wf sets12 lazy12 ∧
  (let res := LazySetMethods.intersection sets12 lazy12 [ {[2; 3]} ] in
   (∀ x, LazySet.contains res.1 res.2 x =
         LazySet.contains sets12 lazy12 x &&
         forallb (λ other : gset Z, bool_decide (x ∈ other)) [ {[2; 3]} ]) ∧
   (∀ x, LazySet.contains res.1 lazy12 x = LazySet.contains sets12 lazy12 x) ∧
   (∀ r, (r < length sets12)%nat → res.1 !! r = sets12 !! r) ∧
   (length (LazySet._sets res.2) ≤ 1)%nat) ∧
  (let res := LazySetMethods.intersection_update sets12 lazy12 [ {[2; 3]} ] in
   (∀ x, LazySet.contains res.1 res.2 x =
         LazySet.contains sets12 lazy12 x &&
         forallb (λ other : gset Z, bool_decide (x ∈ other)) [ {[2; 3]} ]) ∧
   (∀ r, (r < length sets12)%nat → res.1 !! r = sets12 !! r) ∧
   (length (LazySet._sets res.2) ≤ 1)%nat).
Proof.
  split; [exact wf_lazy12|].
  exact (LazySetMethodsFacts.intersection_keeps_common_members
           sets12 lazy12 [ {[2; 3]} ] wf_lazy12).
Defined.

Lemma symmetric_difference_update_members_witness :
  LazySetFacts.wf sets12 lazy12 ∧
  let res := LazySetMethods.symmetric_difference_update sets12 lazy12 0 in
  LazySetFacts.wf res.1 res.2 ∧
  (∀ r, (r < length sets12)%nat → res.1 !! r = sets12 !! r) ∧
  ∀ x, LazySet.contains res.1 res.2 x =
       xorb (LazySet.contains sets12 lazy12 x) (bool_decide (x ∈ LazySet.fetch sets12 0)).
Proof.
  split; [exact wf_lazy12|].
  exact (LazySetMethodsFacts.symmetric_difference_update_members sets12 lazy12 0 wf_lazy12).
Defined.

Lemma flatten_copy_in_place_keeps_members_witness :
  LazySetFacts.wf sets12 lazy12 ∧ NoDup (LazySet._sets lazy12) ∧
  let res := LazySet.flatten true sets12 (LazySet.copy lazy12) in
  ∀ x, LazySet.contains res.1 lazy12 x = LazySet.contains sets12 lazy12 x ∧
       LazySet.contains res.1 res.2 x = LazySet.contains sets12 lazy12 x.
Proof.
  split; [exact wf_lazy12|]. split; [exact NoDup_lazy12|].
  exact (LazySetMethodsFacts.flatten_copy_in_place_keeps_members
           sets12 lazy12 wf_lazy12 NoDup_lazy12).
Defined.

(** ** The longest-chain engine *)

Lemma blockchain_add_missing_parent_raises_witness :
  Blockchain.reachable forked_chain ∧ 7 ∈ get_parents (B 5 [7]) ∧
  Blockchain.contains forked_chain 7 = false ∧
  Blockchain.add forked_chain (B 5 [7]) = Raise KeyError.
Proof.
  assert (7 ∈ get_parents (B 5 [7])) as Hp by (simpl; set_solver).
  assert (Blockchain.contains forked_chain 7 = false) as Hnew by (by vm_compute).
  split; [exact forked_chain_reachable|]. split; [exact Hp|]. split; [exact Hnew|].
  exact (BlockchainRunsFacts.blockchain_add_missing_parent_raises
           forked_chain (B 5 [7]) 7 forked_chain_reachable Hp Hnew).
Defined.

Lemma tip_has_greatest_chain_length_witness :
  BlockchainRuns.grown forked_chain ∧
  match Blockchain._longest_chain_tip_gid forked_chain with
  | None => DiGraph.nodes (Blockchain._G forked_chain) = [] ∧
            Blockchain.get_virtual_block_parents forked_chain = ∅
  | Some tip =>
      Blockchain.get_virtual_block_parents forked_chain = {[ tip ]} ∧
      Blockchain.contains forked_chain tip = true ∧
      tip ∈ Blockchain._longest_chain forked_chain ∧
      ∃ tip_len, Blockchain.chain_length forked_chain !! tip = Some tip_len ∧
        ∀ g len, Blockchain.chain_length forked_chain !! g = Some len →
          len < tip_len ∨ (len = tip_len ∧ tip ≤ g)
  end.
Proof.
  split; [exact forked_chain_grown|].
  exact (BlockchainRunsFacts.tip_has_greatest_chain_length forked_chain forked_chain_grown).
Defined.

Lemma get_depth_of_grown_chain_witness :
  BlockchainRuns.grown forked_chain ∧
  ∃ d, Blockchain.get_depth forked_chain 0 = Ok d ∧
    (d = NegInf ↔ Blockchain.contains forked_chain 0 = false) ∧
    (Blockchain.contains forked_chain 0 = true →
     0 ∉ Blockchain._longest_chain forked_chain → d = Depth 0) ∧
    (Blockchain._longest_chain_tip_gid forked_chain = Some 0 → d = Depth 0) ∧
    (0 ∈ Blockchain._longest_chain forked_chain →
       ∃ tip tip_len len,
         Blockchain._longest_chain_tip_gid forked_chain = Some tip ∧
         Blockchain.chain_length forked_chain !! tip = Some tip_len ∧
         Blockchain.chain_length forked_chain !! 0 = Some len ∧
         d = Depth (tip_len - len) ∧ 0 ≤ tip_len - len).
Proof.
  split; [exact forked_chain_grown|].
  exact (BlockchainRunsFacts.get_depth_of_grown_chain forked_chain 0 forked_chain_grown).
Defined.

Lemma is_a_before_b_by_longest_chain_witness :
  Blockchain.reachable forked_chain ∧
  ∃ answer, Blockchain.is_a_before_b forked_chain 2 2 = Ok answer ∧
    (answer = None ↔ ((2 ∉ Blockchain._longest_chain forked_chain) ∧
                      (2 ∉ Blockchain._longest_chain forked_chain))) ∧
    (2 ∈ Blockchain._longest_chain forked_chain →
     2 ∉ Blockchain._longest_chain forked_chain → answer = Some true) ∧
    (2 ∉ Blockchain._longest_chain forked_chain →
     2 ∈ Blockchain._longest_chain forked_chain → answer = Some false) ∧
    (2 ∈ Blockchain._longest_chain forked_chain →
     2 ∈ Blockchain._longest_chain forked_chain →
       ∃ la lb, Blockchain.chain_length forked_chain !! 2 = Some la ∧
                Blockchain.chain_length forked_chain !! 2 = Some lb ∧
                answer = Some (la <=? lb)).
Proof.
  split; [exact forked_chain_reachable|].
  exact (BlockchainRunsFacts.is_a_before_b_by_longest_chain
           forked_chain 2 2 forked_chain_reachable).
Defined.

(** ** The brute-force engine *)

Lemma coloring_is_maximum_k_cluster_witness :
  PHANTOM.reachable 1 brute_force_fan ∧
  PHANTOMRuns.maximum_k_cluster 1 (PHANTOM._G brute_force_fan)
    (PHANTOM._get_coloring brute_force_fan).
Proof.
  split; [exact brute_force_fan_reachable|].
  exact (PHANTOMFacts.coloring_is_maximum_k_cluster 1 brute_force_fan
           brute_force_fan_reachable).
Defined.

Lemma add_returns_and_keeps_parents_witness :
  PHANTOM.reachable 1 brute_force_fan ∧
  (length (DiGraph.nodes (PHANTOM._G brute_force_fan))
   + size (get_parents stray) + 1 < 8)%nat ∧
  ∃ s', PHANTOM.add 8 brute_force_fan stray = Ok s' ∧ PHANTOM.reachable 1 s' ∧
    PHANTOM.contains s' (global_id stray) = true ∧
    PHANTOM.getitem_block s' (global_id stray) = Ok stray ∧
    ∀ p, p ∈ get_parents stray →
      PHANTOM.contains s' p = true ∧
      (p ≠ global_id stray → PHANTOM.contains brute_force_fan p = false →
       PHANTOM.block_data brute_force_fan !! p = None →
       PHANTOM.getitem_block s' p = Raise KeyError).
Proof.
  assert (length (DiGraph.nodes (PHANTOM._G brute_force_fan))
          + size (get_parents stray) + 1 < 8)%nat as Hfuel by (vm_compute; lia).
  split; [exact brute_force_fan_reachable|]. split; [exact Hfuel|].
  exact (PHANTOMFacts.add_returns_and_keeps_parents 1 8 brute_force_fan stray
           brute_force_fan_reachable Hfuel).
Defined.

Lemma set_k_raises_on_stub_witness :
  PHANTOM.contains orphan 0 = true ∧ PHANTOM.block_data orphan !! 0 = None ∧
  PHANTOM.set_k 4 orphan 3 = Raise KeyError.
Proof.
  assert (PHANTOM.contains orphan 0 = true) as Hin by (by vm_compute).
  assert (PHANTOM.block_data orphan !! 0 = None) as Hnone by (by vm_compute).
  split; [exact Hin|]. split; [exact Hnone|].
  exact (PHANTOMFacts.set_k_raises_on_stub 4 orphan 3 0 Hin Hnone).
Defined.

Lemma is_a_before_b_total_witness :
  PHANTOM.reachable 1 brute_force_fan ∧
  ∃ answer, PHANTOM.is_a_before_b brute_force_fan 4 7 = Ok (answer, brute_force_fan) ∧
    (answer = None ↔ PHANTOM.contains brute_force_fan 4 = false ∧
                     PHANTOM.contains brute_force_fan 7 = false) ∧
    (PHANTOM.contains brute_force_fan 4 = true →
     PHANTOM.contains brute_force_fan 7 = false → answer = Some true) ∧
    (PHANTOM.contains brute_force_fan 4 = false →
     PHANTOM.contains brute_force_fan 7 = true → answer = Some false) ∧
    (PHANTOM.contains brute_force_fan 4 = true →
     PHANTOM.contains brute_force_fan 7 = true →
       ∃ la lb, PHANTOM.lid brute_force_fan !! 4 = Some la ∧
                PHANTOM.lid brute_force_fan !! 7 = Some lb ∧
                answer = Some (la <=? lb)).
Proof.
  split; [exact brute_force_fan_reachable|].
  exact (PHANTOMFacts.is_a_before_b_total 1 brute_force_fan 4 7 brute_force_fan_reachable).
Defined.

(** ** The greedy engine *)

Lemma is_a_bluer_than_b_strict_total_order_witness :
  GreedyPHANTOM.blue_blocks_number greedy_fan !! 2 = Some 0 ∧
  GreedyPHANTOM.blue_blocks_number greedy_fan !! 3 = Some 0 ∧
  GreedyPHANTOM.blue_blocks_number greedy_fan !! 4 = Some 0 ∧
  GreedyPHANTOM._is_a_bluer_than_b greedy_fan 2 2 = Ok false ∧
  (2 ≠ 3 → ∃ answer, GreedyPHANTOM._is_a_bluer_than_b greedy_fan 2 3 = Ok answer ∧
             GreedyPHANTOM._is_a_bluer_than_b greedy_fan 3 2 = Ok (negb answer)) ∧
  (GreedyPHANTOM._is_a_bluer_than_b greedy_fan 2 3 = Ok true →
   GreedyPHANTOM._is_a_bluer_than_b greedy_fan 3 4 = Ok true →
   GreedyPHANTOM._is_a_bluer_than_b greedy_fan 2 4 = Ok true) ∧
  (∀ x, GreedyPHANTOM.blue_blocks_number greedy_fan !! x = None →
        GreedyPHANTOM._is_a_bluer_than_b greedy_fan x 2 = Raise KeyError ∧
        GreedyPHANTOM._is_a_bluer_than_b greedy_fan 2 x = Raise KeyError).
Proof.
  assert (GreedyPHANTOM.blue_blocks_number greedy_fan !! 2 = Some 0) as H2
    by (by vm_compute).
  assert (GreedyPHANTOM.blue_blocks_number greedy_fan !! 3 = Some 0) as H3
    by (by vm_compute).
  assert (GreedyPHANTOM.blue_blocks_number greedy_fan !! 4 = Some 0) as H4
    by (by vm_compute).
  split; [exact H2|]. split; [exact H3|]. split; [exact H4|].
  exact (GreedyFacts.is_a_bluer_than_b_strict_total_order greedy_fan 2 3 4 0 0 0 H2 H3 H4).
Defined.

Lemma get_extreme_blue_is_extreme_witness :
  NoDup [4; 2; 3] ∧
  GreedyPHANTOM._get_bluest blue_numbers [4; 2; 3] = Ok (Some 3) ∧
  GreedyPHANTOM._get_extreme_blue blue_numbers [4; 2; 3] false = Ok (Some 2) ∧
  ([4; 2; 3] ≠ [] →
   (∀ g, g ∈ [4; 2; 3] → is_Some (GreedyPHANTOM.blue_blocks_number blue_numbers !! g)) →
   (∃ x, GreedyPHANTOM._get_bluest blue_numbers [4; 2; 3] = Ok (Some x)) ∧
   (∃ x, GreedyPHANTOM._get_extreme_blue blue_numbers [4; 2; 3] false = Ok (Some x))) ∧
  (∀ x, GreedyPHANTOM._get_bluest blue_numbers [4; 2; 3] = Ok (Some x) →
     x ∈ [4; 2; 3] ∧
     ∀ y, y ∈ [4; 2; 3] → y ≠ x →
          GreedyPHANTOM._is_a_bluer_than_b blue_numbers x y = Ok true) ∧
  (∀ x, GreedyPHANTOM._get_extreme_blue blue_numbers [4; 2; 3] false = Ok (Some x) →
     x ∈ [4; 2; 3] ∧ ∃ nx, GreedyPHANTOM.blue_blocks_number blue_numbers !! x = Some nx ∧
       ∀ y, y ∈ [4; 2; 3] →
            ∃ ny, GreedyPHANTOM.blue_blocks_number blue_numbers !! y = Some ny ∧
                  (nx < ny ∨ (nx = ny ∧ x ≤ y))) ∧
  (∀ bluest, GreedyPHANTOM._get_extreme_blue blue_numbers [4; 2; 3] bluest = Ok None ↔
             [4; 2; 3] = ([] : list Z)) ∧
  (∀ bluest p, p ∈ [4; 2; 3] → GreedyPHANTOM.blue_blocks_number blue_numbers !! p = None →
     GreedyPHANTOM._get_extreme_blue blue_numbers [4; 2; 3] bluest = Raise KeyError).
Proof.
  assert (NoDup [4; 2; 3]) as Hnd by (repeat constructor; set_solver).
  split; [exact Hnd|].
  split; [by vm_compute|]. split; [by vm_compute|].
  exact (GreedyFacts.get_extreme_blue_is_extreme blue_numbers [4; 2; 3] Hnd).
Defined.

Lemma add_writes_the_new_block_only_witness :
  GreedyPHANTOM.add 20 greedy_genesis (B 1 [0]) = Ok greedy_pair ∧
  GreedyPHANTOM._G greedy_pair = add_block_to_graph (GreedyPHANTOM._G greedy_genesis) (B 1 [0]) ∧
  GreedyPHANTOM.getitem_block greedy_pair (global_id (B 1 [0])) = Ok (B 1 [0]) ∧
  (∀ g, g ≠ global_id (B 1 [0]) →
     GreedyPHANTOM.block_data greedy_pair !! g = GreedyPHANTOM.block_data greedy_genesis !! g ∧
     GreedyPHANTOM.coloring_parent greedy_pair !! g
       = GreedyPHANTOM.coloring_parent greedy_genesis !! g ∧
     GreedyPHANTOM.height_key greedy_pair !! g = GreedyPHANTOM.height_key greedy_genesis !! g ∧
     GreedyPHANTOM.blue_blocks_number greedy_pair !! g
       = GreedyPHANTOM.blue_blocks_number greedy_genesis !! g) ∧
  ∃ parent height blue_number,
    GreedyPHANTOM.coloring_parent greedy_pair !! global_id (B 1 [0]) = Some parent ∧
    GreedyPHANTOM.height_key greedy_pair !! global_id (B 1 [0]) = Some height ∧
    GreedyPHANTOM.blue_blocks_number greedy_pair !! global_id (B 1 [0]) = Some blue_number ∧
    GreedyPHANTOM._get_bluest greedy_genesis (elements (get_parents (B 1 [0]))) = Ok parent ∧
    (parent = None ↔ get_parents (B 1 [0]) = ∅) ∧
    match parent with
    | None => height = 0 ∧ 0 ≤ blue_number
    | Some p =>
        p ∈ get_parents (B 1 [0]) ∧
        (∀ q, q ∈ get_parents (B 1 [0]) →
              ∃ hq, GreedyPHANTOM.height_key greedy_genesis !! q = Some hq ∧ hq < height) ∧
        (∃ q, q ∈ get_parents (B 1 [0]) ∧
              GreedyPHANTOM.height_key greedy_genesis !! q = Some (height - 1)) ∧
        ∃ bp, GreedyPHANTOM.blue_blocks_number greedy_genesis !! p = Some bp ∧
              bp ≤ blue_number
    end.
Proof.
  assert (GreedyPHANTOM.add 20 greedy_genesis (B 1 [0]) = Ok greedy_pair) as Hadd
    by (by vm_compute).
  split; [exact Hadd|].
  exact (GreedyFacts.add_writes_the_new_block_only 20 greedy_genesis (B 1 [0])
           greedy_pair Hadd).
Defined.

Lemma greedy_add_missing_parent_raises_witness :
  GreedyRuns.all_blocks greedy_fan ∧
  GreedyRuns.all_blocks (GreedyPHANTOM.init 1) ∧
  (∀ g, GreedyPHANTOM.contains greedy_fan g = true →
     ∃ data, GreedyPHANTOM.getitem_block greedy_fan g = Ok data ∧
       is_Some (GreedyPHANTOM.coloring_parent greedy_fan !! g) ∧
       is_Some (GreedyPHANTOM.height_key greedy_fan !! g) ∧
       is_Some (GreedyPHANTOM.blue_blocks_number greedy_fan !! g)) ∧
  (∀ s', GreedyPHANTOM.add 20 greedy_fan stray = Ok s' → GreedyRuns.all_blocks s') ∧
  (∀ p, p ∈ get_parents stray → GreedyPHANTOM.contains greedy_fan p = false →
     GreedyPHANTOM.add 20 greedy_fan stray = Raise KeyError ∧
     GreedyPHANTOM._get_bluest (GreedyRuns.interrupted_add greedy_fan stray)
       (elements (get_parents stray)) = Raise KeyError ∧
     GreedyPHANTOM.contains (GreedyRuns.interrupted_add greedy_fan stray)
       (global_id stray) = true ∧
     GreedyPHANTOM.contains (GreedyRuns.interrupted_add greedy_fan stray) p = true ∧
     GreedyPHANTOM.blue_blocks_number (GreedyRuns.interrupted_add greedy_fan stray) !! p
       = None ∧
     ¬ GreedyRuns.all_blocks (GreedyRuns.interrupted_add greedy_fan stray)).
Proof.
  split; [exact greedy_fan_all_blocks|].
  exact (GreedyFacts.greedy_add_missing_parent_raises 1 20 greedy_fan stray
           greedy_fan_all_blocks).
Defined.

Lemma calculate_topological_order_parents_first_witness :
  GreedyPHANTOM._calculate_topological_order 20 greedy_fan None {[2; 3; 4]} ∅
    {[0; 1; 2; 3; 4]} = Ok [0; 1; 2; 3; 4] ∧
  NoDup [0; 1; 2; 3; 4] ∧
  GreedyRuns.parents_first (GreedyPHANTOM._G greedy_fan) {[0; 1; 2; 3; 4]} [0; 1; 2; 3; 4].
Proof.
  assert (GreedyPHANTOM._calculate_topological_order 20 greedy_fan None {[2; 3; 4]} ∅
            {[0; 1; 2; 3; 4]} = Ok [0; 1; 2; 3; 4]) as Hrun by (by vm_compute).
  split; [exact Hrun|].
  exact (GreedyFacts.calculate_topological_order_parents_first 20 greedy_fan None
           {[2; 3; 4]} ∅ {[0; 1; 2; 3; 4]} [0; 1; 2; 3; 4] Hrun).
Defined.

Lemma get_depth_is_never_negative_witness :
  GreedyPHANTOM.get_depth 20 greedy_fan 4 = Ok (Depth 0) ∧
  (Depth 0 = NegInf ↔ GreedyPHANTOM.contains greedy_fan 4 = false) ∧
  (GreedyPHANTOM.contains greedy_fan 4 = true → ∃ n, Depth 0 = Depth n ∧ 0 ≤ n).
Proof.
  assert (GreedyPHANTOM.get_depth 20 greedy_fan 4 = Ok (Depth 0)) as Hrun by (by vm_compute).
  split; [exact Hrun|].
  exact (GreedyFacts.get_depth_is_never_negative 20 greedy_fan 4 (Depth 0) Hrun).
Defined.

End ScenariosFacts.

(** * The competing-chain engine *)

Module CompetingChainFacts.
Import DiGraph DiGraphShape DiGraphFacts.
Import GreedyRuns GreedyFacts CompetingChain CompetingChainRuns.

(** ** The order query leaves the graph and the node attributes alone *)

Lemma same_color_antipast fuel gids s s' :
  GreedyPHANTOM.color_antipast fuel gids s = Ok s' → same_attributes s s'.
Proof.
  revert s. induction gids as [|gid rest IH]; intros s; simpl.
  - intros [= <-]. apply same_attributes_refl.
  - intros Hrun. inv_bind Hrun. apply IH in Hrun.
    eapply same_attributes_trans; [|exact Hrun]. apply same_store_dict.
Qed.

Lemma same_update_antipast_coloring fuel s s' :
  GreedyPHANTOM._update_antipast_coloring fuel s = Ok s' → same_attributes s s'.
Proof.
  unfold GreedyPHANTOM._update_antipast_coloring. intros Hrun. inv_bind Hrun.
  injection Hrun as <-. eapply same_attributes_trans; [by eapply same_color_antipast|].
  apply same_uncolored_clear.
Qed.

Lemma same_get_local_id fuel s gid l s' :
  GreedyPHANTOM._get_local_id fuel s gid = Ok (l, s') → same_attributes s s'.
Proof.
  unfold GreedyPHANTOM._get_local_id. intros Hrun. inv_bind Hrun.
  injection Hrun as _ <-.
  destruct (_ || _).
  - inv_bind Hx. eapply same_attributes_trans; [by eapply same_update_antipast_coloring|].
    by eapply same_update_topological_order_in_dicts.
  - injection Hx as <-. apply same_attributes_refl.
Qed.

Lemma same_is_a_before_b fuel s a b answer s' :
  greedy_is_a_before_b fuel s a b = Ok (answer, s') → same_attributes s s'.
Proof.
  unfold greedy_is_a_before_b, phantom_is_a_before_b. simpl.
  destruct (GreedyPHANTOM.contains s a), (GreedyPHANTOM.contains s b); simpl;
    try (intros [= _ <-]; apply same_attributes_refl).
  intros Hrun. apply bind_Ok in Hrun as ([la s1] & Ha & Hrun).
  apply bind_Ok in Hrun as ([lb s2] & Hb & Hrun). injection Hrun as _ <-.
  eapply same_attributes_trans; by eapply same_get_local_id.
Qed.

Lemma all_blocks_same s s' : same_attributes s s' → all_blocks s → all_blocks s'.
Proof.
  intros [(HG & Hd & Hcp & Hh & _) Hb]. unfold all_blocks.
  by rewrite HG, Hd, Hcp, Hh, Hb.
Qed.

Lemma keyed_same s s' : same_attributes s s' → keyed s → keyed s'.
Proof. intros [(_ & Hd & _) _]. unfold keyed. by rewrite Hd. Qed.

(** ** What [GreedyPHANTOM.add] does to the nodes *)

Lemma greedy_add_nodes fuel s block s' :
  all_blocks s → GreedyPHANTOM.add fuel s block = Ok s' →
  ∀ g, g ∈ nodes (GreedyPHANTOM._G s') ↔ g = global_id block ∨ g ∈ nodes (GreedyPHANTOM._G s).
Proof.
  intros (Hcl & Hnodes & Hblue) Hadd.
  destruct (greedy_add_fields fuel s block s' Hadd)
    as (parent & height & bn & Hbluest & HG & _).
  destruct (PHANTOMFacts.add_block_to_graph_spec (GreedyPHANTOM._G s) block Hcl)
    as (_ & Hn' & _).
  intros g. rewrite HG, Hn'. split; [|tauto].
  intros [?|[Hp|?]]; [by left| |by right]. right. apply Hblue.
  destruct (GreedyPHANTOM.blue_blocks_number s !! g) eqn:Hbp; [eauto|].
  unfold GreedyPHANTOM._get_bluest in Hbluest.
  rewrite (get_extreme_blue_missing s _ true g) in Hbluest; [done| |done].
  by apply elem_of_elements.
Qed.

Lemma greedy_add_keyed fuel s block s' :
  keyed s → GreedyPHANTOM.add fuel s block = Ok s' → keyed s'.
Proof.
  intros Hkeyed Hadd.
  destruct (greedy_add_fields fuel s block s' Hadd)
    as (parent & height & bn & _ & _ & Hdata & _).
  intros g b. rewrite Hdata.
  destruct (decide (g = global_id block)) as [->|Hne].
  - rewrite lookup_insert_eq. by intros [= <-].
  - rewrite lookup_insert_ne by done. apply Hkeyed.
Qed.

(** ** The queue goes to the honest copy *)

Lemma drain_spec fuel d queue honest honest' :
  keyed d → all_blocks honest →
  drain fuel d queue honest = Ok honest' →
  all_blocks honest' ∧
  ∀ g, g ∈ nodes (GreedyPHANTOM._G honest') ↔
       g ∈ nodes (GreedyPHANTOM._G honest) ∨ g ∈ queue.
Proof.
  intros Hkeyed. revert honest. induction queue as [|gid rest IH]; intros honest Hall; simpl.
  - intros [= <-]. split; [done|]. intros g. rewrite elem_of_nil. tauto.
  - intros Hrun. apply bind_Ok in Hrun as (block & Hblock & Hrun).
    apply bind_Ok in Hrun as (honest1 & Hadd & Hrun).
    apply getitem_Ok, Hkeyed in Hblock.
    destruct (IH honest1 (add_all_blocks _ _ _ _ Hall Hadd) Hrun) as [Hall' Hn].
    split; [done|]. intros g.
    rewrite Hn, (greedy_add_nodes _ _ _ _ Hall Hadd), Hblock, elem_of_cons. tauto.
Qed.

Lemma add_malicious_blocks_inv fuel s s' :
  inv s → _add_malicious_blocks_to_honest_dag fuel s = Ok s' →
  inv s' ∧ dag s' = dag s ∧ _malicious_blocks_to_add_to_honest_dag s' = [] ∧
  _first_parallel_block_gid s' = _first_parallel_block_gid s ∧
  _currently_attacked_block_gid s' = _currently_attacked_block_gid s.
Proof.
  intros (Hdag & Hhonest & Hkeyed & Hsplit). unfold _add_malicious_blocks_to_honest_dag.
  intros Hrun. apply bind_Ok in Hrun as (honest & Hdrain & Hrun). injection Hrun as <-.
  destruct (drain_spec _ _ _ _ _ Hkeyed Hhonest Hdrain) as [Hall Hn].
  split; [|done]. split; [done|]. split; [done|]. split; [done|].
  intros g. simpl. rewrite Hn, elem_of_nil. rewrite (Hsplit g). tauto.
Qed.

Lemma stop_attack_inv fuel s s' :
  inv s → _stop_attack fuel s = Ok s' →
  inv s' ∧ dag s' = dag s ∧ _malicious_blocks_to_add_to_honest_dag s' = [] ∧
  _first_parallel_block_gid s' = None ∧
  _currently_attacked_block_gid s' = _currently_attacked_block_gid s.
Proof.
  intros Hinv. unfold _stop_attack. intros Hrun.
  apply bind_Ok in Hrun as (s1 & Hdrain & Hrun). injection Hrun as <-.
  by destruct (add_malicious_blocks_inv _ _ _ Hinv Hdrain) as (Hinv1 & Hd & Hq & _ & Ha).
Qed.

Lemma restart_attack_inv fuel s s' : inv s → _restart_attack fuel s = Ok s' → inv s'.
Proof.
  intros Hinv. unfold _restart_attack. intros Hrun.
  apply bind_Ok in Hrun as (s1 & Hstop & Hrun).
  destruct (stop_attack_inv _ _ _ Hinv Hstop) as (Hinv1 & _).
  cbv zeta in Hrun.
  destruct (GreedyPHANTOM._coloring_tip_gid (_honest_dag s1)) as [tip|]; [|done].
  inv_bind Hrun. injection Hrun as <-. done.
Qed.

Lemma get_virtual_block_parents_inv fuel s is_malicious parents s' :
  inv s → get_virtual_block_parents fuel s is_malicious = Ok (parents, s') → inv s'.
Proof.
  intros Hinv. unfold get_virtual_block_parents.
  destruct (_ || _); [by intros [= _ <-]|].
  intros Hrun. apply bind_Ok in Hrun as (s1 & Hs1 & Hrun). injection Hrun as _ <-.
  destruct (did_attack_fail s); [by eapply restart_attack_inv|by injection Hs1 as <-].
Qed.

Lemma did_attack_succeed_inv fuel s answer s' :
  inv s → did_attack_succeed fuel s = Ok (answer, s') →
  inv s' ∧
  _honest_dag s' = _honest_dag s ∧
  _malicious_blocks_to_add_to_honest_dag s' = _malicious_blocks_to_add_to_honest_dag s ∧
  _first_parallel_block_gid s' = _first_parallel_block_gid s ∧
  _currently_attacked_block_gid s' = _currently_attacked_block_gid s ∧
  _competing_chain_tip_gid s' = _competing_chain_tip_gid s.
Proof.
  intros Hinv. unfold did_attack_succeed.
  destruct (did_attack_fail s); [by intros [= _ <-]|].
  destruct (_first_parallel_block_gid s) as [first_parallel|] eqn:Hfirst;
    [|by intros [= _ <-]].
  destruct (_currently_attacked_block_gid s) as [attacked|] eqn:Hattacked;
    [|by intros [= _ <-]].
  intros Hrun. apply bind_Ok in Hrun as (own_depth & _ & Hrun).
  destruct (negb (depth_ge own_depth _)); [by injection Hrun as _ <-|].
  apply bind_Ok in Hrun as (honest_depth & _ & Hrun).
  destruct (negb (depth_ge honest_depth _)); [by injection Hrun as _ <-|].
  apply bind_Ok in Hrun as ([answer' d] & Horder & Hrun). injection Hrun as _ <-.
  apply same_is_a_before_b in Horder.
  destruct Hinv as (Hdag & Hhonest & Hkeyed & Hsplit).
  split; [|done]. split; [by eapply all_blocks_same|]. split; [done|].
  split; [by eapply keyed_same|].
  intros g. simpl. destruct Horder as [(-> & _) _]. apply Hsplit.
Qed.

Lemma insert_inv fuel s block is_malicious s' :
  inv s → insert fuel s block is_malicious = Ok s' → inv s'.
Proof.
  intros (Hdag & Hhonest & Hkeyed & Hsplit). unfold insert. intros Hrun.
  apply bind_Ok in Hrun as (d & Hadd & Hrun). cbv zeta in Hrun.
  apply bind_Ok in Hrun as (s2 & Hs2 & Hrun).
  apply bind_Ok in Hrun as ([succeeded s3] & Hsucceeded & Hrun).
  pose proof (add_all_blocks _ _ _ _ Hdag Hadd) as Hdag'.
  pose proof (greedy_add_keyed _ _ _ _ Hkeyed Hadd) as Hkeyed'.
  pose proof (greedy_add_nodes _ _ _ _ Hdag Hadd) as Hnodes'.
  assert (inv s2) as Hinv2.
  { destruct is_malicious.
    - inv_bind Hs2. injection Hs2 as <-.
      split; [|split; [|split]]; simpl.
      + by destruct (did_attack_fail _).
      + by destruct (did_attack_fail _).
      + by destruct (did_attack_fail _).
      + intros g.
        assert (∀ u : t, dag u = d → _honest_dag u = _honest_dag s →
                  _malicious_blocks_to_add_to_honest_dag u =
                    _malicious_blocks_to_add_to_honest_dag s ++ [global_id block] →
                  g ∈ nodes (GreedyPHANTOM._G (dag u)) ↔
                  g ∈ nodes (GreedyPHANTOM._G (_honest_dag u)) ∨
                  g ∈ _malicious_blocks_to_add_to_honest_dag u) as Hu.
        { intros u -> -> ->.
          rewrite (Hnodes' g), (Hsplit g), elem_of_app, list_elem_of_singleton. tauto. }
        simpl. destruct (did_attack_fail _); by apply Hu.
    - apply bind_Ok in Hs2 as (s1 & Hs1 & Hs2).
      apply bind_Ok in Hs2 as (honest' & Hhonest_add & Hs2). injection Hs2 as <-.
      destruct (did_attack_fail (upd_dag d s)).
      + unfold _add_malicious_blocks_to_honest_dag in Hs1.
        apply bind_Ok in Hs1 as (honest1 & Hdrain & Hs1). injection Hs1 as <-.
        simpl in *.
        destruct (drain_spec _ _ _ _ _ Hkeyed' Hhonest Hdrain) as [Hall1 Hn1].
        split; [done|]. split; [exact (add_all_blocks _ _ _ _ Hall1 Hhonest_add)|].
        split; [done|]. intros g. simpl.
        rewrite (Hnodes' g), (greedy_add_nodes _ _ _ _ Hall1 Hhonest_add g), (Hn1 g),
          (Hsplit g), elem_of_nil. tauto.
      + injection Hs1 as <-. simpl in *.
        split; [done|]. split; [exact (add_all_blocks _ _ _ _ Hhonest Hhonest_add)|].
        split; [done|]. intros g. simpl.
        rewrite (Hnodes' g), (greedy_add_nodes _ _ _ _ Hhonest Hhonest_add g), (Hsplit g).
        tauto. }
  destruct (did_attack_succeed_inv _ _ _ _ Hinv2 Hsucceeded) as (Hinv3 & _).
  destruct (tri_truthy succeeded); [|by injection Hrun as <-].
  by destruct (add_malicious_blocks_inv _ _ _ Hinv3 Hrun).
Qed.

Lemma track_attack_inv fuel s block s' :
  inv s → track_attack fuel s block = Ok s' → inv s'.
Proof.
  intros Hinv. unfold track_attack.
  destruct (negb (did_attack_fail s)); [|by intros [= <-]].
  cbv zeta. intros Hrun. apply bind_Ok in Hrun as (tip_is_bluer & _ & Hrun).
  destruct tip_is_bluer; [by injection Hrun as <-|].
  apply bind_Ok in Hrun as (viable & _ & Hrun).
  destruct viable; [by injection Hrun as <-|].
  by apply stop_attack_inv in Hrun as [? _].
Qed.

Lemma competing_add_inv fuel s block is_malicious s' :
  inv s → add fuel s block is_malicious = Ok s' → inv s'.
Proof.
  intros Hinv. unfold add. intros Hrun. apply bind_Ok in Hrun as (s1 & Hinsert & Hrun).
  eapply track_attack_inv; [|done]. by eapply insert_inv.
Qed.

Lemma competing_inv_init k confirmation_depth maximal_depth_difference :
  inv (init k confirmation_depth maximal_depth_difference).
Proof.
  pose proof (all_blocks_init k) as Hinit.
  split; [done|]. split; [done|]. split; [by intros g b; simpl; rewrite lookup_empty|].
  intros g. simpl. rewrite elem_of_nil. tauto.
Qed.

Lemma run_call_inv fuel s c s' : inv s → run_call fuel s c = Ok s' → inv s'.
Proof.
  intros Hinv Hcall. destruct c as [block is_malicious|is_malicious]; simpl in Hcall.
  - by eapply competing_add_inv.
  - apply bind_Ok in Hcall as ([parents s1] & Hparents & Hcall). injection Hcall as <-.
    by eapply get_virtual_block_parents_inv.
Qed.

Lemma run_inv fuel s calls s' : inv s → run fuel s calls = Ok s' → inv s'.
Proof.
  revert s. induction calls as [|c rest IH]; intros s Hs; simpl.
  - by intros [= <-].
  - intros Hrun. apply bind_Ok in Hrun as (s1 & Hcall & Hrun).
    apply (IH s1); [|done]. by eapply run_call_inv.
Qed.

(** X25.  Call a competing-chain DAG in step when the DAG
    and its honest copy [_honest_dag] are whole (every node is a block
    with its data and colouring attributes), every block of the DAG is
    stored under its own id, and a block is in the DAG exactly when it is
    in the honest copy or waits in the queue
    [_malicious_blocks_to_add_to_honest_dag].  A new DAG is in step, and
    every call of [add] or [get_virtual_block_parents] that returns leaves
    it in step (a call that raises has written the DAG before it raised,
    and nothing is said of what it leaves).  When [_stop_attack] returns
    on a DAG in step, the queue is empty, the attack counts as failed,
    and the honest copy holds exactly the blocks of the DAG. *)
Theorem honest_copy_and_queue_hold_the_blocks k confirmation_depth
    maximal_depth_difference fuel s c :
  inv s →
  inv (init k confirmation_depth maximal_depth_difference) ∧
  (∀ g, contains s g = true ↔
        GreedyPHANTOM.contains (_honest_dag s) g = true ∨
        g ∈ _malicious_blocks_to_add_to_honest_dag s) ∧
  (∀ s', run_call fuel s c = Ok s' → inv s') ∧
  (∀ s', _stop_attack fuel s = Ok s' →
     _malicious_blocks_to_add_to_honest_dag s' = [] ∧ did_attack_fail s' = true ∧
     ∀ g, GreedyPHANTOM.contains (_honest_dag s') g = contains s g).
Proof.
  intros Hs. split; [apply competing_inv_init|]. split; [|split].
  - intros g. unfold contains, GreedyPHANTOM.contains. rewrite !has_node_true.
    apply Hs.
  - intros s' Hcall. by eapply run_call_inv.
  - intros s' Hstop.
    destruct (stop_attack_inv _ _ _ Hs Hstop) as (Hinv & Hd & Hq & Hfirst & _).
    split; [done|]. split; [unfold did_attack_fail; by rewrite Hfirst|].
    intros g. unfold contains, GreedyPHANTOM.contains. rewrite <- Hd.
    destruct Hinv as (_ & _ & _ & Hsplit). specialize (Hsplit g).
    rewrite Hq, elem_of_nil in Hsplit. unfold has_node.
    apply bool_decide_ext. tauto.
Qed.

(** ** A miner that never attacks *)

(** X26.  Fed honest blocks only, the competing-chain DAG
    is the greedy DAG: the run returns exactly when the greedy engine
    returns on the same blocks (and raises what it raises), its own state
    and its honest copy are then both the state of the greedy engine, no
    attack is recorded and nothing waits in the queue. *)
Theorem honest_run_is_greedy fuel k confirmation_depth maximal_depth_difference blocks :
  run fuel (init k confirmation_depth maximal_depth_difference) (honest_calls blocks) =
  d ← GreedyPHANTOM.add_all fuel (GreedyPHANTOM.init k) blocks;
  Ok (mk d d None None None None ∅ ∅ confirmation_depth maximal_depth_difference []).
Proof.
  unfold init. generalize (GreedyPHANTOM.init k) as d.
  induction blocks as [|block rest IH]; intros d; [done|].
  simpl. unfold add at 1, insert. simpl.
  destruct (GreedyPHANTOM.add fuel d block) as [d'| |]; [|done|done].
  simpl. apply IH.
Qed.

(** ** Who picks the attacked block *)

Lemma insert_attacked fuel s block is_malicious s' :
  insert fuel s block is_malicious = Ok s' →
  _currently_attacked_block_gid s' = _currently_attacked_block_gid s ∧
  _confirmation_depth s' = _confirmation_depth s ∧
  _maximal_depth_difference s' = _maximal_depth_difference s.
Proof.
  unfold insert. intros Hrun.
  apply bind_Ok in Hrun as (d & Hadd & Hrun). cbv zeta in Hrun.
  apply bind_Ok in Hrun as (s2 & Hs2 & Hrun).
  apply bind_Ok in Hrun as ([succeeded s3] & Hsucceeded & Hrun).
  assert (_currently_attacked_block_gid s2 = _currently_attacked_block_gid s ∧
          _confirmation_depth s2 = _confirmation_depth s ∧
          _maximal_depth_difference s2 = _maximal_depth_difference s) as (H2a & H2c & H2m).
  { destruct is_malicious.
    - inv_bind Hs2. injection Hs2 as <-. simpl. by destruct (did_attack_fail _).
    - apply bind_Ok in Hs2 as (s1 & Hs1 & Hs2).
      apply bind_Ok in Hs2 as (honest' & _ & Hs2). injection Hs2 as <-. simpl.
      destruct (did_attack_fail (upd_dag d s)); [|by injection Hs1 as <-].
      unfold _add_malicious_blocks_to_honest_dag in Hs1.
      apply bind_Ok in Hs1 as (honest1 & _ & Hs1). by injection Hs1 as <-. }
  assert (_currently_attacked_block_gid s3 = _currently_attacked_block_gid s2 ∧
          _confirmation_depth s3 = _confirmation_depth s2 ∧
          _maximal_depth_difference s3 = _maximal_depth_difference s2) as (H3a & H3c & H3m).
  { unfold did_attack_succeed in Hsucceeded.
    destruct (did_attack_fail s2); [by injection Hsucceeded as _ <-|].
    destruct (_first_parallel_block_gid s2); [|by injection Hsucceeded as _ <-].
    destruct (_currently_attacked_block_gid s2) eqn:Hattacked;
      [|injection Hsucceeded as _ <-; by rewrite Hattacked].
    apply bind_Ok in Hsucceeded as (own_depth & _ & Hsucceeded).
    destruct (negb (depth_ge own_depth _));
      [injection Hsucceeded as _ <-; by rewrite Hattacked|].
    apply bind_Ok in Hsucceeded as (honest_depth & _ & Hsucceeded).
    destruct (negb (depth_ge honest_depth _));
      [injection Hsucceeded as _ <-; by rewrite Hattacked|].
    apply bind_Ok in Hsucceeded as ([answer' d'] & _ & Hsucceeded).
    injection Hsucceeded as _ <-. by rewrite <- Hattacked. }
  rewrite <- H2a, <- H2c, <- H2m, <- H3a, <- H3c, <- H3m.
  destruct (tri_truthy succeeded); [|by injection Hrun as <-].
  unfold _add_malicious_blocks_to_honest_dag in Hrun.
  apply bind_Ok in Hrun as (honest1 & _ & Hrun). by injection Hrun as <-.
Qed.

Lemma track_attack_attacked fuel s block s' :
  track_attack fuel s block = Ok s' →
  _currently_attacked_block_gid s' = _currently_attacked_block_gid s ∧
  _confirmation_depth s' = _confirmation_depth s ∧
  _maximal_depth_difference s' = _maximal_depth_difference s.
Proof.
  unfold track_attack.
  destruct (negb (did_attack_fail s)); [|by intros [= <-]].
  cbv zeta. intros Hrun. apply bind_Ok in Hrun as (tip_is_bluer & _ & Hrun).
  destruct tip_is_bluer; [by injection Hrun as <-|].
  apply bind_Ok in Hrun as (viable & _ & Hrun).
  destruct viable; [by injection Hrun as <-|].
  unfold _stop_attack, _add_malicious_blocks_to_honest_dag in Hrun.
  apply bind_Ok in Hrun as (s1 & Hs1 & Hrun). injection Hrun as <-.
  apply bind_Ok in Hs1 as (honest1 & _ & Hs1). by injection Hs1 as <-.
Qed.

(** X27.  [add] never chooses the block under attack:
    it leaves [_currently_attacked_block_gid] (and the two depth
    parameters) as they were, whether the block is malicious or not.  So
    as long as [get_virtual_block_parents(is_malicious=True)] has not
    begun an attack, every state reached by [add] counts the attack as
    failed and [did_attack_succeed] answers [False] without changing
    anything, however many malicious blocks were published. *)
Theorem add_never_picks_the_attacked_block fuel s block is_malicious s' :
  add fuel s block is_malicious = Ok s' →
  _currently_attacked_block_gid s' = _currently_attacked_block_gid s ∧
  _confirmation_depth s' = _confirmation_depth s ∧
  _maximal_depth_difference s' = _maximal_depth_difference s ∧
  (_currently_attacked_block_gid s = None →
   did_attack_fail s' = true ∧
   ∀ fuel', did_attack_succeed fuel' s' = Ok (Some false, s')).
Proof.
  unfold add. intros Hrun. apply bind_Ok in Hrun as (s1 & Hinsert & Htrack).
  apply insert_attacked in Hinsert as (Ha & Hc & Hm).
  apply track_attack_attacked in Htrack as (Ha' & Hc' & Hm').
  split; [congruence|]. split; [congruence|]. split; [congruence|].
  intros Hnone.
  assert (did_attack_fail s' = true) as Hfail.
  { unfold did_attack_fail. rewrite Ha', Ha, Hnone. simpl. apply orb_true_r. }
  split; [done|]. intros fuel'. unfold did_attack_succeed. by rewrite Hfail.
Qed.

End CompetingChainFacts.

(** * The competing-chain engine on a small DAG *)

Module CompetingChainExamples.
Import Scenarios CompetingChain.

Lemma attacked_inv : CompetingChainRuns.inv attacked.
Proof.
  apply (CompetingChainFacts.run_inv 20 (init 1 5 5) attack);
    [apply CompetingChainFacts.competing_inv_init|].
  by vm_compute.
Qed.

Lemma honest_copy_and_queue_hold_the_blocks_witness :
  CompetingChainRuns.inv attacked ∧
  CompetingChainRuns.inv (init 1 5 5) ∧
  (∀ g, contains attacked g = true ↔
        GreedyPHANTOM.contains (_honest_dag attacked) g = true ∨
        g ∈ _malicious_blocks_to_add_to_honest_dag attacked) ∧
  (∀ s', run_call 20 attacked (Add (B 3 [2]) true) = Ok s' → CompetingChainRuns.inv s') ∧
  (∀ s', _stop_attack 20 attacked = Ok s' →
     _malicious_blocks_to_add_to_honest_dag s' = [] ∧ did_attack_fail s' = true ∧
     ∀ g, GreedyPHANTOM.contains (_honest_dag s') g = contains attacked g).
Proof.
  split; [exact attacked_inv|].
  exact (CompetingChainFacts.honest_copy_and_queue_hold_the_blocks 1 5 5 20 attacked
           (Add (B 3 [2]) true) attacked_inv).
Defined.

Lemma add_never_picks_the_attacked_block_witness :
  add 20 (init 1 5 5) (B 0 []) true = Ok published ∧
  _currently_attacked_block_gid published = None ∧
  _confirmation_depth published = 5 ∧
  _maximal_depth_difference published = 5 ∧
  (_currently_attacked_block_gid (init 1 5 5) = None →
   did_attack_fail published = true ∧
   ∀ fuel', did_attack_succeed fuel' published = Ok (Some false, published)).
Proof.
  assert (add 20 (init 1 5 5) (B 0 []) true = Ok published) as Hadd by (by vm_compute).
  split; [exact Hadd|].
  exact (CompetingChainFacts.add_never_picks_the_attacked_block 20 (init 1 5 5)
           (B 0 []) true published Hadd).
Defined.

End CompetingChainExamples.

(** * The longest chain as a path *)

Module BlockchainPathFacts.
Import DiGraph DiGraphFacts Blockchain BlockchainFacts BlockchainRuns BlockchainRunsFacts.

(** ** Paths in a linked chain DAG *)

Lemma parent_of_linked s g :
  linked s → consistent s → g ∈ nodes (_G s) →
  ∃ len, chain_length s !! g = Some len ∧ 1 ≤ len ∧
    match parent_of (_G s) g with
    | None => len = 1 ∧ succ (_G s) !! g = Some []
    | Some p => p ∈ nodes (_G s) ∧ chain_length s !! p = Some (len - 1) ∧
                succ (_G s) !! g = Some [p]
    end.
Proof.
  intros Hlinked (_ & Hpos & _) Hg.
  destruct (Hlinked g Hg) as (len & Hlen & [[Hsucc Hone]|(p & Hsucc & Hp & Hpl)]);
    exists len; (split; [done|]); unfold parent_of; rewrite Hsucc.
  - split; [lia|done].
  - split; [by apply (Hpos g)|done].
Qed.

Lemma on_path_node s g a :
  linked s → consistent s → g ∈ nodes (_G s) → on_path (_G s) g a → a ∈ nodes (_G s).
Proof.
  intros Hlinked Hcons Hg Hpath. induction Hpath as [g|g p a Hparent _ IH]; [done|].
  apply IH. destruct (parent_of_linked s g Hlinked Hcons Hg) as (len & _ & _ & Hp).
  rewrite Hparent in Hp. by destruct Hp.
Qed.

(** Chain lengths go down along a path, strictly after the first block. *)
Lemma on_path_len s g a lg :
  linked s → consistent s → g ∈ nodes (_G s) → on_path (_G s) g a →
  chain_length s !! g = Some lg →
  ∃ la, chain_length s !! a = Some la ∧ 1 ≤ la ∧ la ≤ lg ∧ (la = lg → a = g).
Proof.
  intros Hlinked Hcons Hg Hpath. revert lg.
  induction Hpath as [g|g p a Hparent _ IH]; intros lg Hlg.
  - exists lg. destruct Hcons as (_ & Hpos & _). specialize (Hpos _ _ Hlg).
    split; [done|]. split; [done|]. split; [lia|done].
  - destruct (parent_of_linked s g Hlinked Hcons Hg) as (len & Hlen & _ & Hp).
    rewrite Hparent in Hp. destruct Hp as (Hp & Hpl & _).
    rewrite Hlg in Hlen. injection Hlen as <-.
    destruct (IH Hp _ Hpl) as (la & Hla & Hpos & Hle & _).
    exists la. split; [done|]. split; [done|]. split; lia.
Qed.

Lemma on_path_trans g n i a : on_path g n i → on_path g i a → on_path g n a.
Proof.
  induction 1 as [n|n p i Hparent _ IH]; [done|].
  intros Ha. eapply on_path_parent; [done|]. by apply IH.
Qed.

(** What follows the first block of a path. *)
Lemma on_path_inv g n a :
  on_path g n a → a = n ∨ ∃ p, parent_of g n = Some p ∧ on_path g p a.
Proof. destruct 1 as [n|n p a Hparent Hpath]; [by left|right; eauto]. Qed.

(** A path is a line: the blocks of the path from [g] that are not longer
    than [i], a block of the path, are those of the path from [i]. *)
Lemma on_path_below s g i a li la :
  linked s → consistent s → g ∈ nodes (_G s) →
  on_path (_G s) g i → on_path (_G s) g a →
  chain_length s !! i = Some li → chain_length s !! a = Some la → la ≤ li →
  on_path (_G s) i a.
Proof.
  intros Hlinked Hcons Hg Hi. revert a la.
  induction Hi as [g|g p i Hparent Hi IH]; intros a la Ha Hli Hla Hle; [done|].
  destruct (parent_of_linked s g Hlinked Hcons Hg) as (lg & Hlg & _ & Hp).
  rewrite Hparent in Hp. destruct Hp as (Hp & Hpl & _).
  apply on_path_inv in Ha as [->|(p' & Hparent' & Ha)].
  - destruct (on_path_len s p i _ Hlinked Hcons Hp Hi Hpl) as (li' & Hli' & _ & Hle' & _).
    rewrite Hlg in Hla. injection Hla as <-.
    rewrite Hli in Hli'. injection Hli' as <-. lia.
  - rewrite Hparent in Hparent'. injection Hparent' as <-.
    by apply (IH Hp a la).
Qed.

(** Paths from the blocks of [s] are as they were when the parents of
    these blocks are. *)
Lemma on_path_same s g1 n a :
  linked s → consistent s →
  (∀ x, x ∈ nodes (_G s) → parent_of g1 x = parent_of (_G s) x) →
  n ∈ nodes (_G s) → on_path g1 n a ↔ on_path (_G s) n a.
Proof.
  intros Hlinked Hcons Hsame Hn. split; intros Hpath.
  - induction Hpath as [n|n p a Hparent _ IH]; [constructor|].
    rewrite (Hsame n Hn) in Hparent.
    destruct (parent_of_linked s n Hlinked Hcons Hn) as (len & _ & _ & Hp).
    rewrite Hparent in Hp. destruct Hp as (Hp & _).
    eapply on_path_parent; [done|]. by apply IH.
  - induction Hpath as [n|n p a Hparent _ IH]; [constructor|].
    destruct (parent_of_linked s n Hlinked Hcons Hn) as (len & _ & _ & Hp).
    rewrite Hparent in Hp. destruct Hp as (Hp & _).
    eapply on_path_parent; [by rewrite (Hsame n Hn)|]. by apply IH.
Qed.

(** ** The chain generator follows the parents *)

Lemma next_is_parent s g successors next :
  linked s → consistent s → g ∈ nodes (_G s) →
  DiGraph.successors (_G s) g = Ok successors →
  _get_longest_chain_tip s successors = Ok next →
  next = parent_of (_G s) g.
Proof.
  intros Hlinked Hcons Hg Hsucc Hnext.
  destruct (parent_of_linked s g Hlinked Hcons Hg) as (len & _ & _ & Hp).
  unfold DiGraph.successors in Hsucc.
  destruct (parent_of (_G s) g) as [p|].
  - destruct Hp as (_ & _ & Hl). rewrite Hl in Hsucc. injection Hsucc as <-.
    destruct next as [q|].
    + apply get_longest_chain_tip_elem, list_elem_of_singleton in Hnext. by subst.
    + by apply get_longest_chain_tip_None in Hnext.
  - destruct Hp as (_ & Hl). rewrite Hl in Hsucc. injection Hsucc as <-.
    simpl in Hnext. by injection Hnext as <-.
Qed.

(** The first loop of the chain switch: the blocks collected are those of
    the path from the new tip that come before the first block of the
    longest chain. *)
Lemma collect_new_chain_spec s fuel g lg acc x acc' :
  linked s → consistent s → g ∈ nodes (_G s) → chain_length s !! g = Some lg →
  collect_new_chain s fuel (Some g) (lg - 1) acc = Ok (x, acc') →
  ∃ bound,
    match x with
    | Some i => i ∈ _longest_chain s ∧ on_path (_G s) g i ∧ chain_length s !! i = Some bound
    | None => bound = 0
    end ∧
    ∀ a, a ∈ acc' ↔
         a ∈ acc ∨ (on_path (_G s) g a ∧ ∃ la, chain_length s !! a = Some la ∧ bound < la).
Proof.
  intros Hlinked Hcons. revert g lg acc.
  induction fuel as [|fuel IH]; intros g lg acc Hg Hlg; simpl; [done|].
  destruct (parent_of_linked s g Hlinked Hcons Hg) as (lg' & Hlg' & Hpos & Hp).
  rewrite Hlg in Hlg'. injection Hlg' as <-.
  destruct (lg - 1 <? 0) eqn:Hneg; [apply Z.ltb_lt in Hneg; lia|].
  case_bool_decide as Hon.
  - intros [= <- <-]. exists lg. split; [split; [done|]; split; [constructor|done]|].
    intros a. split; [by left|]. intros [?|[Ha (la & Hla & Hlt)]]; [done|].
    destruct (on_path_len s g a lg Hlinked Hcons Hg Ha Hlg) as (la' & Hla' & _ & Hle & _).
    rewrite Hla in Hla'. injection Hla' as <-. lia.
  - intros Hrun. apply bind_Ok in Hrun as (successors & Hsucc & Hrun).
    apply bind_Ok in Hrun as (next & Hnext & Hrun).
    rewrite (next_is_parent s g successors next Hlinked Hcons Hg Hsucc Hnext) in Hrun.
    destruct (parent_of (_G s) g) as [p|] eqn:Hparent.
    + destruct Hp as (Hp & Hpl & _).
      destruct (IH p (lg - 1) _ Hp Hpl Hrun) as (bound & Hx & Hacc).
      exists bound.
      assert (bound < lg) as Hbound.
      { destruct x as [i|]; [|lia]. destruct Hx as (_ & Hi & Hli).
        destruct (on_path_len s p i _ Hlinked Hcons Hp Hi Hpl) as (li & Hli' & _ & Hle & _).
        rewrite Hli in Hli'. injection Hli' as <-. lia. }
      split.
      * destruct x as [i|]; [|done]. destruct Hx as (Hon' & Hi & Hli).
        split; [done|]. split; [by eapply on_path_parent|done].
      * intros a. rewrite Hacc, elem_of_union, elem_of_singleton. split.
        -- intros [[->|?]|[Ha Hla]].
           ++ right. split; [constructor|]. by exists lg.
           ++ by left.
           ++ right. split; [by eapply on_path_parent|done].
        -- intros [?|[Ha Hla]]; [by left; right|].
           apply on_path_inv in Ha as [->|(p' & Hparent' & Ha)]; [by left; left|].
           rewrite Hparent in Hparent'. injection Hparent' as <-. by right.
    + destruct Hp as (-> & _). destruct fuel as [|fuel]; simpl in Hrun; [done|].
      injection Hrun as <- <-. exists 0. split; [done|].
      intros a. rewrite elem_of_union, elem_of_singleton. split.
      * intros [->|?]; [|by left]. right. split; [constructor|]. exists 1. split; [done|lia].
      * intros [?|[Ha _]]; [by right|].
        apply on_path_inv in Ha as [->|(p' & Hparent' & _)]; [by left|].
        by rewrite Hparent in Hparent'.
Qed.

(** The second loop: the blocks removed are those of the path from the
    previous tip that come before the block where the two chains meet. *)
Lemma drop_old_chain_spec s fuel g lg x bound chain chain' :
  linked s → consistent s → g ∈ nodes (_G s) → chain_length s !! g = Some lg →
  match x with
  | Some i => on_path (_G s) g i ∧ chain_length s !! i = Some bound
  | None => bound = 0
  end →
  drop_old_chain s fuel (Some g) (lg - 1) x chain = Ok chain' →
  ∀ a, a ∈ chain' ↔
       a ∈ chain ∧
       ¬ (on_path (_G s) g a ∧ ∃ la, chain_length s !! a = Some la ∧ bound < la).
Proof.
  intros Hlinked Hcons. revert g lg chain.
  induction fuel as [|fuel IH]; intros g lg chain Hg Hlg Hx; simpl; [done|].
  destruct (parent_of_linked s g Hlinked Hcons Hg) as (lg' & Hlg' & Hpos & Hp).
  rewrite Hlg in Hlg'. injection Hlg' as <-.
  destruct (lg - 1 <? 0) eqn:Hneg; [apply Z.ltb_lt in Hneg; lia|].
  case_bool_decide as Hmeet.
  - intros [= <-]. subst x. destruct Hx as [_ Hbound].
    rewrite Hlg in Hbound. injection Hbound as <-.
    intros a. split; [|by intros [? _]]. intros Hin. split; [done|].
    intros [Ha (la & Hla & Hlt)].
    destruct (on_path_len s g a lg Hlinked Hcons Hg Ha Hlg) as (la' & Hla' & _ & Hle & _).
    rewrite Hla in Hla'. injection Hla' as <-. lia.
  - case_bool_decide as Hin; [|done].
    intros Hrun. apply bind_Ok in Hrun as (successors & Hsucc & Hrun).
    apply bind_Ok in Hrun as (next & Hnext & Hrun).
    rewrite (next_is_parent s g successors next Hlinked Hcons Hg Hsucc Hnext) in Hrun.
    destruct (parent_of (_G s) g) as [p|] eqn:Hparent.
    + destruct Hp as (Hp & Hpl & _).
      assert (match x with
              | Some i => on_path (_G s) p i ∧ chain_length s !! i = Some bound
              | None => bound = 0
              end) as Hx'.
      { destruct x as [i|]; [|done]. destruct Hx as [Hi Hli]. split; [|done].
        apply on_path_inv in Hi as [->|(p' & Hparent' & Hi)]; [done|].
        rewrite Hparent in Hparent'. by injection Hparent' as <-. }
      assert (bound < lg) as Hbound.
      { destruct x as [i|]; [|lia]. destruct Hx' as (Hi & Hli).
        destruct (on_path_len s p i _ Hlinked Hcons Hp Hi Hpl) as (li & Hli' & _ & Hle & _).
        rewrite Hli in Hli'. injection Hli' as <-. lia. }
      intros a. rewrite (IH p (lg - 1) _ Hp Hpl Hx' Hrun a), elem_of_difference,
        elem_of_singleton. split.
      * intros [[Ha Hne] Hnot]. split; [done|]. intros [Hpath Hla]. apply Hnot.
        apply on_path_inv in Hpath as [->|(p' & Hparent' & Hpath)]; [done|].
        rewrite Hparent in Hparent'. injection Hparent' as <-. done.
      * intros [Ha Hnot]. split; [split; [done|]|].
        -- intros ->. apply Hnot. split; [constructor|]. by exists lg.
        -- intros [Hpath Hla]. apply Hnot. split; [by eapply on_path_parent|done].
    + destruct Hp as (-> & _).
      assert (x = None ∧ bound = 0) as [-> ->].
      { destruct x as [i|]; [|done]. destruct Hx as [Hi _].
        apply on_path_inv in Hi as [->|(p' & Hparent' & _)]; [done|].
        by rewrite Hparent in Hparent'. }
      destruct fuel as [|fuel]; simpl in Hrun; [done|]. injection Hrun as <-.
      intros a. rewrite elem_of_difference, elem_of_singleton. split.
      * intros [Ha Hne]. split; [done|]. intros [Hpath _].
        apply on_path_inv in Hpath as [->|(p' & Hparent' & _)]; [done|].
        by rewrite Hparent in Hparent'.
      * intros [Ha Hnot]. split; [done|]. intros ->. apply Hnot.
        split; [constructor|]. exists 1. split; [done|lia].
Qed.

(** ** One [add] *)

Lemma add_node_old g n : n ∈ nodes g → add_node g n = g.
Proof. intros Hn. unfold add_node, has_node. by rewrite bool_decide_eq_true_2. Qed.

(** The graph once a block with a new id hangs from its parent. *)
Lemma attach_spec g gid parent :
  gid ∉ nodes g → (∀ p, parent = Some p → p ∈ nodes g) →
  let g' := match parent with
            | None => add_node g gid
            | Some p => add_edge (add_node g gid) gid p
            end in
  (∀ x, x ∈ nodes g' ↔ x = gid ∨ x ∈ nodes g) ∧
  succ g' !! gid = Some (match parent with Some p => [p] | None => [] end) ∧
  (∀ x, x ≠ gid → succ g' !! x = succ g !! x).
Proof.
  intros Hfresh Hparent.
  assert (add_node g gid = DiGraph.mk (nodes g ++ [gid]) (<[ gid := [] ]> (succ g))
                             (<[ gid := [] ]> (pred g))) as Hg1.
  { unfold add_node, has_node. by rewrite bool_decide_eq_false_2. }
  destruct parent as [p|]; cbv zeta.
  - unfold add_edge.
    rewrite (add_node_old (add_node g gid) gid)
      by (rewrite Hg1; simpl; apply elem_of_app; right; apply list_elem_of_singleton; done).
    rewrite (add_node_old (add_node g gid) p)
      by (rewrite Hg1; simpl; apply elem_of_app; left; by apply Hparent).
    rewrite Hg1. simpl. split; [|split].
    + intros x. rewrite elem_of_app, list_elem_of_singleton. tauto.
    + rewrite lookup_alter_eq, lookup_insert_eq. simpl. unfold adjoin.
      rewrite bool_decide_eq_false_2; [done|]. by intros ?%elem_of_nil.
    + intros x Hx. rewrite lookup_alter_ne by done. by rewrite lookup_insert_ne.
  - rewrite Hg1. simpl. split; [|split].
    + intros x. rewrite elem_of_app, list_elem_of_singleton. tauto.
    + by rewrite lookup_insert_eq.
    + intros x Hx. by rewrite lookup_insert_ne.
Qed.

Lemma add_chain_is_path s block s' :
  consistent s → linked s → tip_is_longest s → chain_is_path s →
  contains s (global_id block) = false → add s block = Ok s' →
  linked s' ∧ chain_is_path s'.
Proof.
  intros Hcons Hlinked Htip Hpath Hnew Hadd.
  pose proof Hcons as (Hnodes & Hpos & Hchain).
  unfold contains, has_node in Hnew. apply bool_decide_eq_false in Hnew.
  assert (chain_length s !! global_id block = None) as Hfresh.
  { destruct (chain_length s !! global_id block) eqn:Hl; [|done].
    exfalso. apply Hnew, Hnodes. eauto. }
  revert Hadd. unfold add. intros Hrun.
  apply bind_Ok in Hrun as (parent & Hparent & Hrun).
  apply bind_Ok in Hrun as (plen & Hplen & Hrun).
  assert (match parent with
          | Some p => chain_length s !! p = Some plen ∧ p ∈ nodes (_G s) ∧
                      p ≠ global_id block
          | None => plen = 0
          end) as Hp.
  { destruct parent as [p|]; [|by injection Hplen as <-].
    apply getitem_Ok in Hplen. split; [done|].
    assert (p ∈ nodes (_G s)) as Hpn by (apply Hnodes; eauto).
    split; [done|]. by intros ->. }
  assert (0 ≤ plen) as Hplen0.
  { destruct parent as [p|]; [|lia]. destruct Hp as (Hpl & _). specialize (Hpos _ _ Hpl). lia. }
  destruct (attach_spec (_G s) (global_id block) parent Hnew) as (Hn1 & Hsucc_gid & Hsucc_old).
  { intros p ->. by destruct Hp as (_ & ? & _). }
  cbv zeta in Hrun.
  set (s1 := Blockchain.mk _ _ _ _ _ _) in Hrun.
  assert (_G s1 = match parent with
                  | None => add_node (_G s) (global_id block)
                  | Some p => add_edge (add_node (_G s) (global_id block)) (global_id block) p
                  end) as HG1 by done.
  assert (chain_length s1 = <[ global_id block := 1 + plen ]> (chain_length s)) as Hlen1
    by done.
  assert (_longest_chain s1 = _longest_chain s) as Hchain1 by done.
  assert (_longest_chain_tip_gid s1 = _longest_chain_tip_gid s) as Htip1 by done.
  clearbody s1.
  rewrite <- HG1 in Hn1, Hsucc_gid, Hsucc_old.
  assert (linked s1) as Hlinked1.
  { intros g Hg. rewrite Hlen1. apply Hn1 in Hg as [->|Hg].
    - exists (1 + plen). rewrite lookup_insert_eq. split; [done|]. rewrite Hsucc_gid.
      destruct parent as [p|].
      + right. exists p. destruct Hp as (Hpl & Hpn & Hne).
        split; [done|]. split; [apply Hn1; by right|].
        rewrite lookup_insert_ne by done. by replace (1 + plen - 1) with plen by lia.
      + left. split; [done|lia].
    - assert (g ≠ global_id block) as Hne by (by intros ->).
      destruct (Hlinked g Hg) as (len & Hl & Hcase). exists len.
      rewrite lookup_insert_ne by done. split; [done|]. rewrite (Hsucc_old g Hne).
      destruct Hcase as [?|(p & ? & Hpn & Hpl)]; [by left|right]. exists p.
      split; [done|]. split; [apply Hn1; by right|].
      rewrite lookup_insert_ne; [done|]. by intros <-. }
  assert (consistent s1) as Hcons1.
  { split; [|split].
    - intros g. rewrite Hlen1, (Hn1 g).
      destruct (decide (g = global_id block)) as [->|Hne].
      + rewrite lookup_insert_eq. split; [eauto|by left].
      + rewrite lookup_insert_ne by done. rewrite <- (Hnodes g). tauto.
    - intros g len. rewrite Hlen1.
      destruct (decide (g = global_id block)) as [->|Hne].
      + rewrite lookup_insert_eq. intros [= <-]. lia.
      + rewrite lookup_insert_ne by done. apply Hpos.
    - intros g Hg. apply Hn1. right. apply Hchain. by rewrite <- Hchain1. }
  assert (∀ x, x ∈ nodes (_G s) → parent_of (_G s1) x = parent_of (_G s) x) as Hold.
  { intros x Hx. unfold parent_of. rewrite Hsucc_old; [done|]. by intros ->. }
  assert (parent_of (_G s1) (global_id block) = parent) as Hnew_parent.
  { unfold parent_of. rewrite Hsucc_gid. by destruct parent. }
  pose proof (λ n a, on_path_same s (_G s1) n a Hlinked Hcons Hold) as Hsame.
  assert (global_id block ∈ nodes (_G s1)) as Hgid1 by (apply Hn1; by left).
  assert (chain_length s1 !! global_id block = Some (1 + plen)) as Hlen_gid
    by (by rewrite Hlen1, lookup_insert_eq).
  assert (∀ a, on_path (_G s1) (global_id block) a ↔
               a = global_id block ∨ ∃ p, parent = Some p ∧ on_path (_G s) p a) as Hfrom_gid.
  { intros a. split.
    - intros [->|(p & Hpp & Ha)]%on_path_inv; [by left|right].
      rewrite Hnew_parent in Hpp. exists p. split; [done|].
      apply Hsame; [|done]. rewrite Hpp in Hp. by destruct Hp as (_ & ? & _).
    - intros [->|(p & -> & Ha)]; [constructor|].
      eapply on_path_parent; [done|]. apply Hsame; [|done].
      simpl in Hp. by destruct Hp as (_ & ? & _). }
  clear Hnew_parent.
  pose proof (update_longest_chain_fields s1 _ _ _ Hrun) as (HG' & Hlen' & _).
  split.
  { unfold linked. rewrite HG', Hlen'. exact Hlinked1. }
  revert Hrun. unfold _update_longest_chain_incrementally.
  rewrite (proj2 (getitem_Ok _ _ _) Hlen_gid). simpl. rewrite Htip1.
  unfold chain_is_path, tip_is_longest in *.
  destruct (_longest_chain_tip_gid s) as [tip|] eqn:Htipgid; simpl.
  - destruct Htip as (Hon & tip_len & Htl & Hmax).
    assert (tip ∈ nodes (_G s)) as Htipn by (by apply Hchain).
    assert (tip ≠ global_id block) as Hne by (by intros ->).
    assert (chain_length s1 !! tip = Some tip_len) as Htl1
      by (by rewrite Hlen1, lookup_insert_ne).
    rewrite (proj2 (getitem_Ok _ _ _) Htl1). simpl.
    destruct ((1 + plen >? tip_len) || (1 + plen =? tip_len) && (global_id block <? tip)).
    + case_bool_decide as Hsimple.
      * intros [= <-]. simpl. intros a.
        rewrite elem_of_union, elem_of_singleton, (Hfrom_gid a), Hchain1, (Hpath a).
        subst parent. split.
        -- intros [->|Ha]; [by left|right]. by exists tip.
        -- intros [->|(p & [= <-] & Ha)]; [by left|by right].
      * intros Hrun. apply bind_Ok in Hrun as ([x to_add] & Hcollect & Hrun).
        apply bind_Ok in Hrun as (chain & Hdrop & Hrun). injection Hrun as <-. simpl.
        destruct (collect_new_chain_spec s1 _ _ _ _ _ _ Hlinked1 Hcons1 Hgid1 Hlen_gid Hcollect)
          as (bound & Hx & Hto_add).
        assert (tip ∈ nodes (_G s1)) as Htipn1 by (apply Hn1; by right).
        assert (match x with
                | Some i => on_path (_G s1) tip i ∧ chain_length s1 !! i = Some bound
                | None => bound = 0
                end) as Hx'.
        { destruct x as [i|]; [|done]. destruct Hx as (Hi & _ & Hli). split; [|done].
          apply Hsame; [done|]. apply Hpath. by rewrite <- Hchain1. }
        pose proof (drop_old_chain_spec s1 _ _ _ _ _ _ _ Hlinked1 Hcons1 Htipn1 Htl1 Hx' Hdrop)
          as Hchain'.
        intros a. rewrite elem_of_union, (Hchain' a), (Hto_add a), Hchain1, (Hpath a).
        rewrite <- (Hsame tip a Htipn).
        split.
        -- intros [[Ha Hnot]|[Ha|[Ha _]]]; [|by apply elem_of_empty in Ha|done].
           destruct (on_path_len s1 tip a _ Hlinked1 Hcons1 Htipn1 Ha Htl1)
             as (la & Hla & Hla1 & _).
           destruct x as [i|].
           ++ destruct Hx as (_ & Hgi & _). destruct Hx' as (Hti & Hli).
              eapply on_path_trans; [exact Hgi|].
              apply (on_path_below s1 tip i a bound la); try done.
              destruct (decide (la ≤ bound)); [done|]. exfalso. apply Hnot.
              split; [done|]. exists la. split; [done|lia].
           ++ subst bound. exfalso. apply Hnot. split; [done|]. exists la. split; [done|lia].
        -- intros Ha.
           destruct (on_path_len s1 _ a _ Hlinked1 Hcons1 Hgid1 Ha Hlen_gid)
             as (la & Hla & Hla1 & _).
           destruct (decide (la ≤ bound)) as [Hle|Hgt].
           ++ left. destruct x as [i|]; [|lia].
              destruct Hx as (_ & Hgi & _). destruct Hx' as (Hti & Hli).
              split.
              ** eapply on_path_trans; [exact Hti|].
                 by apply (on_path_below s1 (global_id block) i a bound la).
              ** intros [_ (la' & Hla' & Hlt)]. rewrite Hla in Hla'.
                 injection Hla' as <-. lia.
           ++ right. right. split; [done|]. exists la. split; [done|lia].
    + intros [= <-]. rewrite Htip1. intros a. rewrite Hchain1, (Hpath a).
      symmetry. by apply Hsame.
  - destruct Htip as [Hempty Hnone].
    assert (parent = None) as ->.
    { destruct parent as [p|]; [|done]. destruct Hp as (_ & Hpn & _).
      rewrite Hempty in Hpn. by apply elem_of_nil in Hpn. }
    rewrite bool_decide_eq_true_2 by done.
    intros [= <-]. simpl. intros a.
    rewrite elem_of_union, elem_of_singleton, (Hfrom_gid a), Hchain1, Hnone.
    split; [intros [->|Ha]; [by left|by apply elem_of_empty in Ha]|].
    intros [->|(p & Hp' & _)]; [by left|done].
Qed.

Lemma grown_chain_is_path s : grown s → linked s ∧ chain_is_path s.
Proof.
  induction 1 as [|s block s' Hs [IHl IHp] Hnew Hadd].
  - split; [|done]. intros g Hg. by apply elem_of_nil in Hg.
  - eapply add_chain_is_path; try done.
    + by apply reachable_consistent, grown_reachable.
    + by apply grown_tip_is_longest.
Qed.

(** X28.  In a chain grown by adding blocks with new ids,
    every block has at most one edge: none, and then its chain length is
    1, or one edge to a block of the chain DAG, its parent, whose chain
    length is one less than its own.  The longest chain is exactly the
    tip and the blocks met going from parent to parent from the tip, also
    after the tip moved to another branch; no two of its blocks have the
    same chain length. *)
Theorem longest_chain_is_the_path_from_the_tip s :
  grown s →
  (∀ g, contains s g = true →
     ∃ len, chain_length s !! g = Some len ∧
       ((DiGraph.successors (_G s) g = Ok [] ∧ parent_of (_G s) g = None ∧ len = 1) ∨
        ∃ p, DiGraph.successors (_G s) g = Ok [p] ∧ parent_of (_G s) g = Some p ∧
             contains s p = true ∧ chain_length s !! p = Some (len - 1))) ∧
  match _longest_chain_tip_gid s with
  | None => _longest_chain s = ∅
  | Some tip =>
      (∀ a, a ∈ _longest_chain s ↔ on_path (_G s) tip a) ∧
      (∀ a b len, a ∈ _longest_chain s → b ∈ _longest_chain s →
         chain_length s !! a = Some len → chain_length s !! b = Some len → a = b)
  end.
Proof.
  intros Hs. destruct (grown_chain_is_path s Hs) as [Hlinked Hpath].
  pose proof (reachable_consistent s (grown_reachable s Hs)) as Hcons.
  pose proof (grown_tip_is_longest s Hs) as Htip.
  split.
  - intros g Hg%has_node_true.
    destruct (Hlinked g Hg) as (len & Hlen & [[Hsucc Hone]|(p & Hsucc & Hpn & Hpl)]);
      exists len; (split; [done|]); unfold DiGraph.successors, parent_of; rewrite Hsucc.
    + by left.
    + right. exists p. split; [done|]. split; [done|]. split; [|done].
      by apply has_node_true.
  - unfold chain_is_path, tip_is_longest in *.
    destruct (_longest_chain_tip_gid s) as [tip|]; [|done].
    split; [done|]. intros a b len Ha Hb Hla Hlb.
    destruct Htip as (Hon & _). destruct Hcons as (Hnodes & Hpos & Hchain).
    assert (consistent s) as Hcons by done.
    apply Hpath in Ha, Hb.
    assert (on_path (_G s) a b) as Hab.
    { apply (on_path_below s tip a b len len); try done; by apply Hchain. }
    assert (a ∈ nodes (_G s)) as Han by (apply Hnodes; eauto).
    destruct (on_path_len s a b len Hlinked Hcons Han Hab Hla) as (lb & Hlb' & _ & _ & Heq).
    rewrite Hlb in Hlb'. injection Hlb' as <-. symmetry. by apply Heq.
Qed.

End BlockchainPathFacts.

(** * A chain whose tip moved to another branch *)

Module BlockchainPathExamples.
Import Scenarios Blockchain BlockchainRuns.

Lemma switched_chain_grown : grown switched_chain.
Proof.
  apply (ScenariosFacts.grow_grown init switch); [constructor|]. by vm_compute.
Qed.

Lemma longest_chain_is_the_path_from_the_tip_witness :
  grown switched_chain ∧
  (∀ g, contains switched_chain g = true →
     ∃ len, chain_length switched_chain !! g = Some len ∧
       ((DiGraph.successors (_G switched_chain) g = Ok [] ∧
         parent_of (_G switched_chain) g = None ∧ len = 1) ∨
        ∃ p, DiGraph.successors (_G switched_chain) g = Ok [p] ∧
             parent_of (_G switched_chain) g = Some p ∧
             contains switched_chain p = true ∧
             chain_length switched_chain !! p = Some (len - 1))) ∧
  match _longest_chain_tip_gid switched_chain with
  | None => _longest_chain switched_chain = ∅
  | Some tip =>
      (∀ a, a ∈ _longest_chain switched_chain ↔ on_path (_G switched_chain) tip a) ∧
      (∀ a b len, a ∈ _longest_chain switched_chain → b ∈ _longest_chain switched_chain →
         chain_length switched_chain !! a = Some len →
         chain_length switched_chain !! b = Some len → a = b)
  end.
Proof.
  split; [exact switched_chain_grown|].
  exact (BlockchainPathFacts.longest_chain_is_the_path_from_the_tip switched_chain
           switched_chain_grown).
Defined.

End BlockchainPathExamples.

(** * The order query and missing parents, engine by engine *)

Module EnginesClaims.
Import DiGraph DiGraphShape DiGraphFacts.


(** C10 (amended).  The brute-force engine never fails on a block whose
    parents are missing: in a state reached by [add] the call returns
    (with one level of recursion per node for the orderer), and afterwards
    every declared parent is in the DAG.  The greedy engine, on a DAG
    every node of which is a block that was added, fails instead: if a
    declared parent is not in the DAG, [add] raises [KeyError], the stub
    node of the parent being created before the error; so when the call
    returns every declared parent was in the DAG already.  The
    competing-chain engine calls the greedy [add] first and raises the same
    [KeyError]. *)
Theorem C10_missing_parents k fuel block :
  (∀ s, PHANTOM.reachable k s →
     (length (nodes (PHANTOM._G s)) + size (get_parents block) + 1 < fuel)%nat →
     ∃ s', PHANTOM.add fuel s block = Ok s' ∧
       ∀ p, p ∈ get_parents block → PHANTOM.contains s' p = true) ∧
  (∀ s, GreedyRuns.all_blocks s →
     (∀ s', GreedyPHANTOM.add fuel s block = Ok s' →
        ∀ p, p ∈ get_parents block →
             GreedyPHANTOM.contains s p = true ∧ GreedyPHANTOM.contains s' p = true) ∧
     (∀ p, p ∈ get_parents block → GreedyPHANTOM.contains s p = false →
        GreedyPHANTOM.add fuel s block = Raise KeyError ∧
        GreedyPHANTOM.contains (GreedyRuns.interrupted_add s block) p = true)) ∧
  (∀ s is_malicious p, CompetingChainRuns.inv s →
     p ∈ get_parents block → CompetingChain.contains s p = false →
     CompetingChain.add fuel s block is_malicious = Raise KeyError).
Proof.
  split; [|split].
  - intros s Hs Hfuel. pose proof (PHANTOMFacts.reachable_inv k s Hs) as Hinv.
    pose proof Hinv as (Hcl & _).
    destruct (PHANTOMFacts.add_total k fuel s block Hinv) as [s' Hadd].
    { pose proof (PHANTOMFacts.size_nodes_add_block_to_graph (PHANTOM._G s) block Hcl). lia. }
    exists s'. split; [done|].
    destruct (PHANTOMFacts.add_inv k fuel s block s' Hinv Hadd) as [_ HG].
    intros p Hp. unfold PHANTOM.contains. rewrite HG.
    by apply PHANTOMFacts.parents_are_nodes.
  - intros s Hs. pose proof Hs as (Hcl & _). split.
    + intros s' Hadd p Hp.
      destruct (GreedyPHANTOM.contains s p) eqn:Hin.
      * split; [done|].
        destruct (GreedyFacts.greedy_add_fields fuel s block s' Hadd)
          as (parent & height & bn & _ & HG & _).
        unfold GreedyPHANTOM.contains. rewrite HG.
        by apply PHANTOMFacts.parents_are_nodes.
      * destruct (GreedyFacts.add_missing_parent_KeyError fuel s block p Hs Hp Hin)
          as (_ & _ & Hraise). congruence.
    + intros p Hp Hin.
      destruct (GreedyFacts.add_missing_parent_KeyError fuel s block p Hs Hp Hin)
        as (_ & _ & Hraise).
      split; [done|]. unfold GreedyPHANTOM.contains. simpl.
      by apply PHANTOMFacts.parents_are_nodes.
  - intros s is_malicious p (Hdag & _) Hp Hin.
    destruct (GreedyFacts.add_missing_parent_KeyError fuel (CompetingChain.dag s) block p
                Hdag Hp Hin) as (_ & _ & Hraise).
    unfold CompetingChain.add, CompetingChain.insert. by rewrite Hraise.
Qed.

End EnginesClaims.

(** * The colourings of the two engines *)

Module ColoringClaims.
Import DiGraph DiGraphShape DiGraphFacts PHANTOMRuns.

Lemma engines_build_the_same_graph k blocks :
  ∀ fuel fuel' b g b' g',
    inv k b → GreedyPHANTOM._G g = PHANTOM._G b →
    PHANTOM.add_all fuel b blocks = Ok b' →
    GreedyPHANTOM.add_all fuel' g blocks = Ok g' →
    GreedyPHANTOM._G g' = PHANTOM._G b'.
Proof.
  induction blocks as [|block rest IH]; intros fuel fuel' b g b' g' Hinv HG; simpl.
  - by intros [= <-] [= <-].
  - intros Hb Hg.
    apply bind_Ok in Hb as (b1 & Hadd & Hb).
    apply bind_Ok in Hg as (g1 & Hgadd & Hg).
    destruct (PHANTOMFacts.add_inv k fuel b block b1 Hinv Hadd) as [Hinv1 HG1].
    destruct (GreedyFacts.greedy_add_fields fuel' g block g1 Hgadd)
      as (parent & height & bn & _ & HGg & _).
    apply (IH fuel fuel' b1 g1 b' g' Hinv1); [|done|done].
    by rewrite HGg, HG1, HG.
Qed.

Lemma add_all_reachable k fuel blocks :
  ∀ s s', PHANTOM.reachable k s → PHANTOM.add_all fuel s blocks = Ok s' →
          PHANTOM.reachable k s'.
Proof.
  induction blocks as [|block rest IH]; intros s s' Hs; simpl.
  - by intros [= <-].
  - intros Hrun. apply bind_Ok in Hrun as (s1 & Hadd & Hrun).
    eapply IH; [|done]. by eapply PHANTOM.reachable_add.
Qed.

(** C1 (amended).  From the same blocks the two engines build the same
    graph.  The colouring of the brute-force engine is a k-cluster of it
    (its blocks are nodes, each with at most [k] blue blocks in its
    anticone) and no k-cluster is larger; so whenever the colouring that
    the greedy engine returns is a k-cluster, it has at most as many
    blocks as the brute-force one.  The two colourings need not be
    equal. *)
Theorem C1_greedy_coloring_is_no_larger k fuel fuel' blocks brute greedy :
  PHANTOM.add_all fuel (PHANTOM.init k) blocks = Ok brute →
  GreedyPHANTOM.add_all fuel' (GreedyPHANTOM.init k) blocks = Ok greedy →
  GreedyPHANTOM._G greedy = PHANTOM._G brute ∧
  k_cluster k (PHANTOM._G brute) (PHANTOM._get_coloring brute) ∧
  (∀ c, k_cluster k (PHANTOM._G brute) c →
        (size c ≤ size (PHANTOM._get_coloring brute))%nat) ∧
  (∀ coloring greedy',
     GreedyPHANTOM._get_coloring fuel' greedy = Ok (coloring, greedy') →
     k_cluster k (GreedyPHANTOM._G greedy) coloring →
     (size coloring ≤ size (PHANTOM._get_coloring brute))%nat).
Proof.
  intros Hbrute Hgreedy.
  assert (GreedyPHANTOM._G greedy = PHANTOM._G brute) as HG.
  { apply (engines_build_the_same_graph k blocks fuel fuel'
             (PHANTOM.init k) (GreedyPHANTOM.init k)); try done.
    apply PHANTOMFacts.inv_init. }
  assert (PHANTOM.reachable k brute) as Hs.
  { apply (add_all_reachable k fuel blocks (PHANTOM.init k)); [constructor|done]. }
  destruct (PHANTOMFacts.reachable_maximum k brute Hs) as [Hcluster Hmax].
  split; [done|]. split; [done|]. split; [done|].
  intros coloring greedy' _ Hc. apply Hmax. by rewrite <- HG.
Qed.

(** C2 (amended).  In every state of the brute-force engine reached by
    [add], every blue block is in the DAG and has at most [k] blue blocks
    in its anticone, the anticone of a block being the nodes other than
    the block that are neither in its past nor in its future. *)
Theorem C2_brute_force_anticones_are_bounded k s b :
  PHANTOM.reachable k s → b ∈ PHANTOM._get_coloring s →
  PHANTOM.contains s b = true ∧
  Z.of_nat (size (PHANTOM.__get_anticone (PHANTOM._G s) b ∩ PHANTOM._get_coloring s)) ≤ k ∧
  (∀ x, x ∈ PHANTOM.__get_anticone (PHANTOM._G s) b ↔
        x ∈ nodes (PHANTOM._G s) ∧ x ≠ b ∧
        (x ∉ PHANTOM.__get_past (PHANTOM._G s) b) ∧
        (x ∉ PHANTOM.__get_future (PHANTOM._G s) b)).
Proof.
  intros Hs Hb.
  destruct (PHANTOMFacts.reachable_maximum k s Hs) as [[Hnodes Hbound] _].
  split; [apply has_node_true; by apply Hnodes|]. split; [by apply Hbound|].
  intros x. unfold PHANTOM.__get_anticone.
  rewrite elem_of_difference, elem_of_list_to_set, !elem_of_union, elem_of_singleton.
  tauto.
Qed.

End ColoringClaims.

(** * The greedy engine: colouring parents and depths *)

Module GreedyClaims.
Import GreedyPHANTOM GreedyRuns GreedyFacts.

(** C7.  [_get_bluest] returns one of the declared parents of a block
    that has parents, all with a blue number.  When [GreedyPHANTOM.add]
    returns, the colouring parent assigned to the block is what
    [_get_bluest] returned on the declared parents: [None] exactly when
    the block declares no parent; otherwise one of the declared parents,
    such that no declared parent has a greater blue number and the
    declared parents of the same blue number have greater ids.  The
    colouring parent and the blue number of every other block are left as
    they were. *)
Theorem C7_coloring_parent_is_bluest_parent fuel s block :
  (get_parents block ≠ ∅ →
   (∀ p, p ∈ get_parents block → is_Some (blue_blocks_number s !! p)) →
   ∃ p, _get_bluest s (elements (get_parents block)) = Ok (Some p)) ∧
  (∀ s', add fuel s block = Ok s' →
   ∃ parent,
     _get_bluest s (elements (get_parents block)) = Ok parent ∧
     coloring_parent s' !! global_id block = Some parent ∧
     (parent = None ↔ get_parents block = ∅) ∧
     (∀ p, parent = Some p →
        p ∈ get_parents block ∧
        ∃ np, blue_blocks_number s !! p = Some np ∧
          ∀ q, q ∈ get_parents block →
            ∃ nq, blue_blocks_number s !! q = Some nq ∧
                  (nq < np ∨ (nq = np ∧ p ≤ q))) ∧
     (∀ g, g ≠ global_id block →
        coloring_parent s' !! g = coloring_parent s !! g ∧
        blue_blocks_number s' !! g = blue_blocks_number s !! g)).
Proof.
  split.
  - intros Hparents Hblue. unfold _get_bluest. apply get_extreme_blue_returns.
    + intros Hnil. apply Hparents. by apply elements_empty_inv, leibniz_equiv in Hnil.
    + intros g Hg. apply Hblue. by apply elem_of_elements.
  - intros s' Hadd. destruct (greedy_add_fields fuel s block s' Hadd)
      as (parent & height & bn & Hbluest & _ & _ & _ & Hcp & _ & Hblue & _).
    exists parent. rewrite Hcp, Hblue, lookup_insert_eq.
    split; [done|]. split; [done|]. split; [|split].
    + split.
      * intros ->. apply get_extreme_blue_None in Hbluest.
        by apply elements_empty_inv in Hbluest as ->%leibniz_equiv.
      * intros Hempty. rewrite Hempty, elements_empty in Hbluest.
        simpl in Hbluest. by injection Hbluest as <-.
    + intros p ->.
      destruct (get_bluest_Some s _ p (NoDup_elements _) Hbluest)
        as (Hin & np & Hnp & Hall).
      split; [by apply elem_of_elements|]. exists np. split; [done|].
      intros q Hq. apply Hall. by apply elem_of_elements.
    + intros g Hg. by rewrite !lookup_insert_ne.
Qed.

Lemma depth_from_walks s gid fuel cur passed stop :
  walks s gid cur passed stop →
  ∀ depth,
    depth_from s gid (length passed + fuel) cur depth
    = depth_from s gid fuel stop (depth + blue_added s passed).
Proof.
  induction 1 as [cur|c red_diff blue_diff next passed stop Hred Hnotred Hblue Hnotblue
                    Hnext Hwalk IH]; intros depth; simpl.
  - by rewrite Z.add_0_r.
  - rewrite (proj2 (getitem_Ok _ _ _) Hred). simpl. rewrite Hnotred.
    rewrite (proj2 (getitem_Ok _ _ _) Hblue). simpl. rewrite Hnotblue.
    rewrite (proj2 (getitem_Ok _ _ _) Hnext). simpl.
    rewrite IH, Hblue. simpl. f_equal. lia.
Qed.


End GreedyClaims.

(** * The competing-chain engine: attacks *)

Module CompetingChainClaims.
Import CompetingChain.

(** C9.  [did_attack_fail] holds exactly when no first parallel block or
    no attacked block is recorded, and then [did_attack_succeed] returns
    [False], leaving the DAG as it is.  Whenever [did_attack_succeed]
    returns, [did_attack_fail] answers afterwards what it answered before,
    and if the value returned is true the attack has not failed: the two
    are never both true. *)
Theorem C9_attack_never_both_succeeds_and_fails fuel s :
  (did_attack_fail s = true ↔
     _first_parallel_block_gid s = None ∨ _currently_attacked_block_gid s = None) ∧
  (_first_parallel_block_gid s = None ∨ _currently_attacked_block_gid s = None →
   did_attack_succeed fuel s = Ok (Some false, s)) ∧
  (∀ answer s', did_attack_succeed fuel s = Ok (answer, s') →
     did_attack_fail s' = did_attack_fail s ∧
     (tri_truthy answer = true → did_attack_fail s = false)).
Proof.
  split; [|split].
  - unfold did_attack_fail. rewrite orb_true_iff, !bool_decide_eq_true. done.
  - intros Hnull. unfold did_attack_succeed.
    assert (did_attack_fail s = true) as ->; [|done].
    unfold did_attack_fail. by rewrite orb_true_iff, !bool_decide_eq_true.
  - intros answer s'. unfold did_attack_succeed.
    destruct (did_attack_fail s) eqn:Hfail; [by intros [= <- <-]|].
    destruct (_first_parallel_block_gid s) as [first_parallel|] eqn:Hfirst;
      [|by intros [= <- <-]].
    destruct (_currently_attacked_block_gid s) as [attacked|] eqn:Hattacked;
      [|by intros [= <- <-]].
    intros Hrun. apply bind_Ok in Hrun as (own_depth & _ & Hrun).
    destruct (negb (depth_ge own_depth _)); [by injection Hrun as <- <-|].
    apply bind_Ok in Hrun as (honest_depth & _ & Hrun).
    destruct (negb (depth_ge honest_depth _)); [by injection Hrun as <- <-|].
    apply bind_Ok in Hrun as ([answer' d] & _ & Hrun). injection Hrun as <- <-.
    split; [|done]. unfold did_attack_fail in *. simpl. by rewrite Hfirst, Hattacked in *.
Qed.


End CompetingChainClaims.

(** * The claims on small DAGs *)

Module ClaimsExamples.
Import Scenarios.

Lemma k_cluster_check k g (c : gset Z) :
  forallb (λ b, bool_decide (b ∈ DiGraph.nodes g)
                && (Z.of_nat (size (PHANTOM.__get_anticone g b ∩ c)) <=? k))
          (elements c) = true →
  PHANTOMRuns.k_cluster k g c.
Proof.
  intros Hcheck. rewrite forallb_forall in Hcheck.
  assert (∀ b, b ∈ c → b ∈ DiGraph.nodes g ∧
                       Z.of_nat (size (PHANTOM.__get_anticone g b ∩ c)) ≤ k) as Hall.
  { intros b Hb. specialize (Hcheck b).
    rewrite andb_true_iff, bool_decide_eq_true, Z.leb_le in Hcheck.
    apply Hcheck. apply list_elem_of_In. by apply elem_of_elements. }
  split; intros b Hb; by apply Hall.
Qed.

(** C1 as stated fails on the DAG of the colouring tests with k = 2:
    block 2 is blue for the greedy engine and red for the brute-force
    engine, whose colouring is {0, 1, 3, 4, 5}. *)
Lemma C1_counterexample :
  ¬ (∀ k fuel fuel' blocks brute greedy coloring greedy',
       PHANTOM.add_all fuel (PHANTOM.init k) blocks = Ok brute →
       GreedyPHANTOM.add_all fuel' (GreedyPHANTOM.init k) blocks = Ok greedy →
       GreedyPHANTOM._get_coloring fuel' greedy = Ok (coloring, greedy') →
       coloring = PHANTOM._get_coloring brute).
Proof.
  intros Hclaim.
  assert (PHANTOM.add_all 12 (PHANTOM.init 2) two_branches = Ok brute_force_two_branches)
    as Hbrute by (by vm_compute).
  assert (GreedyPHANTOM.add_all 30 (GreedyPHANTOM.init 2) two_branches
          = Ok greedy_two_branches) as Hgreedy by (by vm_compute).
  assert (GreedyPHANTOM._get_coloring 30 greedy_two_branches
          = Ok (greedy_two_branches_coloring.1, greedy_two_branches_coloring.2))
    as Hcoloring by (by vm_compute).
  pose proof (Hclaim 2 12%nat 30%nat two_branches _ _ _ _ Hbrute Hgreedy Hcoloring) as Heq.
  assert (bool_decide (2 ∈ greedy_two_branches_coloring.1) = true) as Hin
    by (by vm_compute).
  rewrite Heq in Hin. vm_compute in Hin. discriminate.
Qed.

Lemma C1_greedy_coloring_is_no_larger_witness :
  PHANTOM.add_all 8 (PHANTOM.init 0) chain3 = Ok brute_force_chain ∧
  GreedyPHANTOM.add_all 20 (GreedyPHANTOM.init 0) chain3 = Ok greedy_chain ∧
  GreedyPHANTOM._get_coloring 20 greedy_chain
    = Ok (greedy_chain_coloring.1, greedy_chain_coloring.2) ∧
  PHANTOMRuns.k_cluster 0 (GreedyPHANTOM._G greedy_chain) greedy_chain_coloring.1 ∧
  (size greedy_chain_coloring.1 ≤ size (PHANTOM._get_coloring brute_force_chain))%nat.
Proof.
  assert (PHANTOM.add_all 8 (PHANTOM.init 0) chain3 = Ok brute_force_chain) as Hbrute
    by (by vm_compute).
  assert (GreedyPHANTOM.add_all 20 (GreedyPHANTOM.init 0) chain3 = Ok greedy_chain)
    as Hgreedy by (by vm_compute).
  assert (GreedyPHANTOM._get_coloring 20 greedy_chain
          = Ok (greedy_chain_coloring.1, greedy_chain_coloring.2)) as Hcoloring
    by (by vm_compute).
  assert (PHANTOMRuns.k_cluster 0 (GreedyPHANTOM._G greedy_chain) greedy_chain_coloring.1)
    as Hcluster by (apply k_cluster_check; by vm_compute).
  split; [exact Hbrute|]. split; [exact Hgreedy|]. split; [exact Hcoloring|].
  split; [exact Hcluster|].
  exact (proj2 (proj2 (proj2
           (ColoringClaims.C1_greedy_coloring_is_no_larger 0 8 20 chain3
              brute_force_chain greedy_chain Hbrute Hgreedy)))
           greedy_chain_coloring.1 greedy_chain_coloring.2 Hcoloring Hcluster).
Defined.

(** C2 as stated fails for the greedy engine on the fan with k = 1:
    block 2 is blue, and so are blocks 3 and 4 of its anticone. *)
Lemma C2_counterexample :
  ¬ (∀ k fuel blocks greedy coloring greedy',
       GreedyPHANTOM.add_all fuel (GreedyPHANTOM.init k) blocks = Ok greedy →
       GreedyPHANTOM._get_coloring fuel greedy = Ok (coloring, greedy') →
       ∀ b, b ∈ coloring →
         Z.of_nat (size (PHANTOM.__get_anticone (GreedyPHANTOM._G greedy) b ∩ coloring))
         ≤ k).
Proof.
  intros Hclaim.
  assert (GreedyPHANTOM.add_all 20 (GreedyPHANTOM.init 1) fan = Ok greedy_fan) as Hgreedy
    by (by vm_compute).
  assert (GreedyPHANTOM._get_coloring 20 greedy_fan
          = Ok (greedy_fan_coloring.1, greedy_fan_coloring.2)) as Hcoloring
    by (by vm_compute).
  assert (bool_decide (2 ∈ greedy_fan_coloring.1) = true) as Hblue by (by vm_compute).
  apply bool_decide_eq_true in Hblue.
  pose proof (Hclaim 1 20%nat fan _ _ _ Hgreedy Hcoloring 2 Hblue) as Hbound.
  assert (Z.of_nat (size (PHANTOM.__get_anticone (GreedyPHANTOM._G greedy_fan) 2
                          ∩ greedy_fan_coloring.1)) = 2) as Hsize by (by vm_compute).
  lia.
Qed.

Lemma C2_brute_force_anticones_are_bounded_witness :
  PHANTOM.reachable 1 brute_force_fan ∧ 2 ∈ PHANTOM._get_coloring brute_force_fan ∧
  PHANTOM.contains brute_force_fan 2 = true ∧
  Z.of_nat (size (PHANTOM.__get_anticone (PHANTOM._G brute_force_fan) 2
                  ∩ PHANTOM._get_coloring brute_force_fan)) ≤ 1 ∧
  (∀ x, x ∈ PHANTOM.__get_anticone (PHANTOM._G brute_force_fan) 2 ↔
        x ∈ DiGraph.nodes (PHANTOM._G brute_force_fan) ∧ x ≠ 2 ∧
        (x ∉ PHANTOM.__get_past (PHANTOM._G brute_force_fan) 2) ∧
        (x ∉ PHANTOM.__get_future (PHANTOM._G brute_force_fan) 2)).
Proof.
  assert (bool_decide (2 ∈ PHANTOM._get_coloring brute_force_fan) = true) as Hblue
    by (by vm_compute).
  apply bool_decide_eq_true in Hblue.
  split; [exact ScenariosFacts.brute_force_fan_reachable|]. split; [exact Hblue|].
  exact (ColoringClaims.C2_brute_force_anticones_are_bounded 1 brute_force_fan 2
           ScenariosFacts.brute_force_fan_reachable Hblue).
Defined.





(** C10 as stated fails for the greedy engine: adding to the fan a block
    whose parent 7 was never added raises [KeyError]. *)
Lemma C10_counterexample :
  ¬ (∀ fuel s block, GreedyRuns.all_blocks s →
       ∃ s', GreedyPHANTOM.add fuel s block = Ok s' ∧
         ∀ p, p ∈ get_parents block → GreedyPHANTOM.contains s' p = true).
Proof.
  intros Hclaim.
  destruct (Hclaim 20%nat greedy_fan stray ScenariosFacts.greedy_fan_all_blocks)
    as (s' & Hadd & _).
  assert (GreedyPHANTOM.add 20 greedy_fan stray = Raise KeyError) as Hraise
    by (by vm_compute).
  congruence.
Qed.

Lemma C10_missing_parents_witness :
  PHANTOM.reachable 1 brute_force_fan ∧
  (length (DiGraph.nodes (PHANTOM._G brute_force_fan)) + size (get_parents stray) + 1 < 8)%nat ∧
  GreedyRuns.all_blocks greedy_fan ∧
  CompetingChainRuns.inv attacked ∧
  7 ∈ get_parents stray ∧
  GreedyPHANTOM.contains greedy_fan 7 = false ∧
  CompetingChain.contains attacked 7 = false ∧
  (∃ s', PHANTOM.add 8 brute_force_fan stray = Ok s' ∧
     ∀ p, p ∈ get_parents stray → PHANTOM.contains s' p = true) ∧
  (GreedyPHANTOM.add 8 greedy_fan stray = Raise KeyError ∧
   GreedyPHANTOM.contains (GreedyRuns.interrupted_add greedy_fan stray) 7 = true) ∧
  CompetingChain.add 8 attacked stray false = Raise KeyError.
Proof.
  assert (length (DiGraph.nodes (PHANTOM._G brute_force_fan)) + size (get_parents stray) + 1
          < 8)%nat as Hfuel by (vm_compute; lia).
  assert (bool_decide (7 ∈ get_parents stray) = true) as Hp by (by vm_compute).
  apply bool_decide_eq_true in Hp.
  assert (GreedyPHANTOM.contains greedy_fan 7 = false) as Hnew by (by vm_compute).
  assert (CompetingChain.contains attacked 7 = false) as Hnew' by (by vm_compute).
  split; [exact ScenariosFacts.brute_force_fan_reachable|]. split; [exact Hfuel|].
  split; [exact ScenariosFacts.greedy_fan_all_blocks|].
  split; [exact CompetingChainExamples.attacked_inv|].
  split; [exact Hp|]. split; [exact Hnew|]. split; [exact Hnew'|].
  split; [|split].
  - exact (proj1 (EnginesClaims.C10_missing_parents 1 8 stray) brute_force_fan
             ScenariosFacts.brute_force_fan_reachable Hfuel).
  - exact (proj2 (proj1 (proj2 (EnginesClaims.C10_missing_parents 1 8 stray)) greedy_fan
                    ScenariosFacts.greedy_fan_all_blocks) 7 Hp Hnew).
  - exact (proj2 (proj2 (EnginesClaims.C10_missing_parents 1 8 stray)) attacked false 7
             CompetingChainExamples.attacked_inv Hp Hnew').
Defined.

Lemma C7_coloring_parent_is_bluest_parent_witness :
  GreedyPHANTOM.add 20 ranked (B 5 [2; 3; 4]) = Ok ranked_child ∧
  GreedyPHANTOM.blue_blocks_number ranked !! 2 = Some 1 ∧
  GreedyPHANTOM.blue_blocks_number ranked !! 3 = Some 2 ∧
  GreedyPHANTOM.blue_blocks_number ranked !! 4 = Some 2 ∧
  GreedyPHANTOM.coloring_parent ranked_child !! 5 = Some (Some 3) ∧
  ∃ parent,
    GreedyPHANTOM._get_bluest ranked (elements (get_parents (B 5 [2; 3; 4]))) = Ok parent ∧
    GreedyPHANTOM.coloring_parent ranked_child !! global_id (B 5 [2; 3; 4]) = Some parent ∧
    (parent = None ↔ get_parents (B 5 [2; 3; 4]) = ∅) ∧
    (∀ p, parent = Some p →
       p ∈ get_parents (B 5 [2; 3; 4]) ∧
       ∃ np, GreedyPHANTOM.blue_blocks_number ranked !! p = Some np ∧
         ∀ q, q ∈ get_parents (B 5 [2; 3; 4]) →
           ∃ nq, GreedyPHANTOM.blue_blocks_number ranked !! q = Some nq ∧
                 (nq < np ∨ (nq = np ∧ p ≤ q))) ∧
    (∀ g, g ≠ global_id (B 5 [2; 3; 4]) →
       GreedyPHANTOM.coloring_parent ranked_child !! g
         = GreedyPHANTOM.coloring_parent ranked !! g ∧
       GreedyPHANTOM.blue_blocks_number ranked_child !! g
         = GreedyPHANTOM.blue_blocks_number ranked !! g).
Proof.
  assert (GreedyPHANTOM.add 20 ranked (B 5 [2; 3; 4]) = Ok ranked_child) as Hadd
    by (by vm_compute).
  split; [exact Hadd|]. split; [by vm_compute|]. split; [by vm_compute|].
  split; [by vm_compute|]. split; [by vm_compute|].
  exact (proj2 (GreedyClaims.C7_coloring_parent_is_bluest_parent 20 ranked (B 5 [2; 3; 4]))
           ranked_child Hadd).
Defined.

Lemma C9_attack_never_both_succeeds_and_fails_witness :
  CompetingChain.did_attack_succeed 30 overtaken
    = Ok (Some true, overtaken_queried.2) ∧
  CompetingChain._first_parallel_block_gid lagging_stopped = None ∧
  (CompetingChain.did_attack_fail overtaken_queried.2
     = CompetingChain.did_attack_fail overtaken ∧
   (tri_truthy (Some true) = true → CompetingChain.did_attack_fail overtaken = false)) ∧
  CompetingChain.did_attack_succeed 30 lagging_stopped = Ok (Some false, lagging_stopped).
Proof.
  assert (CompetingChain.did_attack_succeed 30 overtaken
          = Ok (Some true, overtaken_queried.2)) as Hrun by (by vm_compute).
  assert (CompetingChain._first_parallel_block_gid lagging_stopped = None) as Hfail
    by (by vm_compute).
  split; [exact Hrun|]. split; [exact Hfail|]. split.
  - exact (proj2 (proj2 (CompetingChainClaims.C9_attack_never_both_succeeds_and_fails
                           30 overtaken)) (Some true) overtaken_queried.2 Hrun).
  - exact (proj1 (proj2 (CompetingChainClaims.C9_attack_never_both_succeeds_and_fails
                           30 lagging_stopped)) (or_introl Hfail)).
Defined.


End ClaimsExamples.

